(** * protosort: a shallow embedding of the scan / classify / reorder pipeline

    The development follows the Go sources file by file:
    - [GoStrings], [Utf8], [Regexp]: the parts of Go's [strings], [unicode/utf8],
      [unicode] and [regexp] packages the program calls;
    - [Types] (types.go), [Scanner] (scanner.go), [Refs] (refs.go),
      [RpcSort] (rpcsort.go), [Emitter] (emit.go), [Sorter] (sorter.go, in its
      two variants) and [Verify] (verify.go).

    Go strings are byte strings and are modelled as [string] (a list of
    [ascii], i.e. of bytes).  Go maps are [gmap]s, [*Block] pointers are
    indices into an explicit heap of blocks, and a run-time panic or an
    unbounded recursion is an explicit [outcome]. *)

From Stdlib Require Import String Ascii ZArith Lia Sorted.
From stdpp Require Import gmap strings list fin_maps.

Open Scope string_scope.
Open Scope list_scope.
Open Scope nat_scope.

(** ** Outcomes of a Go function call *)

Inductive outcome (A : Type) : Type :=
| Done (a : A)      (* the call returns [a] *)
| Panic             (* run-time panic (slice bounds out of range) *)
| Diverge.          (* the loop or recursion never returns *)
Arguments Done {A} a.
Arguments Panic {A}.
Arguments Diverge {A}.

Definition obind {A B} (x : outcome A) (f : A → outcome B) : outcome B :=
  match x with
  | Done a => f a
  | Panic => Panic
  | Diverge => Diverge
  end.

#[global] Instance outcome_bind : MBind outcome := fun A B f x => obind x f.
#[global] Instance outcome_ret : MRet outcome := fun A a => Done a.

(** A Go [for cond { body }] loop: [body] either moves to the next state or
    leaves the loop with a result; [fuel] bounds the number of iterations and
    the loop is reported as [Diverge] when it is used up. *)
Inductive step_result (S R : Type) : Type :=
| Next (s : S)
| Stop (r : R).
Arguments Next {S R} s.
Arguments Stop {S R} r.

Fixpoint run_loop {S R} (fuel : nat) (body : S → step_result S (outcome R)) (s : S)
  : outcome R :=
  match fuel with
  | 0 => Diverge
  | S n =>
      match body s with
      | Next s' => run_loop n body s'
      | Stop r => r
      end
  end.

(** ** Go's [strings] package (the functions protosort uses) *)
Module GoStrings.

Definition byte (n : N) : ascii := ascii_of_N n.
Definition code (c : ascii) : N := N_of_ascii c.

Definition LF : ascii := byte 10.
Definition CR : ascii := byte 13.
Definition TAB : ascii := byte 9.
Definition NUL : ascii := byte 0.
Definition nl : string := String LF "".
Definition DQ : ascii := byte 34.   (* the double quote *)
Definition quoted (s : string) : string := String DQ s +:+ String DQ "".

Definition inRange (lo hi : N) (c : ascii) : bool :=
  ((lo <=? code c) && (code c <=? hi))%N.

(** [s[i]] for an index known to be in range, [0] otherwise (callers guard). *)
Definition at_ (s : string) (i : nat) : ascii :=
  match String.get i s with
  | Some c => c
  | None => NUL
  end.

Fixpoint drop (n : nat) (s : string) : string :=
  match n, s with
  | 0, _ => s
  | S n', String _ s' => drop n' s'
  | S _, "" => ""
  end.

Fixpoint take (n : nat) (s : string) : string :=
  match n, s with
  | 0, _ => ""
  | S n', String c s' => String c (take n' s')
  | S _, "" => ""
  end.

(** [s[lo:hi]]; Go panics unless [lo <= hi <= len(s)]. *)
Definition slice (s : string) (lo hi : nat) : outcome string :=
  if (lo <=? hi) && (hi <=? String.length s)
  then Done (take (hi - lo) (drop lo s))
  else Panic.

Definition HasPrefix (s p : string) : bool := String.prefix p s.

Definition HasSuffix (s p : string) : bool :=
  String.prefix (String.rev p) (String.rev s).

Fixpoint Contains (s sub : string) : bool :=
  String.prefix sub s ||
  match s with
  | "" => false
  | String _ s' => Contains s' sub
  end.

Definition containsByte (c : ascii) (cutset : string) : bool :=
  Contains cutset (String c "").

(** [strings.IndexByte]; [None] stands for -1. *)
Fixpoint IndexByte (s : string) (c : ascii) : option nat :=
  match s with
  | "" => None
  | String a s' =>
      if Ascii.eqb a c then Some 0
      else match IndexByte s' c with
           | Some i => Some (S i)
           | None => None
           end
  end.

Fixpoint LastIndexByte (s : string) (c : ascii) : option nat :=
  match s with
  | "" => None
  | String a s' =>
      match LastIndexByte s' c with
      | Some i => Some (S i)
      | None => if Ascii.eqb a c then Some 0 else None
      end
  end.

(** [strings.Split(s, sep)] for a one-byte separator: always at least one
    piece, and one more piece than there are separators. *)
Fixpoint Split (s : string) (sep : ascii) : list string :=
  match s with
  | "" => [""]
  | String c s' =>
      if Ascii.eqb c sep then "" :: Split s' sep
      else match Split s' sep with
           | p :: ps => String c p :: ps
           | [] => [String c ""]
           end
  end.

Fixpoint Join (l : list string) (sep : string) : string :=
  match l with
  | [] => ""
  | [x] => x
  | x :: rest => x +:+ sep +:+ Join rest sep
  end.

(** [strings.Count(s, sub)] for a one-byte [sub]. *)
Fixpoint Count (s : string) (c : ascii) : nat :=
  match s with
  | "" => 0
  | String a s' => (if Ascii.eqb a c then 1 else 0) + Count s' c
  end.

(** [strings.TrimLeft] / [TrimRight] / [Trim] with an ASCII cutset. *)
Fixpoint TrimLeft (s cutset : string) : string :=
  match s with
  | "" => ""
  | String c s' => if containsByte c cutset then TrimLeft s' cutset else s
  end.

Definition TrimRight (s cutset : string) : string :=
  String.rev (TrimLeft (String.rev s) cutset).

Definition Trim (s cutset : string) : string :=
  TrimRight (TrimLeft s cutset) cutset.

(** [strings.TrimSpace] strips the code points with [unicode.IsSpace] from
    both ends: the six ASCII ones and, decoded from UTF-8, U+0085, U+00A0,
    U+1680, U+2000..U+200A, U+2028, U+2029, U+202F, U+205F and U+3000. *)
Definition asciiSpace (c : ascii) : bool :=
  inRange 9 13 c || Ascii.eqb c " ".

Definition bytes (l : list N) : string :=
  string_of_list_ascii (map byte l).

Definition unicodeSpaces : list string :=
  map bytes
    ([ [194; 133]; [194; 160]; [225; 154; 128] ]
     ++ map (fun k => [226; 128; k])
            [128; 129; 130; 131; 132; 133; 134; 135; 136; 137; 138; 168; 169; 175]
     ++ [ [226; 129; 159]; [227; 128; 128] ])%N.

(** Length of the white-space code point [s] starts with, if any. *)
Definition leadingSpace (s : string) : option nat :=
  match s with
  | "" => None
  | String c _ =>
      if asciiSpace c then Some 1
      else match List.find (fun u => String.prefix u s) unicodeSpaces with
           | Some u => Some (String.length u)
           | None => None
           end
  end.

Definition trailingSpace (s : string) : option nat :=
  match String.rev s with
  | "" => None
  | String c _ =>
      if asciiSpace c then Some 1
      else match List.find (fun u => HasSuffix s u) unicodeSpaces with
           | Some u => Some (String.length u)
           | None => None
           end
  end.

Fixpoint trimSpaceLeft (fuel : nat) (s : string) : string :=
  match fuel with
  | 0 => s
  | S n =>
      match leadingSpace s with
      | Some k => trimSpaceLeft n (drop k s)
      | None => s
      end
  end.

Fixpoint trimSpaceRight (fuel : nat) (s : string) : string :=
  match fuel with
  | 0 => s
  | S n =>
      match trailingSpace s with
      | Some k => trimSpaceRight n (take (String.length s - k) s)
      | None => s
      end
  end.

Definition TrimSpace (s : string) : string :=
  let l := trimSpaceLeft (String.length s) s in
  trimSpaceRight (String.length l) l.

(** Byte-wise lexicographic order: Go's [<] on strings. *)
Definition lt (a b : string) : bool := String.ltb a b.

End GoStrings.
Export GoStrings.

(** ** UTF-8 decoding and the Unicode predicates the program calls *)
Module Utf8.

Definition RuneError : N := 65533.   (* U+FFFD, returned for invalid input *)

Definition cont (c : ascii) : bool := inRange 128 191 c.

Definition low (bits : N) (c : ascii) : N := N.land (code c) (N.ones bits).

(** [utf8.DecodeRuneInString]: the first code point of [s] and its width in
    bytes; invalid or truncated input gives [(RuneError, 1)]. *)
Definition DecodeRuneInString (s : string) : N * nat :=
  match s with
  | "" => (RuneError, 0)
  | String b0 t =>
      if (code b0 <? 128)%N then (code b0, 1)
      else
        match t with
        | String b1 t1 =>
            if inRange 194 223 b0 then
              if cont b1 then (N.lor (N.shiftl (low 5 b0) 6) (low 6 b1), 2)
              else (RuneError, 1)
            else
              match t1 with
              | String b2 t2 =>
                  let second3 :=
                    if (code b0 =? 224)%N then inRange 160 191 b1
                    else if (code b0 =? 237)%N then inRange 128 159 b1
                    else inRange 225 239 b0 && cont b1 in
                  if second3 then
                    if cont b2 then
                      (N.lor (N.shiftl (low 4 b0) 12)
                             (N.lor (N.shiftl (low 6 b1) 6) (low 6 b2)), 3)
                    else (RuneError, 1)
                  else
                    match t2 with
                    | String b3 _ =>
                        let second4 :=
                          if (code b0 =? 240)%N then inRange 144 191 b1
                          else if (code b0 =? 244)%N then inRange 128 143 b1
                          else inRange 241 243 b0 && cont b1 in
                        if second4 && cont b2 && cont b3 then
                          (N.lor (N.shiftl (low 3 b0) 18)
                             (N.lor (N.shiftl (low 6 b1) 12)
                                (N.lor (N.shiftl (low 6 b2) 6) (low 6 b3))), 4)
                        else (RuneError, 1)
                    | "" => (RuneError, 1)
                    end
              | "" => (RuneError, 1)
              end
        | "" => (RuneError, 1)
        end
  end.

(** Go's conversion [byte(r)] keeps the low eight bits of the rune. *)
Definition byteOfRune (r : N) : ascii := byte (N.land r 255).

(** [unicode.IsUpper] on the Latin-1 range, which is all a [rune(byte)]
    conversion can produce: A-Z, U+00C0..U+00D6 and U+00D8..U+00DE. *)
Definition IsUpper (c : ascii) : bool :=
  inRange 65 90 c || inRange 192 214 c || inRange 216 222 c.

End Utf8.

(** ** types.go *)
Module Types.

Inductive BlockKind : Set :=
| BlockSyntax | BlockPackage | BlockOption | BlockImport
| BlockMessage | BlockEnum | BlockService | BlockExtend
| BlockComment.   (* freestanding comment not attached to a declaration *)

#[global] Instance BlockKind_eq_dec : EqDecision BlockKind.
Proof. solve_decision. Defined.

Definition BlockKind_String (k : BlockKind) : string :=
  match k with
  | BlockSyntax => "syntax"
  | BlockPackage => "package"
  | BlockOption => "option"
  | BlockImport => "import"
  | BlockMessage => "message"
  | BlockEnum => "enum"
  | BlockService => "service"
  | BlockExtend => "extend"
  | BlockComment => "comment"
  end.

Inductive Section : Set :=
| SectionHeader            (* syntax, package, options, imports *)
| SectionService           (* service declarations *)
| SectionRequestResponse   (* RPC request/response messages *)
| SectionCore              (* types referenced by 2+ declarations *)
| SectionHelper            (* types referenced by exactly 1 declaration *)
| SectionUnreferenced.     (* types referenced by 0 declarations *)

#[global] Instance Section_eq_dec : EqDecision Section.
Proof. solve_decision. Defined.

(** The [iota] values of the sections. *)
Definition Section_iota (s : Section) : nat :=
  match s with
  | SectionHeader => 0 | SectionService => 1 | SectionRequestResponse => 2
  | SectionCore => 3 | SectionHelper => 4 | SectionUnreferenced => 5
  end.

#[global] Instance Section_countable : Countable Section.
Proof.
  refine (inj_countable' Section_iota
            (fun n => match n with
                      | 0 => SectionHeader | 1 => SectionService
                      | 2 => SectionRequestResponse | 3 => SectionCore
                      | 4 => SectionHelper | _ => SectionUnreferenced
                      end) _).
  intros []; reflexivity.
Defined.

Record RPC : Set := mkRPC {
  rpc_Name : string;
  RequestType : string;
  ResponseType : string
}.

Record Block : Set := mkBlock {
  Kind : BlockKind;
  Name : string;       (* name of the declaration *)
  Comments : string;   (* leading/detached comments (may include blank lines) *)
  DeclText : string;   (* the declaration text (from keyword to closing ; or }) *)
  Section_ : Section;
  RPCs : list RPC;     (* extracted from service blocks *)
  Consumer : string    (* the consumer of a helper type *)
}.

(** A [&Block{Kind: k, Name: n, DeclText: d}] literal: the other fields
    take Go's zero values. *)
Definition newBlock (k : BlockKind) (n c d : string) : Block :=
  mkBlock k n c d SectionHeader [] "".

Definition setComments (c : string) (b : Block) : Block :=
  mkBlock (Kind b) (Name b) c (DeclText b) (Section_ b) (RPCs b) (Consumer b).
Definition setDeclText (d : string) (b : Block) : Block :=
  mkBlock (Kind b) (Name b) (Comments b) d (Section_ b) (RPCs b) (Consumer b).
Definition setSection (s : Section) (b : Block) : Block :=
  mkBlock (Kind b) (Name b) (Comments b) (DeclText b) s (RPCs b) (Consumer b).
Definition setRPCs (r : list RPC) (b : Block) : Block :=
  mkBlock (Kind b) (Name b) (Comments b) (DeclText b) (Section_ b) r (Consumer b).
Definition setConsumer (c : string) (b : Block) : Block :=
  mkBlock (Kind b) (Name b) (Comments b) (DeclText b) (Section_ b) (RPCs b) c.

(** The fields of [Options] the sorting pipeline reads; the remaining ones
    (Write, Check, Diff, ...) only drive the command-line front end. *)
Record Options : Set := mkOptions {
  SharedOrder : string;       (* "alpha" or "dependency" *)
  SortRPCs : string;          (* "" (disabled), "alpha", or "grouped" *)
  PreserveDividers : bool;
  StripCommented : bool;
  Quiet : bool;
  Annotate : bool;
  SectionHeaders : bool
}.

(** [Options{}]: every field at its zero value. *)
Definition zeroOptions : Options := mkOptions "" "" false false false false false.

End Types.
Export Types.

(** ** scanner.go *)
Module Scanner.

(** The two [fmt.Errorf] values of the scanner, kept structured: the cursor
    position and the quoted context (or keyword) they are formatted from. *)
Inductive ScanError : Set :=
| ExpectedKeyword (pos : nat) (context : string)
    (* "expected declaration keyword at position %d: %q" *)
| UnknownKeyword (keyword : string) (pos : nat).
    (* "unknown keyword %q at position %d" *)

Definition isIdentChar (c : ascii) : bool :=
  inRange 97 122 c || inRange 65 90 c || inRange 48 57 c || Ascii.eqb c "_".

Definition keywords : list string :=
  ["syntax"; "package"; "import"; "option"; "message"; "enum"; "service"; "extend"].

Section Cursor.
(** [s.content]; the cursor [s.pos] is threaded through explicitly. *)
Variable content : string.

Definition len : nat := String.length content.

Definition atEnd (pos : nat) : bool := len <=? pos.

Definition peek (pos : nat) : ascii :=
  if atEnd pos then NUL else at_ content pos.

Definition peekAt (pos offset : nat) : ascii :=
  let i := pos + offset in
  if len <=? i then NUL else at_ content i.

(** Every loop of the scanner moves the cursor forward while it is not at
    the end, so [S len] iterations are enough. *)
Definition fuel : nat := S len.

Definition skipToEndOfLine (pos : nat) : outcome nat :=
  p ← run_loop fuel
        (fun p => if negb (atEnd p) && negb (Ascii.eqb (peek p) LF)
                  then Next (S p) else Stop (Done p)) pos;
  Done (if negb (atEnd p) then S p (* consume the newline *) else p).

Definition skipBlockComment (pos : nat) : outcome nat :=
  run_loop fuel
    (fun p => if atEnd p then Stop (Done p)
              else if Ascii.eqb (peek p) "*" && Ascii.eqb (peekAt p 1) "/"
                   then Stop (Done (p + 2))
                   else Next (S p))
    (pos + 2) (* skip the comment opener *).

Definition skipString (quote : ascii) (pos : nat) : outcome nat :=
  run_loop fuel
    (fun p => if atEnd p then Stop (Done p)
              else let c := peek p in
                   if Ascii.eqb c "\" then Next (p + 2) (* skip escape sequence *)
                   else if Ascii.eqb c quote then Stop (Done (S p))
                   else Next (S p))
    (S pos) (* skip opening quote *).

Definition isQuote (c : ascii) : bool :=
  Ascii.eqb c DQ || Ascii.eqb c "'".

Definition skipOneToken (pos : nat) : outcome nat :=
  let c := peek pos in
  if isQuote c then skipString c pos
  else if Ascii.eqb c "/" && Ascii.eqb (peekAt pos 1) "/" then skipToEndOfLine pos
  else if Ascii.eqb c "/" && Ascii.eqb (peekAt pos 1) "*" then skipBlockComment pos
  else Done (S pos).

(** Runs a sub-scan inside a loop body and continues from where it ends. *)
Definition continue_with {S R} (r : outcome nat) (k : nat → S)
  : step_result S (outcome R) :=
  match r with
  | Done p => Next (k p)
  | Panic => Stop Panic
  | Diverge => Stop Diverge
  end.

(** Reads until ';' consuming strings and comments. *)
Definition readUntilSemicolon (pos : nat) : outcome nat :=
  run_loop fuel
    (fun p => if atEnd p then Stop (Done p)
              else if Ascii.eqb (peek p) ";" then Stop (Done (S p))
              else continue_with (skipOneToken p) id)
    pos.

(** Reads until ';' at brace depth 0. *)
Definition readUntilSemicolonWithBraces (pos : nat) : outcome nat :=
  run_loop fuel
    (fun '(p, depth) =>
       if atEnd p then Stop (Done p)
       else let c := peek p in
         if isQuote c then continue_with (skipString c p) (fun p' => (p', depth))
         else if Ascii.eqb c "/" && Ascii.eqb (peekAt p 1) "/"
              then continue_with (skipToEndOfLine p) (fun p' => (p', depth))
         else if Ascii.eqb c "/" && Ascii.eqb (peekAt p 1) "*"
              then continue_with (skipBlockComment p) (fun p' => (p', depth))
         else if Ascii.eqb c "{" then Next (S p, depth + 1)%Z
         else if Ascii.eqb c "}" then Next (S p, depth - 1)%Z
         else if Ascii.eqb c ";" && (depth <=? 0)%Z then Stop (Done (S p))
         else Next (S p, depth))
    (pos, 0%Z).

(** Reads a braced declaration until the matching closing brace. *)
Definition readBracedBlock (pos : nat) : outcome nat :=
  run_loop fuel
    (fun '(p, depth) =>
       if atEnd p then Stop (Done p)
       else let c := peek p in
         if isQuote c then continue_with (skipString c p) (fun p' => (p', depth))
         else if Ascii.eqb c "/" && Ascii.eqb (peekAt p 1) "/"
              then continue_with (skipToEndOfLine p) (fun p' => (p', depth))
         else if Ascii.eqb c "/" && Ascii.eqb (peekAt p 1) "*"
              then continue_with (skipBlockComment p) (fun p' => (p', depth))
         else if Ascii.eqb c "{" then Next (S p, depth + 1)%Z
         else if Ascii.eqb c "}" then
                if (depth - 1 =? 0)%Z then Stop (Done (S p))
                else Next (S p, depth - 1)%Z
         else Next (S p, depth))
    (pos, 0%Z).

(** Collects whitespace and comments until a declaration keyword. *)
Definition collectComments (pos : nat) : outcome (string * nat) :=
  run_loop fuel
    (fun '(p, buf) =>
       if atEnd p then Stop (Done (buf, p))
       else let c := peek p in
         if Ascii.eqb c " " || Ascii.eqb c TAB || Ascii.eqb c CR || Ascii.eqb c LF
         then Next (S p, buf +:+ String c "")
         else if Ascii.eqb c "/" &&
                 (Ascii.eqb (peekAt p 1) "/" || Ascii.eqb (peekAt p 1) "*")
         then
           match (if Ascii.eqb (peekAt p 1) "/"
                  then skipToEndOfLine p else skipBlockComment p) with
           | Done p' =>
               match slice content p p' with
               | Done text => Next (p', buf +:+ text)
               | Panic => Stop Panic
               | Diverge => Stop Diverge
               end
           | Panic => Stop Panic
           | Diverge => Stop Diverge
           end
         else Stop (Done (buf, p)))
    (pos, "").

(** Consumes an optional inline comment on the same line as the closing
    ; or }. *)
Definition consumeTrailingComment (pos : nat) : outcome (string * nat) :=
  let start := pos in
  p ← run_loop fuel
        (fun p => if negb (atEnd p) &&
                     (Ascii.eqb (peek p) " " || Ascii.eqb (peek p) TAB)
                  then Next (S p) else Stop (Done p)) pos;
  if negb (atEnd p) && Ascii.eqb (peek p) "/" && Ascii.eqb (peekAt p 1) "/"
  then
    p' ← skipToEndOfLine p;
    text ← slice content start p';
    Done (text, p')
  else Done ("", start).   (* no trailing comment: reset position *)

(** Checks whether the current position starts with a known keyword
    followed by a non-identifier character. *)
Definition matchKeyword (pos : nat) : outcome string :=
  rest ← slice content pos len;
  Done (default ""
          (List.find
             (fun kw => HasPrefix rest kw
                        && (String.length kw <? String.length rest)
                        && negb (isIdentChar (at_ rest (String.length kw))))
             keywords)).

End Cursor.

(** Extracts the name from a declaration's text. *)
Definition extractDeclName (keyword text : string) : string :=
  let rest := drop (String.length keyword) text in
  let rest := TrimLeft rest (" " +:+ String TAB (String CR nl)) in
  if String.eqb keyword "import" then
    let rest :=
      if HasPrefix rest "public " || HasPrefix rest "weak " then
        match IndexByte rest " " with
        | Some idx => TrimLeft (drop idx rest) (String " " (String TAB ""))
        | None => rest
        end
      else rest in
    match rest with
    | String q tail =>
        if isQuote q then
          match IndexByte tail q with
          | Some e => take e tail          (* rest[1 : end+1] *)
          | None => rest
          end
        else rest
    | "" => rest
    end
  else if String.eqb keyword "option" then
    match IndexByte rest "=" with
    | Some eqIdx => TrimSpace (take eqIdx rest)
    | None => rest
    end
  else if String.eqb keyword "syntax" then
    match IndexByte rest "=" with
    | Some eqIdx =>
        let val := TrimSpace (drop (S eqIdx) rest) in
        let val := TrimRight val ";" in
        Trim val (String DQ "' ")
    | None => rest
    end
  else if String.eqb keyword "package" then
    match IndexByte rest ";" with
    | Some semiIdx => TrimSpace (take semiIdx rest)
    | None => TrimSpace rest
    end
  else
    (* message, enum, service, extend: the first identifier, read rune by rune *)
    (fix go (n : nat) (s : string) : string :=
       match n with
       | 0 => ""
       | S n' =>
           match s with
           | "" => ""
           | _ =>
               let '(r, w) := Utf8.DecodeRuneInString s in
               if isIdentChar (Utf8.byteOfRune r) || (r =? 46)%N
               then take w s +:+ go n' (drop w s)
               else ""
           end
       end) (String.length rest) rest.

(** The kind a keyword introduces and the reader of its declaration. *)
Definition keywordKind (keyword : string)
  : option (BlockKind * (string → nat → outcome nat)) :=
  if String.eqb keyword "syntax" then Some (BlockSyntax, readUntilSemicolon)
  else if String.eqb keyword "package" then Some (BlockPackage, readUntilSemicolon)
  else if String.eqb keyword "import" then Some (BlockImport, readUntilSemicolon)
  else if String.eqb keyword "option" then Some (BlockOption, readUntilSemicolonWithBraces)
  else if String.eqb keyword "message" then Some (BlockMessage, readBracedBlock)
  else if String.eqb keyword "enum" then Some (BlockEnum, readBracedBlock)
  else if String.eqb keyword "service" then Some (BlockService, readBracedBlock)
  else if String.eqb keyword "extend" then Some (BlockExtend, readBracedBlock)
  else None.

(** Reads a top-level declaration starting at the current position; returns
    the block or the error, and the new cursor. *)
Definition readDeclaration (content : string) (pos : nat)
  : outcome ((Block + ScanError) * nat) :=
  keyword ← matchKeyword content pos;
  if String.eqb keyword "" then
    let e := pos + 40 in
    let e := if len content <? e then len content else e in
    context ← slice content pos e;
    Done (inr (ExpectedKeyword pos context), pos)
  else
    let start := pos in
    match keywordKind keyword with
    | None => Done (inr (UnknownKeyword keyword pos), pos)
    | Some (kind, read) =>
        p ← read content pos;
        declText ← slice content start p;
        '(trailing, p') ← consumeTrailingComment content p;
        let declText := declText +:+ trailing in
        let name := extractDeclName keyword declText in
        Done (inl (newBlock kind name "" declText), p')
    end.

(** One iteration of the loop of scan, on the state [(pos, blocks)]. *)
Definition scanStep (content : string) (st : nat * list Block)
  : step_result (nat * list Block) (outcome (list Block + ScanError)) :=
  let '(pos, blocks) := st in
  if atEnd content pos then Stop (Done (inl blocks))
  else
    match collectComments content pos with
    | Done (comments, p) =>
        if atEnd content p then
          (* trailing comments/whitespace *)
          Stop (Done (inl (if negb (String.eqb (TrimSpace comments) "")
                           then blocks ++ [newBlock BlockComment "" comments ""]
                           else blocks)))
        else
          match readDeclaration content p with
          | Done (inr err, _) => Stop (Done (inr err))
          | Done (inl block, p') =>
              Next (p', blocks ++ [setComments comments block])
          | Panic => Stop Panic
          | Diverge => Stop Diverge
          end
    | Panic => Stop Panic
    | Diverge => Stop Diverge
    end.

Definition scan (content : string) : outcome (list Block + ScanError) :=
  run_loop (fuel content) (scanStep content) (0, []).

(** Parses a proto file into a sequence of blocks, preserving raw text. *)
Definition ScanFile (content : string) : outcome (list Block + ScanError) :=
  scan content.

End Scanner.
Export Scanner.

(** ** Go's [regexp] package

    A backtracking matcher with Go's leftmost-first semantics: alternatives are
    tried left to right and repetitions are greedy, so the first match found
    at the leftmost starting position is the one [regexp] reports.  The
    character classes of the program's patterns are ASCII sets or complements
    of ASCII sets, so matching byte by byte and rune by rune agree. *)
Module Regexp.

Inductive re : Type :=
| Eps
| Chr (p : ascii → bool)     (* a literal byte or a character class *)
| Cat (r1 r2 : re)
| Alt (r1 r2 : re)           (* r1|r2, r1 preferred *)
| Star (r : re)              (* r*, greedy *)
| Bol (multi : bool)         (* ^, with (?m) also after each newline *)
| Eol (multi : bool)         (* $, with (?m) also before each newline *)
| Grp (n : nat) (r : re).    (* capturing group number n *)

Definition Plus (r : re) : re := Cat r (Star r).
Definition Opt (r : re) : re := Alt r Eps.
Definition Seq (l : list re) : re := foldr Cat Eps l.
Definition Alts (r : re) (l : list re) : re := foldl Alt r l.

Fixpoint Lit (s : string) : re :=
  match s with
  | "" => Eps
  | String c s' => Cat (Chr (Ascii.eqb c)) (Lit s')
  end.

(** r{n,} and r{0,n} *)
Fixpoint AtLeast (n : nat) (r : re) : re :=
  match n with
  | 0 => Star r
  | S n' => Cat r (AtLeast n' r)
  end.
Fixpoint UpTo (n : nat) (r : re) : re :=
  match n with
  | 0 => Eps
  | S n' => Opt (Cat r (UpTo n' r))
  end.

(** \s, \w, \d and the bracket classes of the patterns *)
Definition space (c : ascii) : bool :=
  Ascii.eqb c TAB || Ascii.eqb c LF || Ascii.eqb c (byte 12) || Ascii.eqb c CR
  || Ascii.eqb c " ".
Definition word (c : ascii) : bool :=
  inRange 48 57 c || inRange 65 90 c || Ascii.eqb c "_" || inRange 97 122 c.
Definition digit (c : ascii) : bool := inRange 48 57 c.
Definition wordDot (c : ascii) : bool := word c || Ascii.eqb c ".".
Definition oneOf (set : string) (c : ascii) : bool := containsByte c set.
Definition noneOf (set : string) (c : ascii) : bool := negb (containsByte c set).

Record cursor : Set := mkCursor {
  c_pos : nat;               (* offset in the text *)
  c_prev : option ascii;     (* the byte before the cursor *)
  c_rest : string            (* the text from the cursor on *)
}.

Definition start (s : string) : cursor := mkCursor 0 None s.

Fixpoint advance (n : nat) (c : cursor) : cursor :=
  match n, c_rest c with
  | S n', String a t => advance n' (mkCursor (S (c_pos c)) (Some a) t)
  | _, _ => c
  end.

(** Capture registers: group number, start and end offset. *)
Definition caps : Set := list (nat * (nat * nat)).

Fixpoint run (r : re) (c : cursor) (cs : caps)
         (k : cursor → caps → option (nat * caps)) {struct r}
  : option (nat * caps) :=
  match r with
  | Eps => k c cs
  | Chr p =>
      match c_rest c with
      | String a t => if p a then k (mkCursor (S (c_pos c)) (Some a) t) cs else None
      | "" => None
      end
  | Cat r1 r2 => run r1 c cs (fun c' cs' => run r2 c' cs' k)
  | Alt r1 r2 =>
      match run r1 c cs k with
      | Some m => Some m
      | None => run r2 c cs k
      end
  | Star r1 =>
      (fix iterate (n : nat) (c : cursor) (cs : caps) : option (nat * caps) :=
         match n with
         | 0 => k c cs
         | S n' =>
             match run r1 c cs
                     (fun c' cs' => if c_pos c' =? c_pos c then None
                                    else iterate n' c' cs') with
             | Some m => Some m
             | None => k c cs
             end
         end) (S (String.length (c_rest c))) c cs
  | Bol multi =>
      if (c_pos c =? 0) || (multi && bool_decide (c_prev c = Some LF))
      then k c cs else None
  | Eol multi =>
      match c_rest c with
      | "" => k c cs
      | String a _ => if multi && Ascii.eqb a LF then k c cs else None
      end
  | Grp n r1 =>
      run r1 c cs (fun c' cs' => k c' ((n, (c_pos c, c_pos c')) :: cs'))
  end.

(** A match: start offset, end offset and capture registers. *)
Definition match_ : Set := nat * nat * caps.

Definition match_at (r : re) (c : cursor) : option match_ :=
  match run r c [] (fun c' cs => Some (c_pos c', cs)) with
  | Some (e, cs) => Some (c_pos c, e, cs)
  | None => None
  end.

(** Leftmost match at or after the cursor. *)
Fixpoint search (r : re) (pos : nat) (prev : option ascii) (rest : string)
  : option match_ :=
  match match_at r (mkCursor pos prev rest) with
  | Some m => Some m
  | None =>
      match rest with
      | "" => None
      | String a t => search r (S pos) (Some a) t
      end
  end.

Definition search_from (r : re) (c : cursor) : option match_ :=
  search r (c_pos c) (c_prev c) (c_rest c).

(** [regexp.allMatches]: successive non-overlapping matches; an empty match
    right after the previous match is skipped, and the search moves on by
    one rune after an empty match. *)
Fixpoint allMatches (fuel : nat) (r : re) (c : cursor) (prevMatchEnd : option nat)
  : list match_ :=
  match fuel with
  | 0 => []
  | S f =>
      match search_from r c with
      | None => []
      | Some ((s, e, cs) as m) =>
          if e =? c_pos c then
            let rest :=
              match c_rest c with
              | "" => []
              | _ => allMatches f r
                       (advance (snd (Utf8.DecodeRuneInString (c_rest c))) c)
                       (Some e)
              end in
            if bool_decide (prevMatchEnd = Some s) then rest else m :: rest
          else m :: allMatches f r (advance (e - c_pos c) c) (Some e)
      end
  end.

Definition findAll (r : re) (s : string) : list match_ :=
  allMatches (S (String.length s)) r (start s) None.

(** The text of group [n] of a match ([n = 0]: the whole match); a group
    that did not take part is the empty string. *)
Definition group (s : string) (m : match_) (n : nat) : string :=
  let '(ms, me, cs) := m in
  match n with
  | 0 => take (me - ms) (drop ms s)
  | _ =>
      match List.find (fun '(g, _) => g =? n) cs with
      | Some (_, (gs, ge)) => take (ge - gs) (drop gs s)
      | None => ""
      end
  end.

Definition submatch (ngroups : nat) (s : string) (m : match_) : list string :=
  map (group s m) (seq 0 (S ngroups)).

Definition MatchString (r : re) (s : string) : bool :=
  bool_decide (is_Some (search_from r (start s))).

Definition FindStringSubmatch (r : re) (ngroups : nat) (s : string)
  : option (list string) :=
  submatch ngroups s <$> search_from r (start s).

Definition FindAllStringSubmatch (r : re) (ngroups : nat) (s : string)
  : list (list string) :=
  map (submatch ngroups s) (findAll r s).

(** [ReplaceAllString(src, repl)] for a replacement without [$] references. *)
Fixpoint replaceAll (fuel : nat) (r : re) (src repl : string)
         (c : cursor) (lastMatchEnd : nat) : string :=
  match fuel with
  | 0 => drop lastMatchEnd src
  | S f =>
      match search_from r c with
      | None => drop lastMatchEnd src
      | Some (a0, a1, _) =>
          let unmatched := take (a0 - lastMatchEnd) (drop lastMatchEnd src) in
          let inserted :=
            if (lastMatchEnd <? a1) || (a0 =? 0) then repl else "" in
          let width := match c_rest c with
                       | "" => 0
                       | _ => snd (Utf8.DecodeRuneInString (c_rest c))
                       end in
          let next :=
            if a1 <? c_pos c + width then Some (advance width c)
            else if a1 <? c_pos c + 1 then None   (* searchPos runs past the end *)
            else Some (advance (a1 - c_pos c) c) in
          unmatched +:+ inserted +:+
          match next with
          | Some c' => replaceAll f r src repl c' a1
          | None => drop a1 src
          end
      end
  end.

Definition ReplaceAllString (r : re) (src repl : string) : string :=
  replaceAll (S (String.length src)) r src repl (start src) 0.

End Regexp.

(** ** refs.go *)
Module Refs.
Import Regexp.

Definition sp : re := Chr space.
Definition w : re := Chr word.
Definition wd : re := Chr wordDot.
Definition stream_ : re := Opt (Seq [Lit "stream"; Plus sp]).

(** rpcRe =
    "rpc\s+(\w+)\s*\(\s*(?:stream\s+)?([\w.]+)\s*\)\s*returns\s*\(\s*(?:stream\s+)?([\w.]+)\s*\)" *)
Definition rpcRe : re :=
  Seq [Lit "rpc"; Plus sp; Grp 1 (Plus w); Star sp; Lit "("; Star sp; stream_;
       Grp 2 (Plus wd); Star sp; Lit ")"; Star sp; Lit "returns"; Star sp;
       Lit "("; Star sp; stream_; Grp 3 (Plus wd); Star sp; Lit ")"].

(** "\s+\w+\s*=\s*\d+": the field name and number after a type *)
Definition fieldTail : list re :=
  [Plus sp; Plus w; Star sp; Lit "="; Star sp; Plus (Chr digit)].

(** fieldRe = "(?m)^\s*(?:repeated\s+|optional\s+)?([\w.]+)\s+\w+\s*=\s*\d+" *)
Definition fieldRe : re :=
  Seq ([Bol true; Star sp;
        Opt (Alt (Seq [Lit "repeated"; Plus sp]) (Seq [Lit "optional"; Plus sp]));
        Grp 1 (Plus wd)] ++ fieldTail).

(** mapFieldRe = "map\s*<\s*[\w.]+\s*,\s*([\w.]+)\s*>\s*\w+\s*=\s*\d+" *)
Definition mapFieldRe : re :=
  Seq [Lit "map"; Star sp; Lit "<"; Star sp; Plus wd; Star sp; Lit ","; Star sp;
       Grp 1 (Plus wd); Star sp; Lit ">"; Star sp; Plus w; Star sp; Lit "=";
       Star sp; Plus (Chr digit)].

(** oneofRe = "(?s)oneof\s+\w+\s*\{(G)\}" where the group G is "[^}]*" *)
Definition oneofRe : re :=
  Seq [Lit "oneof"; Plus sp; Plus w; Star sp; Lit "{";
       Grp 1 (Star (Chr (noneOf "}"))); Lit "}"].

(** oneofVariantRe = "(?m)^\s*([\w.]+)\s+\w+\s*=\s*\d+" *)
Definition oneofVariantRe : re :=
  Seq ([Bol true; Star sp; Grp 1 (Plus wd)] ++ fieldTail).

(** [m[i]] of a submatch. *)
Definition sub (m : list string) (i : nat) : string := default "" (m !! i).

(** Parses RPC declarations from a service block's DeclText. *)
Definition ExtractRPCs (block : Block) : list RPC :=
  if bool_decide (Kind block ≠ BlockService) then []
  else map (fun m => mkRPC (sub m 1) (sub m 2) (sub m 3))
           (FindAllStringSubmatch rpcRe 3 (DeclText block)).

(** The text between the first { and last } in a declaration. *)
Definition extractBody (declText : string) : string :=
  match IndexByte declText "{", LastIndexByte declText "}" with
  | Some start, Some e =>
      if e <=? start then "" else take (e - (start + 1)) (drop (start + 1) declText)
  | _, _ => ""
  end.

(** True for proto3 built-in scalar types. *)
Definition isScalarType (name : string) : bool :=
  bool_decide (name ∈ ["double"; "float";
                       "int32"; "int64"; "uint32"; "uint64"; "sint32"; "sint64";
                       "fixed32"; "fixed64"; "sfixed32"; "sfixed64";
                       "bool"; "string"; "bytes"]).

(** The closure [addType] of ExtractFieldTypes, on its state [(seen, types)]. *)
Definition addType (st : gset string * list string) (t : string)
  : gset string * list string :=
  let '(seen, types) := st in
  (* Package-qualified names (containing dots) are imported types: skip them. *)
  if Contains t "." then st
  else if negb (String.eqb t "") && negb (isScalarType t) && bool_decide (t ∉ seen)
       then ({[t]} ∪ seen, types ++ [t])
       else st.

(** Type names referenced by fields in a message or extend block, each at
    most once per block. *)
Definition ExtractFieldTypes (block : Block) : list string :=
  if bool_decide (Kind block ≠ BlockMessage) && bool_decide (Kind block ≠ BlockExtend)
  then []
  else
    let body := extractBody (DeclText block) in
    let st : gset string * list string := (∅, []) in
    (* regular fields: [repeated|optional] TypeName field_name = N; *)
    let st := foldl (fun st m => addType st (sub m 1)) st
                (FindAllStringSubmatch fieldRe 1 body) in
    (* map fields: map<KeyType, ValueType> field_name = N; *)
    let st := foldl (fun st m => addType st (sub m 1)) st
                (FindAllStringSubmatch mapFieldRe 1 body) in
    (* oneof variant types *)
    let st := foldl (fun st m =>
                       let oneofBody := sub m 1 in
                       foldl (fun st v => addType st (sub v 1)) st
                         (FindAllStringSubmatch oneofVariantRe 1 oneofBody))
                st (FindAllStringSubmatch oneofRe 1 body) in
    st.2.

(** Names of all types defined in the file.  Extend blocks don't define
    types; they extend external types. *)
Definition definedTypes (blocks : list Block) : gset string :=
  foldl (fun defined b =>
           if (bool_decide (Kind b = BlockMessage) || bool_decide (Kind b = BlockEnum))
              && negb (String.eqb (Name b) "")
           then {[Name b]} ∪ defined else defined)
    ∅ blocks.

(** The [switch b.Kind] of the graph builders: the references a block
    makes, [None] where the loop [continue]s. *)
Definition refsOf (b : Block) : option (list string) :=
  match Kind b with
  | BlockMessage | BlockExtend => Some (ExtractFieldTypes b)
  | BlockService =>
      Some (flat_map (fun rpc => [RequestType rpc; ResponseType rpc]) (ExtractRPCs b))
  | _ => None
  end.

(** Reading a Go map: the zero value for a missing key. *)
Definition count (counts : gmap string nat) (k : string) : nat :=
  default 0 (counts !! k).
Definition usesOf (uses : gmap string (gset string)) (k : string) : gset string :=
  default ∅ (uses !! k).

(** One reference of the declaration named [name]: state
    [(seen, (counts, uses))]. *)
Definition countRef (defined : gset string) (name : string)
           (st : gset string * (gmap string nat * gmap string (gset string)))
           (ref : string)
  : gset string * (gmap string nat * gmap string (gset string)) :=
  let '(seen, (counts, uses)) := st in
  (* skip self-references *)
  if String.eqb ref name then (seen, (counts, uses))
  else if bool_decide (ref ∈ defined) && bool_decide (ref ∉ seen) then
    ({[ref]} ∪ seen,
     (<[ref := S (count counts ref)]> counts,
      if negb (String.eqb name "")
      then <[name := {[ref]} ∪ usesOf uses name]> uses
      else uses))
  else (seen, (counts, uses)).

(** One declaration of the counting loop: state [(counts, uses)]. *)
Definition countBlock (defined : gset string)
           (st : gmap string nat * gmap string (gset string)) (b : Block)
  : gmap string nat * gmap string (gset string) :=
  match refsOf b with
  | None => st
  | Some refs =>
      (* deduplicate refs from this declaration *)
      (foldl (countRef defined (Name b)) ((∅ : gset string), st) refs).2
  end.

(** [a] and [b] reference each other: ensure both are "core". *)
Definition boost (uses : gmap string (gset string))
           (counts : gmap string nat) (ab : string * string) : gmap string nat :=
  let '(a, b) := ab in
  if bool_decide (a ∈ usesOf uses b) then
    let counts := if count counts a <? 2 then <[a := 2]> counts else counts in
    if count counts b <? 2 then <[b := 2]> counts else counts
  else counts.

(** The pairs [(a, b)] with [b] in [uses[a]], as the two nested [range]
    loops visit them (Go leaves the order unspecified; the result does not
    depend on it). *)
Definition usePairs (uses : gmap string (gset string)) : list (string * string) :=
  flat_map (fun '(a, aRefs) => map (fun b => (a, b)) (elements aRefs))
           (map_to_list uses).

(** Counts how many distinct declarations reference each type name. *)
Definition BuildRefCounts (blocks : list Block) : gmap string nat :=
  let defined := definedTypes blocks in
  let '(counts, uses) := foldl (countBlock defined) (∅, ∅) blocks in
  (* detect circular references and boost counts to >= 2 *)
  foldl (boost uses) counts (usePairs uses).

(** Maps each type name to the declarations that reference it. *)
Definition BuildRefGraph (blocks : list Block) : gmap string (list string) :=
  let defined := definedTypes blocks in
  foldl (fun graph b =>
           if String.eqb (Name b) "" then graph
           else
             match refsOf b with
             | None => graph
             | Some refs =>
                 (foldl (fun '(seen, graph) ref =>
                           if String.eqb ref (Name b) then (seen, graph)
                           else if bool_decide (ref ∈ defined) && bool_decide (ref ∉ seen)
                           then ({[ref]} ∪ seen,
                                 <[ref := default [] (graph !! ref) ++ [Name b]]> graph)
                           else (seen, graph))
                    ((∅ : gset string), graph) refs).2
             end)
    ∅ blocks.

End Refs.
Export Refs.

(** ** Go's [sort] package: [sort.SliceStable] is an insertion of each
    element before the first one that is not smaller.  [sort.Slice] gives the
    same result whenever no two elements compare equal; for equal elements Go
    leaves their order unspecified and the model keeps the stable one. *)
Module GoSort.

Section Sorting.
Context {A : Type} (less : A → A → bool).

Fixpoint insert (x : A) (l : list A) : list A :=
  match l with
  | [] => [x]
  | y :: l' => if less y x then y :: insert x l' else x :: l
  end.

Definition SliceStable (l : list A) : list A := foldr insert [] l.
Definition Slice (l : list A) : list A := SliceStable l.
End Sorting.

(** [sort.Strings] *)
Definition Strings (l : list string) : list string := Slice GoStrings.lt l.

End GoSort.

(** ** rpcsort.go *)
Module RpcSort.
Import Regexp.

(** A single RPC declaration within a service body. *)
Record rpcEntry : Set := mkEntry {
  e_Comments : string;   (* leading comment lines *)
  e_RPCText : string;    (* the rpc line(s) including option body *)
  e_Name : string        (* extracted RPC method name *)
}.

(** rpcLineRe = "^\s*rpc\s+(\w+)\s*\(" *)
Definition rpcLineRe : re :=
  Seq [Bol false; Star (Chr space); Lit "rpc"; Plus (Chr space);
       Grp 1 (Plus (Chr word)); Star (Chr space); Lit "("].

(** Known verb prefixes for RPC grouping. *)
Definition rpcVerbPrefixes : list string :=
  ["BatchCreate"; "BatchDelete"; "BatchGet"; "BatchUpdate";
   "Create"; "Delete"; "Get"; "List"; "Update";
   "Watch"; "Stream"; "Search";
   "Set"; "Add"; "Remove";
   "Start"; "Stop"; "Run"; "Check"; "Cancel"].

(** The test of the loop of rpcGroupKey for one prefix. *)
Definition stripsPrefix (name prefix : string) : bool :=
  HasPrefix name prefix
  && (String.length prefix <? String.length name)
  && Utf8.IsUpper (at_ name (String.length prefix)).

(** Strips a known verb prefix from an RPC name to derive the resource name
    for grouping. *)
Definition rpcGroupKey (name : string) : string :=
  match List.find (stripsPrefix name) rpcVerbPrefixes with
  | Some prefix => drop (String.length prefix) name
  | None => name
  end.

(** The state of the line loop of parseRPCEntries. *)
Record parseState : Set := mkParse {
  entries : list rpcEntry;
  nonRPCLines : list string;
  commentBuf : string;
  rpcBuf : string;
  currentName : string;
  inRPC : bool;
  braceDepth : Z
}.

Definition braceDelta (line : string) : Z :=
  (Z.of_nat (Count line "{") - Z.of_nat (Count line "}"))%Z.

(** Appends the RPC under construction and resets the buffers. *)
Definition finishEntry (st : parseState) (buf : string) : parseState :=
  mkParse (entries st ++ [mkEntry (commentBuf st) buf (currentName st)])
          (nonRPCLines st) "" "" (currentName st) false 0.

Definition parseLine (st : parseState) (line : string) : parseState :=
  let trimmed := TrimSpace line in
  if inRPC st then
    let buf := rpcBuf st +:+ line +:+ nl in
    let depth := (braceDepth st + braceDelta line)%Z in
    if (depth <=? 0)%Z && (Contains trimmed ";" || Contains trimmed "}")
    then finishEntry st buf
    else mkParse (entries st) (nonRPCLines st) (commentBuf st) buf
                 (currentName st) true depth
  else
    match FindStringSubmatch rpcLineRe 1 line with
    | Some m =>
        (* RPC start *)
        let name := sub m 1 in
        let depth := braceDelta line in
        let buf := rpcBuf st +:+ line +:+ nl in
        let st' := mkParse (entries st) (nonRPCLines st) (commentBuf st) buf
                           name true depth in
        (* complete on one line (ends with ; at depth 0) *)
        if (depth <=? 0)%Z && Contains trimmed ";" then finishEntry st' buf
        else st'
    | None =>
        if HasPrefix trimmed "//" || HasPrefix trimmed "/*" then
          (* comment line (attach to next RPC) *)
          mkParse (entries st) (nonRPCLines st) (commentBuf st +:+ line +:+ nl)
                  (rpcBuf st) (currentName st) (inRPC st) (braceDepth st)
        else if String.eqb trimmed "" then
          (* blank line: kept inside a pending comment block *)
          if 0 <? String.length (commentBuf st) then
            mkParse (entries st) (nonRPCLines st) (commentBuf st +:+ line +:+ nl)
                    (rpcBuf st) (currentName st) (inRPC st) (braceDepth st)
          else st
        else
          (* non-RPC, non-comment line (e.g. a service-level option):
             pending comments are flushed as non-RPC content too *)
          let flushed :=
            if 0 <? String.length (commentBuf st)
            then Split (TrimRight (commentBuf st) nl) LF else [] in
          mkParse (entries st) (nonRPCLines st ++ flushed ++ [line]) ""
                  (rpcBuf st) (currentName st) (inRPC st) (braceDepth st)
    end.

(** Parses the body of a service block into RPC entries and non-RPC lines. *)
Definition parseRPCEntries (body : string) : list rpcEntry * list string :=
  let st := foldl parseLine (mkParse [] [] "" "" "" false 0) (Split body LF) in
  (* a trailing incomplete RPC is added as it is *)
  let es := if inRPC st && (0 <? String.length (rpcBuf st))
            then entries st ++ [mkEntry (commentBuf st) (rpcBuf st) (currentName st)]
            else entries st in
  (es, nonRPCLines st).

Definition lessAlpha (a b : rpcEntry) : bool := GoStrings.lt (e_Name a) (e_Name b).

Definition lessGrouped (a b : rpcEntry) : bool :=
  let gi := rpcGroupKey (e_Name a) in
  let gj := rpcGroupKey (e_Name b) in
  if negb (String.eqb gi gj) then GoStrings.lt gi gj
  else GoStrings.lt (e_Name a) (e_Name b).

(** The [switch mode] of SortRPCsInService; [None] is its default case. *)
Definition sortEntries (mode : string) (es : list rpcEntry) : option (list rpcEntry) :=
  if String.eqb mode "alpha" then Some (GoSort.SliceStable lessAlpha es)
  else if String.eqb mode "grouped" then Some (GoSort.SliceStable lessGrouped es)
  else None.

(** The rebuilt body: a newline after the opening brace, the non-RPC lines,
    then the RPCs with their comments. *)
Definition rebuildBody (nonRPC : list string) (es : list rpcEntry) : string :=
  nl +:+ String.concat "" (map (fun line => line +:+ nl) nonRPC)
     +:+ String.concat "" (map (fun e => e_Comments e +:+ e_RPCText e) es).

(** Reorders RPC declarations within a service block's DeclText. *)
Definition SortRPCsInService (declText mode : string) : string :=
  match IndexByte declText "{", LastIndexByte declText "}" with
  | Some openIdx, Some closeIdx =>
      if closeIdx <=? openIdx then declText
      else
        let header := take (openIdx + 1) declText in
        let body := take (closeIdx - (openIdx + 1)) (drop (openIdx + 1) declText) in
        let trailer := drop closeIdx declText in
        let '(es, nonRPC) := parseRPCEntries body in
        if length es <=? 1 then declText
        else
          match sortEntries mode es with
          | Some sorted => header +:+ rebuildBody nonRPC sorted +:+ trailer
          | None => declText
          end
  | _, _ => declText
  end.

End RpcSort.
Export RpcSort.

(** ** emit.go *)
Module Emitter.

Definition blank (line : string) : bool := String.eqb (TrimSpace line) "".

Fixpoint dropBlank (lines : list string) : list string :=
  match lines with
  | [] => []
  | l :: rest => if blank l then dropBlank rest else lines
  end.

(** Removes leading/trailing blank lines from a comment block while
    preserving internal blank lines (paragraph separators). *)
Definition cleanComments (s : string) : string :=
  if String.eqb s "" then ""
  else
    let lines := Split s LF in
    (* lines[start:end]: without the leading, then the trailing blank lines *)
    let kept := rev (dropBlank (rev (dropBlank lines))) in
    match kept with
    | [] => ""
    | _ => Join kept nl
    end.

(** [out.WriteString(text)] followed by a newline unless [text] ends in one. *)
Definition withNewline (text : string) : string :=
  if HasSuffix text nl then text else text +:+ nl.

(** What writeBlockWithComments appends to the builder. *)
Definition writeBlockWithComments (b : Block) : string :=
  let comments := cleanComments (Comments b) in
  (if negb (String.eqb comments "") then withNewline comments else "")
  +:+ withNewline (DeclText b).

(** The imports loop, with its separator before all but the first. *)
Fixpoint writeImports (first : bool) (imports : list Block) : string :=
  match imports with
  | [] => ""
  | imp :: rest =>
      (if first then "" else nl) +:+ writeBlockWithComments imp
      +:+ writeImports false rest
  end.

(** Produces the final reordered file content from sorted blocks. *)
Definition Emit (headerComments : string) (syntax pkg : option Block)
           (options imports extends body : list Block) : string :=
  let headerComments := cleanComments headerComments in
  let out := if negb (String.eqb headerComments "")
             then withNewline headerComments else "" in
  let out := out +:+ match syntax with
                     | Some s => withNewline (DeclText s)
                     | None => ""
                     end in
  let out := out +:+ match pkg with
                     | Some p => nl +:+ writeBlockWithComments p
                     | None => ""
                     end in
  let out := out +:+ String.concat ""
                       (map (fun opt => nl +:+ writeBlockWithComments opt) options) in
  let out := out +:+ String.concat ""
                       (map (fun ext => nl +:+ writeBlockWithComments ext) extends) in
  let out := out +:+ (if 0 <? length imports
                      then nl +:+ writeImports true imports else "") in
  let out := out +:+ String.concat ""
                       (map (fun b => nl +:+ writeBlockWithComments b) body) in
  (* ensure the file ends with a single newline *)
  TrimRight out nl +:+ nl.

End Emitter.
Export Emitter.

(** ** sorter.go: comment processing *)
Module CommentRules.
Import Regexp.

Definition sp : re := Chr space.
Definition w : re := Chr word.

(** codeLineRe: "^\s*//\s*(A)" where A is one of
    "(message|enum|service|extend)\s+\w+", "rpc\s+\w+\s*\(",
    "(import|option|package|syntax)\s+", "(repeated|optional)\s+\w+\s+\w+\s*=",
    "\w+\s+\w+\s*=\s*\d+", "[{}();]", "returns\s*\(" *)
Definition codeLineRe : re :=
  Seq [Bol false; Star sp; Lit "//"; Star sp;
       Alts (Seq [Alts (Lit "message") [Lit "enum"; Lit "service"; Lit "extend"];
                  Plus sp; Plus w])
         [Seq [Lit "rpc"; Plus sp; Plus w; Star sp; Lit "("];
          Seq [Alts (Lit "import") [Lit "option"; Lit "package"; Lit "syntax"]; Plus sp];
          Seq [Alt (Lit "repeated") (Lit "optional"); Plus sp; Plus w; Plus sp; Plus w;
               Star sp; Lit "="];
          Seq [Plus w; Plus sp; Plus w; Star sp; Lit "="; Star sp; Plus (Chr digit)];
          Chr (oneOf "{}();");
          Seq [Lit "returns"; Star sp; Lit "("]]].

(** Checks if every line in a comment block looks like commented-out proto
    code rather than prose. *)
Definition isCommentedOutCode (lines : list string) : bool :=
  match lines with
  | [] => false
  | _ => forallb (fun line => String.eqb (TrimSpace line) "//"
                              || MatchString codeLineRe line) lines
  end.

Definition isCommentLine (line : string) : bool := HasPrefix (TrimSpace line) "//".

(** The maximal run of // comment lines at the head of [lines], and the rest. *)
Fixpoint commentRun (lines : list string) : list string * list string :=
  match lines with
  | l :: rest =>
      if isCommentLine l
      then let '(run, rest') := commentRun rest in (l :: run, rest')
      else ([], lines)
  | [] => ([], [])
  end.

Fixpoint stripCommentedLines (fuel : nat) (lines : list string) : list string :=
  match fuel, lines with
  | S n, l :: rest =>
      if negb (isCommentLine l)
      then l :: stripCommentedLines n rest      (* not a comment line: keep it *)
      else
        let '(block, rest') := commentRun lines in
        if isCommentedOutCode block
        then stripCommentedLines n rest'        (* drop this block *)
        else block ++ stripCommentedLines n rest'
  | _, _ => []
  end.

(** Removes comment blocks that consist entirely of commented-out protobuf
    declarations. *)
Definition stripCommentedCode (comments : string) : string :=
  let lines := Split comments LF in
  Join (stripCommentedLines (length lines) lines) nl.

(** Applies --strip-commented-code to block comments. *)
Definition processComments (opts : Options) (b : Block) : Block :=
  if String.eqb (Comments b) "" then b
  else if StripCommented opts then setComments (stripCommentedCode (Comments b)) b
  else b.

Definition dividerSym : re := Chr (oneOf "=-*#").
Definition words : re := Seq [Plus w; Star sp].

(** dividerBothSidesRe = "^//\s*[=\-*#]{3,}\s*(W){0,3}[=\-*#]{3,}\s*$",
    where W is "\w+\s*" *)
Definition dividerBothSidesRe : re :=
  Seq [Bol false; Lit "//"; Star sp; AtLeast 3 dividerSym; Star sp; UpTo 3 words;
       AtLeast 3 dividerSym; Star sp; Eol false].

(** dividerOneSideRe = "^//\s*[=\-*#]{3,}\s+(W){1,3}$" *)
Definition dividerOneSideRe : re :=
  Seq [Bol false; Lit "//"; Star sp; AtLeast 3 dividerSym; Plus sp;
       words; UpTo 2 words; Eol false].

(** Checks if a comment looks like a section divider. *)
Definition isSectionDivider (comment : string) : bool :=
  let trimmed := TrimSpace comment in
  MatchString dividerBothSidesRe trimmed || MatchString dividerOneSideRe trimmed.

(** Removes lines that look like section dividers from a comment block. *)
Definition stripDividerComments (comments : string) : string :=
  if String.eqb comments "" then ""
  else Join (List.filter (fun line => negb (isSectionDivider line))
               (Split comments LF)) nl.

(** Checks if a comment block contains any section divider lines. *)
Definition containsDivider (comments : string) : bool :=
  existsb isSectionDivider (Split comments LF).

(** annotationRe = "(?m)^//\s*\((A)\)?[^\n]*$" where A is one of
    "core: referenced by ", "helper: used only by ", "request/response",
    "unreferenced" *)
Definition annotationRe : re :=
  Seq [Bol true; Lit "//"; Star sp; Lit "(";
       Alts (Lit "core: referenced by ")
         [Lit "helper: used only by "; Lit "request/response"; Lit "unreferenced"];
       Opt (Lit ")"); Star (Chr (noneOf nl)); Eol true].

(** Removes previously-injected annotation lines from a comment block. *)
Definition stripAnnotations (comments : string) : string :=
  if String.eqb comments "" then ""
  else Join (List.filter (fun line => negb (MatchString annotationRe (TrimSpace line)))
               (Split comments LF)) nl.

(** The repeated line used in section headers: "// " and 76 "=". *)
Definition sectionHeaderBanner : string :=
  "// ============================================================================".

(** A 3-line section header comment block for the given label. *)
Definition sectionHeaderComment (label : string) : string :=
  sectionHeaderBanner +:+ nl +:+ "// " +:+ label +:+ nl +:+ sectionHeaderBanner +:+ nl.

(** The optional description of a header label:
    "(?: (?:\([^)]+\)|--[^\n]+))?" *)
Definition description : re :=
  Opt (Seq [Lit " ";
            Alt (Seq [Lit "("; Plus (Chr (noneOf ")")); Lit ")"])
                (Seq [Lit "--"; Plus (Chr (noneOf nl))])]).

(** sectionHeaderRe: "(?m)^", the banner, a newline, "// ", one of the known
    labels (Services, Types for \w+, Shared Types, Core Types, Unreferenced
    Types, Composite Types, Helper Types and Standalone Types with an
    optional description, Types unused by RPCs), a newline, the banner and
    a newline. *)
Definition sectionHeaderRe : re :=
  Seq [Bol true; Lit sectionHeaderBanner; Lit nl; Lit "// ";
       Alts (Lit "Services")
         [Seq [Lit "Types for "; Plus w];
          Lit "Shared Types"; Lit "Core Types"; Lit "Unreferenced Types";
          Seq [Lit "Composite Types"; description];
          Seq [Lit "Helper Types"; description];
          Seq [Lit "Standalone Types"; description];
          Lit "Types unused by RPCs"];
       Lit nl; Lit sectionHeaderBanner; Lit nl].

(** Removes injected section header blocks from a comment string. *)
Definition stripSectionHeaders (comments : string) : string :=
  if String.eqb comments "" then ""
  else ReplaceAllString sectionHeaderRe comments "".

(** Checks if the file content declares proto2 syntax: the first line that
    starts with "syntax" decides. *)
Definition isProto2 (content : string) : bool :=
  match List.find (fun line => HasPrefix (TrimSpace line) "syntax") (Split content LF) with
  | Some line => Contains (TrimSpace line) (quoted "proto2")
  | None => false
  end.

End CommentRules.
Export CommentRules.

(** ** sorter.go: the parts shared by the two variants of [Sort] *)
Module Sorter.

(** Proto2Error and ParseError (errors.go). *)
Inductive SortError : Set :=
| Proto2Error
| ParseError (err : ScanError).

(** "warning: %s %q is unreferenced in this file", by its two arguments. *)
Inductive Warning : Set :=
| WarnUnreferenced (kind : BlockKind) (name : string).

(** [*Block] values are indices into a heap of blocks, so that a block
    reached through several slices and maps is one mutable object. *)
Definition ptr : Set := nat.
Definition heap : Set := list Block.

Definition deref (h : heap) (p : ptr) : Block :=
  default (newBlock BlockSyntax "" "" "") (h !! p).

(** [p.field = v] *)
Definition store (f : Block → Block) (h : heap) (p : ptr) : heap := alter f p h.

Definition nameOf (h : heap) (p : ptr) : string := Name (deref h p).
Definition kindOf (h : heap) (p : ptr) : BlockKind := Kind (deref h p).

(** [for _, b := range blocks { mutate b }] *)
Definition forEach (f : Block → Block) (h : heap) (blocks : list ptr) : heap :=
  foldl (store f) h blocks.

(** [sort.Slice(blocks, func(i, j) { return blocks[i].Name < blocks[j].Name })] *)
Definition sortByName (h : heap) (blocks : list ptr) : list ptr :=
  GoSort.Slice (fun p q => GoStrings.lt (nameOf h p) (nameOf h q)) blocks.

Definition names (h : heap) (blocks : list ptr) : gset string :=
  list_to_set (map (nameOf h) blocks).

(** Prepends freestanding divider comment blocks to the following
    declaration's Comments. *)
Definition attachDividerComments (h : heap) (blocks : list ptr) : heap * list ptr :=
  let '(h, result, pending) :=
    foldl (fun '(h, result, pending) p =>
             let b := deref h p in
             if bool_decide (Kind b = BlockComment) && containsDivider (Comments b) then
               (* accumulate divider comment text for the next declaration *)
               (h, result,
                (if negb (String.eqb pending "") then pending +:+ nl else pending)
                +:+ TrimSpace (Comments b))
             else if negb (String.eqb pending "") then
               (store (fun b => setComments
                                  (if negb (String.eqb (Comments b) "")
                                   then pending +:+ nl +:+ Comments b
                                   else pending +:+ nl) b) h p,
                result ++ [p], "")
             else (h, result ++ [p], pending))
      (h, [], "") blocks in
  (* a trailing divider with no following declaration is a comment block *)
  if negb (String.eqb pending "")
  then (h ++ [newBlock BlockComment "" pending ""], result ++ [length h])
  else (h, result).

(** The header/body separation loop of Sort. *)
Record layout : Set := mkLayout {
  headerComments : string;
  syntaxBlock : option ptr;
  packageBlock : option ptr;
  optionBlocks : list ptr;
  importBlocks : list ptr;
  extendBlocks : list ptr;
  bodyBlocks : list ptr
}.

Definition separate (h : heap) (blocks : list ptr) : layout :=
  foldl (fun l p =>
           let b := deref h p in
           match Kind b with
           | BlockSyntax =>
               mkLayout (Comments b) (Some p) (packageBlock l) (optionBlocks l)
                        (importBlocks l) (extendBlocks l) (bodyBlocks l)
           | BlockPackage =>
               mkLayout (headerComments l) (syntaxBlock l) (Some p) (optionBlocks l)
                        (importBlocks l) (extendBlocks l) (bodyBlocks l)
           | BlockOption =>
               mkLayout (headerComments l) (syntaxBlock l) (packageBlock l)
                        (optionBlocks l ++ [p]) (importBlocks l) (extendBlocks l)
                        (bodyBlocks l)
           | BlockImport =>
               mkLayout (headerComments l) (syntaxBlock l) (packageBlock l)
                        (optionBlocks l) (importBlocks l ++ [p]) (extendBlocks l)
                        (bodyBlocks l)
           | BlockExtend =>
               mkLayout (headerComments l) (syntaxBlock l) (packageBlock l)
                        (optionBlocks l) (importBlocks l) (extendBlocks l ++ [p])
                        (bodyBlocks l)
           | BlockMessage | BlockEnum | BlockService =>
               mkLayout (headerComments l) (syntaxBlock l) (packageBlock l)
                        (optionBlocks l) (importBlocks l) (extendBlocks l)
                        (bodyBlocks l ++ [p])
           | BlockComment => l   (* freestanding comments are dropped *)
           end)
    (mkLayout "" None None [] [] [] []) blocks.

(** The request and response types of the RPCs of the given services, in
    declaration order. *)
Definition rpcTypeNames (h : heap) (svcBlocks : list ptr) : list string :=
  flat_map (fun svc => flat_map (fun rpc => [RequestType rpc; ResponseType rpc])
                         (RPCs (deref h svc)))
           svcBlocks.

(** Separates service blocks and their RPC request/response messages from
    the rest. *)
Definition classifyServiceAndRPC (h : heap) (blocks : list ptr)
  : list ptr * list ptr * list ptr :=
  let blockMap : gmap string ptr :=
    foldl (fun m p => if negb (String.eqb (nameOf h p) "")
                      then <[nameOf h p := p]> m else m) ∅ blocks in
  let svcBlocks :=
    List.filter (fun p => bool_decide (kindOf h p = BlockService)) blocks in
  if length svcBlocks =? 0 then ([], [], blocks)
  else
    let '(rpcMsgNames, rpcMsgs, emitted) :=
      foldl (fun '(rpcMsgNames, rpcMsgs, emitted) typeName =>
               match blockMap !! typeName with
               | Some b =>
                   if bool_decide (typeName ∉ emitted)
                   then ({[typeName]} ∪ rpcMsgNames, rpcMsgs ++ [b],
                         {[typeName]} ∪ emitted)
                   else (rpcMsgNames, rpcMsgs, emitted)
               | None => (rpcMsgNames, rpcMsgs, emitted)
               end)
        ((∅ : gset string), [], (∅ : gset string)) (rpcTypeNames h svcBlocks) in
    let rest :=
      List.filter (fun p => bool_decide (kindOf h p ≠ BlockService)
                            && bool_decide (nameOf h p ∉ rpcMsgNames)) blocks in
    (svcBlocks, rpcMsgs, rest).

(** The references of a block where the [switch] has no default case. *)
Definition blockRefs (b : Block) : list string := default [] (refsOf b).

Definition zget (m : gmap string Z) (k : string) : Z := default 0%Z (m !! k).

(** Orders core blocks so that referenced types appear before referencing
    types (Kahn's algorithm), with alphabetical tie-breaking. *)
Definition topoSortBlocks (h : heap) (coreBlocks allBlocks : list ptr)
  : outcome (list ptr) :=
  if length coreBlocks <=? 1 then Done coreBlocks
  else
    let coreSet := names h coreBlocks in
    let coreMap : gmap string ptr :=
      foldl (fun m p => <[nameOf h p := p]> m) ∅ coreBlocks in
    let inDegree : gmap string Z :=
      foldl (fun m p => <[nameOf h p := 0%Z]> m) ∅ coreBlocks in
    let '(inDegree, dependents) :=
      foldl (fun '(inDegree, dependents) p =>
               let b := deref h p in
               if bool_decide (Name b ∉ coreSet) then (inDegree, dependents)
               else
                 (foldl (fun '(seen, (inDegree, dependents)) ref =>
                           if String.eqb ref (Name b) then (seen, (inDegree, dependents))
                           else if bool_decide (ref ∈ coreSet) && bool_decide (ref ∉ seen)
                           then ({[ref]} ∪ seen,
                                 (<[Name b := (zget inDegree (Name b) + 1)%Z]> inDegree,
                                  <[ref := default [] (dependents !! ref) ++ [Name b]]>
                                    dependents))
                           else (seen, (inDegree, dependents)))
                    ((∅ : gset string), (inDegree, dependents)) (blockRefs b)).2)
        (inDegree, (∅ : gmap string (list string))) allBlocks in
    let queue :=
      GoSort.Strings
        (map (nameOf h)
           (List.filter (fun p => (zget inDegree (nameOf h p) =? 0)%Z) coreBlocks)) in
    result ← run_loop (2 * length coreBlocks + 1)
               (fun '(queue, inDegree, result) =>
                  match queue with
                  | [] => Stop (Done result)
                  | name :: queue =>
                      (* pop the alphabetically smallest *)
                      match coreMap !! name with
                      | None => Stop Panic
                      | Some p =>
                          let '(queue, inDegree) :=
                            foldl (fun '(queue, inDegree) dep =>
                                     let d := (zget inDegree dep - 1)%Z in
                                     let inDegree := <[dep := d]> inDegree in
                                     if (d =? 0)%Z
                                     then (GoSort.Strings (queue ++ [dep]), inDegree)
                                     else (queue, inDegree))
                              (queue, inDegree) (default [] (dependents !! name)) in
                          Next (queue, inDegree, result ++ [p])
                      end
                  end)
               (queue, inDegree, []);
    (* nodes kept back by cycles are added alphabetically *)
    if length result <? length coreBlocks then
      let emitted := names h result in
      let remaining :=
        List.filter (fun p => bool_decide (nameOf h p ∉ emitted)) coreBlocks in
      Done (result ++ sortByName h remaining)
    else Done result.

(** The helper map: consumer -> its helpers, each list sorted by name. *)
Definition buildHelperMap (h : heap) (helperBlocks : list ptr) : gmap string (list ptr) :=
  sortByName h <$>
    foldl (fun m p => <[Consumer (deref h p) := default [] (m !! Consumer (deref h p)) ++ [p]]> m)
      (∅ : gmap string (list ptr)) helperBlocks.

(** The final ordered list under construction and the names emitted. *)
Definition emission : Set := list ptr * gset string.

(** The closure emitWithHelpers; [depth] bounds the recursion, which does
    not end when the helper map has a cycle through blocks not yet emitted. *)
Fixpoint emitWithHelpers (depth : nat) (h : heap) (helperMap : gmap string (list ptr))
         (b : ptr) (st : emission) : outcome emission :=
  match depth with
  | 0 => Diverge
  | S d =>
      if bool_decide (nameOf h b ∈ st.2) then Done st
      else
        (* emit helpers for this block first *)
        st' ← foldl (fun acc hp => st ← acc; emitWithHelpers d h helperMap hp st)
                (Done st) (default [] (helperMap !! nameOf h b));
        Done (st'.1 ++ [b], {[nameOf h b]} ∪ st'.2)
  end.

(** [if !emitted[b.Name] { emitted[b.Name] = true; ordered = append(ordered, b) }] *)
Definition emitOnce (h : heap) (st : emission) (b : ptr) : emission :=
  if bool_decide (nameOf h b ∈ st.2) then st
  else (st.1 ++ [b], {[nameOf h b]} ∪ st.2).

(** Injects classification annotations into block Comments. *)
Definition annotation (refGraph : gmap string (list string)) (b : Block) : option string :=
  match Section_ b with
  | SectionRequestResponse => Some "// (request/response)"
  | SectionCore =>
      Some ("// (core: referenced by "
            +:+ Join (GoSort.Strings (default [] (refGraph !! Name b))) ", " +:+ ")")
  | SectionHelper => Some ("// (helper: used only by " +:+ Consumer b +:+ ")")
  | SectionUnreferenced => Some "// (unreferenced)"
  | _ => None
  end.

Definition annotateBlock (refGraph : gmap string (list string)) (b : Block) : Block :=
  if bool_decide (Kind b ≠ BlockMessage) && bool_decide (Kind b ≠ BlockEnum) then b
  else
    match annotation refGraph b with
    | None => b
    | Some a =>
        (* strip any existing annotations first (idempotency) *)
        let comments := stripAnnotations (Comments b) in
        let comments := TrimRight comments (nl +:+ String " " (String TAB "")) in
        setComments (if negb (String.eqb comments "")
                     then comments +:+ nl +:+ a +:+ nl
                     else a +:+ nl) b
    end.

Definition annotateBlocks (h : heap) (blocks : list ptr)
           (refGraph : gmap string (list string)) : heap :=
  forEach (annotateBlock refGraph) h blocks.

(** The call to Emit that ends Sort, with the pointers dereferenced. *)
Definition emitLayout (h : heap) (l : layout) (options imports ordered : list ptr)
  : string :=
  Emit (headerComments l) (deref h <$> syntaxBlock l) (deref h <$> packageBlock l)
       (map (deref h) options) (map (deref h) imports)
       (map (deref h) (extendBlocks l)) (map (deref h) ordered).

End Sorter.
Export Sorter.

(** ** sorter.go, section headers *)
Module Headers.

(** Maps a message name to the first RPC that uses it. *)
Definition buildMessageToRPCMap (h : heap) (serviceBlocks : list ptr)
  : gmap string string :=
  foldl (fun m svc =>
           foldl (fun m rpc =>
                    foldl (fun m typeName =>
                             match m !! typeName with
                             | Some _ => m
                             | None => <[typeName := rpc_Name rpc]> m
                             end)
                      m [RequestType rpc; ResponseType rpc])
             m (RPCs (deref h svc)))
    ∅ serviceBlocks.

(** The closure findUltimateConsumer: the root of a helper chain.  The
    recursion does not end on a chain that comes back to itself. *)
Fixpoint findUltimateConsumer (depth : nat) (h : heap) (blockMap : gmap string ptr)
         (name : string) : outcome string :=
  match depth with
  | 0 => Diverge
  | S d =>
      match blockMap !! name with
      | Some b =>
          if bool_decide (Section_ (deref h b) = SectionHelper)
          then findUltimateConsumer d h blockMap (Consumer (deref h b))
          else Done name
      | None => Done name
      end
  end.

Definition sget (m : gmap string string) (k : string) : string := default "" (m !! k).

(** The section a block is filed under: helpers are reclassified by their
    ultimate consumer. *)
Definition effectiveSection (hasServices : bool) (msgToRPC : gmap string string)
           (blockMap : gmap string ptr) (depth : nat) (h : heap) (b : Block)
  : outcome Section :=
  if bool_decide (Section_ b = SectionHelper) then
    if hasServices then
      (* service files: a helper of an RPC message stays in the RPC section *)
      Done (if negb (String.eqb (Consumer b) "")
               && bool_decide (is_Some (msgToRPC !! Consumer b))
            then SectionRequestResponse else SectionHelper)
    else
      (* non-service files: check if the ultimate consumer is standalone *)
      ultimateConsumer ← findUltimateConsumer depth h blockMap (Name b);
      Done (match blockMap !! ultimateConsumer with
            | Some u => if bool_decide (Section_ (deref h u) = SectionUnreferenced)
                        then SectionUnreferenced else SectionHelper
            | None => SectionHelper
            end)
  else Done (Section_ b).

(** The header to insert before a block of the given section, and the RPC
    groups that have got theirs. *)
Definition headerFor (hasServices : bool) (msgToRPC : gmap string string)
           (emittedSections : gset Section) (emittedRPCs : gset string)
           (section : Section) (b : Block) : string * gset string :=
  match section with
  | SectionRequestResponse =>
      let rpcName := sget msgToRPC (Name b) in
      let rpcName := if String.eqb rpcName ""
                     then sget msgToRPC (Consumer b) else rpcName in
      if negb (String.eqb rpcName "") && bool_decide (rpcName ∉ emittedRPCs)
      then (sectionHeaderComment ("Types for " +:+ rpcName), {[rpcName]} ∪ emittedRPCs)
      else ("", emittedRPCs)
  | SectionCore =>
      (if bool_decide (SectionCore ∉ emittedSections)
       then sectionHeaderComment "Composite Types -- using other types"
       else "", emittedRPCs)
  | SectionHelper =>
      (if bool_decide (SectionHelper ∉ emittedSections)
       then sectionHeaderComment "Helper Types -- used in other types"
       else "", emittedRPCs)
  | SectionUnreferenced =>
      (if bool_decide (SectionUnreferenced ∉ emittedSections)
       then if hasServices
            then sectionHeaderComment "Types unused by RPCs"
            else sectionHeaderComment
                   "Standalone Types -- not referenced elsewhere in this file"
       else "", emittedRPCs)
  | _ => ("", emittedRPCs)   (* no header for a service *)
  end.

(** Walks the ordered block list and prepends section header comments when
    the section or RPC owner changes. *)
Definition injectSectionHeaders (h : heap) (ordered serviceBlocks : list ptr)
  : outcome heap :=
  if length ordered =? 0 then Done h
  else
    let hasServices := 0 <? length serviceBlocks in
    let msgToRPC : gmap string string :=
      if hasServices then buildMessageToRPCMap h serviceBlocks else ∅ in
    let blockMap : gmap string ptr :=
      foldl (fun m p => <[nameOf h p := p]> m) ∅ ordered in
    st ← foldl
      (fun (acc : outcome (heap * gset Section * gset string)) p =>
         '(h, emittedSections, emittedRPCs) ← acc;
         let b := deref h p in
         section ← effectiveSection hasServices msgToRPC blockMap
                     (S (length ordered)) h b;
         let '(header, emittedRPCs) :=
           headerFor hasServices msgToRPC emittedSections emittedRPCs section b in
         let emittedSections := {[section]} ∪ emittedSections in
         (* leading blank lines of the existing comments are trimmed *)
         let h := if negb (String.eqb header "")
                  then store (fun b => setComments
                                         (header +:+ TrimLeft (Comments b) nl) b) h p
                  else h in
         Done (h, emittedSections, emittedRPCs))
      (Done (h, ∅, ∅)) ordered;
    Done (st.1.1).

End Headers.
Export Headers.

(** ** Sort, variant "incoming count" (the sorter without section headers):
    a type is core with two or more references, a helper with one. *)
Module Legacy.

(** The body of Sort between the scan and the call to Emit: the heap of
    blocks, the header layout, the sorted options and imports, the ordered
    body and the warnings. *)
Definition arrange (scannedBlocks : list Block) (opts : Options)
  : outcome (heap * layout * list ptr * list ptr * list ptr * list Warning) :=
          let h : heap := scannedBlocks in
          let blocks := seq 0 (length scannedBlocks) in
          let '(h, blocks) := if PreserveDividers opts
                              then attachDividerComments h blocks else (h, blocks) in
          (* process comments on all blocks *)
          let h := forEach (fun b =>
                              let b := processComments opts b in
                              if negb (PreserveDividers opts)
                              then setComments (stripDividerComments (Comments b)) b
                              else b) h blocks in
          (* sort RPCs within services if requested *)
          let h := if negb (String.eqb (SortRPCs opts) "")
                   then forEach (fun b =>
                                   if bool_decide (Kind b = BlockService)
                                   then setDeclText
                                          (SortRPCsInService (DeclText b) (SortRPCs opts)) b
                                   else b) h blocks
                   else h in
          (* populate RPC info on service blocks *)
          let h := forEach (fun b => if bool_decide (Kind b = BlockService)
                                     then setRPCs (ExtractRPCs b) b else b) h blocks in
          (* separate header blocks from body blocks *)
          let l := separate h blocks in
          let options := sortByName h (optionBlocks l) in
          let imports := sortByName h (importBlocks l) in
          (* build reference counts and graph *)
          let refCounts := BuildRefCounts (map (deref h) (bodyBlocks l)) in
          let refGraph := BuildRefGraph (map (deref h) (bodyBlocks l)) in
          (* classify body blocks *)
          let '(serviceBlocks, rpcMessages, remainingBlocks) :=
            classifyServiceAndRPC h (bodyBlocks l) in
          let rpcMsgNames := names h rpcMessages in
          let svcNames := names h serviceBlocks in
          let '(h, coreBlocks, helperBlocks, unrefBlocks, warnings) :=
            foldl (fun '(h, coreBlocks, helperBlocks, unrefBlocks, warnings) p =>
                     let b := deref h p in
                     if bool_decide (Name b ∈ svcNames) || bool_decide (Name b ∈ rpcMsgNames)
                     then (h, coreBlocks, helperBlocks, unrefBlocks, warnings)
                     else
                       let n := count refCounts (Name b) in
                       if 2 <=? n then
                         (store (setSection SectionCore) h p,
                          coreBlocks ++ [p], helperBlocks, unrefBlocks, warnings)
                       else if n =? 1 then
                         (* find the single consumer *)
                         let h := store (setSection SectionHelper) h p in
                         let h := match refGraph !! Name b with
                                  | Some [consumer] => store (setConsumer consumer) h p
                                  | _ => h
                                  end in
                         (h, coreBlocks, helperBlocks ++ [p], unrefBlocks, warnings)
                       else
                         (store (setSection SectionUnreferenced) h p,
                          coreBlocks, helperBlocks, unrefBlocks ++ [p],
                          if negb (Quiet opts)
                          then warnings ++ [WarnUnreferenced (Kind b) (Name b)]
                          else warnings))
              (h, [], [], [], []) remainingBlocks in
          (* sort core types *)
          coreBlocks ← (if String.eqb (SharedOrder opts) "dependency"
                        then topoSortBlocks h coreBlocks (bodyBlocks l)
                        else Done (sortByName h coreBlocks));
          (* sort unreferenced types alphabetically *)
          let unrefBlocks := sortByName h unrefBlocks in
          let helperMap := buildHelperMap h helperBlocks in
          let depth := S (length h) in
          (* services and request/response pairs *)
          let '(h, st) :=
            foldl (fun '(h, st) svc =>
                     (store (setSection SectionService) h svc,
                      (st.1 ++ [svc], {[nameOf h svc]} ∪ st.2)))
              (h, (([], ∅) : emission)) serviceBlocks in
          '(h, st) ←
            foldl (fun acc msg =>
                     '(h, st) ← acc;
                     let h := store (setSection SectionRequestResponse) h msg in
                     st ← emitWithHelpers depth h helperMap msg st;
                     Done (h, st))
              (Done (h, st)) rpcMessages;
          (* core types with helpers *)
          st ← foldl (fun acc core => st ← acc; emitWithHelpers depth h helperMap core st)
                 (Done st) coreBlocks;
          (* unreferenced types *)
          st ← foldl (fun acc unref => st ← acc; emitWithHelpers depth h helperMap unref st)
                 (Done st) unrefBlocks;
          (* any remaining helpers that weren't placed *)
          let st := foldl (emitOnce h) st helperBlocks in
          let ordered := st.1 in
          (* inject classification annotations if requested *)
          let h := if Annotate opts then annotateBlocks h ordered refGraph else h in
          Done (h, l, options, imports, ordered, warnings).

(** Sort takes proto file content and returns the reordered content. *)
Definition Sort (content : string) (opts : Options)
  : outcome (string * list Warning * option SortError) :=
  (* check for proto2 *)
  if isProto2 content then Done ("", [], Some Proto2Error)
  else
    scanned ← ScanFile content;
    match scanned with
    | inr err => Done ("", [], Some (ParseError err))
    | inl blocks =>
        if length blocks =? 0 then Done (content, [], None)
        else
          '(h, l, options, imports, ordered, warnings) ← arrange blocks opts;
          (* build the output *)
          Done (emitLayout h l options imports ordered, warnings, None)
    end.

End Legacy.

(** ** Sort, variant "outgoing references" (the sorter with section headers):
    a type that references local types is composite, one that is only
    referenced is a helper. *)
Module Refined.

(** The body of Sort between the scan and the call to Emit: the heap of
    blocks, the header layout, the sorted options and imports, the ordered
    body and the warnings (declared, and never appended to). *)
Definition arrange (scannedBlocks : list Block) (opts : Options)
  : outcome (heap * layout * list ptr * list ptr * list ptr * list Warning) :=
          let warnings : list Warning := [] in
          let h : heap := scannedBlocks in
          let blocks := seq 0 (length scannedBlocks) in
          let '(h, blocks) := if PreserveDividers opts
                              then attachDividerComments h blocks else (h, blocks) in
          (* process comments on all blocks *)
          let h := forEach (fun b =>
                              let b := setComments (stripSectionHeaders (Comments b)) b in
                              let b := processComments opts b in
                              if negb (PreserveDividers opts)
                              then setComments (stripDividerComments (Comments b)) b
                              else b) h blocks in
          (* sort RPCs within services if requested *)
          let h := if negb (String.eqb (SortRPCs opts) "")
                   then forEach (fun b =>
                                   if bool_decide (Kind b = BlockService)
                                   then setDeclText
                                          (SortRPCsInService (DeclText b) (SortRPCs opts)) b
                                   else b) h blocks
                   else h in
          (* populate RPC info on service blocks *)
          let h := forEach (fun b => if bool_decide (Kind b = BlockService)
                                     then setRPCs (ExtractRPCs b) b else b) h blocks in
          (* separate header blocks from body blocks *)
          let l := separate h blocks in
          let options := sortByName h (optionBlocks l) in
          let imports := sortByName h (importBlocks l) in
          (* build reference counts and graph *)
          let refCounts := BuildRefCounts (map (deref h) (bodyBlocks l)) in
          let refGraph := BuildRefGraph (map (deref h) (bodyBlocks l)) in
          (* classify body blocks *)
          let '(serviceBlocks, rpcMessages, remainingBlocks) :=
            classifyServiceAndRPC h (bodyBlocks l) in
          let rpcMsgNames := names h rpcMessages in
          let svcNames := names h serviceBlocks in
          (* outgoing references: what local types does each type reference? *)
          let defined : gset string :=
            names h (List.filter (fun p => bool_decide (kindOf h p = BlockMessage)
                                           || bool_decide (kindOf h p = BlockEnum))
                       (bodyBlocks l)) in
          let outgoingRefs : gmap string (list string) :=
            foldl (fun m p =>
                     let b := deref h p in
                     let refs := match Kind b with
                                 | BlockMessage | BlockExtend => ExtractFieldTypes b
                                 | _ => []
                                 end in
                     let localRefs :=
                       List.filter (fun ref => bool_decide (ref ∈ defined)
                                               && negb (String.eqb ref (Name b))) refs in
                     if 0 <? length localRefs then <[Name b := localRefs]> m else m)
              ∅ (bodyBlocks l) in
          let '(h, coreBlocks, helperBlocks, unrefBlocks) :=
            foldl (fun '(h, coreBlocks, helperBlocks, unrefBlocks) p =>
                     let b := deref h p in
                     if bool_decide (Name b ∈ svcNames) || bool_decide (Name b ∈ rpcMsgNames)
                     then (h, coreBlocks, helperBlocks, unrefBlocks)
                     else
                       let hasOutgoingRefs :=
                         0 <? length (default [] (outgoingRefs !! Name b)) in
                       let incomingRefCount := count refCounts (Name b) in
                       if hasOutgoingRefs then
                         (* composite: references other local types *)
                         (store (setSection SectionCore) h p,
                          coreBlocks ++ [p], helperBlocks, unrefBlocks)
                       else if 0 <? incomingRefCount then
                         (* helper: referenced by others *)
                         let h := store (setSection SectionHelper) h p in
                         let h := match refGraph !! Name b with
                                  | Some (consumer :: _) => store (setConsumer consumer) h p
                                  | _ => h
                                  end in
                         (h, coreBlocks, helperBlocks ++ [p], unrefBlocks)
                       else
                         (* standalone *)
                         (store (setSection SectionUnreferenced) h p,
                          coreBlocks, helperBlocks, unrefBlocks ++ [p]))
              (h, [], [], []) remainingBlocks in
          (* sort core types *)
          coreBlocks ← (if String.eqb (SharedOrder opts) "dependency"
                        then topoSortBlocks h coreBlocks (bodyBlocks l)
                        else Done (sortByName h coreBlocks));
          (* sort unreferenced types alphabetically *)
          let unrefBlocks := sortByName h unrefBlocks in
          let helperMap := buildHelperMap h helperBlocks in
          let depth := S (length h) in
          (* services and request/response pairs *)
          let '(h, st) :=
            foldl (fun '(h, st) svc =>
                     (store (setSection SectionService) h svc,
                      (st.1 ++ [svc], {[nameOf h svc]} ∪ st.2)))
              (h, (([], ∅) : emission)) serviceBlocks in
          '(h, st) ←
            foldl (fun acc msg =>
                     '(h, st) ← acc;
                     let h := store (setSection SectionRequestResponse) h msg in
                     st ← emitWithHelpers depth h helperMap msg st;
                     Done (h, st))
              (Done (h, st)) rpcMessages;
          (* standalone types, composite types, then all helper types *)
          let st := foldl (emitOnce h) st unrefBlocks in
          let st := foldl (emitOnce h) st coreBlocks in
          let st := foldl (emitOnce h) st helperBlocks in
          let ordered := st.1 in
          (* inject classification annotations if requested *)
          let h := if Annotate opts then annotateBlocks h ordered refGraph else h in
          (* inject section headers if requested (stripping was done earlier) *)
          h ← (if SectionHeaders opts
               then injectSectionHeaders h ordered serviceBlocks else Done h);
          Done (h, l, options, imports, ordered, warnings).

(** Sort takes proto file content and returns the reordered content. *)
Definition Sort (content : string) (opts : Options)
  : outcome (string * list Warning * option SortError) :=
  (* check for proto2 *)
  if isProto2 content then Done ("", [], Some Proto2Error)
  else
    scanned ← ScanFile content;
    match scanned with
    | inr err => Done ("", [], Some (ParseError err))
    | inl blocks =>
        if length blocks =? 0 then Done (content, [], None)
        else
          '(h, l, options, imports, ordered, warnings) ← arrange blocks opts;
          (* build the output *)
          Done (emitLayout h l options imports ordered, warnings, None)
    end.

End Refined.

(** ** verify.go: the content-integrity check *)
Module Verify.

(** The [fmt.Errorf] values of verifyContentIntegrity, by their arguments. *)
Inductive IntegrityError : Set :=
| ScanningOriginal (err : ScanError)      (* "scanning original: %w" *)
| ScanningSorted (err : ScanError)        (* "scanning sorted output: %w" *)
| CountMismatch (original sorted : nat)   (* "declaration count mismatch: ..." *)
| Missing (key : string)                  (* "declaration %q missing from sorted output" *)
| BodyDiffers (key : string)              (* "declaration %q body differs after sorting" *)
| Unexpected (key : string).              (* "unexpected declaration %q in sorted output" *)

Definition declKey (b : Block) : string :=
  BlockKind_String (Kind b) +:+ ":" +:+ Name b.

(** A map from declaration key to body text; the key includes the kind to
    distinguish messages from enums with the same name. *)
Definition extractDeclarations (blocks : list Block) : gmap string string :=
  foldl (fun decls b =>
           match Kind b with
           | BlockMessage | BlockEnum | BlockService | BlockExtend =>
               <[declKey b := extractBody (DeclText b)]> decls
           | BlockSyntax | BlockPackage | BlockOption | BlockImport =>
               <[declKey b := DeclText b]> decls
           | BlockComment => decls
           end)
    ∅ blocks.

(** The first loop: each declaration of the original, by name. *)
Definition checkOriginal (sortedDecls : gmap string string) (entry : string * string)
  : option IntegrityError :=
  let '(name, origBody) := entry in
  match sortedDecls !! name with
  | None => Some (Missing name)
  | Some sortedBody =>
      if negb (String.eqb origBody sortedBody) then Some (BodyDiffers name) else None
  end.

(** The second loop: declarations only the sorted text has. *)
Definition checkSorted (origDecls : gmap string string) (entry : string * string)
  : option IntegrityError :=
  match origDecls !! entry.1 with
  | None => Some (Unexpected entry.1)
  | Some _ => None
  end.

(** The first error a [range] loop returns.  Go visits a map in an
    unspecified order; the model visits it in the order of [map_to_list],
    which only decides which of several errors is reported. *)
Fixpoint firstError {A} (check : A → option IntegrityError) (l : list A)
  : option IntegrityError :=
  match l with
  | [] => None
  | x :: rest =>
      match check x with
      | Some e => Some e
      | None => firstError check rest
      end
  end.

(** Checks that the set of declarations (by name and body content) is
    identical before and after reordering. *)
Definition verifyContentIntegrity (original sorted : string)
  : outcome (option IntegrityError) :=
  o ← ScanFile original;
  match o with
  | inr err => Done (Some (ScanningOriginal err))
  | inl origBlocks =>
      s ← ScanFile sorted;
      match s with
      | inr err => Done (Some (ScanningSorted err))
      | inl sortedBlocks =>
          let origDecls := extractDeclarations origBlocks in
          let sortedDecls := extractDeclarations sortedBlocks in
          if negb (size origDecls =? size sortedDecls)
          then Done (Some (CountMismatch (size origDecls) (size sortedDecls)))
          else
            match firstError (checkOriginal sortedDecls) (map_to_list origDecls) with
            | Some e => Done (Some e)
            | None => Done (firstError (checkSorted origDecls) (map_to_list sortedDecls))
            end
      end
  end.

End Verify.
Export Verify.

(** ** verify.go, the unified diff: DiffStrings, lcsDiff and buildHunks *)
Module Diff.

Inductive editOp : Set := editEqual | editDelete | editInsert.

#[global] Instance editOp_eq_dec : EqDecision editOp.
Proof. solve_decision. Defined.

(** One step of the edit script; an index that does not apply is [-1]. *)
Record edit : Set := mkEdit {
  op : editOp;
  line : string;
  idxA : Z;
  idxB : Z
}.

(** [l[i]]; Go panics when the index is out of range. *)
Definition index {A} (l : list A) (i : nat) : outcome A :=
  match l !! i with
  | Some x => Done x
  | None => Panic
  end.

(** [dp[i][j]] *)
Definition cell (dp : list (list nat)) (i j : nat) : outcome nat :=
  row ← index dp i; index row j.

(** [dp[i][j] = v] *)
Definition setCell (dp : list (list nat)) (i j v : nat) : outcome (list (list nat)) :=
  row ← index dp i;
  if j <? length row then Done (<[i := <[j := v]> row]> dp) else Panic.

(** A [for] loop over a fixed range, with a body that may panic. *)
Definition forM {S A} (l : list A) (body : S → A → outcome S) (s : S) : outcome S :=
  foldl (fun acc x => s ← acc; body s x) (Done s) l.

(** A loop body computed with calls that may panic. *)
Definition stepM {S R} (r : outcome S) : step_result S (outcome R) :=
  match r with
  | Done s => Next s
  | Panic => Stop Panic
  | Diverge => Stop Diverge
  end.

(** The LCS table: [dp[i][j]] for the first [i] lines of [a] and the first
    [j] lines of [b]. *)
Definition lcsTable (a b : list string) : outcome (list (list nat)) :=
  let n := length a in
  let m := length b in
  let dp := replicate (n + 1) (replicate (m + 1) 0) in
  forM (seq 1 n)
       (fun dp i =>
          forM (seq 1 m)
               (fun dp j =>
                  ai ← index a (i - 1);
                  bj ← index b (j - 1);
                  if String.eqb ai bj then
                    v ← cell dp (i - 1) (j - 1);
                    setCell dp i j (v + 1)
                  else
                    up ← cell dp (i - 1) j;
                    left ← cell dp i (j - 1);
                    if left <=? up then setCell dp i j up
                    else setCell dp i j left)
               dp)
       dp.

(** [i > 0 && j > 0 && a[i-1] == b[j-1]] *)
Definition sameLine (a b : list string) (i j : nat) : outcome bool :=
  if (0 <? i) && (0 <? j)
  then ai ← index a (i - 1);
       bj ← index b (j - 1);
       Done (String.eqb ai bj)
  else Done false.

(** [j > 0 && (i == 0 || dp[i][j-1] >= dp[i-1][j])] *)
Definition insertNext (dp : list (list nat)) (i j : nat) : outcome bool :=
  if 0 <? j then
    if i =? 0 then Done true
    else left ← cell dp i (j - 1);
         up ← cell dp (i - 1) j;
         Done (up <=? left)
  else Done false.

(** One iteration of the backtracking loop, on the state [(i, j, edits)]. *)
Definition backtrackStep (a b : list string) (dp : list (list nat))
           (st : nat * nat * list edit) : outcome (nat * nat * list edit) :=
  let '(i, j, edits) := st in
  same ← sameLine a b i j;
  if (same : bool) then
    let i := i - 1 in
    let j := j - 1 in
    ai ← index a i;
    Done (i, j, edits ++ [mkEdit editEqual ai (Z.of_nat i) (Z.of_nat j)])
  else
    ins ← insertNext dp i j;
    if (ins : bool) then
      let j := j - 1 in
      bj ← index b j;
      Done (i, j, edits ++ [mkEdit editInsert bj (-1)%Z (Z.of_nat j)])
    else
      (* i--; a[i] panics for a negative i *)
      ai ← (if 0 <? i then index a (i - 1) else Panic);
      Done (i - 1, j, edits ++ [mkEdit editDelete ai (Z.of_nat (i - 1)) (-1)%Z]).

(** The backtracking loop; the script is built backwards. *)
Definition backtrack (a b : list string) (dp : list (list nat)) : outcome (list edit) :=
  run_loop (S (length a + length b))
    (fun st : nat * nat * list edit =>
       if (0 <? st.1.1) || (0 <? st.1.2)
       then stepM (backtrackStep a b dp st)
       else Stop (Done st.2))
    (length a, length b, []).

(** Computes a diff edit script using the LCS algorithm. *)
Definition lcsDiff (a b : list string) : outcome (list edit) :=
  dp ← lcsTable a b;
  edits ← backtrack a b dp;
  (* reverse (built backwards) *)
  Done (rev edits).

Record hunk : Set := mkHunk {
  origStart : nat;
  origCount : nat;
  newStart : nat;
  newCount : nat;
  lines : list string
}.

Definition isChange (edits : list edit) (i : nat) : outcome bool :=
  e ← index edits i; Done (negb (bool_decide (op e = editEqual))).

(** The spans [(start, end)] of the maximal runs of edits that are not
    equalities. *)
Definition changeSpans (edits : list edit) : outcome (list (nat * nat)) :=
  run_loop (S (length edits))
    (fun '(i, changes) =>
       if i <? length edits then
         stepM
           (c ← isChange edits i;
            if (c : bool) then
              let start := i in
              i ← run_loop (S (length edits))
                    (fun i => if i <? length edits
                              then match isChange edits i with
                                   | Done true => Next (S i)
                                   | Done false => Stop (Done i)
                                   | Panic => Stop Panic
                                   | Diverge => Stop Diverge
                                   end
                              else Stop (Done i))
                    i;
              Done (i, changes ++ [(start, i)])
            else Done (S i, changes))
       else Stop (Done changes))
    (0, []).

(** Groups of nearby spans: a span joins the last group when the gap to
    the span before it is at most [2 * ctx]. *)
Definition groupSpans (changes : list (nat * nat)) (ctx : nat)
  : outcome (list (list (nat * nat))) :=
  first ← index changes 0;
  forM (seq 1 (length changes - 1))
       (fun groups i =>
          cur ← index changes i;
          prev ← index changes (i - 1);
          let gap := (Z.of_nat cur.1 - Z.of_nat prev.2)%Z in
          if (gap <=? 2 * Z.of_nat ctx)%Z
          then Done (alter (fun g => g ++ [cur]) (length groups - 1) groups)
          else Done (groups ++ [[cur]]))
       [[first]].

(** The position in A and in B after the given edits. *)
Definition positions (edits : list edit) : nat * nat :=
  foldl (fun '(aPos, bPos) e =>
           match op e with
           | editEqual => (S aPos, S bPos)
           | editDelete => (S aPos, bPos)
           | editInsert => (aPos, S bPos)
           end)
    (0, 0) edits.

(** One hunk: the edits of a group with [ctx] edits of context around. *)
Definition buildHunk (edits : list edit) (ctx : nat) (g : list (nat * nat))
  : outcome hunk :=
  firstSpan ← index g 0;
  lastSpan ← (if 0 <? length g then index g (length g - 1) else Panic);
  let first := firstSpan.1 in
  let last := lastSpan.2 in
  (* lo := first - ctx, and 0 when that is negative *)
  let lo := first - ctx in
  let hi := if length edits <? last + ctx then length edits else last + ctx in
  let '(aPos, bPos) := positions (firstn lo edits) in
  forM (seq lo (hi - lo))
       (fun h idx =>
          e ← index edits idx;
          Done (match op e with
                | editEqual =>
                    mkHunk (origStart h) (S (origCount h)) (newStart h) (S (newCount h))
                           (lines h ++ [" " +:+ line e])
                | editDelete =>
                    mkHunk (origStart h) (S (origCount h)) (newStart h) (newCount h)
                           (lines h ++ ["-" +:+ line e])
                | editInsert =>
                    mkHunk (origStart h) (origCount h) (newStart h) (S (newCount h))
                           (lines h ++ ["+" +:+ line e])
                end))
       (mkHunk aPos 0 bPos 0 []).

(** Groups edits into unified diff hunks with context lines. *)
Definition buildHunks (edits : list edit) (ctx : nat) : outcome (list hunk) :=
  changes ← changeSpans edits;
  if length changes =? 0 then Done []
  else
    groups ← groupSpans changes ctx;
    forM groups (fun hunks g => h ← buildHunk edits ctx g; Done (hunks ++ [h])) [].

(** [%d] of a number that is not negative. *)
Fixpoint digits (fuel n : nat) (acc : string) : string :=
  match fuel with
  | 0 => acc
  | S f =>
      let acc := String (ascii_of_nat (48 + n mod 10)) acc in
      if n <? 10 then acc else digits f (n / 10) acc
  end.

Definition itoa (n : nat) : string := digits (S n) n "".

(** [lines[:len(lines)-1]] when the last line is empty. *)
Definition dropLastEmpty (l : list string) : list string :=
  match last l with
  | Some "" => firstn (length l - 1) l
  | _ => l
  end.

Definition hunkText (h : hunk) : string :=
  "@@ -" +:+ itoa (origStart h + 1) +:+ "," +:+ itoa (origCount h)
  +:+ " +" +:+ itoa (newStart h + 1) +:+ "," +:+ itoa (newCount h) +:+ " @@" +:+ nl
  +:+ String.concat "" (map (fun l => l +:+ nl) (lines h)).

(** Produces a unified diff between two strings, with 3 lines of context. *)
Definition DiffStrings (a b nameA nameB : string) : outcome string :=
  let linesA := dropLastEmpty (Split a LF) in
  let linesB := dropLastEmpty (Split b LF) in
  edits ← lcsDiff linesA linesB;
  (* check if there are any changes *)
  let hasChanges := existsb (fun e => negb (bool_decide (op e = editEqual))) edits in
  if negb hasChanges then Done ""
  else
    hunks ← buildHunks edits 3;
    Done ("--- " +:+ nameA +:+ nl +:+ "+++ " +:+ nameB +:+ nl
          +:+ String.concat "" (map hunkText hunks)).

End Diff.
Export Diff.

(** ** Inputs used by the concrete runs below *)
Module Inputs.

(** The lines of a file, each closed by a newline. *)
Definition file (l : list string) : string :=
  String.concat "" (map (fun line => line +:+ nl) l).

Definition syntaxProto3 : string := "syntax = " +:+ quoted "proto3" +:+ ";".

(** [defaultOpts] of the test suite: [Options{Quiet: true}]. *)
Definition defaultOpts : Options := mkOptions "" "" false false true false false.

(** A service whose request type and another message both use the type T. *)
Definition sharedHelper : string :=
  file [ syntaxProto3;
         "service S { rpc Do(Req) returns (Res); }";
         "message Z { T t = 1; }";
         "message Req { T t = 1; }";
         "message Res {}";
         "message T {}" ].

Definition sharedHelperPass1 : string :=
  file [ syntaxProto3; "";
         "service S { rpc Do(Req) returns (Res); }"; "";
         "message Req { T t = 1; }"; "";
         "message Res {}"; "";
         "message Z { T t = 1; }"; "";
         "message T {}" ].

Definition sharedHelperPass2 : string :=
  file [ syntaxProto3; "";
         "service S { rpc Do(Req) returns (Res); }"; "";
         "message T {}"; "";
         "message Req { T t = 1; }"; "";
         "message Res {}"; "";
         "message Z { T t = 1; }" ].

Definition sharedHelperLegacy : string :=
  file [ syntaxProto3; "";
         "service S { rpc Do(Req) returns (Res); }"; "";
         "message Req { T t = 1; }"; "";
         "message Res {}"; "";
         "message T {}"; "";
         "message Z { T t = 1; }" ].

(** A syntax statement with a trailing comment and no final newline. *)
Definition commentAtEof : string := syntaxProto3 +:+ " // c".

(** The input of TestSort_UnreferencedTypeWarning. *)
Definition orphans : string :=
  file [ syntaxProto3; "";
         "message Orphan1 { string v = 1; }";
         "message Orphan2 { string v = 1; }" ].

(** A declaration with a trailing comment, followed by another one. *)
Definition trailingComment : string :=
  "message A {} // c" +:+ nl +:+ "message B {}".

(** A string literal that ends in a backslash at the end of the input. *)
Definition danglingEscape : string := "syntax = " +:+ String DQ "\".

(** An RPC with a dotted type next to a message declared under that name. *)
Definition dottedName : string :=
  file [ "service S { rpc Do(a.B) returns (a.B); }"; "message a.B {}" ].


(** A service with three RPCs and a comment attached to the second. *)
Definition groupedService : string :=
  "service S {" +:+ nl +:+
  "  rpc GetUser(A) returns (B);" +:+ nl +:+
  "  // trips" +:+ nl +:+
  "  rpc GetTrip(A) returns (B);" +:+ nl +:+
  "  rpc CreateTrip(A) returns (B);" +:+ nl +:+
  "}".

Definition groupedEntries : list rpcEntry :=
  [mkEntry "" ("  rpc GetUser(A) returns (B);" +:+ nl) "GetUser";
   mkEntry ("  // trips" +:+ nl) ("  rpc GetTrip(A) returns (B);" +:+ nl) "GetTrip";
   mkEntry "" ("  rpc CreateTrip(A) returns (B);" +:+ nl) "CreateTrip"].

Definition groupedEntriesSorted : list rpcEntry :=
  [mkEntry "" ("  rpc CreateTrip(A) returns (B);" +:+ nl) "CreateTrip";
   mkEntry ("  // trips" +:+ nl) ("  rpc GetTrip(A) returns (B);" +:+ nl) "GetTrip";
   mkEntry "" ("  rpc GetUser(A) returns (B);" +:+ nl) "GetUser"].

Definition groupedServiceSorted : string :=
  "service S {" +:+ nl +:+
  "  rpc CreateTrip(A) returns (B);" +:+ nl +:+
  "  // trips" +:+ nl +:+
  "  rpc GetTrip(A) returns (B);" +:+ nl +:+
  "  rpc GetUser(A) returns (B);" +:+ nl +:+
  "}".

(** Block lists of the reference-count tests. *)
Definition refTwoDeclarations : list Block :=
  [newBlock BlockMessage "A" "" "message A { T t = 1; }";
   newBlock BlockMessage "B" "" "message B { T t = 1; }";
   newBlock BlockMessage "T" "" "message T { string v = 1; }"].

Definition refTwice : list Block :=
  [newBlock BlockMessage "A" "" "message A { T a = 1; T b = 2; }";
   newBlock BlockMessage "T" "" "message T { string v = 1; }"].

Definition refSelf : list Block :=
  [newBlock BlockMessage "TreeNode" "" "message TreeNode { TreeNode child = 1; }"].

Definition refMutual : list Block :=
  [newBlock BlockMessage "A" "" "message A { B b = 1; }";
   newBlock BlockMessage "B" "" "message B { A a = 1; }"].

(** The blocks of [dottedName]. *)
Definition dottedBlocks : list Block :=
  [newBlock BlockService "S" "" "service S { rpc Do(a.B) returns (a.B); }";
   newBlock BlockMessage "a.B" nl "message a.B {}"].

(** A word that is no keyword after a declaration. *)
Definition strayToken : string := file ["message A {}"; "oops;"].

(** A message whose brace is never closed, before another message. *)
Definition unclosedBrace : string := file ["message A {"; "message B {}"].

(** A file of the unsupported dialect. *)
Definition proto2File : string :=
  file ["syntax = " +:+ quoted "proto2" +:+ ";"; "message A {}"].

(** A message A with one helper H: the heap of the two blocks and the
    helper map. *)
Definition helperHeap : list Block :=
  [newBlock BlockMessage "A" "" "message A { H h = 1; }";
   newBlock BlockMessage "H" "" "message H {}"].

Definition helperMapOfA : gmap string (list nat) := {[ "A" := [1] ]}.

(** Messages with a chain of references (A to B and C, B to C) and a cycle
    (P and Q). *)
Definition chainHeap : list Block :=
  [newBlock BlockMessage "A" "" "message A { B b = 1; C c = 2; }";
   newBlock BlockMessage "B" "" "message B { C c = 1; }";
   newBlock BlockMessage "C" "" "message C {}";
   newBlock BlockMessage "P" "" "message P { Q q = 1; }";
   newBlock BlockMessage "Q" "" "message Q { P p = 1; }"].

(** The blocks of [sharedHelper]. *)
Definition sharedHelperBlocks : list Block :=
  Eval vm_compute in
    match ScanFile sharedHelper with
    | Done (inl blocks) => blocks
    | _ => []
    end.

End Inputs.
Import Inputs.

(** ** The statements proved below *)
Module Statements.

Definition SortFunction : Type :=
  string → Options → outcome (string * list Warning * option SortError).


(** [line] is the first line of [content] that starts, after trimming, with
    the word syntax. *)
Definition firstSyntaxLine (content line : string) : Prop :=
  ∃ before after,
    Split content LF = before ++ line :: after
    ∧ Forall (fun l => HasPrefix (TrimSpace l) "syntax" = false) before
    ∧ HasPrefix (TrimSpace line) "syntax" = true.

(** The two errors of Sort: the proto2 error is returned, before any
    scanning, exactly on the inputs isProto2 accepts; the only other error
    is the scanner's, wrapped; both come with an empty output. *)
Definition DialectDiscrimination (Sort : SortFunction) : Prop :=
  ∀ content opts,
    (isProto2 content = true → Sort content opts = Done ("", [], Some Proto2Error))
    ∧ (isProto2 content = false →
       ∀ err, ScanFile content = Done (inr err) →
              Sort content opts = Done ("", [], Some (ParseError err)))
    ∧ (∀ out warnings e,
         Sort content opts = Done (out, warnings, Some e) →
         out = "" ∧ warnings = []
         ∧ ((e = Proto2Error ∧ isProto2 content = true)
            ∨ (∃ err, e = ParseError err ∧ isProto2 content = false
                      ∧ ScanFile content = Done (inr err)))).




(** [a] may stand before [b] in a list sorted by [less]. *)
Definition notAfter {A : Type} (less : A → A → bool) (a b : A) : Prop :=
  less b a = false.

(** The order of the grouped mode: by resource key, and under one key by
    full method name. *)
Definition groupedLe (a b : rpcEntry) : Prop :=
  GoStrings.lt (rpcGroupKey (e_Name a)) (rpcGroupKey (e_Name b)) = true
  ∨ (rpcGroupKey (e_Name a) = rpcGroupKey (e_Name b)
     ∧ GoStrings.lt (e_Name b) (e_Name a) = false).

(** ** Reference counts *)

(** [b] references [t], and [t] is not its own name. *)
Definition references (b : Block) (t : string) : bool :=
  match refsOf b with
  | Some refs => bool_decide (t ∈ refs) && negb (String.eqb t (Name b))
  | None => false
  end.

(** The declarations of the file that reference [t]. *)
Definition referrers (blocks : list Block) (t : string) : list Block :=
  List.filter (fun b => references b t) blocks.

(** The raw count of [t]: its referrers, if [t] is a type of the file. *)
Definition rawCount (blocks : list Block) (t : string) : nat :=
  if bool_decide (t ∈ definedTypes blocks) then length (referrers blocks t) else 0.

(** A declaration named [a] references the type [t] of the file. *)
Definition usesType (blocks : list Block) (a t : string) : Prop :=
  a ≠ "" ∧ t ∈ definedTypes blocks
  ∧ ∃ b, b ∈ blocks ∧ Name b = a ∧ references b t = true.

(** [t] is in a direct mutual reference. *)
Definition mutual (blocks : list Block) (t : string) : Prop :=
  ∃ u, usesType blocks t u ∧ usesType blocks u t.

(** One for true. *)
Definition indicator (b : bool) : nat := if b then 1 else 0.

(** Some pair of the list puts [t] in a direct mutual reference. *)
Definition boosted (uses : gmap string (gset string)) (t : string)
           (ps : list (string * string)) : bool :=
  existsb (fun '(a, b) => bool_decide (a ∈ usesOf uses b)
                          && (String.eqb t a || String.eqb t b)) ps.

(** No type collected so far has a dot. *)
Definition undotted (st : gset string * list string) : Prop :=
  Forall (fun t => Contains t "." = false) st.2.

(** ** The scan *)

(** The states [(pos, blocks)] the loop of scan goes through: the start, and
    the state after each declaration read. *)
Inductive scans_to (content : string) : nat → list Block → Prop :=
| scans_start : scans_to content 0 []
| scans_step pos blocks comments p block p' :
    scans_to content pos blocks →
    atEnd content pos = false →
    collectComments content pos = Done (comments, p) →
    atEnd content p = false →
    readDeclaration content p = Done (inl block, p') →
    scans_to content p' (blocks ++ [setComments comments block]).

(** A byte that none of the readers treats specially. *)
Definition plain (c : ascii) : bool :=
  negb (isQuote c) && negb (Ascii.eqb c "/") && negb (Ascii.eqb c ";")
  && negb (Ascii.eqb c "{") && negb (Ascii.eqb c "}").

End Statements.
Import Statements.

(** ** Notions used by the further properties of the code *)
Module Observations.

(** The source text a block stands for: its leading comments and whitespace,
    then its declaration. *)
Definition blockText (b : Block) : string := Comments b +:+ DeclText b.

(** The text of a scanned file, block after block. *)
Definition scannedText (blocks : list Block) : string :=
  String.concat "" (map blockText blocks).

(** A block read as a declaration: its kind is one of the eight keywords and
    its text is not empty. *)
Definition declaration (b : Block) : Prop :=
  Kind b ≠ BlockComment ∧ DeclText b ≠ "".

(** A type name ExtractFieldTypes may return. *)
Definition fieldTypeName (t : string) : Prop :=
  t ≠ "" ∧ isScalarType t = false ∧ Contains t "." = false.

(** The state [(seen, types)] of ExtractFieldTypes: the types are distinct,
    recorded as seen, and proper names. *)
Definition fieldTypesOk (st : gset string * list string) : Prop :=
  NoDup st.2 ∧ (∀ t, t ∈ st.2 → t ∈ st.1) ∧ Forall fieldTypeName st.2.

(** The names of the named declarations that reference [t], in file order. *)
Definition namedReferrers (blocks : list Block) (t : string) : list string :=
  map Name (List.filter (fun b => references b t && negb (String.eqb (Name b) ""))
              blocks).

(** The order of the alpha mode: by method name. *)
Definition alphaLe (a b : rpcEntry) : Prop :=
  GoStrings.lt (e_Name b) (e_Name a) = false.

(** A block that extractDeclarations records. *)
Definition recorded (b : Block) : bool := negb (bool_decide (Kind b = BlockComment)).

(** What extractDeclarations records for a block: the text between the
    braces of a braced declaration, the whole text of a statement. *)
Definition declBody (b : Block) : string :=
  match Kind b with
  | BlockMessage | BlockEnum | BlockService | BlockExtend => extractBody (DeclText b)
  | _ => DeclText b
  end.

(** The keys of the recorded blocks. *)
Definition declKeys (blocks : list Block) : list string :=
  map declKey (List.filter recorded blocks).

(** The pointers of the blocks of one kind, in the order of the list. *)
Definition ofKind (h : heap) (k : BlockKind) (blocks : list ptr) : list ptr :=
  List.filter (fun p => bool_decide (kindOf h p = k)) blocks.

(** The pointers of the messages, enums and services. *)
Definition bodyKinds (h : heap) (blocks : list ptr) : list ptr :=
  List.filter (fun p => bool_decide (kindOf h p = BlockMessage)
                        || bool_decide (kindOf h p = BlockEnum)
                        || bool_decide (kindOf h p = BlockService)) blocks.

(** The names recorded as emitted are the names of the ordered blocks. *)
Definition emissionOk (h : heap) (st : emission) : Prop :=
  ∀ n, n ∈ st.2 ↔ n ∈ map (nameOf h) st.1.

(** The lines of A and of B an edit script stands for. *)
Definition originalLines (edits : list edit) : list string :=
  map line (List.filter (fun e => negb (bool_decide (op e = editInsert))) edits).

Definition newLines (edits : list edit) : list string :=
  map line (List.filter (fun e => negb (bool_decide (op e = editDelete))) edits).

(** An edit points at its line in A, in B, or in both. *)
Definition editOk (a b : list string) (e : edit) : Prop :=
  match op e with
  | editEqual =>
      ∃ i j, idxA e = Z.of_nat i ∧ idxB e = Z.of_nat j
             ∧ a !! i = Some (line e) ∧ b !! j = Some (line e)
  | editDelete =>
      ∃ i, idxA e = Z.of_nat i ∧ idxB e = (-1)%Z ∧ a !! i = Some (line e)
  | editInsert =>
      ∃ j, idxA e = (-1)%Z ∧ idxB e = Z.of_nat j ∧ b !! j = Some (line e)
  end.

(** A table of [n + 1] rows of [m + 1] cells. *)
Definition tableOk (n m : nat) (dp : list (list nat)) : Prop :=
  length dp = n + 1 ∧ Forall (fun row => length row = m + 1) dp.

(** The text DiffStrings compares: the lines, without a last empty one. *)
Definition diffLines (s : string) : list string := dropLastEmpty (Split s LF).

(** The order of sortByName: by the name of the block. *)
Definition nameLe (h : heap) (p q : ptr) : Prop :=
  GoStrings.lt (nameOf h q) (nameOf h p) = false.

(** The core block named [x] references the core type [y]: an edge of the
    graph topoSortBlocks orders. *)
Definition dependsOn (h : heap) (coreBlocks allBlocks : list ptr) (x y : string) : Prop :=
  x ∈ map (nameOf h) coreBlocks ∧ y ∈ map (nameOf h) coreBlocks ∧ y ≠ x
  ∧ ∃ p, p ∈ allBlocks ∧ nameOf h p = x ∧ y ∈ blockRefs (deref h p).

(** Every block of the list comes after the core types it references. *)
Definition dependenciesFirst (h : heap) (coreBlocks allBlocks sorted : list ptr) : Prop :=
  ∀ before p after, sorted = before ++ p :: after →
    ∀ y, dependsOn h coreBlocks allBlocks (nameOf h p) y → y ∈ map (nameOf h) before.

Definition occurrences (x : string) (l : list string) : nat :=
  length (List.filter (String.eqb x) l).

(** How often [x] is listed as a dependent of the names of [todo]. *)
Definition pending (dependents : gmap string (list string)) (todo : list string)
           (x : string) : nat :=
  occurrences x (flat_map (fun y => default [] (dependents !! y)) todo).

Definition unprocessed (done coreNames : list string) : list string :=
  List.filter (fun y => bool_decide (y ∉ done)) coreNames.

(** The loops of topoSortBlocks, named. *)
Definition addRef (coreSet : gset string) (name : string)
           (st : gset string * (gmap string Z * gmap string (list string)))
  : string → gset string * (gmap string Z * gmap string (list string)) :=
  let '(seen, (inDegree, dependents)) := st in
  fun ref =>
  if String.eqb ref name then (seen, (inDegree, dependents))
  else if bool_decide (ref ∈ coreSet) && bool_decide (ref ∉ seen)
  then ({[ref]} ∪ seen,
        (<[name := (zget inDegree name + 1)%Z]> inDegree,
         <[ref := default [] (dependents !! ref) ++ [name]]> dependents))
  else (seen, (inDegree, dependents)).

Definition addEdges (h : heap) (coreSet : gset string)
           (st : gmap string Z * gmap string (list string))
  : ptr → gmap string Z * gmap string (list string) :=
  let '(inDegree, dependents) := st in
  fun p =>
  let b := deref h p in
  if bool_decide (Name b ∉ coreSet) then (inDegree, dependents)
  else (foldl (addRef coreSet (Name b)) ((∅ : gset string), (inDegree, dependents))
          (blockRefs b)).2.

Definition release (st : list string * gmap string Z)
  : string → list string * gmap string Z :=
  let '(queue, inDegree) := st in
  fun dep =>
  let d := (zget inDegree dep - 1)%Z in
  let inDegree := <[dep := d]> inDegree in
  if (d =? 0)%Z then (GoSort.Strings (queue ++ [dep]), inDegree) else (queue, inDegree).

Definition kahnStep (coreMap : gmap string ptr) (dependents : gmap string (list string))
           (st : list string * gmap string Z * list ptr)
  : step_result (list string * gmap string Z * list ptr) (outcome (list ptr)) :=
  let '(queue, inDegree, result) := st in
  match queue with
  | [] => Stop (Done result)
  | name :: queue =>
      match coreMap !! name with
      | None => Stop Panic
      | Some p =>
          let '(queue, inDegree) :=
            foldl release (queue, inDegree) (default [] (dependents !! name)) in
          Next (queue, inDegree, result ++ [p])
      end
  end.

(** The graph built from the blocks [processed]: the dependents are the
    edges, and the in-degree of a name counts its entries among them. *)
Definition buildOk (h : heap) (coreBlocks processed : list ptr)
           (st : gmap string Z * gmap string (list string)) : Prop :=
  (∀ x y, x ∈ default [] (st.2 !! y) ↔ dependsOn h coreBlocks processed x y)
  ∧ (∀ x, zget st.1 x = Z.of_nat (pending st.2 (map (nameOf h) coreBlocks) x)).

(** The same while the references [rs] of the block named [name] are added. *)
Definition refsOk (h : heap) (coreBlocks processed : list ptr) (name : string)
           (rs : list string)
           (st : gset string * (gmap string Z * gmap string (list string))) : Prop :=
  (∀ r, r ∈ st.1 ↔ r ∈ rs ∧ r ≠ name ∧ r ∈ map (nameOf h) coreBlocks)
  ∧ (∀ x y, x ∈ default [] (st.2.2 !! y)
            ↔ dependsOn h coreBlocks processed x y
              ∨ (x = name ∧ y ∈ rs ∧ y ≠ name ∧ y ∈ map (nameOf h) coreBlocks))
  ∧ (∀ x, zget st.2.1 x = Z.of_nat (pending st.2.2 (map (nameOf h) coreBlocks) x)).

(** The state of Kahn's loop: the names emitted and queued are distinct core
    names, they are the names of in-degree zero, the in-degree of a name
    counts its entries among the dependents of the names not emitted, and
    the blocks emitted are core blocks that come after their dependencies. *)
Definition kahnOk (h : heap) (coreBlocks allBlocks : list ptr)
           (dependents : gmap string (list string))
           (st : list string * gmap string Z * list ptr) : Prop :=
  let '(queue, inDegree, result) := st in
  let done := map (nameOf h) result in
  NoDup (done ++ queue)
  ∧ (∀ x, x ∈ done ++ queue → x ∈ map (nameOf h) coreBlocks)
  ∧ (∀ x, zget inDegree x
          = Z.of_nat (pending dependents (unprocessed done (map (nameOf h) coreBlocks)) x))
  ∧ (∀ x, x ∈ map (nameOf h) coreBlocks → zget inDegree x = 0%Z ↔ x ∈ done ++ queue)
  ∧ (∀ p, p ∈ result → p ∈ coreBlocks)
  ∧ dependenciesFirst h coreBlocks allBlocks result.

(** The same while the dependents [todo] of an emitted name are released. *)
Definition releaseOk (h : heap) (coreBlocks : list ptr)
           (dependents : gmap string (list string)) (done todo : list string)
           (st : list string * gmap string Z) : Prop :=
  NoDup (done ++ st.1)
  ∧ (∀ x, x ∈ done ++ st.1 → x ∈ map (nameOf h) coreBlocks)
  ∧ (∀ x, zget st.2 x
          = Z.of_nat (occurrences x todo
                      + pending dependents (unprocessed done (map (nameOf h) coreBlocks)) x))
  ∧ (∀ x, x ∈ map (nameOf h) coreBlocks → zget st.2 x = 0%Z ↔ x ∈ done ++ st.1).

(** The lines of a comment text that a line filter keeps. *)
Definition keptLines (keep : string → bool) (comments : string) : list string :=
  List.filter keep (Split comments LF).

(** The lines of a comment text that are no section dividers. *)
Definition plainLines (comments : string) : list string :=
  keptLines (fun line => negb (isSectionDivider line)) comments.

(** The lines of a comment text that are no annotations. *)
Definition unannotatedLines (comments : string) : list string :=
  keptLines (fun line => negb (Regexp.MatchString annotationRe (TrimSpace line))) comments.

(** [c] is a helper that emitWithHelpers emits before [b]. *)
Definition helperOf (h : heap) (helperMap : gmap string (list ptr)) (b c : ptr) : Prop :=
  c ∈ default [] (helperMap !! nameOf h b).

(** A chain of helper links from a block down to one of its helpers'
    helpers. *)
Inductive helperChain (h : heap) (helperMap : gmap string (list ptr))
  : nat → ptr → ptr → Prop :=
| chain_here (a : ptr) : helperChain h helperMap 0 a a
| chain_step (k : nat) (a b c : ptr) :
    helperChain h helperMap k a b → helperOf h helperMap b c →
    helperChain h helperMap (S k) a c.

(** No chain from [b] leads into a cycle of helpers. *)
Definition acyclicFrom (h : heap) (helperMap : gmap string (list ptr)) (b : ptr) : Prop :=
  ∀ k x m, helperChain h helperMap k b x → ¬ helperChain h helperMap (S m) x x.

(** The ordered list under construction: its names are the names recorded as
    emitted, no name is there twice, and its blocks are body blocks. *)
Definition orderedOk (h : heap) (body : list ptr) (st : emission) : Prop :=
  emissionOk h st ∧ NoDup (map (nameOf h) st.1) ∧ ∀ p, p ∈ st.1 → p ∈ body.

(** A view of the blocks that is the same in both heaps. *)
Definition keeps {A} (view : Block → A) (h h' : heap) : Prop :=
  length h' = length h ∧ ∀ q, view (deref h' q) = view (deref h q).

(** What Sort leaves of a block as it is: its kind, its name and its
    declaration text (the text of a service apart when the RPCs are sorted). *)
Definition declOf (sortRPCs : string) (b : Block) : BlockKind * string * string :=
  (Kind b, Name b,
   if negb (String.eqb sortRPCs "") && bool_decide (Kind b = BlockService)
   then "" else DeclText b).

(** A message, an enum or a service: a block of the body of the file. *)
Definition isBody (b : Block) : bool :=
  bool_decide (Kind b = BlockMessage) || bool_decide (Kind b = BlockEnum)
  || bool_decide (Kind b = BlockService).

End Observations.
Import Observations.

(** * Properties *)

(** ** Outcomes and loops *)

Lemma bind_Done {A B} (x : outcome A) (f : A → outcome B) (b : B) :
  x ≫= f = Done b → ∃ a, x = Done a ∧ f a = Done b.
Proof. destruct x; simpl; intros H; try discriminate. eauto. Qed.

(** An invariant of the loop states gives a property of the value the loop
    returns. *)
Lemma run_loop_inv {S R} (I : S → Prop) (Q : R → Prop)
      (body : S → step_result S (outcome R)) :
  (∀ s, I s → match body s with
               | Next s' => I s'
               | Stop (Done r) => Q r
               | Stop _ => True
               end) →
  ∀ fuel s, I s → ∀ r, run_loop fuel body s = Done r → Q r.
Proof.
  intros Hbody fuel. induction fuel as [|n IH]; intros s Hs r; simpl.
  - discriminate.
  - specialize (Hbody s Hs). destruct (body s) as [s'|[r'| |]]; try discriminate.
    + apply IH, Hbody.
    + intros [= <-]. exact Hbody.
Qed.

(** ** Concrete runs *)

(** C1 (idempotence), evaluated on a valid proto3 file: in the variant with
    section headers, sorting the file [sharedHelper] and sorting the result
    again give two different texts.  The helper T is used by Z and by the
    request message Req; its consumer is the first referrer in file order, so
    the first pass leaves T last and the second pass moves it before Req. *)
Theorem C1_second_pass_moves_shared_helper :
  Refined.Sort sharedHelper defaultOpts = Done (sharedHelperPass1, [], None)
  ∧ Refined.Sort sharedHelperPass1 defaultOpts = Done (sharedHelperPass2, [], None)
  ∧ sharedHelperPass1 ≠ sharedHelperPass2.
Proof.
  split; [vm_compute; reflexivity|].
  split; [vm_compute; reflexivity|].
  apply String.eqb_neq. vm_compute. reflexivity.
Qed.

(** The variant without section headers takes a consumer only when there is
    exactly one referrer, and is stable on the same file. *)
Lemma legacy_sort_stable_on_shared_helper :
  Legacy.Sort sharedHelper defaultOpts = Done (sharedHelperLegacy, [], None)
  ∧ Legacy.Sort sharedHelperLegacy defaultOpts = Done (sharedHelperLegacy, [], None).
Proof. split; vm_compute; reflexivity. Qed.

(** C4 (trailing-comment absorption), evaluated: after [message A {}] the
    scanner takes the comment and also the newline that ends the line, so the
    declaration text ends in a newline and the next block has no leading
    blank. *)
Theorem C4_trailing_comment_takes_the_newline :
  consumeTrailingComment trailingComment 12 = Done (" // c" +:+ nl, 18)
  ∧ ScanFile trailingComment
    = Done (inl [ newBlock BlockMessage "A" "" ("message A {} // c" +:+ nl);
                  newBlock BlockMessage "B" "" "message B {}" ]).
Proof. split; vm_compute; reflexivity. Qed.

(** C9 (unreferenced-type warning), evaluated on the input of
    TestSort_UnreferencedTypeWarning with [Options{}]: the variant with
    section headers returns no warning, the other variant returns one per
    unreferenced message. *)
Theorem C9_no_warning_for_orphans :
  (∃ out, Refined.Sort orphans zeroOptions = Done (out, [], None))
  ∧ (∃ out, Legacy.Sort orphans zeroOptions
            = Done (out, [ WarnUnreferenced BlockMessage "Orphan1";
                           WarnUnreferenced BlockMessage "Orphan2" ], None)).
Proof. split; eexists; (vm_compute; reflexivity). Qed.

(** ** Strings *)

Lemma append_cons (c : ascii) (a b : string) : String c a +:+ b = String c (a +:+ b).
Proof. reflexivity. Qed.

Lemma append_nil_l (b : string) : "" +:+ b = b.
Proof. reflexivity. Qed.

Lemma length_append (a b : string) :
  String.length (a +:+ b) = String.length a + String.length b.
Proof.
  induction a as [|c a IH]; [reflexivity|].
  rewrite append_cons. simpl. rewrite IH. reflexivity.
Qed.

Lemma append_nil_r (a : string) : a +:+ "" = a.
Proof.
  induction a as [|c a IH]; [reflexivity|].
  rewrite append_cons, IH. reflexivity.
Qed.

Lemma append_assoc (a b c : string) : (a +:+ b) +:+ c = a +:+ (b +:+ c).
Proof.
  induction a as [|x a IH]; [reflexivity|].
  rewrite !append_cons, IH. reflexivity.
Qed.

Lemma prefix_cons (c d : ascii) (p s : string) :
  String.prefix (String c p) (String d s)
  = if ascii_dec c d then String.prefix p s else false.
Proof. reflexivity. Qed.

Lemma prefix_append (p s : string) : String.prefix p (p +:+ s) = true.
Proof.
  induction p as [|c p IH]; [destruct s; reflexivity|].
  rewrite append_cons. simpl.
  destruct (ascii_dec c c); [exact IH|congruence].
Qed.

Lemma prefix_split (p s : string) :
  String.prefix p s = true → ∃ t, s = p +:+ t.
Proof.
  revert s. induction p as [|c p IH]; intros s H.
  - exists s. reflexivity.
  - destruct s as [|d s]; simpl in H; [discriminate|].
    destruct (ascii_dec c d) as [->|]; [|discriminate].
    destruct (IH s H) as [t ->]. exists t. reflexivity.
Qed.












(** ** Lists *)

Lemma find_first {A} (f : A → bool) (l : list A) (x : A) :
  List.find f l = Some x ↔
  ∃ before after,
    l = before ++ x :: after ∧ Forall (fun y => f y = false) before ∧ f x = true.
Proof.
  induction l as [|y l IH]; simpl.
  - split; [discriminate|]. intros (b & a & H & _). destruct b; discriminate.
  - destruct (f y) eqn:E.
    + split.
      * intros [= <-]. exists [], l. auto.
      * intros (b & a & H & Hb & Hx). destruct b as [|z b]; simpl in H.
        -- congruence.
        -- injection H as <- _. inversion Hb; congruence.
    + rewrite IH. split.
      * intros (b & a & -> & Hb & Hx). exists (y :: b), a. auto.
      * intros (b & a & H & Hb & Hx). destruct b as [|z b]; simpl in H.
        -- injection H as <- _. congruence.
        -- injection H as <- ->. inversion Hb; subst. eauto.
Qed.

Lemma find_none {A} (f : A → bool) (l : list A) :
  List.find f l = None ↔ Forall (fun y => f y = false) l.
Proof.
  induction l as [|y l IH]; simpl; [split; auto|].
  destruct (f y) eqn:E.
  - split; [discriminate|]. inversion 1; congruence.
  - rewrite IH. split; [auto|]. inversion 1; auto.
Qed.

(** ** The two errors of Sort (C6) *)

(** isProto2 looks at the first line that starts with the word syntax. *)
Lemma isProto2_first_syntax_line (content : string) :
  isProto2 content = true ↔
  ∃ line, firstSyntaxLine content line
          ∧ Contains (TrimSpace line) (quoted "proto2") = true.
Proof.
  unfold isProto2, firstSyntaxLine.
  set (f := fun l => HasPrefix (TrimSpace l) "syntax").
  assert (Hfind : ∀ line, (∃ before after,
             Split content LF = before ++ line :: after
             ∧ Forall (fun l => f l = false) before ∧ f line = true)
           → List.find f (Split content LF) = Some line)
    by (intros line H; exact (proj2 (find_first f _ _) H)).
  destruct (List.find f (Split content LF)) as [line|] eqn:E.
  - split.
    + intros H. exists line. split; [exact (proj1 (find_first f _ _) E)|exact H].
    + intros (line' & Hl & H). apply Hfind in Hl. congruence.
  - split; [discriminate|]. intros (line & Hl & _). apply Hfind in Hl. congruence.
Qed.

(** The cases of Sort up to the call of [arrange]. *)
Ltac sort_cases content opts arrange :=
  destruct (isProto2 content) eqn:Hp;
  [| destruct (ScanFile content) as [[blocks|err]| |] eqn:Hs; simpl;
     [ destruct (length blocks =? 0) eqn:Hl;
       [| destruct (arrange blocks opts)
            as [[[[[[h l] options] imports] ordered] ws]| |] eqn:Ha; simpl ]
     | | | ] ].

Lemma Refined_dialect : DialectDiscrimination Refined.Sort.
Proof.
  intros content opts. unfold Refined.Sort.
  sort_cases content opts Refined.arrange; naive_solver.
Qed.

Lemma Legacy_dialect : DialectDiscrimination Legacy.Sort.
Proof.
  intros content opts. unfold Legacy.Sort.
  sort_cases content opts Legacy.arrange; naive_solver.
Qed.

(** C6 (dialect-error discrimination): in both variants Sort returns the
    proto2 error, with empty output and before any scanning, exactly when
    isProto2 accepts the input, that is when the first line that starts with
    the word syntax contains the quoted word proto2; any other error is the
    scanner's error wrapped as a parse error; and the two kinds of error are
    different constructors. *)
Theorem C6_dialect_error_discrimination :
  DialectDiscrimination Refined.Sort
  ∧ DialectDiscrimination Legacy.Sort
  ∧ (∀ err, Proto2Error ≠ ParseError err)
  ∧ (∀ content,
       isProto2 content = true ↔
       ∃ line, firstSyntaxLine content line
               ∧ Contains (TrimSpace line) (quoted "proto2") = true).
Proof.
  split; [exact Refined_dialect|].
  split; [exact Legacy_dialect|].
  split; [discriminate|].
  exact isProto2_first_syntax_line.
Qed.

(** The two errors on two files: a proto2 file, and a file with a stray
    word after its first message. *)
Lemma C6_dialect_error_discrimination_witness :
  Refined.Sort proto2File defaultOpts = Done ("", [], Some Proto2Error)
  ∧ Legacy.Sort strayToken defaultOpts
    = Done ("", [], Some (ParseError (ExpectedKeyword 13 ("oops;" +:+ nl)))).
Proof.
  destruct C6_dialect_error_discrimination as (HR & HL & _).
  split.
  - apply (proj1 (HR proto2File defaultOpts)). vm_compute. reflexivity.
  - apply (proj1 (proj2 (HL strayToken defaultOpts))); vm_compute; reflexivity.
Defined.

(** ** The shape of the output (C7) *)





Lemma concat_cons (x : string) (l : list string) :
  String.concat "" (x :: l) = x +:+ String.concat "" l.
Proof. destruct l; simpl; [rewrite append_nil_r|]; reflexivity. Qed.

Lemma concat_app (l1 l2 : list string) :
  String.concat "" (l1 ++ l2) = String.concat "" l1 +:+ String.concat "" l2.
Proof.
  induction l1 as [|x l1 IH]; [reflexivity|].
  rewrite <- app_comm_cons, !concat_cons, IH, append_assoc. reflexivity.
Qed.







Lemma dropBlank_suffix (lines : list string) :
  ∃ dropped, lines = dropped ++ dropBlank lines.
Proof.
  induction lines as [|l rest [d IH]]; [exists []; reflexivity|].
  simpl. destruct (blank l).
  - exists (l :: d). rewrite <- app_comm_cons, <- IH. reflexivity.
  - exists []. reflexivity.
Qed.

Lemma dropBlank_head (lines : list string) (l : string) (rest : list string) :
  dropBlank lines = l :: rest → blank l = false.
Proof.
  induction lines as [|x lines IH]; simpl; [discriminate|].
  destruct (blank x) eqn:E; [exact IH|]. intros [= <- _]. exact E.
Qed.







(** ** The content-integrity check (C2) *)

Lemma firstError_None {A} (check : A → option IntegrityError) (l : list A) :
  firstError check l = None ↔ ∀ x, x ∈ l → check x = None.
Proof.
  induction l as [|y l IH]; simpl.
  - split; [intros _ x Hx; inversion Hx|reflexivity].
  - destruct (check y) eqn:E.
    + split; [discriminate|]. intros H. rewrite <- E. apply H. left.
    + rewrite IH. split.
      * intros H x Hx. inversion Hx; subst; auto.
      * intros H x Hx. apply H. right. exact Hx.
Qed.

Lemma checkOriginal_None (sortedDecls : gmap string string) (name body : string) :
  checkOriginal sortedDecls (name, body) = None ↔ sortedDecls !! name = Some body.
Proof.
  unfold checkOriginal. destruct (sortedDecls !! name) as [sortedBody|].
  - destruct (String.eqb body sortedBody) eqn:E; simpl.
    + apply String.eqb_eq in E as ->. split; reflexivity.
    + apply String.eqb_neq in E. split; [discriminate|congruence].
  - split; discriminate.
Qed.

Lemma checkSorted_None (origDecls : gmap string string) (name body : string) :
  checkSorted origDecls (name, body) = None ↔ is_Some (origDecls !! name).
Proof.
  unfold checkSorted. simpl. destruct (origDecls !! name).
  - split; [eauto|reflexivity].
  - split; [discriminate|intros [? ?]; discriminate].
Qed.

(** The two loops pass exactly when the two declaration maps are equal. *)
Lemma loops_pass_iff_equal (origDecls sortedDecls : gmap string string) :
  (firstError (checkOriginal sortedDecls) (map_to_list origDecls) = None
   ∧ firstError (checkSorted origDecls) (map_to_list sortedDecls) = None)
  ↔ origDecls = sortedDecls.
Proof.
  rewrite !firstError_None. split.
  - intros [H1 H2]. apply map_eq. intros k.
    destruct (origDecls !! k) as [v|] eqn:Ek.
    + symmetry. apply checkOriginal_None, H1, elem_of_map_to_list, Ek.
    + destruct (sortedDecls !! k) as [v|] eqn:Es; [|reflexivity].
      apply elem_of_map_to_list, H2, checkSorted_None in Es.
      rewrite Ek in Es. destruct Es; discriminate.
  - intros <-. split; intros [k v] Hkv; apply elem_of_map_to_list in Hkv.
    + apply checkOriginal_None, Hkv.
    + apply checkSorted_None. eauto.
Qed.

(** C2 (content integrity): the output of Sort does not always pass the
    check against its input.  The syntax statement of [commentAtEof] has a
    trailing comment and the file has no final newline.  Both variants of
    Sort succeed on it and return the input followed by a newline; scanned
    again, the statement takes that newline into its text, and the check of
    the output against the input reports a differing body. *)
Theorem C2_sorted_output_fails_the_check :
  Refined.Sort commentAtEof defaultOpts = Done (commentAtEof +:+ nl, [], None)
  ∧ Legacy.Sort commentAtEof defaultOpts = Done (commentAtEof +:+ nl, [], None)
  ∧ (∃ b, ScanFile commentAtEof = Done (inl [b]) ∧ DeclText b = commentAtEof)
  ∧ (∃ b, ScanFile (commentAtEof +:+ nl) = Done (inl [b])
          ∧ DeclText b = commentAtEof +:+ nl)
  ∧ (∃ key, verifyContentIntegrity commentAtEof (commentAtEof +:+ nl)
            = Done (Some (BodyDiffers key))).
Proof.
  split; [vm_compute; reflexivity|].
  split; [vm_compute; reflexivity|].
  split; [eexists; split; vm_compute; reflexivity|].
  split; [eexists; split; vm_compute; reflexivity|].
  eexists; vm_compute; reflexivity.
Qed.

(** * Sorting the RPCs of a service *)

(** ** Go's order on strings *)

Lemma compare_refl (a : string) : String.compare a a = Eq.
Proof.
  induction a as [|c a IH]; [reflexivity|]. simpl.
  unfold Ascii.compare. rewrite N.compare_refl. exact IH.
Qed.

Lemma lt_irrefl (a : string) : GoStrings.lt a a = false.
Proof. unfold GoStrings.lt, String.ltb. rewrite compare_refl. reflexivity. Qed.

Lemma lt_asym (a b : string) : GoStrings.lt a b = true → GoStrings.lt b a = false.
Proof.
  unfold GoStrings.lt, String.ltb. rewrite (String.compare_antisym b a).
  destruct (String.compare a b); simpl; congruence.
Qed.

Lemma lt_total (a b : string) :
  GoStrings.lt a b = false → GoStrings.lt b a = false → a = b.
Proof.
  unfold GoStrings.lt, String.ltb. rewrite (String.compare_antisym b a).
  destruct (String.compare a b) eqn:E; simpl; try discriminate.
  intros _ _. apply String.compare_eq_iff, E.
Qed.

Lemma lt_le (a b : string) : GoStrings.lt a b = true ↔ String.le a b ∧ a ≠ b.
Proof.
  unfold GoStrings.lt, String.ltb, String.le, String.leb.
  destruct (String.compare a b) eqn:E; simpl.
  - apply String.compare_eq_iff in E. split; [discriminate|]. intros [_ H]. contradiction.
  - split; [|reflexivity]. intros _. split; [exact I|]. intros ->.
    rewrite compare_refl in E. discriminate.
  - split; [discriminate|]. intros [[] _].
Qed.

Lemma lt_trans (a b c : string) :
  GoStrings.lt a b = true → GoStrings.lt b c = true → GoStrings.lt a c = true.
Proof.
  rewrite !lt_le. intros [Hab Nab] [Hbc Nbc]. split.
  - etrans; eassumption.
  - intros ->. apply Nab. apply (anti_symm String.le); assumption.
Qed.

(** ** Stable insertion sort *)
Section SortFacts.
Context {A : Type} (less : A → A → bool).
Hypothesis less_asym : ∀ a b, less a b = true → less b a = false.

#[local] Abbreviation notAfter := (notAfter less).

Lemma insert_perm (x : A) (l : list A) : Permutation (x :: l) (GoSort.insert less x l).
Proof.
  induction l as [|y l IH]; simpl; [reflexivity|].
  destruct (less y x); [|reflexivity].
  rewrite perm_swap. constructor. exact IH.
Qed.

Lemma SliceStable_perm (l : list A) : Permutation l (GoSort.SliceStable less l).
Proof.
  induction l as [|x l IH]; simpl; [reflexivity|].
  rewrite <- insert_perm. constructor. exact IH.
Qed.

Lemma insert_HdRel (a x : A) (l : list A) :
  notAfter a x → HdRel notAfter a l → HdRel notAfter a (GoSort.insert less x l).
Proof.
  intros Hax Hl. destruct l as [|y l]; simpl; [constructor; exact Hax|].
  destruct (less y x); constructor; [inversion Hl; assumption|exact Hax].
Qed.

Lemma insert_sorted (x : A) (l : list A) :
  Sorted notAfter l → Sorted notAfter (GoSort.insert less x l).
Proof.
  induction l as [|y l IH]; simpl; intros Hs.
  - repeat constructor.
  - destruct (less y x) eqn:E.
    + inversion Hs; subst. constructor; [apply IH; assumption|].
      apply insert_HdRel; [|assumption]. apply less_asym, E.
    + constructor; [exact Hs|]. constructor. exact E.
Qed.

Lemma SliceStable_sorted (l : list A) : Sorted notAfter (GoSort.SliceStable less l).
Proof.
  induction l as [|x l IH]; simpl; [constructor|]. apply insert_sorted, IH.
Qed.

(** Elements of one class, none smaller than another, keep their order. *)
Lemma insert_stable (P : A → bool) (x : A) (l : list A) :
  (∀ a b, P a = true → P b = true → less a b = false) →
  List.filter P (GoSort.insert less x l) = List.filter P (x :: l).
Proof.
  intros HP. induction l as [|y l IH]; [reflexivity|].
  simpl. destruct (less y x) eqn:E; [|reflexivity].
  simpl. rewrite IH. simpl.
  destruct (P y) eqn:Py, (P x) eqn:Px; try reflexivity.
  rewrite (HP y x Py Px) in E. discriminate.
Qed.

Lemma SliceStable_stable (P : A → bool) (l : list A) :
  (∀ a b, P a = true → P b = true → less a b = false) →
  List.filter P (GoSort.SliceStable less l) = List.filter P l.
Proof.
  intros HP. induction l as [|x l IH]; [reflexivity|].
  simpl GoSort.SliceStable. rewrite insert_stable by exact HP.
  simpl. rewrite IH. reflexivity.
Qed.
End SortFacts.

(** ** The grouped order *)

Lemma not_lt_le (a b : string) : GoStrings.lt b a = false ↔ String.le a b.
Proof.
  split.
  - intros H. destruct (total String.le a b) as [Hab|Hba]; [exact Hab|].
    destruct (decide (b = a)) as [->|Hne]; [reflexivity|].
    assert (GoStrings.lt b a = true) by (apply lt_le; auto). congruence.
  - intros Hab. destruct (GoStrings.lt b a) eqn:E; [|reflexivity].
    apply lt_le in E as [Hba Hne]. exfalso. apply Hne.
    apply (anti_symm String.le); assumption.
Qed.

Lemma lessGrouped_asym (a b : rpcEntry) :
  lessGrouped a b = true → lessGrouped b a = false.
Proof.
  unfold lessGrouped.
  destruct (String.eqb (rpcGroupKey (e_Name a)) (rpcGroupKey (e_Name b))) eqn:E.
  - apply String.eqb_eq in E. rewrite E, String.eqb_refl. simpl. apply lt_asym.
  - rewrite String.eqb_sym, E. simpl. apply lt_asym.
Qed.

Lemma notAfter_groupedLe (a b : rpcEntry) : lessGrouped b a = false → groupedLe a b.
Proof.
  unfold lessGrouped, groupedLe.
  destruct (String.eqb (rpcGroupKey (e_Name b)) (rpcGroupKey (e_Name a))) eqn:E; simpl.
  - apply String.eqb_eq in E. intros H. right. split; [congruence|exact H].
  - apply String.eqb_neq in E. intros H. left.
    destruct (GoStrings.lt (rpcGroupKey (e_Name a)) (rpcGroupKey (e_Name b))) eqn:E2;
      [reflexivity|].
    exfalso. apply E. apply lt_total; assumption.
Qed.

Lemma groupedLe_trans : Transitive groupedLe.
Proof.
  intros a b c. unfold groupedLe.
  intros [H1|[E1 H1]] [H2|[E2 H2]].
  - left. eapply lt_trans; eassumption.
  - left. rewrite <- E2. exact H1.
  - left. rewrite E1. exact H2.
  - right. split; [congruence|].
    apply not_lt_le. apply not_lt_le in H1, H2. etrans; eassumption.
Qed.

Lemma Sorted_impl {A} (R R' : A → A → Prop) (l : list A) :
  (∀ a b, R a b → R' a b) → Sorted R l → Sorted R' l.
Proof.
  intros HR. induction 1 as [|x l Hs IH Hd]; constructor; [exact IH|].
  destruct Hd; constructor. apply HR. assumption.
Qed.

(** In grouped mode the entries are a stable sort by resource key, then name. *)
Lemma sortEntries_grouped (es : list rpcEntry) :
  ∃ sorted,
    sortEntries "grouped" es = Some sorted
    ∧ Permutation es sorted
    ∧ StronglySorted groupedLe sorted
    ∧ ∀ name, List.filter (fun e => String.eqb (e_Name e) name) sorted
              = List.filter (fun e => String.eqb (e_Name e) name) es.
Proof.
  exists (GoSort.SliceStable lessGrouped es).
  split; [reflexivity|]. split; [apply SliceStable_perm|]. split.
  - apply Sorted_StronglySorted; [exact groupedLe_trans|].
    apply (Sorted_impl (notAfter lessGrouped)); [intros a b; apply notAfter_groupedLe|].
    apply SliceStable_sorted, lessGrouped_asym.
  - intros name. apply SliceStable_stable.
    intros a b Ha Hb. apply String.eqb_eq in Ha, Hb. unfold lessGrouped.
    rewrite Ha, Hb, String.eqb_refl. simpl. apply lt_irrefl.
Qed.

(** ** The resource key *)

Lemma get_append (p : string) (c : ascii) (rest : string) :
  at_ (p +:+ String c rest) (String.length p) = c.
Proof.
  unfold at_. induction p as [|d p IH]; [reflexivity|].
  rewrite append_cons. simpl. exact IH.
Qed.

Lemma drop_append (p s : string) : drop (String.length p) (p +:+ s) = s.
Proof.
  induction p as [|d p IH]; [destruct s; reflexivity|].
  rewrite append_cons. simpl. exact IH.
Qed.

Lemma prefix_comparable (a b s : string) :
  String.prefix a s = true → String.prefix b s = true →
  String.prefix a b = true ∨ String.prefix b a = true.
Proof.
  revert b s. induction a as [|c a IH]; intros b s Ha Hb; [left; destruct b; reflexivity|].
  destruct b as [|d b]; [right; reflexivity|].
  destruct s as [|e s]; [discriminate|].
  rewrite prefix_cons in Ha, Hb. rewrite !prefix_cons.
  destruct (ascii_dec c e) as [->|]; [|discriminate].
  destruct (ascii_dec d e) as [->|]; [|discriminate].
  destruct (ascii_dec e e); [|congruence].
  eapply IH; eassumption.
Qed.

(** No verb of the list is a prefix of another one. *)
Lemma verbs_prefix_free (a b : string) :
  In a rpcVerbPrefixes → In b rpcVerbPrefixes → String.prefix a b = true → a = b.
Proof.
  assert (H : forallb (fun a => forallb (fun b => implb (String.prefix a b) (String.eqb a b))
                                 rpcVerbPrefixes) rpcVerbPrefixes = true)
    by (vm_compute; reflexivity).
  intros Ha Hb Hp. rewrite forallb_forall in H. specialize (H a Ha).
  rewrite forallb_forall in H. specialize (H b Hb).
  rewrite Hp in H. apply String.eqb_eq, H.
Qed.

Lemma stripsPrefix_spec (name prefix : string) :
  stripsPrefix name prefix = true ↔
  ∃ c rest, name = prefix +:+ String c rest ∧ Utf8.IsUpper c = true.
Proof.
  unfold stripsPrefix, HasPrefix. split.
  - intros H. apply andb_prop in H as [H Hu]. apply andb_prop in H as [Hp Hl].
    apply prefix_split in Hp as [t ->].
    destruct t as [|c rest].
    + rewrite append_nil_r, Nat.ltb_irrefl in Hl. discriminate.
    + rewrite get_append in Hu. eauto.
  - intros (c & rest & -> & Hu).
    rewrite prefix_append, get_append, Hu, length_append. simpl.
    replace (String.length prefix <? String.length prefix + S (String.length rest)) with true
      by (symmetry; apply Nat.ltb_lt; lia).
    reflexivity.
Qed.

Lemma rpcGroupKey_strips (prefix : string) (c : ascii) (rest : string) :
  prefix ∈ rpcVerbPrefixes → Utf8.IsUpper c = true →
  rpcGroupKey (prefix +:+ String c rest) = String c rest.
Proof.
  intros Hin Hu. apply list_elem_of_In in Hin. unfold rpcGroupKey.
  destruct (List.find _ rpcVerbPrefixes) as [p|] eqn:E.
  - apply find_some in E as [Hp Hs].
    assert (p = prefix) as ->; [|apply drop_append].
    apply stripsPrefix_spec in Hs as (c' & rest' & Heq & _).
    destruct (prefix_comparable p prefix (prefix +:+ String c rest)) as [H|H].
    + rewrite Heq. apply prefix_append.
    + apply prefix_append.
    + apply verbs_prefix_free; assumption.
    + symmetry. apply verbs_prefix_free; assumption.
  - exfalso. apply (proj1 (find_none _ _)) in E.
    rewrite Forall_forall in E. apply list_elem_of_In in Hin. specialize (E _ Hin).
    assert (stripsPrefix (prefix +:+ String c rest) prefix = true)
      by (apply stripsPrefix_spec; eauto).
    congruence.
Qed.

Lemma rpcGroupKey_keeps (name : string) :
  (∀ prefix c rest, prefix ∈ rpcVerbPrefixes → name = prefix +:+ String c rest →
                    Utf8.IsUpper c = false) →
  rpcGroupKey name = name.
Proof.
  intros H. unfold rpcGroupKey.
  destruct (List.find _ rpcVerbPrefixes) as [p|] eqn:E; [|reflexivity].
  apply find_some in E as [Hp Hs]. apply list_elem_of_In in Hp.
  apply stripsPrefix_spec in Hs as (c & rest & Heq & Hu).
  rewrite (H p c rest Hp Heq) in Hu. discriminate.
Qed.

Lemma SortRPCsInService_grouped (declText : string) (openIdx closeIdx : nat)
      (es : list rpcEntry) (nonRPC : list string) :
  IndexByte declText "{" = Some openIdx →
  LastIndexByte declText "}" = Some closeIdx →
  openIdx < closeIdx →
  parseRPCEntries (take (closeIdx - (openIdx + 1)) (drop (openIdx + 1) declText))
  = (es, nonRPC) →
  1 < length es →
  SortRPCsInService declText "grouped"
  = take (openIdx + 1) declText
    +:+ rebuildBody nonRPC (GoSort.SliceStable lessGrouped es)
    +:+ drop closeIdx declText.
Proof.
  intros Ho Hc Hlt Hp Hn. unfold SortRPCsInService. rewrite Ho, Hc.
  replace (closeIdx <=? openIdx) with false by (symmetry; apply Nat.leb_gt; lia).
  rewrite Hp.
  replace (length es <=? 1) with false by (symmetry; apply Nat.leb_gt; lia).
  reflexivity.
Qed.

(** At most one verb of the list is a prefix of a name, so the first verb
    that matches is also the longest one. *)
Lemma verb_prefix_unique (name p q : string) :
  p ∈ rpcVerbPrefixes → q ∈ rpcVerbPrefixes →
  HasPrefix name p = true → HasPrefix name q = true → p = q.
Proof.
  intros Hp Hq Pp Pq. apply list_elem_of_In in Hp, Hq. unfold HasPrefix in *.
  destruct (prefix_comparable p q name Pp Pq) as [H|H].
  - apply verbs_prefix_free; assumption.
  - symmetry. apply verbs_prefix_free; assumption.
Qed.

(** C8 (grouped RPC sort key).  The resource key of a name made of a verb of
    the list followed by an upper-case character is the name without the
    verb; a name that is not of this shape (no verb in front, the verb alone,
    or a verb followed by a character that is not upper case) is its own key;
    no two verbs of the list are prefixes of one name, so the first match is
    the longest.  In grouped mode the entries are sorted by a stable sort:
    the result is a permutation of the entries, ordered by key and, under one
    key, by full method name, and entries of one name keep their order.
    SortRPCsInService, on a service with more than one RPC, writes the sorted
    entries between the text up to the first opening brace and the text from
    the last closing brace. *)
Theorem C8_grouped_rpc_sort_key :
  (∀ prefix c rest,
      prefix ∈ rpcVerbPrefixes → Utf8.IsUpper c = true →
      rpcGroupKey (prefix +:+ String c rest) = String c rest)
  ∧ (∀ name,
        (∀ prefix c rest, prefix ∈ rpcVerbPrefixes → name = prefix +:+ String c rest →
                          Utf8.IsUpper c = false) →
        rpcGroupKey name = name)
  ∧ (∀ name p q,
        p ∈ rpcVerbPrefixes → q ∈ rpcVerbPrefixes →
        HasPrefix name p = true → HasPrefix name q = true → p = q)
  ∧ (∀ es, ∃ sorted,
        sortEntries "grouped" es = Some sorted
        ∧ Permutation es sorted
        ∧ StronglySorted groupedLe sorted
        ∧ ∀ name, List.filter (fun e => String.eqb (e_Name e) name) sorted
                  = List.filter (fun e => String.eqb (e_Name e) name) es)
  ∧ (∀ declText openIdx closeIdx es nonRPC sorted,
        IndexByte declText "{" = Some openIdx →
        LastIndexByte declText "}" = Some closeIdx →
        openIdx < closeIdx →
        parseRPCEntries (take (closeIdx - (openIdx + 1)) (drop (openIdx + 1) declText))
        = (es, nonRPC) →
        1 < length es →
        sortEntries "grouped" es = Some sorted →
        SortRPCsInService declText "grouped"
        = take (openIdx + 1) declText +:+ rebuildBody nonRPC sorted
          +:+ drop closeIdx declText).
Proof.
  split; [exact rpcGroupKey_strips|].
  split; [exact rpcGroupKey_keeps|].
  split; [exact verb_prefix_unique|].
  split; [exact sortEntries_grouped|].
  intros declText openIdx closeIdx es nonRPC sorted Ho Hc Hlt Hp Hn Hs.
  injection Hs as <-. apply SortRPCsInService_grouped; assumption.
Qed.

(** The key of GetUser, and a service whose three RPCs are grouped by
    resource: the methods of Trip before those of User, and under Trip,
    CreateTrip before GetTrip. *)
Lemma C8_grouped_rpc_sort_key_witness :
  rpcGroupKey ("Get" +:+ String "U" "ser") = "User"
  ∧ rpcGroupKey "Get" = "Get"
  ∧ SortRPCsInService groupedService "grouped" = groupedServiceSorted.
Proof.
  destruct C8_grouped_rpc_sort_key as (Hstrip & Hkeep & _ & Hsort & Hservice).
  split; [|split].
  - apply Hstrip; [|reflexivity].
    apply list_elem_of_In. vm_compute. tauto.
  - apply Hkeep. intros prefix c rest Hin Heq. exfalso.
    apply list_elem_of_In in Hin.
    assert (Hlen : String.length "Get" = String.length (prefix +:+ String c rest))
      by (rewrite <- Heq; reflexivity).
    rewrite length_append in Hlen. simpl in Hin, Hlen.
    repeat (destruct Hin as [<-|Hin]; [simpl in Hlen; lia|]). destruct Hin.
  - rewrite (Hservice groupedService 10 116 groupedEntries [] groupedEntriesSorted);
      [reflexivity|reflexivity|reflexivity|lia|reflexivity|simpl; lia|reflexivity].
Defined.

(** * Reference counts *)

#[local] Set Warnings "-clear-no-such-hyp".

Lemma count_insert (m : gmap string nat) (k t : string) (v : nat) :
  count (<[k := v]> m) t = if String.eqb t k then v else count m t.
Proof.
  unfold count. rewrite lookup_insert.
  destruct (String.eqb t k) eqn:E.
  - apply String.eqb_eq in E. subst. rewrite decide_True by reflexivity. reflexivity.
  - apply String.eqb_neq in E. rewrite decide_False by congruence. reflexivity.
Qed.

Lemma usesOf_insert (m : gmap string (gset string)) (k a : string) (v : gset string) :
  usesOf (<[k := v]> m) a = if String.eqb a k then v else usesOf m a.
Proof.
  unfold usesOf. rewrite lookup_insert.
  destruct (String.eqb a k) eqn:E.
  - apply String.eqb_eq in E. subst. rewrite decide_True by reflexivity. reflexivity.
  - apply String.eqb_neq in E. rewrite decide_False by congruence. reflexivity.
Qed.

Section CountBlock.
Variable defined : gset string.
Variable name : string.

Lemma countRef_fold (refs : list string) seen counts uses :
  let st' := foldl (countRef defined name) (seen, (counts, uses)) refs in
  (∀ x, x ∈ st'.1 ↔ x ∈ seen ∨ (x ∈ refs ∧ x ≠ name ∧ x ∈ defined))
  ∧ (∀ t, count st'.2.1 t
          = count counts t + indicator (bool_decide (t ∈ st'.1 ∧ t ∉ seen)))
  ∧ (∀ a x, x ∈ usesOf st'.2.2 a
            ↔ x ∈ usesOf uses a ∨ (a = name ∧ a ≠ "" ∧ x ∈ st'.1 ∧ x ∉ seen)).
Proof.
  revert seen counts uses. induction refs as [|r refs IH]; intros seen counts uses.
  - simpl. split; [|split].
    + intros x. rewrite elem_of_nil. tauto.
    + intros t. rewrite bool_decide_false by tauto. simpl. lia.
    + intros a x. tauto.
  - simpl foldl. cbv zeta.
    destruct (String.eqb r name) eqn:En.
    { apply String.eqb_eq in En. subst r.
      destruct (IH seen counts uses) as (H1 & H2 & H3). split; [|split].
      - intros x. rewrite H1, elem_of_cons. naive_solver.
      - exact H2.
      - exact H3. }
    apply String.eqb_neq in En.
    destruct (bool_decide (r ∈ defined) && bool_decide (r ∉ seen)) eqn:Ec.
    2:{ destruct (IH seen counts uses) as (H1 & H2 & H3). split; [|split].
        - intros x. rewrite H1, elem_of_cons.
          apply andb_false_iff in Ec.
          rewrite !bool_decide_eq_false in Ec.
          split; [naive_solver|].
          intros [?|[[->|?] [? ?]]]; [tauto| |tauto].
          destruct Ec as [Ec|Ec]; [tauto|]. left.
          destruct (decide (r ∈ seen)); tauto.
        - exact H2.
        - exact H3. }
    apply andb_prop in Ec as [Ed Es].
    apply bool_decide_eq_true in Ed, Es.
    match goal with |- context [foldl (countRef defined name) (?s, (?c, ?u)) refs] =>
      destruct (IH s c u) as (H1 & H2 & H3) end.
    split; [|split].
    + intros x. rewrite H1, elem_of_cons, elem_of_union, elem_of_singleton.
      naive_solver.
    + intros t. rewrite H2, count_insert.
      destruct (String.eqb t r) eqn:Et.
      * apply String.eqb_eq in Et. subst t.
        rewrite bool_decide_false by set_solver.
        rewrite bool_decide_true; [simpl; lia|].
        split; [|exact Es]. apply H1. set_solver.
      * apply String.eqb_neq in Et. f_equal. f_equal.
        apply bool_decide_ext. set_solver.
    + intros a x. rewrite H3.
      destruct (String.eqb name "") eqn:E0; simpl.
      * apply String.eqb_eq in E0. split; [naive_solver|].
        intros [?|(? & ? & ? & ?)]; [tauto|congruence].
      * apply String.eqb_neq in E0. rewrite usesOf_insert.
        destruct (String.eqb a name) eqn:Ea.
        -- apply String.eqb_eq in Ea. subst a.
           rewrite elem_of_union, elem_of_singleton.
           split.
           ++ intros [[->|?]|(? & ? & ? & ?)].
              ** right. split; [reflexivity|]. split; [assumption|].
                 split; [apply H1; set_solver|assumption].
              ** tauto.
              ** right. set_solver.
           ++ intros [?|(_ & _ & Hx & Hn)]; [tauto|].
              destruct (decide (x = r)) as [->|Hne]; [tauto|].
              right. repeat split; try assumption. set_solver.
        -- apply String.eqb_neq in Ea. naive_solver.
Qed.
End CountBlock.

Lemma countBlock_spec (defined : gset string) st (b : Block) :
  (∀ t, count (countBlock defined st b).1 t
        = count st.1 t + indicator (references b t && bool_decide (t ∈ defined)))
  ∧ (∀ a x, x ∈ usesOf (countBlock defined st b).2 a
            ↔ x ∈ usesOf st.2 a
              ∨ (a = Name b ∧ a ≠ "" ∧ references b x = true ∧ x ∈ defined)).
Proof.
  unfold countBlock, references. destruct (refsOf b) as [refs|].
  2:{ split; [intros t; simpl; lia|]. intros a x. naive_solver. }
  destruct st as [counts uses].
  destruct (countRef_fold defined (Name b) refs ∅ counts uses) as (H1 & H2 & H3).
  split.
  - intros t. rewrite H2. f_equal. f_equal. simpl.
    apply eq_true_iff_eq. rewrite bool_decide_eq_true, !andb_true_iff, negb_true_iff.
    rewrite !bool_decide_eq_true, String.eqb_neq, H1. set_solver.
  - intros a x. rewrite H3. simpl.
    rewrite andb_true_iff, negb_true_iff, bool_decide_eq_true, String.eqb_neq, H1.
    set_solver.
Qed.

Lemma countBlocks_spec (defined : gset string) (blocks : list Block) st :
  (∀ t, count (foldl (countBlock defined) st blocks).1 t
        = count st.1 t
          + indicator (bool_decide (t ∈ defined))
            * length (List.filter (fun b => references b t) blocks))
  ∧ (∀ a x, x ∈ usesOf (foldl (countBlock defined) st blocks).2 a
            ↔ x ∈ usesOf st.2 a
              ∨ (a ≠ "" ∧ x ∈ defined
                 ∧ ∃ b, b ∈ blocks ∧ Name b = a ∧ references b x = true)).
Proof.
  revert st. induction blocks as [|b blocks IH]; intros st.
  - simpl. split; [intros; lia|]. intros a x. split; [tauto|].
    intros [?|(_ & _ & b & Hb & _)]; [assumption|]. apply elem_of_nil in Hb as [].
  - simpl foldl. destruct (IH (countBlock defined st b)) as [H1 H2].
    destruct (countBlock_spec defined st b) as [B1 B2]. split.
    + intros t. rewrite H1, B1. simpl.
      destruct (references b t), (bool_decide (t ∈ defined)); simpl; lia.
    + intros a x. rewrite H2, B2. split.
      * intros [[?|(-> & ? & ? & ?)]|(? & ? & b' & ? & ? & ?)]; [tauto| |].
        -- right. split; [assumption|]. split; [assumption|].
           exists b. split; [left|]. tauto.
        -- right. split; [assumption|]. split; [assumption|].
           exists b'. split; [right; assumption|]. tauto.
      * intros [?|(? & ? & b' & Hin & ? & ?)]; [tauto|].
        apply elem_of_cons in Hin as [->|Hin].
        -- left. right. repeat split; auto.
        -- right. split; [assumption|]. split; [assumption|]. exists b'. tauto.
Qed.

(** ** The cycle rule *)

Lemma boost_spec uses counts (a b t : string) :
  count (boost uses counts (a, b)) t
  = if bool_decide (a ∈ usesOf uses b) && (String.eqb t a || String.eqb t b)
    then Nat.max (count counts t) 2 else count counts t.
Proof.
  unfold boost. destruct (bool_decide (a ∈ usesOf uses b)); [|reflexivity]. simpl.
  destruct (count counts a <? 2) eqn:Ea.
  - apply Nat.ltb_lt in Ea.
    destruct (count (<[a:=2]> counts) b <? 2) eqn:Eb.
    + apply Nat.ltb_lt in Eb. rewrite count_insert in Eb. rewrite !count_insert.
      destruct (String.eqb t b) eqn:Etb, (String.eqb t a) eqn:Eta; simpl;
        try apply String.eqb_eq in Etb; try apply String.eqb_eq in Eta; subst;
        try rewrite String.eqb_refl in *; try lia.
      destruct (String.eqb b a); lia.
    + apply Nat.ltb_ge in Eb. rewrite count_insert in Eb. rewrite count_insert.
      destruct (String.eqb t a) eqn:Eta; simpl.
      * apply String.eqb_eq in Eta. subst. lia.
      * destruct (String.eqb t b) eqn:Etb; [|reflexivity].
        apply String.eqb_eq in Etb. subst. rewrite Eta in Eb. lia.
  - apply Nat.ltb_ge in Ea.
    destruct (count counts b <? 2) eqn:Eb.
    + apply Nat.ltb_lt in Eb. rewrite count_insert.
      destruct (String.eqb t b) eqn:Etb; simpl.
      * apply String.eqb_eq in Etb. subst. rewrite orb_true_r. lia.
      * rewrite orb_false_r. destruct (String.eqb t a) eqn:Eta; [|reflexivity].
        apply String.eqb_eq in Eta. subst. lia.
    + apply Nat.ltb_ge in Eb.
      destruct (String.eqb t a) eqn:Eta; simpl.
      * apply String.eqb_eq in Eta. subst. lia.
      * destruct (String.eqb t b) eqn:Etb; [|reflexivity].
        apply String.eqb_eq in Etb. subst. lia.
Qed.

Lemma boost_fold uses (ps : list (string * string)) counts (t : string) :
  count (foldl (boost uses) counts ps) t
  = if boosted uses t ps then Nat.max (count counts t) 2 else count counts t.
Proof.
  revert counts. induction ps as [|[a b] ps IH]; intros counts; [reflexivity|].
  cbn [foldl]. rewrite IH, boost_spec. unfold boosted. simpl existsb.
  destruct (bool_decide (a ∈ usesOf uses b) && (String.eqb t a || String.eqb t b));
    simpl; [|reflexivity].
  destruct (existsb _ ps); lia.
Qed.

Lemma elem_of_usePairs uses (a b : string) :
  (a, b) ∈ usePairs uses ↔ b ∈ usesOf uses a.
Proof.
  unfold usePairs. rewrite list_elem_of_In, in_flat_map. split.
  - intros ([a' s] & Hin & Hab). apply list_elem_of_In, elem_of_map_to_list in Hin.
    apply in_map_iff in Hab as (b' & Heq & Hb). injection Heq as <- <-.
    apply list_elem_of_In, elem_of_elements in Hb. unfold usesOf. rewrite Hin. exact Hb.
  - intros Hb. unfold usesOf in Hb. destruct (uses !! a) as [s|] eqn:E; simpl in Hb.
    + exists (a, s). split; [apply list_elem_of_In, elem_of_map_to_list, E|].
      apply in_map_iff. exists b. split; [reflexivity|].
      apply list_elem_of_In, elem_of_elements, Hb.
    + apply elem_of_empty in Hb as [].
Qed.

Lemma boosted_usePairs uses (t : string) :
  boosted uses t (usePairs uses) = true
  ↔ ∃ u, u ∈ usesOf uses t ∧ t ∈ usesOf uses u.
Proof.
  unfold boosted. rewrite existsb_exists. split.
  - intros ([a b] & Hin & H). apply list_elem_of_In, elem_of_usePairs in Hin.
    apply andb_prop in H as [Hm Ht]. apply bool_decide_eq_true in Hm.
    apply orb_prop in Ht as [Ht|Ht]; apply String.eqb_eq in Ht; subst t; eauto.
  - intros (u & Hu & Ht). exists (t, u). split.
    + apply list_elem_of_In, elem_of_usePairs, Hu.
    + rewrite bool_decide_true by exact Ht. rewrite String.eqb_refl. reflexivity.
Qed.

(** The counts of BuildRefCounts: the raw count, raised to two for a type in
    a direct mutual reference. *)
Lemma BuildRefCounts_boosted (blocks : list Block) (t : string) :
  ∃ raised : bool,
    (raised = true ↔ mutual blocks t)
    ∧ count (BuildRefCounts blocks) t
      = if raised then Nat.max (rawCount blocks t) 2 else rawCount blocks t.
Proof.
  unfold BuildRefCounts.
  destruct (countBlocks_spec (definedTypes blocks) blocks (∅, ∅)) as [H1 H2].
  destruct (foldl (countBlock (definedTypes blocks)) (∅, ∅) blocks) as [counts uses].
  simpl in H1, H2.
  assert (Hraw : count counts t = rawCount blocks t).
  { rewrite H1. unfold rawCount, referrers, count. rewrite lookup_empty. simpl.
    destruct (bool_decide (t ∈ definedTypes blocks)); simpl; lia. }
  assert (Huses : ∀ a x, x ∈ usesOf uses a ↔ usesType blocks a x).
  { intros a x. rewrite H2. unfold usesType, usesOf at 1. rewrite lookup_empty. simpl.
    split; [|tauto]. intros [H|H]; [apply elem_of_empty in H as []|exact H]. }
  exists (boosted uses t (usePairs uses)). split.
  - rewrite boosted_usePairs. unfold mutual.
    split; intros (u & Hu & Ht); exists u; split; apply Huses; assumption.
  - rewrite boost_fold, Hraw. reflexivity.
Qed.

Lemma BuildRefCounts_spec (blocks : list Block) (t : string) :
  (mutual blocks t →
   count (BuildRefCounts blocks) t = Nat.max (rawCount blocks t) 2)
  ∧ (¬ mutual blocks t → count (BuildRefCounts blocks) t = rawCount blocks t).
Proof.
  destruct (BuildRefCounts_boosted blocks t) as (raised & Hm & ->).
  split; intros H.
  - apply Hm in H. rewrite H. reflexivity.
  - destruct raised; [|reflexivity]. exfalso. apply H, Hm. reflexivity.
Qed.

Lemma rawCount_le_count (blocks : list Block) (t : string) :
  rawCount blocks t ≤ count (BuildRefCounts blocks) t.
Proof.
  destruct (BuildRefCounts_boosted blocks t) as (raised & _ & ->).
  destruct raised; lia.
Qed.

(** ** Field types are never dotted *)

Lemma addType_undotted st (t : string) : undotted st → undotted (addType st t).
Proof.
  destruct st as [seen types]. unfold undotted, addType. intros H.
  destruct (Contains t ".") eqn:E; [exact H|].
  destruct (negb (String.eqb t "") && negb (isScalarType t) && bool_decide (t ∉ seen));
    [|exact H].
  simpl. apply Forall_app. split; [exact H|]. constructor; [exact E|constructor].
Qed.

Lemma addTypes_undotted {A} (f : A → string) (l : list A) st :
  undotted st → undotted (foldl (fun st m => addType st (f m)) st l).
Proof.
  revert st. induction l as [|m l IH]; intros st H; [exact H|].
  simpl. apply IH, addType_undotted, H.
Qed.

Lemma oneof_undotted (l : list (list string)) st :
  undotted st →
  undotted (foldl (fun st m =>
                     let oneofBody := sub m 1 in
                     foldl (fun st v => addType st (sub v 1)) st
                       (Regexp.FindAllStringSubmatch oneofVariantRe 1 oneofBody))
              st l).
Proof.
  revert st. induction l as [|m l IH]; intros st H; [exact H|].
  simpl. apply IH. apply (addTypes_undotted (fun v => sub v 1)), H.
Qed.

Lemma ExtractFieldTypes_undotted (b : Block) (r : string) :
  r ∈ ExtractFieldTypes b → Contains r "." = false.
Proof.
  unfold ExtractFieldTypes.
  destruct (bool_decide (Kind b ≠ BlockMessage) && bool_decide (Kind b ≠ BlockExtend));
    [intros H; apply elem_of_nil in H as []|].
  cbv zeta. intros H.
  match type of H with r ∈ ?st.2 => assert (Hu : undotted st) end.
  { apply oneof_undotted.
    apply (addTypes_undotted (fun m => sub m 1)).
    apply (addTypes_undotted (fun m => sub m 1)). constructor. }
  unfold undotted in Hu. rewrite Forall_forall in Hu. apply Hu, H.
Qed.

(** ** Counting *)

Lemma filter_one {A} (P : A → bool) (l : list A) (x : A) :
  x ∈ l → P x = true → 1 ≤ length (List.filter P l).
Proof.
  induction l as [|h l IH]; intros Hin Hx; [apply elem_of_nil in Hin as []|].
  simpl. apply elem_of_cons in Hin as [->|Hin].
  - rewrite Hx. simpl. lia.
  - specialize (IH Hin Hx). destruct (P h); simpl; lia.
Qed.

Lemma filter_two_lt {A} (P : A → bool) (l : list A) (i j : nat) (x y : A) :
  i < j → l !! i = Some x → l !! j = Some y → P x = true → P y = true →
  2 ≤ length (List.filter P l).
Proof.
  revert i j. induction l as [|h l IH]; intros i j Hlt Hi Hj Hx Hy; [discriminate|].
  destruct j as [|j]; [lia|]. simpl in Hj. destruct i as [|i].
  - simpl in Hi. injection Hi as ->. simpl. rewrite Hx. simpl.
    pose proof (filter_one P l y (list_elem_of_lookup_2 _ _ _ Hj) Hy). lia.
  - simpl in Hi. assert (Hlt' : i < j) by lia.
    specialize (IH i j Hlt' Hi Hj Hx Hy). simpl. destruct (P h); simpl; lia.
Qed.

Lemma filter_two {A} (P : A → bool) (l : list A) (i j : nat) (x y : A) :
  i ≠ j → l !! i = Some x → l !! j = Some y → P x = true → P y = true →
  2 ≤ length (List.filter P l).
Proof.
  intros Hne Hi Hj Hx Hy. destruct (Nat.lt_ge_cases i j) as [H|H].
  - eapply (filter_two_lt P l i j); eassumption.
  - eapply (filter_two_lt P l j i); try eassumption. lia.
Qed.

Lemma filter_nil_length {A} (P : A → bool) (l : list A) :
  (∀ x, x ∈ l → P x = false) → length (List.filter P l) = 0.
Proof.
  induction l as [|h l IH]; intros H; [reflexivity|]. simpl.
  rewrite (H h) by left. apply IH. intros x Hx. apply H. right. exact Hx.
Qed.


(** The types of the file: the names, not empty, of its messages and enums. *)
Lemma definedTypes_from (blocks : list Block) (acc : gset string) (t : string) :
  t ∈ foldl (fun defined b =>
               if (bool_decide (Kind b = BlockMessage) || bool_decide (Kind b = BlockEnum))
                  && negb (String.eqb (Name b) "")
               then {[Name b]} ∪ defined else defined) acc blocks
  ↔ t ∈ acc
    ∨ (t ≠ "" ∧ ∃ b, b ∈ blocks ∧ (Kind b = BlockMessage ∨ Kind b = BlockEnum)
                     ∧ Name b = t).
Proof.
  revert acc. induction blocks as [|b blocks IH]; intros acc.
  - simpl. split; [tauto|]. intros [?|(_ & b & Hb & _)]; [assumption|].
    apply elem_of_nil in Hb as [].
  - cbn [foldl]. rewrite IH. clear IH.
    destruct ((bool_decide (Kind b = BlockMessage) || bool_decide (Kind b = BlockEnum))
              && negb (String.eqb (Name b) "")) eqn:E.
    + apply andb_prop in E as [Ek En]. apply orb_prop in Ek.
      rewrite !bool_decide_eq_true in Ek. apply negb_true_iff, String.eqb_neq in En.
      rewrite elem_of_union, elem_of_singleton. split.
      * intros [[->|?]|(? & b' & ? & ? & ?)]; [|tauto|].
        -- right. split; [exact En|]. exists b. split; [left|]. tauto.
        -- right. split; [assumption|]. exists b'. split; [right; assumption|]. tauto.
      * intros [?|(Hn & b' & Hb & Hk & Hname)]; [tauto|].
        apply elem_of_cons in Hb as [->|Hb]; [left; left; congruence|].
        right. split; [assumption|]. exists b'. tauto.
    + split.
      * intros [?|(? & b' & ? & ? & ?)]; [tauto|].
        right. split; [assumption|]. exists b'. split; [right; assumption|]. tauto.
      * intros [?|(Hn & b' & Hb & Hk & Hname)]; [tauto|].
        apply elem_of_cons in Hb as [->|Hb].
        -- exfalso. apply andb_false_iff in E as [E|E].
           ++ apply orb_false_iff in E as [E1 E2].
              rewrite !bool_decide_eq_false in E1, E2. tauto.
           ++ apply negb_false_iff, String.eqb_eq in E. congruence.
        -- right. split; [assumption|]. exists b'. tauto.
Qed.

Lemma definedTypes_spec (blocks : list Block) (t : string) :
  t ∈ definedTypes blocks
  ↔ t ≠ "" ∧ ∃ b, b ∈ blocks ∧ (Kind b = BlockMessage ∨ Kind b = BlockEnum)
                  ∧ Name b = t.
Proof.
  unfold definedTypes. rewrite definedTypes_from. split; [|tauto].
  intros [H|H]; [apply elem_of_empty in H as []|exact H].
Qed.

(** X26.  The reference counting rules of BuildRefCounts.  The types of the file
    are the names of its messages and enums.  The count of a type is
    its raw count, the number of declarations of the file that reference it
    under another name than their own (zero for a name that is no type of
    the file), raised to two when the type is in a direct mutual reference.
    So a type of the file referenced by two distinct declarations has a
    count of at least two; a type with one referring declaration, whatever
    the number of its references, and in no mutual reference has count one;
    a type referenced by no declaration but itself has count zero; two types
    that reference each other have counts of at least two.  A field type is
    never dotted, and a positive count comes from a reference spelled exactly
    as the declared name of the type. *)
Theorem X26_reference_counting_rules :
  (∀ blocks t,
      t ∈ definedTypes blocks
      ↔ t ≠ "" ∧ ∃ b, b ∈ blocks ∧ (Kind b = BlockMessage ∨ Kind b = BlockEnum)
                      ∧ Name b = t)
  ∧ (∀ blocks t,
      (mutual blocks t →
       count (BuildRefCounts blocks) t = Nat.max (rawCount blocks t) 2)
      ∧ (¬ mutual blocks t → count (BuildRefCounts blocks) t = rawCount blocks t))
  ∧ (∀ blocks t i j b1 b2,
        t ∈ definedTypes blocks → i ≠ j →
        blocks !! i = Some b1 → blocks !! j = Some b2 →
        references b1 t = true → references b2 t = true →
        2 ≤ count (BuildRefCounts blocks) t)
  ∧ (∀ blocks t b,
        t ∈ definedTypes blocks → referrers blocks t = [b] → ¬ mutual blocks t →
        count (BuildRefCounts blocks) t = 1)
  ∧ (∀ blocks t,
        (∀ b refs, b ∈ blocks → refsOf b = Some refs → t ∈ refs → Name b = t) →
        count (BuildRefCounts blocks) t = 0)
  ∧ (∀ blocks a b,
        usesType blocks a b → usesType blocks b a →
        2 ≤ count (BuildRefCounts blocks) a ∧ 2 ≤ count (BuildRefCounts blocks) b)
  ∧ (∀ b r, r ∈ ExtractFieldTypes b → Contains r "." = false)
  ∧ (∀ blocks t,
        0 < count (BuildRefCounts blocks) t →
        t ∈ definedTypes blocks
        ∧ ∃ b refs, b ∈ blocks ∧ refsOf b = Some refs ∧ t ∈ refs ∧ t ≠ Name b).
Proof.
  assert (Href : ∀ b t, references b t = true →
                        ∃ refs, refsOf b = Some refs ∧ t ∈ refs ∧ t ≠ Name b).
  { intros b t. unfold references. destruct (refsOf b) as [refs|]; [|discriminate].
    intros H. apply andb_prop in H as [H1 H2]. apply bool_decide_eq_true in H1.
    apply negb_true_iff, String.eqb_neq in H2. eauto. }
  split; [exact definedTypes_spec|].
  split; [exact BuildRefCounts_spec|].
  split; [|split; [|split; [|split; [|split]]]].
  - intros blocks t i j b1 b2 Hd Hne Hi Hj H1 H2.
    pose proof (rawCount_le_count blocks t) as Hle. unfold rawCount in Hle.
    rewrite bool_decide_true in Hle by exact Hd.
    pose proof (filter_two (fun b => references b t) blocks i j b1 b2 Hne Hi Hj H1 H2).
    unfold referrers in Hle. lia.
  - intros blocks t b Hd Hr Hm.
    rewrite (proj2 (BuildRefCounts_spec blocks t) Hm). unfold rawCount.
    rewrite bool_decide_true by exact Hd. rewrite Hr. reflexivity.
  - intros blocks t Hself.
    assert (Hnone : ∀ b, b ∈ blocks → references b t = false).
    { intros b Hb. destruct (references b t) eqn:E; [|reflexivity].
      apply Href in E as (refs & Hr & Hin & Hne). exfalso. apply Hne. symmetry.
      eapply Hself; eassumption. }
    assert (Hm : ¬ mutual blocks t).
    { intros (u & _ & _ & _ & b & Hb & _ & Hr). rewrite (Hnone b Hb) in Hr.
      discriminate. }
    rewrite (proj2 (BuildRefCounts_spec blocks t) Hm). unfold rawCount, referrers.
    rewrite (filter_nil_length _ _ Hnone). destruct (bool_decide _); reflexivity.
  - intros blocks a b Hab Hba. split.
    + assert (Hm : mutual blocks a) by (exists b; split; assumption).
      rewrite (proj1 (BuildRefCounts_spec blocks a) Hm). lia.
    + assert (Hm : mutual blocks b) by (exists a; split; assumption).
      rewrite (proj1 (BuildRefCounts_spec blocks b) Hm). lia.
  - exact ExtractFieldTypes_undotted.
  - intros blocks t Hpos.
    destruct (BuildRefCounts_boosted blocks t) as (raised & Hm & Hc).
    assert (Hb : ∃ b, b ∈ blocks ∧ references b t = true ∧ t ∈ definedTypes blocks).
    { destruct raised.
      - destruct (proj1 Hm eq_refl) as (u & _ & _ & Hd & b & Hb & _ & Hr). eauto.
      - rewrite Hc in Hpos. unfold rawCount in Hpos.
        destruct (bool_decide (t ∈ definedTypes blocks)) eqn:Ed; [|lia].
        apply bool_decide_eq_true in Ed. unfold referrers in Hpos.
        destruct (List.filter (fun b => references b t) blocks) as [|b l] eqn:Ef;
          [simpl in Hpos; lia|].
        assert (Hin : In b (List.filter (fun b => references b t) blocks))
          by (rewrite Ef; left; reflexivity).
        apply filter_In in Hin as [Hin Hr]. apply list_elem_of_In in Hin. eauto. }
    destruct Hb as (b & Hb & Hr & Hd). split; [exact Hd|].
    apply Href in Hr as (refs & ? & ? & ?). eauto 8.
Qed.

(** C3 (reference counting): a dotted reference increments a count.  The
    scanner accepts [dottedName] and reads its second declaration under the
    name a.B; the dotted request and response type of the RPC, which
    ExtractRPCs keeps, is then a reference to it: the count of a.B is one,
    where the field types of a message are collected without the dotted
    ones. *)
Theorem C3_dotted_rpc_type_is_counted :
  ScanFile dottedName = Done (inl dottedBlocks)
  ∧ map refsOf dottedBlocks = [Some ["a.B"; "a.B"]; Some []]
  ∧ Contains "a.B" "." = true
  ∧ count (BuildRefCounts dottedBlocks) "a.B" = 1
  ∧ ExtractFieldTypes (newBlock BlockMessage "M" "" "message M { a.B b = 1; }") = [].
Proof. split; [|split; [|split; [|split]]]; vm_compute; reflexivity. Qed.

(** Membership in the types of a given block list, by evaluation. *)
Ltac in_defined := apply (bool_decide_unpack _); vm_compute; exact I.
(** The counts of four block lists: T referenced by A and B; T referenced
    twice by A; TreeNode referencing itself; A and B referencing each
    other. *)
Lemma X26_reference_counting_rules_witness :
  2 ≤ count (BuildRefCounts refTwoDeclarations) "T"
  ∧ count (BuildRefCounts refTwice) "T" = 1
  ∧ count (BuildRefCounts refSelf) "TreeNode" = 0
  ∧ (2 ≤ count (BuildRefCounts refMutual) "A" ∧ 2 ≤ count (BuildRefCounts refMutual) "B").
Proof.
  destruct X26_reference_counting_rules as (_ & _ & Htwo & Hone & Hself & Hmutual & _).
  split; [|split; [|split]].
  - eapply (Htwo refTwoDeclarations "T" 0 1); [in_defined|lia|reflexivity..].
  - apply (Hone refTwice "T" (newBlock BlockMessage "A" "" "message A { T a = 1; T b = 2; }"));
      [in_defined|reflexivity|].
    intros (u & (_ & _ & b & Hb & Hn & Hr) & _).
    apply elem_of_cons in Hb as [->|Hb]; [discriminate Hn|].
    apply elem_of_cons in Hb as [->|Hb]; [|apply elem_of_nil in Hb as []].
    vm_compute in Hr. discriminate Hr.
  - apply Hself. intros b refs Hb _ _.
    apply elem_of_cons in Hb as [->|Hb]; [reflexivity|apply elem_of_nil in Hb as []].
  - apply Hmutual.
    + split; [discriminate|]. split; [in_defined|].
      eexists. split; [left|]. split; reflexivity.
    + split; [discriminate|]. split; [in_defined|].
      eexists. split; [right; left|]. split; reflexivity.
Defined.

(** * The scanner's error *)

(** ** The cursor moves forward *)

Lemma skipToEndOfLine_ge content pos p :
  skipToEndOfLine content pos = Done p → pos ≤ p.
Proof.
  unfold skipToEndOfLine. intros H. apply bind_Done in H as (q & Hq & H).
  injection H as <-.
  assert (pos ≤ q).
  { revert Hq. apply (run_loop_inv (fun s => pos ≤ s) (fun r => pos ≤ r)); [|lia].
    intros s Hs. destruct (negb (atEnd content s) && _); lia. }
  destruct (negb (atEnd content q)); lia.
Qed.

Lemma skipBlockComment_ge content pos p :
  skipBlockComment content pos = Done p → pos ≤ p.
Proof.
  unfold skipBlockComment.
  apply (run_loop_inv (fun s => pos ≤ s) (fun r => pos ≤ r)); [|lia].
  intros s Hs. destruct (atEnd content s); [lia|]. destruct (_ && _); lia.
Qed.

Lemma skipString_ge content quote pos p :
  skipString content quote pos = Done p → pos ≤ p.
Proof.
  unfold skipString.
  apply (run_loop_inv (fun s => pos ≤ s) (fun r => pos ≤ r)); [|lia].
  intros s Hs. destruct (atEnd content s); [lia|]. cbv zeta.
  destruct (Ascii.eqb _ "\"); [lia|]. destruct (Ascii.eqb _ quote); lia.
Qed.

Lemma skipOneToken_ge content pos p :
  skipOneToken content pos = Done p → pos ≤ p.
Proof.
  unfold skipOneToken. cbv zeta. destruct (isQuote _); [apply skipString_ge|].
  destruct (_ && _); [apply skipToEndOfLine_ge|].
  destruct (_ && _); [apply skipBlockComment_ge|].
  intros [= <-]. lia.
Qed.

Lemma continue_with_inv {S R} (r : outcome nat) (k : nat → S)
      (I : S → Prop) (Q : R → Prop) :
  (∀ p, r = Done p → I (k p)) →
  match @continue_with S R r k with
  | Next s' => I s'
  | Stop (Done r) => Q r
  | Stop _ => True
  end.
Proof. destruct r; simpl; auto. Qed.

Lemma readUntilSemicolon_from content (n q pos p : nat) :
  q ≤ pos →
  run_loop n
    (fun p => if atEnd content p then Stop (Done p)
              else if Ascii.eqb (peek content p) ";" then Stop (Done (S p))
              else continue_with (skipOneToken content p) id) pos = Done p →
  q ≤ p.
Proof.
  intros Hq. apply (run_loop_inv (fun s => q ≤ s) (fun r => q ≤ r)); [|exact Hq].
  intros s Hs. destruct (atEnd content s); [lia|].
  destruct (Ascii.eqb _ ";"); [lia|].
  apply continue_with_inv. intros p' Hp'. apply skipOneToken_ge in Hp'.
  unfold id. lia.
Qed.

Ltac sub_scan :=
  apply continue_with_inv;
  let p' := fresh "p" in let Hp' := fresh "Hp" in
  intros p' Hp';
  first [apply skipString_ge in Hp' | apply skipToEndOfLine_ge in Hp'
        | apply skipBlockComment_ge in Hp'];
  simpl; lia.

Lemma readUntilSemicolonWithBraces_from content (n q pos p : nat) (d : Z) :
  q ≤ pos →
  run_loop n
    (fun '(p, depth) =>
       if atEnd content p then Stop (Done p)
       else let c := peek content p in
         if isQuote c then continue_with (skipString content c p) (fun p' => (p', depth))
         else if Ascii.eqb c "/" && Ascii.eqb (peekAt content p 1) "/"
              then continue_with (skipToEndOfLine content p) (fun p' => (p', depth))
         else if Ascii.eqb c "/" && Ascii.eqb (peekAt content p 1) "*"
              then continue_with (skipBlockComment content p) (fun p' => (p', depth))
         else if Ascii.eqb c "{" then Next (S p, depth + 1)%Z
         else if Ascii.eqb c "}" then Next (S p, depth - 1)%Z
         else if Ascii.eqb c ";" && (depth <=? 0)%Z then Stop (Done (S p))
         else Next (S p, depth)) (pos, d) = Done p →
  q ≤ p.
Proof.
  intros Hq.
  apply (run_loop_inv (fun s : nat * Z => q ≤ s.1) (fun r => q ≤ r)); [|exact Hq].
  intros [s depth] Hs. simpl in Hs. destruct (atEnd content s); [lia|]. cbv zeta.
  destruct (isQuote _); [sub_scan|].
  destruct (_ && _); [sub_scan|].
  destruct (_ && _); [sub_scan|].
  destruct (Ascii.eqb _ "{"); [simpl; lia|].
  destruct (Ascii.eqb _ "}"); [simpl; lia|].
  destruct (_ && _); simpl; lia.
Qed.

Lemma readBracedBlock_from content (n q pos p : nat) (d : Z) :
  q ≤ pos →
  run_loop n
    (fun '(p, depth) =>
       if atEnd content p then Stop (Done p)
       else let c := peek content p in
         if isQuote c then continue_with (skipString content c p) (fun p' => (p', depth))
         else if Ascii.eqb c "/" && Ascii.eqb (peekAt content p 1) "/"
              then continue_with (skipToEndOfLine content p) (fun p' => (p', depth))
         else if Ascii.eqb c "/" && Ascii.eqb (peekAt content p 1) "*"
              then continue_with (skipBlockComment content p) (fun p' => (p', depth))
         else if Ascii.eqb c "{" then Next (S p, depth + 1)%Z
         else if Ascii.eqb c "}" then
                if (depth - 1 =? 0)%Z then Stop (Done (S p))
                else Next (S p, depth - 1)%Z
         else Next (S p, depth)) (pos, d) = Done p →
  q ≤ p.
Proof.
  intros Hq.
  apply (run_loop_inv (fun s : nat * Z => q ≤ s.1) (fun r => q ≤ r)); [|exact Hq].
  intros [s depth] Hs. simpl in Hs. destruct (atEnd content s); [lia|]. cbv zeta.
  destruct (isQuote _); [sub_scan|].
  destruct (_ && _); [sub_scan|].
  destruct (_ && _); [sub_scan|].
  destruct (Ascii.eqb _ "{"); [simpl; lia|].
  destruct (Ascii.eqb _ "}"); [|simpl; lia].
  destruct (_ =? _)%Z; simpl; lia.
Qed.

Lemma collectComments_ge content pos comments p :
  collectComments content pos = Done (comments, p) → pos ≤ p.
Proof.
  unfold collectComments.
  apply (run_loop_inv (fun s : nat * string => pos ≤ s.1)
                      (fun r : string * nat => pos ≤ r.2)); [|simpl; lia].
  intros [s buf] Hs. simpl in Hs. destruct (atEnd content s); [exact Hs|]. cbv zeta.
  destruct (_ || _); [simpl; lia|].
  destruct (_ && _); [|exact Hs].
  destruct (Ascii.eqb (peekAt content s 1) "/").
  - destruct (skipToEndOfLine content s) as [p'| |] eqn:E; try exact I.
    apply skipToEndOfLine_ge in E. destruct (slice content s p'); try exact I. simpl. lia.
  - destruct (skipBlockComment content s) as [p'| |] eqn:E; try exact I.
    apply skipBlockComment_ge in E. destruct (slice content s p'); try exact I. simpl. lia.
Qed.

Lemma slice_Done (s : string) (lo hi : nat) (t : string) :
  slice s lo hi = Done t →
  lo ≤ hi ∧ hi ≤ String.length s ∧ t = take (hi - lo) (drop lo s).
Proof.
  unfold slice. destruct (lo <=? hi) eqn:E1; [|discriminate].
  destruct (hi <=? String.length s) eqn:E2; [|discriminate]. simpl.
  intros [= <-]. apply Nat.leb_le in E1, E2. auto.
Qed.

Lemma consumeTrailingComment_ge content pos text p :
  consumeTrailingComment content pos = Done (text, p) →
  pos ≤ String.length content → pos ≤ p ∧ p ≤ String.length content.
Proof.
  unfold consumeTrailingComment. cbv zeta. intros H Hlen.
  apply bind_Done in H as (q & Hq & H).
  assert (pos ≤ q).
  { revert Hq. apply (run_loop_inv (fun s => pos ≤ s) (fun r => pos ≤ r)); [|lia].
    intros s Hs. destruct (negb (atEnd content s) && _); lia. }
  destruct (negb (atEnd content q) && _ && _).
  - apply bind_Done in H as (p' & Hp' & H). apply bind_Done in H as (t & Ht & H).
    injection H as <- <-. apply skipToEndOfLine_ge in Hp'.
    apply slice_Done in Ht as (? & ? & _). lia.
  - injection H as <- <-. lia.
Qed.

(** ** The keyword at the cursor *)

Lemma Done_inj {A} (a b : A) : Done a = Done b → a = b.
Proof. congruence. Qed.

Lemma take_drop_head (n p : nat) (s : string) (c : ascii) (r : string) :
  take n (drop p s) = String c r → String.get p s = Some c.
Proof.
  revert s. induction p as [|p IH]; intros s H.
  - destruct s as [|d s]; [destruct n; discriminate|].
    destruct n; [discriminate|]. simpl in H. injection H as -> _. reflexivity.
  - destruct s as [|d s]; [destruct n; discriminate|]. simpl in H. simpl. apply IH, H.
Qed.

Lemma get_Some_lt (p : nat) (s : string) (c : ascii) :
  String.get p s = Some c → p < String.length s.
Proof.
  revert s. induction p as [|p IH]; intros [|d s] H; simpl in *; try discriminate; [lia|].
  apply IH in H. lia.
Qed.

Lemma matchKeyword_cases content pos kw :
  matchKeyword content pos = Done kw →
  kw = ""
  ∨ (kw ≠ "" ∧ atEnd content pos = false ∧ plain (peek content pos) = true
     ∧ ∃ kind read, keywordKind kw = Some (kind, read)
         ∧ (read = readUntilSemicolon ∨ read = readUntilSemicolonWithBraces
            ∨ read = readBracedBlock)).
Proof.
  unfold matchKeyword. intros H. apply bind_Done in H as (rest & Hrest & H).
  apply Done_inj in H. subst kw. apply slice_Done in Hrest as (_ & _ & Hrest).
  destruct (List.find _ keywords) as [kw|] eqn:E; [|left; reflexivity]. right.
  cbn [default from_option].
  apply find_some in E as [Hin Hkw].
  apply andb_prop in Hkw as [Hkw _]. apply andb_prop in Hkw as [Hpre _].
  unfold HasPrefix in Hpre.
  assert (Hhead : ∃ c r k, kw = String c k ∧ rest = String c r ∧ plain c = true
                    ∧ ∃ kind read, keywordKind kw = Some (kind, read)
                        ∧ (read = readUntilSemicolon ∨ read = readUntilSemicolonWithBraces
                           ∨ read = readBracedBlock)).
  { simpl in Hin.
    repeat (destruct Hin as [<-|Hin];
            [destruct rest as [|c r]; [discriminate|];
             rewrite prefix_cons in Hpre;
             match type of Hpre with
               context [ascii_dec ?a c] => destruct (ascii_dec a c) as [<-|]; [|discriminate]
             end;
             do 3 eexists; split; [reflexivity|]; split; [reflexivity|];
             split; [reflexivity|]; do 2 eexists; split; [reflexivity|]; tauto|]).
    destruct Hin. }
  destruct Hhead as (c & r & k & -> & Hr & Hplain & Hkind).
  rewrite Hr in Hrest. symmetry in Hrest. apply take_drop_head in Hrest.
  pose proof (get_Some_lt _ _ _ Hrest) as Hlt.
  assert (Hend : atEnd content pos = false)
    by (unfold atEnd, len; apply Nat.leb_gt; exact Hlt).
  split; [discriminate|]. split; [exact Hend|]. split; [|exact Hkind].
  unfold peek, at_. rewrite Hend, Hrest. exact Hplain.
Qed.

Lemma plain_cases (c : ascii) :
  plain c = true →
  isQuote c = false ∧ Ascii.eqb c "/" = false ∧ Ascii.eqb c ";" = false
  ∧ Ascii.eqb c "{" = false ∧ Ascii.eqb c "}" = false.
Proof.
  unfold plain. rewrite !andb_true_iff, !negb_true_iff. tauto.
Qed.

(** The readers start on the first byte of a keyword and step over it. *)
Lemma reader_progress content pos p read :
  read = readUntilSemicolon ∨ read = readUntilSemicolonWithBraces
  ∨ read = readBracedBlock →
  atEnd content pos = false → plain (peek content pos) = true →
  read content pos = Done p → pos < p.
Proof.
  intros Hread Hend Hplain. apply plain_cases in Hplain as (Hq & Hs & Hsemi & Ho & Hc).
  destruct Hread as [-> | [-> | ->]].
  - unfold readUntilSemicolon, fuel. cbn [run_loop].
    rewrite Hend, Hsemi. unfold skipOneToken. cbv zeta. rewrite Hq, Hs. simpl.
    apply readUntilSemicolon_from. unfold id. lia.
  - unfold readUntilSemicolonWithBraces, fuel. cbn [run_loop].
    rewrite Hend. cbv zeta. rewrite Hq, Hs, Ho, Hc, Hsemi. simpl.
    apply readUntilSemicolonWithBraces_from. lia.
  - unfold readBracedBlock, fuel. cbn [run_loop].
    rewrite Hend. cbv zeta. rewrite Hq, Hs, Ho, Hc. simpl.
    apply readBracedBlock_from. lia.
Qed.

(** ** One declaration *)

Lemma take_all (n : nat) (s : string) : String.length s ≤ n → take n s = s.
Proof.
  revert n. induction s as [|c s IH]; intros [|n] H; simpl in *; try reflexivity; [lia|].
  rewrite IH by lia. reflexivity.
Qed.

Lemma length_drop (p : nat) (s : string) :
  String.length (drop p s) = String.length s - p.
Proof.
  revert s. induction p as [|p IH]; intros [|c s]; simpl; try reflexivity; try lia.
  apply IH.
Qed.

(** The snippet of the error: at most 40 bytes from the cursor. *)
Lemma context_snippet content (pos n : nat) :
  pos ≤ len content →
  slice content pos (if len content <? pos + n then len content else pos + n)
  = Done (take n (drop pos content)).
Proof.
  intros Hle. unfold slice, len in *.
  destruct (String.length content <? pos + n) eqn:E.
  - apply Nat.ltb_lt in E.
    replace (pos <=? String.length content) with true by (symmetry; apply Nat.leb_le; lia).
    rewrite Nat.leb_refl. cbn [andb]. f_equal.
    rewrite !take_all; [reflexivity|rewrite length_drop; lia..].
  - apply Nat.ltb_ge in E.
    replace (pos <=? pos + n) with true by (symmetry; apply Nat.leb_le; lia).
    replace (pos + n <=? String.length content) with true
      by (symmetry; apply Nat.leb_le; lia).
    cbn [andb]. f_equal. f_equal. lia.
Qed.

Lemma readDeclaration_cases content pos r p' :
  pos ≤ len content →
  readDeclaration content pos = Done (r, p') →
  (matchKeyword content pos = Done ""
   ∧ r = inr (ExpectedKeyword pos (take 40 (drop pos content))))
  ∨ (∃ block, r = inl block ∧ pos < p' ∧ p' ≤ len content).
Proof.
  intros Hle H. unfold readDeclaration in H.
  apply bind_Done in H as (kw & Hkw & H).
  destruct (matchKeyword_cases _ _ _ Hkw) as [->|(Hne & Hend & Hplain & kind & read & Hk & Hr)].
  - left. split; [exact Hkw|]. rewrite String.eqb_refl in H. cbv zeta in H.
    rewrite (context_snippet content pos 40 Hle) in H.
    apply Done_inj in H. congruence.
  - right. apply String.eqb_neq in Hne. rewrite Hne, Hk in H.
    apply bind_Done in H as (p & Hp & H). apply bind_Done in H as (text & Ht & H).
    apply bind_Done in H as ([trailing p''] & Hc & H).
    apply Done_inj in H. injection H as <- <-.
    eexists. split; [reflexivity|].
    pose proof (reader_progress content pos p read Hr Hend Hplain Hp).
    apply slice_Done in Ht as (_ & Hlen & _).
    apply consumeTrailingComment_ge in Hc; [|exact Hlen]. unfold len. lia.
Qed.

(** ** The loop of scan *)

Lemma scans_to_fuel content pos blocks :
  scans_to content pos blocks →
  pos ≤ len content
  ∧ ∃ k, k ≤ pos
       ∧ scan content = run_loop (S (len content) - k) (scanStep content) (pos, blocks).
Proof.
  induction 1 as [|pos blocks comments p block p' Hs (Hle & k & Hk & IH) Hend Hc Hend' Hd].
  - split; [lia|]. exists 0. split; [lia|]. reflexivity.
  - pose proof (collectComments_ge _ _ _ _ Hc) as Hp.
    assert (Hple : p ≤ len content).
    { unfold atEnd in Hend'. apply Nat.leb_gt in Hend'. lia. }
    destruct (readDeclaration_cases _ _ _ _ Hple Hd) as [[_ ?]|(b & _ & Hlt & Hle')];
      [discriminate|].
    split; [exact Hle'|]. exists (S k). split; [lia|].
    rewrite IH. unfold atEnd in Hend. apply Nat.leb_gt in Hend.
    replace (S (len content) - k) with (S (S (len content) - S k)) by lia.
    cbn [run_loop]. unfold scanStep at 1.
    replace (atEnd content pos) with false by (symmetry; apply Nat.leb_gt; exact Hend).
    rewrite Hc, Hend', Hd. reflexivity.
Qed.

(** The scan fails at the first position, after comments and whitespace and
    before the end of the input, where no keyword stands. *)
Lemma scan_error_reached content pos blocks comments p :
  scans_to content pos blocks →
  atEnd content pos = false →
  collectComments content pos = Done (comments, p) →
  atEnd content p = false →
  matchKeyword content p = Done "" →
  ScanFile content = Done (inr (ExpectedKeyword p (take 40 (drop p content)))).
Proof.
  intros Hs Hend Hc Hend' Hkw. unfold ScanFile.
  destruct (scans_to_fuel _ _ _ Hs) as (Hle & k & Hk & ->).
  pose proof Hend as Hlt. unfold atEnd in Hlt. apply Nat.leb_gt in Hlt.
  pose proof Hend' as Hlt'. unfold atEnd in Hlt'. apply Nat.leb_gt in Hlt'.
  replace (S (len content) - k) with (S (len content - k)) by lia.
  cbn [run_loop]. unfold scanStep at 1. rewrite Hend, Hc, Hend'.
  unfold readDeclaration. rewrite Hkw. cbn [mbind outcome_bind obind].
  rewrite String.eqb_refl. cbv zeta. rewrite context_snippet by lia. reflexivity.
Qed.

Lemma scan_error_from content err (n pos : nat) (blocks : list Block) :
  scans_to content pos blocks →
  run_loop n (scanStep content) (pos, blocks) = Done (inr err) →
  ∃ pos blocks comments p,
    scans_to content pos blocks
    ∧ atEnd content pos = false
    ∧ collectComments content pos = Done (comments, p)
    ∧ atEnd content p = false
    ∧ matchKeyword content p = Done ""
    ∧ err = ExpectedKeyword p (take 40 (drop p content)).
Proof.
  revert pos blocks.
  induction n as [|n IH]; intros pos blocks Hs H; [discriminate|].
  cbn [run_loop] in H. unfold scanStep at 1 in H.
  destruct (atEnd content pos) eqn:Hend; [discriminate|].
  destruct (collectComments content pos) as [[comments p]| |] eqn:Hc; try discriminate.
  destruct (atEnd content p) eqn:Hend'; [discriminate|].
  destruct (readDeclaration content p) as [[[block|e] p']| |] eqn:Hd; try discriminate.
  - apply (IH p' (blocks ++ [setComments comments block])); [|exact H].
    econstructor; eassumption.
  - apply Done_inj in H. injection H as ->.
    assert (Hple : p ≤ len content).
    { unfold atEnd in Hend'. apply Nat.leb_gt in Hend'. lia. }
    destruct (readDeclaration_cases _ _ _ _ Hple Hd) as [[Hkw He]|(b & ? & _)];
      [|discriminate].
    injection He as ->. exists pos, blocks, comments, p. tauto.
Qed.

(** Every error of the scan is of this kind. *)
Lemma scan_error_only content err :
  ScanFile content = Done (inr err) →
  ∃ pos blocks comments p,
    scans_to content pos blocks
    ∧ atEnd content pos = false
    ∧ collectComments content pos = Done (comments, p)
    ∧ atEnd content p = false
    ∧ matchKeyword content p = Done ""
    ∧ err = ExpectedKeyword p (take 40 (drop p content)).
Proof. apply scan_error_from. constructor. Qed.

(** C5 (scan failure on malformed structure).  ScanFile returns an error
    exactly when its loop reaches a position, after comments and whitespace
    and before the end of the input, where no declaration keyword stands; the
    error carries this position and the text from there, at most 40 bytes.
    A brace that is never closed is therefore no error of its own: the reader
    of a braced declaration runs to the end of the input. *)
Theorem C5_scan_error_at_missing_keyword (content : string) (err : ScanError) :
  ScanFile content = Done (inr err)
  ↔ ∃ pos blocks comments p,
      scans_to content pos blocks
      ∧ atEnd content pos = false
      ∧ collectComments content pos = Done (comments, p)
      ∧ atEnd content p = false
      ∧ matchKeyword content p = Done ""
      ∧ err = ExpectedKeyword p (take 40 (drop p content)).
Proof.
  split; [apply scan_error_only|].
  intros (pos & blocks & comments & p & Hs & Hend & Hc & Hend' & Hkw & ->).
  eapply scan_error_reached; eassumption.
Qed.

(** The brace of message A is never closed: the scan returns no error but
    one block, the message A with the rest of the file in its text. *)
Lemma C5_counterexample_unclosed_brace :
  ScanFile unclosedBrace
  = Done (inl [newBlock BlockMessage "A" "" unclosedBrace])
  ∧ ScanFile "message A {" = Done (inl [newBlock BlockMessage "A" "" "message A {"]).
Proof. split; vm_compute; reflexivity. Qed.

(** The word oops after message A: the error carries position 13 and the
    text from there. *)
Lemma C5_scan_error_at_missing_keyword_witness :
  ScanFile strayToken = Done (inr (ExpectedKeyword 13 ("oops;" +:+ nl))).
Proof.
  apply (proj2 (C5_scan_error_at_missing_keyword strayToken _)).
  exists 12, [setComments "" (newBlock BlockMessage "A" "" "message A {}")], nl, 13.
  split.
  - apply (scans_step strayToken 0 [] "" 0 (newBlock BlockMessage "A" "" "message A {}") 12
             (scans_start _)); vm_compute; reflexivity.
  - repeat split; vm_compute; reflexivity.
Defined.

(** * Termination of the scanner *)

(** ** The loops of the scanner terminate *)

(** A loop whose every step decreases a measure below the fuel returns. *)
Lemma run_loop_terminates {S R} (m : S → nat) (body : S → step_result S (outcome R)) :
  (∀ s, match body s with
        | Next s' => m s' < m s
        | Stop r => r ≠ Diverge
        end) →
  ∀ fuel s, m s < fuel → run_loop fuel body s ≠ Diverge.
Proof.
  intros Hbody fuel. induction fuel as [|n IH]; intros s Hm; [lia|].
  simpl. specialize (Hbody s). destruct (body s) as [s'|r]; [|exact Hbody].
  apply IH. lia.
Qed.

Lemma bind_terminates {A B} (x : outcome A) (f : A → outcome B) :
  x ≠ Diverge → (∀ a, x = Done a → f a ≠ Diverge) → x ≫= f ≠ Diverge.
Proof. destruct x; simpl; intros Hx Hf; [apply Hf; reflexivity|discriminate|congruence]. Qed.

Lemma slice_terminates (s : string) (lo hi : nat) : slice s lo hi ≠ Diverge.
Proof. unfold slice. destruct (_ && _); discriminate. Qed.

Lemma atEnd_false content (p : nat) : atEnd content p = false → p < len content.
Proof. unfold atEnd. apply Nat.leb_gt. Qed.

Ltac not_at_end content s :=
  let E := fresh "E" in
  destruct (atEnd content s) eqn:E; [discriminate|apply atEnd_false in E].

Lemma skipToEndOfLine_terminates content pos : skipToEndOfLine content pos ≠ Diverge.
Proof.
  unfold skipToEndOfLine. apply bind_terminates; [|discriminate].
  apply (run_loop_terminates (fun p => len content - p)); [|unfold fuel; lia].
  intros s. not_at_end content s. cbn [negb andb].
  destruct (negb _); [lia|discriminate].
Qed.

Lemma skipBlockComment_terminates content pos : skipBlockComment content pos ≠ Diverge.
Proof.
  unfold skipBlockComment.
  apply (run_loop_terminates (fun p => len content - p)); [|unfold fuel; lia].
  intros s. not_at_end content s. destruct (_ && _); [discriminate|lia].
Qed.

Lemma skipString_terminates content quote pos : skipString content quote pos ≠ Diverge.
Proof.
  unfold skipString.
  apply (run_loop_terminates (fun p => len content - p)); [|unfold fuel; lia].
  intros s. not_at_end content s. cbv zeta.
  destruct (Ascii.eqb _ "\"); [lia|]. destruct (Ascii.eqb _ quote); [discriminate|lia].
Qed.

Lemma skipOneToken_terminates content pos : skipOneToken content pos ≠ Diverge.
Proof.
  unfold skipOneToken. cbv zeta. destruct (isQuote _); [apply skipString_terminates|].
  destruct (_ && _); [apply skipToEndOfLine_terminates|].
  destruct (_ && _); [apply skipBlockComment_terminates|discriminate].
Qed.

(** ** and step forward *)

Lemma skipToEndOfLine_gt content pos p :
  atEnd content pos = false → skipToEndOfLine content pos = Done p → pos < p.
Proof.
  intros Hend. unfold skipToEndOfLine. intros H. apply bind_Done in H as (q & Hq & H).
  apply Done_inj in H. subst p.
  assert (Hq' : pos ≤ q).
  { revert Hq. apply (run_loop_inv (fun s => pos ≤ s) (fun r => pos ≤ r)); [|lia].
    intros s Hs. destruct (negb (atEnd content s) && _); lia. }
  destruct (atEnd content q) eqn:E; simpl; [|lia].
  destruct (decide (q = pos)) as [->|]; [congruence|lia].
Qed.

Lemma skipBlockComment_gt content pos p :
  skipBlockComment content pos = Done p → pos < p.
Proof.
  unfold skipBlockComment.
  apply (run_loop_inv (fun s => pos + 2 ≤ s) (fun r => pos < r)); [|lia].
  intros s Hs. destruct (atEnd content s); [lia|]. destruct (_ && _); lia.
Qed.

Lemma skipString_gt content quote pos p :
  skipString content quote pos = Done p → pos < p.
Proof.
  unfold skipString.
  apply (run_loop_inv (fun s => pos < s) (fun r => pos < r)); [|lia].
  intros s Hs. destruct (atEnd content s); [lia|]. cbv zeta.
  destruct (Ascii.eqb _ "\"); [lia|]. destruct (Ascii.eqb _ quote); lia.
Qed.

Lemma continue_with_terminates {S R} (r : outcome nat) (k : nat → S) (m : S → nat)
      (bound : nat) :
  r ≠ Diverge → (∀ p, r = Done p → m (k p) < bound) →
  match @continue_with S R r k with
  | Next s' => m s' < bound
  | Stop r => r ≠ Diverge
  end.
Proof. destruct r; simpl; intros Hr Hk; [auto|discriminate|congruence]. Qed.

Ltac sub_scan_terminates E :=
  apply continue_with_terminates;
  [first [apply skipString_terminates | apply skipToEndOfLine_terminates
         | apply skipBlockComment_terminates]
  |let p' := fresh "p" in let Hp' := fresh "Hp" in
   intros p' Hp';
   first [apply skipString_gt in Hp' | apply skipToEndOfLine_gt in Hp'
         | apply skipBlockComment_gt in Hp'];
   [simpl; lia|try (unfold atEnd; apply Nat.leb_gt; exact E)..]].

Lemma readUntilSemicolon_terminates content pos : readUntilSemicolon content pos ≠ Diverge.
Proof.
  unfold readUntilSemicolon.
  apply (run_loop_terminates (fun p => len content - p)); [|unfold fuel; lia].
  intros s. not_at_end content s.
  destruct (Ascii.eqb _ ";"); [discriminate|].
  apply continue_with_terminates; [apply skipOneToken_terminates|].
  intros p Hp. unfold id. unfold skipOneToken in Hp. cbv zeta in Hp.
  destruct (isQuote _); [apply skipString_gt in Hp; lia|].
  destruct (_ && _);
    [apply skipToEndOfLine_gt in Hp; [lia|unfold atEnd; apply Nat.leb_gt; exact E]|].
  destruct (_ && _); [apply skipBlockComment_gt in Hp; lia|].
  apply Done_inj in Hp. lia.
Qed.

Lemma readUntilSemicolonWithBraces_terminates content pos :
  readUntilSemicolonWithBraces content pos ≠ Diverge.
Proof.
  unfold readUntilSemicolonWithBraces.
  apply (run_loop_terminates (fun s : nat * Z => len content - s.1));
    [|unfold fuel; simpl; lia].
  intros [s depth]. not_at_end content s. cbv zeta.
  destruct (isQuote _); [sub_scan_terminates E|].
  destruct (_ && _); [sub_scan_terminates E|].
  destruct (_ && _); [sub_scan_terminates E|].
  destruct (Ascii.eqb _ "{"); [simpl; lia|].
  destruct (Ascii.eqb _ "}"); [simpl; lia|].
  destruct (_ && _); [discriminate|simpl; lia].
Qed.

Lemma readBracedBlock_terminates content pos : readBracedBlock content pos ≠ Diverge.
Proof.
  unfold readBracedBlock.
  apply (run_loop_terminates (fun s : nat * Z => len content - s.1));
    [|unfold fuel; simpl; lia].
  intros [s depth]. not_at_end content s. cbv zeta.
  destruct (isQuote _); [sub_scan_terminates E|].
  destruct (_ && _); [sub_scan_terminates E|].
  destruct (_ && _); [sub_scan_terminates E|].
  destruct (Ascii.eqb _ "{"); [simpl; lia|].
  destruct (Ascii.eqb _ "}"); [|simpl; lia].
  destruct (_ =? _)%Z; [discriminate|simpl; lia].
Qed.

Lemma collectComments_terminates content pos : collectComments content pos ≠ Diverge.
Proof.
  unfold collectComments.
  apply (run_loop_terminates (fun s : nat * string => len content - s.1));
    [|unfold fuel; simpl; lia].
  intros [s buf]. not_at_end content s. cbv zeta.
  destruct (_ || _); [simpl; lia|].
  destruct (_ && _); [|discriminate].
  destruct (Ascii.eqb (peekAt content s 1) "/").
  - pose proof (skipToEndOfLine_terminates content s) as Ht.
    destruct (skipToEndOfLine content s) as [p'| |] eqn:Hs; [|discriminate|congruence].
    apply skipToEndOfLine_gt in Hs; [|unfold atEnd; apply Nat.leb_gt; exact E].
    pose proof (slice_terminates content s p') as Hsl.
    destruct (slice content s p') as [text| |] eqn:Ht'; [|discriminate|congruence].
    apply slice_Done in Ht' as (_ & ? & _). simpl. unfold len. lia.
  - pose proof (skipBlockComment_terminates content s) as Ht.
    destruct (skipBlockComment content s) as [p'| |] eqn:Hs; [|discriminate|congruence].
    apply skipBlockComment_gt in Hs.
    pose proof (slice_terminates content s p') as Hsl.
    destruct (slice content s p') as [text| |] eqn:Ht'; [|discriminate|congruence].
    apply slice_Done in Ht' as (_ & ? & _). simpl. unfold len. lia.
Qed.

Lemma consumeTrailingComment_terminates content pos :
  consumeTrailingComment content pos ≠ Diverge.
Proof.
  unfold consumeTrailingComment. cbv zeta. apply bind_terminates.
  - apply (run_loop_terminates (fun p => len content - p)); [|unfold fuel; lia].
    intros s. not_at_end content s. cbn [negb andb].
    destruct (_ || _); [lia|discriminate].
  - intros q _. destruct (_ && _ && _); [|discriminate].
    apply bind_terminates; [apply skipToEndOfLine_terminates|]. intros p' _.
    apply bind_terminates; [apply slice_terminates|]. discriminate.
Qed.

Lemma readDeclaration_terminates content pos : readDeclaration content pos ≠ Diverge.
Proof.
  unfold readDeclaration. apply bind_terminates.
  - unfold matchKeyword. apply bind_terminates; [apply slice_terminates|discriminate].
  - intros kw Hkw. destruct (String.eqb kw "").
    + cbv zeta. apply bind_terminates; [apply slice_terminates|discriminate].
    + destruct (matchKeyword_cases _ _ _ Hkw)
        as [->|(_ & _ & _ & kind & read & -> & Hr)]; [discriminate|].
      apply bind_terminates.
      * destruct Hr as [-> | [-> | ->]];
          [apply readUntilSemicolon_terminates
          |apply readUntilSemicolonWithBraces_terminates
          |apply readBracedBlock_terminates].
      * intros p _. apply bind_terminates; [apply slice_terminates|]. intros text _.
        apply bind_terminates; [apply consumeTrailingComment_terminates|].
        intros [trailing p'] _. discriminate.
Qed.

(** The scan of any input returns or panics: the bound of its loops is
    never used up. *)
Lemma ScanFile_terminates content : ScanFile content ≠ Diverge.
Proof.
  unfold ScanFile, scan.
  apply (run_loop_terminates (fun s : nat * list Block => len content - s.1));
    [|unfold fuel; simpl; lia].
  intros [pos blocks]. unfold scanStep. not_at_end content pos.
  pose proof (collectComments_terminates content pos) as Hc.
  destruct (collectComments content pos) as [[comments p]| |] eqn:Ec;
    [|discriminate|congruence].
  apply collectComments_ge in Ec.
  destruct (atEnd content p) eqn:Ep; [discriminate|]. apply atEnd_false in Ep.
  pose proof (readDeclaration_terminates content p) as Hd.
  destruct (readDeclaration content p) as [[[block|err] p']| |] eqn:Ed;
    [|discriminate|discriminate|congruence].
  destruct (readDeclaration_cases _ _ _ _ (Nat.lt_le_incl _ _ Ep) Ed)
    as [[_ ?]|(b & _ & Hlt & Hle)]; [discriminate|].
  simpl. lia.
Qed.

(** C10 (scanner totality and in-bounds access).  The scan of every input
    terminates: it returns or panics.  It does panic: on an input that ends
    inside a string literal, right after a backslash, skipString leaves the
    cursor one past the end of the input and the slice taken by
    readDeclaration is out of range. *)
Theorem C10_dangling_escape_panics :
  (∀ content, ScanFile content ≠ Diverge)
  ∧ String.length danglingEscape = 11
  ∧ skipString danglingEscape DQ 9 = Done 12
  ∧ readDeclaration danglingEscape 0 = Panic
  ∧ ScanFile danglingEscape = Panic.
Proof.
  split; [exact ScanFile_terminates|].
  split; [|split; [|split]]; vm_compute; reflexivity.
Qed.

(** * Further properties of the code *)

(** * The scan keeps the text *)

Lemma stake_app_drop (n m : nat) (s : string) :
  take n s +:+ take m (drop n s) = take (n + m) s.
Proof.
  revert s. induction n as [|n IH]; intros s; [reflexivity|].
  destruct s as [|c s]; [destruct m; reflexivity|].
  simpl. rewrite append_cons, IH. reflexivity.
Qed.

Lemma sdrop_drop (n m : nat) (s : string) : drop m (drop n s) = drop (n + m) s.
Proof.
  revert s. induction n as [|n IH]; intros s; [reflexivity|].
  destruct s as [|c s]; [destruct m; reflexivity|]. simpl. apply IH.
Qed.

(** [s[a:b] + s[b:c] = s[a:c]] *)
Lemma slices_join (s : string) (a b c : nat) :
  a ≤ b → b ≤ c →
  take (b - a) (drop a s) +:+ take (c - b) (drop b s) = take (c - a) (drop a s).
Proof.
  intros Hab Hbc. replace (drop b s) with (drop (b - a) (drop a s))
    by (rewrite sdrop_drop; f_equal; lia).
  rewrite stake_app_drop. f_equal. lia.
Qed.

Lemma take_one (s : string) (p : nat) :
  p < String.length s → take 1 (drop p s) = String (at_ s p) "".
Proof.
  unfold at_. revert s. induction p as [|p IH]; intros [|c s] H; simpl in *; try lia.
  - reflexivity.
  - apply IH. lia.
Qed.

Lemma collectComments_text content pos comments p :
  pos ≤ len content →
  collectComments content pos = Done (comments, p) →
  pos ≤ p ∧ p ≤ len content ∧ comments = take (p - pos) (drop pos content).
Proof.
  intros Hle. unfold collectComments.
  apply (run_loop_inv
           (fun s : nat * string =>
              pos ≤ s.1 ∧ s.1 ≤ len content ∧ s.2 = take (s.1 - pos) (drop pos content))
           (fun r : string * nat =>
              pos ≤ r.2 ∧ r.2 ≤ len content ∧ r.1 = take (r.2 - pos) (drop pos content))).
  2:{ simpl. rewrite Nat.sub_diag. auto. }
  intros [s buf] (Hs & Hsl & Hbuf). simpl in Hs, Hsl, Hbuf.
  destruct (atEnd content s) eqn:E; [simpl; auto|]. apply atEnd_false in E. cbv zeta.
  assert (Hstep : ∀ p' text,
             s ≤ p' → p' ≤ len content → text = take (p' - s) (drop s content) →
             buf +:+ text = take (p' - pos) (drop pos content)).
  { intros p' text H1 H2 ->. rewrite Hbuf. apply slices_join; assumption. }
  destruct (_ || _).
  - simpl. split; [lia|]. split; [lia|]. apply Hstep; [lia|lia|].
    replace (S s - s) with 1 by lia. unfold peek.
    replace (atEnd content s) with false
      by (symmetry; unfold atEnd; apply Nat.leb_gt; exact E).
    symmetry. apply take_one. exact E.
  - destruct (_ && _); [|simpl; auto].
    destruct (Ascii.eqb (peekAt content s 1) "/").
    + destruct (skipToEndOfLine content s) as [p'| |] eqn:Hp; try exact I.
      apply skipToEndOfLine_ge in Hp.
      destruct (slice content s p') as [text| |] eqn:Ht; try exact I.
      apply slice_Done in Ht as (_ & ? & ->). simpl.
      split; [lia|]. split; [assumption|]. apply Hstep; auto.
    + destruct (skipBlockComment content s) as [p'| |] eqn:Hp; try exact I.
      apply skipBlockComment_ge in Hp.
      destruct (slice content s p') as [text| |] eqn:Ht; try exact I.
      apply slice_Done in Ht as (_ & ? & ->). simpl.
      split; [lia|]. split; [assumption|]. apply Hstep; auto.
Qed.

Lemma consumeTrailingComment_text content pos text p :
  consumeTrailingComment content pos = Done (text, p) →
  pos ≤ p ∧ text = take (p - pos) (drop pos content).
Proof.
  unfold consumeTrailingComment. cbv zeta. intros H.
  apply bind_Done in H as (q & Hq & H).
  destruct (negb (atEnd content q) && _ && _).
  - apply bind_Done in H as (p' & Hp' & H). apply bind_Done in H as (t & Ht & H).
    apply Done_inj in H. injection H as <- <-.
    apply slice_Done in Ht as (? & _ & ->). auto.
  - apply Done_inj in H. injection H as <- <-. rewrite Nat.sub_diag. auto.
Qed.

Lemma readDeclaration_text content pos block p' :
  readDeclaration content pos = Done (inl block, p') →
  Comments block = ""
  ∧ DeclText block = take (p' - pos) (drop pos content).
Proof.
  intros H. unfold readDeclaration in H.
  apply bind_Done in H as (kw & Hkw & H).
  destruct (String.eqb kw "").
  { cbv zeta in H. apply bind_Done in H as (? & _ & H). discriminate. }
  destruct (keywordKind kw) as [[kind read]|]; [|discriminate].
  apply bind_Done in H as (p & Hp & H). apply bind_Done in H as (text & Ht & H).
  apply bind_Done in H as ([trailing p''] & Hc & H).
  apply Done_inj in H. injection H as <- <-.
  split; [reflexivity|]. cbn [DeclText newBlock].
  apply slice_Done in Ht as (? & _ & ->).
  apply consumeTrailingComment_text in Hc as (? & ->).
  apply slices_join; assumption.
Qed.

(** X1.  Scanning loses no byte: the comments and declaration texts of the
    blocks, in order, spell the input, up to whitespace at its end. *)
Theorem X1_scan_keeps_the_text (content : string) (blocks : list Block) :
  ScanFile content = Done (inl blocks) →
  ∃ trailing,
    content = scannedText blocks +:+ trailing ∧ TrimSpace trailing = "".
Proof.
  unfold ScanFile, scan.
  apply (run_loop_inv
           (fun s : nat * list Block =>
              s.1 ≤ len content ∧ scannedText s.2 = take s.1 content)
           (fun r : list Block + ScanError =>
              match r with
              | inl blocks => ∃ trailing, content = scannedText blocks +:+ trailing
                                          ∧ TrimSpace trailing = ""
              | inr _ => True
              end) (scanStep content)
           ) with (r := inl blocks); [|simpl; split; [lia|reflexivity]].
  intros [pos bs] [Hle Htext]. simpl in Hle, Htext. unfold scanStep.
  destruct (atEnd content pos) eqn:E.
  { exists "". rewrite append_nil_r, Htext. split; [|reflexivity].
    symmetry. apply take_all. unfold atEnd in E. apply Nat.leb_le in E. exact E. }
  destruct (collectComments content pos) as [[comments p]| |] eqn:Hc; try exact I.
  apply collectComments_text in Hc as (Hp & Hpl & ->); [|exact Hle].
  assert (Hjoin : take pos content +:+ take (p - pos) (drop pos content) = take p content).
  { rewrite stake_app_drop. f_equal. lia. }
  destruct (atEnd content p) eqn:E'.
  { assert (Hall : take p content = content).
    { apply take_all. unfold atEnd in E'. apply Nat.leb_le in E'. exact E'. }
    destruct (negb (String.eqb (TrimSpace _) "")) eqn:Et.
    - exists "". split; [|reflexivity]. rewrite append_nil_r.
      unfold scannedText. rewrite map_app, concat_app. fold (scannedText bs).
      rewrite Htext. simpl. unfold blockText. simpl.
      rewrite append_nil_r, Hjoin, Hall. reflexivity.
    - apply negb_false_iff, String.eqb_eq in Et. eexists. split; [|exact Et].
      rewrite Htext, Hjoin, Hall. reflexivity. }
  destruct (readDeclaration content p) as [[[block|err] p']| |] eqn:Hd; try exact I.
  pose proof (readDeclaration_cases _ _ _ _ Hpl Hd) as [[_ ?]|(b & _ & Hlt & Hle')];
    [discriminate|].
  apply readDeclaration_text in Hd as [_ Hd]. simpl. split; [exact Hle'|].
  unfold scannedText. rewrite map_app, concat_app. fold (scannedText bs).
  rewrite Htext. simpl. unfold blockText. cbn [Comments DeclText setComments].
  rewrite Hd, <- append_assoc, Hjoin, stake_app_drop. f_equal. lia.
Qed.

(** The scan of a file with a trailing comment: its two blocks spell the
    file. *)
Lemma X1_scan_keeps_the_text_witness :
  ∃ trailing,
    trailingComment
    = scannedText [ newBlock BlockMessage "A" "" ("message A {} // c" +:+ nl);
                    newBlock BlockMessage "B" "" "message B {}" ] +:+ trailing
    ∧ TrimSpace trailing = "".
Proof. apply X1_scan_keeps_the_text. vm_compute. reflexivity. Defined.

(** * The shape of the scanned blocks *)

Lemma keywordKind_declaration kw kind read :
  keywordKind kw = Some (kind, read) → kind ≠ BlockComment.
Proof.
  unfold keywordKind.
  repeat (destruct (String.eqb kw _); [intros [= <- _]; discriminate|]).
  discriminate.
Qed.

Lemma slength_take (n : nat) (s : string) :
  String.length (take n s) = Nat.min n (String.length s).
Proof.
  revert s. induction n as [|n IH]; intros [|c s]; simpl; try reflexivity.
  rewrite IH. reflexivity.
Qed.

Lemma readDeclaration_kind content pos block p' :
  readDeclaration content pos = Done (inl block, p') →
  Kind block ≠ BlockComment.
Proof.
  intros H. unfold readDeclaration in H.
  apply bind_Done in H as (kw & Hkw & H).
  destruct (String.eqb kw "").
  { cbv zeta in H. apply bind_Done in H as (? & _ & H). discriminate. }
  destruct (keywordKind kw) as [[kind read]|] eqn:Hk; [|discriminate].
  apply bind_Done in H as (p & Hp & H). apply bind_Done in H as (text & Ht & H).
  apply bind_Done in H as ([trailing p''] & Hc & H).
  apply Done_inj in H. injection H as <- <-. simpl.
  eapply keywordKind_declaration, Hk.
Qed.

(** X2.  The blocks of a scan are declarations with a text that is not empty; a
    freestanding comment block can only be the last block, for comments that
    end the file. *)
Theorem X2_scanned_blocks_are_declarations (content : string) (blocks : list Block) :
  ScanFile content = Done (inl blocks) →
  ∃ decls tail,
    blocks = decls ++ tail
    ∧ Forall declaration decls
    ∧ (tail = []
       ∨ ∃ comments, tail = [newBlock BlockComment "" comments ""]
                     ∧ TrimSpace comments ≠ "").
Proof.
  unfold ScanFile, scan.
  apply (run_loop_inv
           (fun s : nat * list Block => s.1 ≤ len content ∧ Forall declaration s.2)
           (fun r : list Block + ScanError =>
              match r with
              | inl blocks =>
                  ∃ decls tail,
                    blocks = decls ++ tail
                    ∧ Forall declaration decls
                    ∧ (tail = []
                       ∨ ∃ comments, tail = [newBlock BlockComment "" comments ""]
                                     ∧ TrimSpace comments ≠ "")
              | inr _ => True
              end) (scanStep content)
           ) with (r := inl blocks); [|simpl; split; [lia|constructor]].
  intros [pos bs] [Hle Hbs]. simpl in Hle, Hbs. unfold scanStep.
  destruct (atEnd content pos) eqn:E.
  { exists bs, []. rewrite app_nil_r. auto. }
  destruct (collectComments content pos) as [[comments p]| |] eqn:Hc; try exact I.
  apply collectComments_text in Hc as (Hp & Hpl & ->); [|exact Hle].
  destruct (atEnd content p) eqn:E'.
  { destruct (negb (String.eqb (TrimSpace _) "")) eqn:Et.
    - apply negb_true_iff, String.eqb_neq in Et.
      exists bs, [newBlock BlockComment "" (take (p - pos) (drop pos content)) ""].
      split; [reflexivity|]. split; [exact Hbs|]. right. eexists. split; [reflexivity|].
      exact Et.
    - exists bs, []. rewrite app_nil_r. auto. }
  destruct (readDeclaration content p) as [[[block|err] p']| |] eqn:Hd; try exact I.
  pose proof (readDeclaration_cases _ _ _ _ Hpl Hd) as [[_ ?]|(b & _ & Hlt & Hle')];
    [discriminate|].
  simpl. split; [exact Hle'|]. apply Forall_app. split; [exact Hbs|].
  constructor; [|constructor]. unfold declaration. cbn [Kind DeclText setComments].
  split; [eapply readDeclaration_kind, Hd|].
  apply readDeclaration_text in Hd as [_ ->]. intros H0.
  apply (f_equal String.length) in H0. rewrite slength_take, length_drop in H0.
  simpl in H0. unfold len in *. lia.
Qed.

Lemma X2_scanned_blocks_are_declarations_witness :
  ∃ decls tail,
    [ newBlock BlockMessage "A" "" ("message A {} // c" +:+ nl);
      newBlock BlockMessage "B" "" "message B {}" ] = decls ++ tail
    ∧ Forall declaration decls
    ∧ (tail = []
       ∨ ∃ comments, tail = [newBlock BlockComment "" comments ""]
                     ∧ TrimSpace comments ≠ "").
Proof.
  apply (X2_scanned_blocks_are_declarations trailingComment). vm_compute. reflexivity.
Defined.

(** * The references of a block *)

Lemma addType_ok st (t : string) : fieldTypesOk st → fieldTypesOk (addType st t).
Proof.
  destruct st as [seen types]. unfold fieldTypesOk, addType. simpl.
  intros (Hnd & Hseen & Hgood).
  destruct (Contains t ".") eqn:Ed; [auto|].
  destruct (negb (String.eqb t "") && negb (isScalarType t) && bool_decide (t ∉ seen))
    eqn:E; [|auto].
  apply andb_prop in E as [E Hs]. apply andb_prop in E as [He Hsc].
  apply bool_decide_eq_true in Hs. apply negb_true_iff in He, Hsc.
  apply String.eqb_neq in He. simpl. split; [|split].
  - apply NoDup_app. split; [exact Hnd|]. split; [|apply NoDup_singleton].
    intros x Hx Hx'. apply list_elem_of_singleton in Hx' as ->. apply Hs, Hseen, Hx.
  - intros x Hx. apply elem_of_app in Hx as [Hx|Hx]; [set_solver|].
    apply list_elem_of_singleton in Hx as ->. set_solver.
  - apply Forall_app. split; [exact Hgood|]. constructor; [|constructor].
    unfold fieldTypeName. auto.
Qed.

Lemma addTypes_ok {A} (f : A → string) (l : list A) st :
  fieldTypesOk st → fieldTypesOk (foldl (fun st m => addType st (f m)) st l).
Proof.
  revert st. induction l as [|m l IH]; intros st H; [exact H|].
  simpl. apply IH, addType_ok, H.
Qed.

Lemma oneof_ok (l : list (list string)) st :
  fieldTypesOk st →
  fieldTypesOk (foldl (fun st m =>
                         let oneofBody := sub m 1 in
                         foldl (fun st v => addType st (sub v 1)) st
                           (Regexp.FindAllStringSubmatch oneofVariantRe 1 oneofBody))
                  st l).
Proof.
  revert st. induction l as [|m l IH]; intros st H; [exact H|].
  simpl. apply IH. apply (addTypes_ok (fun v => sub v 1)), H.
Qed.

(** X3.  The types a block references through its fields are distinct, and none
    is empty, a scalar type or a dotted name; blocks other than messages and
    extensions have none. *)
Theorem X3_field_types_are_distinct_names (b : Block) :
  NoDup (ExtractFieldTypes b)
  ∧ (∀ t, t ∈ ExtractFieldTypes b →
          t ≠ "" ∧ isScalarType t = false ∧ Contains t "." = false)
  ∧ (Kind b ≠ BlockMessage → Kind b ≠ BlockExtend → ExtractFieldTypes b = []).
Proof.
  assert (Hok : ∃ st, fieldTypesOk st ∧ ExtractFieldTypes b = st.2).
  { unfold ExtractFieldTypes.
    destruct (bool_decide (Kind b ≠ BlockMessage) && bool_decide (Kind b ≠ BlockExtend)).
    - exists (∅, []). split; [|reflexivity].
      split; [constructor|]. split; [intros t Ht; inversion Ht|constructor].
    - cbv zeta. eexists. split; [|reflexivity].
      apply oneof_ok.
      apply (addTypes_ok (fun m => sub m 1)).
      apply (addTypes_ok (fun m => sub m 1)).
      split; [constructor|]. split; [intros t Ht; inversion Ht|constructor]. }
  assert (Hnone : Kind b ≠ BlockMessage → Kind b ≠ BlockExtend →
                  ExtractFieldTypes b = []).
  { intros H1 H2. unfold ExtractFieldTypes.
    rewrite !bool_decide_true by assumption. reflexivity. }
  destruct Hok as (st & (Hnd & _ & Hgood) & Heq). rewrite Heq in *.
  split; [exact Hnd|]. split; [|exact Hnone].
  intros t Ht. rewrite Forall_forall in Hgood. apply Hgood, Ht.
Qed.

(** * The reference graph *)

Lemma graph_insert (m : gmap string (list string)) (k t : string) (v : list string) :
  default [] (<[k := v]> m !! t) = if String.eqb t k then v else default [] (m !! t).
Proof.
  rewrite lookup_insert. destruct (String.eqb t k) eqn:E.
  - apply String.eqb_eq in E. subst. rewrite decide_True by reflexivity. reflexivity.
  - apply String.eqb_neq in E. rewrite decide_False by congruence. reflexivity.
Qed.

Lemma graphRef_fold (defined : gset string) (name : string) (refs : list string)
      (seen : gset string) (graph : gmap string (list string)) :
  let st' :=
    foldl (fun '(seen, graph) ref =>
             if String.eqb ref name then (seen, graph)
             else if bool_decide (ref ∈ defined) && bool_decide (ref ∉ seen)
                  then ({[ref]} ∪ seen,
                        <[ref := default [] (graph !! ref) ++ [name]]> graph)
                  else (seen, graph))
      (seen, graph) refs in
  (∀ x, x ∈ st'.1 ↔ x ∈ seen ∨ (x ∈ refs ∧ x ≠ name ∧ x ∈ defined))
  ∧ (∀ t, default [] (st'.2 !! t)
          = default [] (graph !! t)
            ++ (if bool_decide (t ∈ st'.1 ∧ t ∉ seen) then [name] else [])).
Proof.
  revert seen graph. induction refs as [|r refs IH]; intros seen graph.
  - simpl. split.
    + intros x. rewrite elem_of_nil. tauto.
    + intros t. rewrite bool_decide_false by tauto. rewrite app_nil_r. reflexivity.
  - cbn [foldl]. cbv zeta.
    destruct (String.eqb r name) eqn:En.
    { apply String.eqb_eq in En. subst r.
      destruct (IH seen graph) as (H1 & H2). split; [|exact H2].
      intros x. rewrite H1, elem_of_cons. naive_solver. }
    apply String.eqb_neq in En.
    destruct (bool_decide (r ∈ defined) && bool_decide (r ∉ seen)) eqn:Ec.
    2:{ destruct (IH seen graph) as (H1 & H2). split; [|exact H2].
        intros x. rewrite H1, elem_of_cons.
        apply andb_false_iff in Ec. rewrite !bool_decide_eq_false in Ec.
        split; [naive_solver|].
        intros [?|[[->|?] [? ?]]]; [tauto| |tauto].
        destruct Ec as [Ec|Ec]; [tauto|]. left.
        destruct (decide (r ∈ seen)); tauto. }
    apply andb_prop in Ec as [Ed Es]. apply bool_decide_eq_true in Ed, Es.
    match goal with |- context [foldl _ (?s, ?g) refs] =>
      destruct (IH s g) as (H1 & H2) end.
    split.
    + intros x. rewrite H1, elem_of_cons, elem_of_union, elem_of_singleton.
      naive_solver.
    + intros t. rewrite H2, graph_insert.
      destruct (String.eqb t r) eqn:Et.
      * apply String.eqb_eq in Et. subst t.
        rewrite bool_decide_false by set_solver.
        rewrite bool_decide_true; [rewrite app_nil_r; reflexivity|].
        split; [|exact Es]. apply H1. set_solver.
      * apply String.eqb_neq in Et. f_equal.
        match goal with
        | |- (if bool_decide ?P then _ else _) = (if bool_decide ?Q then _ else _) =>
            rewrite (bool_decide_ext P Q) by set_solver
        end.
        reflexivity.
Qed.

Lemma graphBlocks_fold (defined : gset string) (blocks : list Block)
      (graph : gmap string (list string)) (t : string) :
  default []
    (foldl (fun graph b =>
              if String.eqb (Name b) "" then graph
              else
                match refsOf b with
                | None => graph
                | Some refs =>
                    (foldl (fun '(seen, graph) ref =>
                              if String.eqb ref (Name b) then (seen, graph)
                              else if bool_decide (ref ∈ defined) && bool_decide (ref ∉ seen)
                              then ({[ref]} ∪ seen,
                                    <[ref := default [] (graph !! ref) ++ [Name b]]> graph)
                              else (seen, graph))
                       ((∅ : gset string), graph) refs).2
                end)
       graph blocks !! t)
  = default [] (graph !! t)
    ++ (if bool_decide (t ∈ defined) then namedReferrers blocks t else []).
Proof.
  revert graph. induction blocks as [|b blocks IH]; intros graph.
  - simpl. destruct (bool_decide _); rewrite app_nil_r; reflexivity.
  - cbn [foldl]. rewrite IH. clear IH. unfold namedReferrers, references.
    cbn [List.filter].
    destruct (String.eqb (Name b) "") eqn:En.
    { rewrite andb_false_r. reflexivity. }
    destruct (refsOf b) as [refs|]; [|reflexivity].
    destruct (graphRef_fold defined (Name b) refs ∅ graph) as (H1 & H2).
    rewrite H2, <- app_assoc. f_equal. cbn [negb]. rewrite andb_true_r.
    destruct (bool_decide (t ∈ defined)) eqn:Ed.
    + apply bool_decide_eq_true in Ed.
      destruct (bool_decide (t ∈ refs) && negb (String.eqb t (Name b))) eqn:Er.
      * apply andb_prop in Er as [Er1 Er2]. apply bool_decide_eq_true in Er1.
        apply negb_true_iff, String.eqb_neq in Er2.
        rewrite bool_decide_true; [reflexivity|]. split; [|set_solver].
        apply H1. right. auto.
      * rewrite bool_decide_false; [reflexivity|]. intros [Hin _].
        apply H1 in Hin as [Hin|(Hin & Hne & _)]; [set_solver|].
        apply andb_false_iff in Er as [Er|Er].
        -- apply bool_decide_eq_false in Er. tauto.
        -- apply negb_false_iff, String.eqb_eq in Er. tauto.
    + apply bool_decide_eq_false in Ed.
      rewrite bool_decide_false; [rewrite app_nil_r; reflexivity|].
      intros [Hin _]. apply H1 in Hin as [Hin|(_ & _ & Hin)]; [set_solver|tauto].
Qed.

Lemma BuildRefGraph_spec (blocks : list Block) (t : string) :
  default [] (BuildRefGraph blocks !! t)
  = if bool_decide (t ∈ definedTypes blocks) then namedReferrers blocks t else [].
Proof.
  unfold BuildRefGraph. cbv zeta.
  rewrite (graphBlocks_fold (definedTypes blocks) blocks ∅ t).
  rewrite lookup_empty. reflexivity.
Qed.

(** X4.  The reference graph lists, for a type of the file, the names of the
    named declarations that reference it under another name than their own,
    each declaration once and in file order; it lists nothing for a name that
    is no type of the file. *)
Theorem X4_reference_graph_lists_referrers (blocks : list Block) (t : string) :
  default [] (BuildRefGraph blocks !! t)
  = if bool_decide (t ∈ definedTypes blocks) then namedReferrers blocks t else [].
Proof. apply BuildRefGraph_spec. Qed.

(** X5.  The graph and the counts agree: the referrers the graph lists for a
    type are never more than its count, and they are exactly as many when no
    declaration of the file is unnamed and the type is in no direct mutual
    reference. *)
Theorem X5_graph_agrees_with_counts (blocks : list Block) (t : string) :
  length (default [] (BuildRefGraph blocks !! t)) ≤ count (BuildRefCounts blocks) t
  ∧ ((∀ b, b ∈ blocks → Name b ≠ "") → ¬ mutual blocks t →
     length (default [] (BuildRefGraph blocks !! t)) = count (BuildRefCounts blocks) t).
Proof.
  rewrite BuildRefGraph_spec.
  assert (Hle : length (namedReferrers blocks t) ≤ length (referrers blocks t)).
  { unfold namedReferrers, referrers. rewrite length_map.
    induction blocks as [|b blocks IH]; [reflexivity|]. simpl.
    destruct (references b t); simpl; [|exact IH].
    destruct (negb _); simpl; lia. }
  split.
  - pose proof (rawCount_le_count blocks t) as H. unfold rawCount in H.
    destruct (bool_decide (t ∈ definedTypes blocks)); simpl; lia.
  - intros Hnamed Hm.
    rewrite (proj2 (BuildRefCounts_spec blocks t) Hm). unfold rawCount.
    destruct (bool_decide (t ∈ definedTypes blocks)); [|reflexivity].
    unfold namedReferrers, referrers. rewrite length_map. f_equal.
    clear Hle Hm. induction blocks as [|b blocks IH]; [reflexivity|]. simpl.
    assert (Hb : negb (String.eqb (Name b) "") = true).
    { apply negb_true_iff, String.eqb_neq, Hnamed. left. }
    rewrite Hb, andb_true_r. rewrite IH; [reflexivity|].
    intros b' Hb'. apply Hnamed. right. exact Hb'.
Qed.

(** T is referenced by A and by B: two referrers in the graph, count two. *)
Lemma X5_graph_agrees_with_counts_witness :
  length (default [] (BuildRefGraph refTwoDeclarations !! "T"))
  = count (BuildRefCounts refTwoDeclarations) "T".
Proof.
  apply (proj2 (X5_graph_agrees_with_counts refTwoDeclarations "T")).
  - intros b Hb.
    repeat (apply elem_of_cons in Hb as [->|Hb]; [discriminate|]).
    apply elem_of_nil in Hb as [].
  - intros (u & (_ & _ & b & Hb & Hn & Hr) & _).
    repeat (apply elem_of_cons in Hb as [->|Hb];
            [first [discriminate Hn | vm_compute in Hr; discriminate Hr]|]).
    apply elem_of_nil in Hb as [].
Defined.

(** * The two orders of the RPC sort *)

Lemma lessAlpha_asym (a b : rpcEntry) : lessAlpha a b = true → lessAlpha b a = false.
Proof. apply lt_asym. Qed.

Lemma alphaLe_trans : Transitive alphaLe.
Proof.
  intros a b c. unfold alphaLe. rewrite !not_lt_le. intros H1 H2. etrans; eassumption.
Qed.

(** X6.  In alpha mode the entries are sorted by method name by a stable sort:
    the result is a permutation of the entries, ordered by name, and entries
    of one name keep their order. *)
Theorem X6_alpha_sort_orders_by_name (es : list rpcEntry) :
  ∃ sorted,
    sortEntries "alpha" es = Some sorted
    ∧ Permutation es sorted
    ∧ StronglySorted alphaLe sorted
    ∧ ∀ name, List.filter (fun e => String.eqb (e_Name e) name) sorted
              = List.filter (fun e => String.eqb (e_Name e) name) es.
Proof.
  exists (GoSort.SliceStable lessAlpha es).
  split; [reflexivity|]. split; [apply SliceStable_perm|]. split.
  - apply Sorted_StronglySorted; [exact alphaLe_trans|].
    apply (SliceStable_sorted lessAlpha lessAlpha_asym).
  - intros name. apply SliceStable_stable.
    intros a b Ha Hb. apply String.eqb_eq in Ha, Hb. unfold lessAlpha.
    rewrite Ha, Hb. apply lt_irrefl.
Qed.

(** A sorted list is left as it is. *)
Lemma SliceStable_fixed {A} (less : A → A → bool) (l : list A) :
  Sorted (notAfter less) l → GoSort.SliceStable less l = l.
Proof.
  induction 1 as [|x l Hs IH Hd]; [reflexivity|].
  change (GoSort.SliceStable less (x :: l))
    with (GoSort.insert less x (GoSort.SliceStable less l)).
  rewrite IH.
  destruct Hd as [|y l' Hxy]; [reflexivity|]. simpl.
  unfold notAfter in Hxy. rewrite Hxy. reflexivity.
Qed.

(** X7.  Sorting the RPC entries is idempotent in both modes: sorting a sorted
    list of entries returns it. *)
Theorem X7_rpc_sort_is_idempotent (mode : string) (es sorted : list rpcEntry) :
  sortEntries mode es = Some sorted → sortEntries mode sorted = Some sorted.
Proof.
  unfold sortEntries.
  destruct (String.eqb mode "alpha").
  - intros [= <-]. f_equal. apply SliceStable_fixed.
    apply (SliceStable_sorted lessAlpha lessAlpha_asym).
  - destruct (String.eqb mode "grouped"); [|discriminate].
    intros [= <-]. f_equal. apply SliceStable_fixed.
    apply (SliceStable_sorted lessGrouped lessGrouped_asym).
Qed.

Lemma X7_rpc_sort_is_idempotent_witness :
  sortEntries "grouped" groupedEntriesSorted = Some groupedEntriesSorted.
Proof.
  apply (X7_rpc_sort_is_idempotent "grouped" groupedEntries). reflexivity.
Defined.

(** * The content-integrity check as a relation *)

(** The check passes exactly when both texts scan to equal declaration maps. *)
Lemma verify_passes_iff (original sorted : string) :
  verifyContentIntegrity original sorted = Done None
  ↔ ∃ origBlocks sortedBlocks,
      ScanFile original = Done (inl origBlocks)
      ∧ ScanFile sorted = Done (inl sortedBlocks)
      ∧ extractDeclarations origBlocks = extractDeclarations sortedBlocks.
Proof.
  unfold verifyContentIntegrity.
  destruct (ScanFile original) as [[ob|oe]| |]; simpl;
    try (split; [discriminate|intros (? & ? & ? & _); discriminate]).
  destruct (ScanFile sorted) as [[sb|se]| |]; simpl;
    try (split; [discriminate|intros (? & ? & _ & ? & _); discriminate]).
  pose proof (loops_pass_iff_equal (extractDeclarations ob) (extractDeclarations sb)) as L.
  destruct (size (extractDeclarations ob) =? size (extractDeclarations sb)) eqn:Esz; simpl.
  - destruct (firstError (checkOriginal _) _) eqn:E1.
    + split; [discriminate|]. intros (? & ? & [= <-] & [= <-] & Heq).
      apply L in Heq as [Heq _]. discriminate.
    + split.
      * intros [= E2]. exists ob, sb. split; [reflexivity|]. split; [reflexivity|].
        apply L. auto.
      * intros (? & ? & [= <-] & [= <-] & Heq). apply L in Heq as [_ ->]. reflexivity.
  - split; [discriminate|]. intros (? & ? & [= <-] & [= <-] & Heq).
    rewrite Heq, Nat.eqb_refl in Esz. discriminate.
Qed.

(** X25.  The content-integrity check returns nil exactly when both texts
    scan and their maps from kind:name to declaration text are equal; so it
    reports an error when a key is missing, added or bound to a different
    text, and also when one of the two texts does not scan. *)
Theorem X25_integrity_check_compares_declaration_maps (original sorted : string) :
  verifyContentIntegrity original sorted = Done None
  ↔ ∃ origBlocks sortedBlocks,
      ScanFile original = Done (inl origBlocks)
      ∧ ScanFile sorted = Done (inl sortedBlocks)
      ∧ extractDeclarations origBlocks = extractDeclarations sortedBlocks.
Proof. apply verify_passes_iff. Qed.

(** The check passes on [sharedHelper] and its sorted text, so the two have
    the same declarations. *)
Lemma X25_integrity_check_compares_declaration_maps_witness :
  ∃ origBlocks sortedBlocks,
    ScanFile sharedHelper = Done (inl origBlocks)
    ∧ ScanFile sharedHelperPass1 = Done (inl sortedBlocks)
    ∧ extractDeclarations origBlocks = extractDeclarations sortedBlocks.
Proof.
  apply X25_integrity_check_compares_declaration_maps. vm_compute. reflexivity.
Defined.

(** X8.  On texts that scan, passing the check is an equivalence: a text passes
    against itself, and the passing pairs are symmetric and transitive. *)
Theorem X8_integrity_check_is_an_equivalence :
  (∀ a blocks, ScanFile a = Done (inl blocks) → verifyContentIntegrity a a = Done None)
  ∧ (∀ a b, verifyContentIntegrity a b = Done None →
            verifyContentIntegrity b a = Done None)
  ∧ (∀ a b c, verifyContentIntegrity a b = Done None →
              verifyContentIntegrity b c = Done None →
              verifyContentIntegrity a c = Done None).
Proof.
  split; [|split].
  - intros a blocks H. apply verify_passes_iff. exists blocks, blocks. auto.
  - intros a b H. apply verify_passes_iff in H as (x & y & Hx & Hy & Heq).
    apply verify_passes_iff. exists y, x. auto.
  - intros a b c H1 H2.
    apply verify_passes_iff in H1 as (x & y & Hx & Hy & Heq).
    apply verify_passes_iff in H2 as (y' & z & Hy' & Hz & Heq').
    rewrite Hy in Hy'. injection Hy' as <-.
    apply verify_passes_iff. exists x, z. split; [exact Hx|]. split; [exact Hz|].
    congruence.
Qed.

Lemma X8_integrity_check_is_an_equivalence_witness :
  verifyContentIntegrity sharedHelperPass1 sharedHelper = Done None.
Proof.
  apply (proj1 (proj2 X8_integrity_check_is_an_equivalence) sharedHelper sharedHelperPass1).
  vm_compute. reflexivity.
Defined.

(** * The keys of the declaration map *)

(** X10.  The key of a block determines its kind and its name. *)
Theorem X10_declaration_key_is_injective (b1 b2 : Block) :
  declKey b1 = declKey b2 → Kind b1 = Kind b2 ∧ Name b1 = Name b2.
Proof.
  unfold declKey. generalize (Name b1) (Name b2) (Kind b1) (Kind b2).
  intros n1 n2 k1 k2 H.
  destruct k1, k2; vm_compute in H;
    try discriminate H; (split; [reflexivity|]); congruence.
Qed.

(** Two blocks of one key: a message A with two different texts. *)
Lemma X10_declaration_key_is_injective_witness :
  Kind (newBlock BlockMessage "A" "" "message A {}")
  = Kind (newBlock BlockMessage "A" "// c" "message A { int32 x = 1; }")
  ∧ Name (newBlock BlockMessage "A" "" "message A {}")
    = Name (newBlock BlockMessage "A" "// c" "message A { int32 x = 1; }").
Proof. apply X10_declaration_key_is_injective. reflexivity.
Defined.

(** * The declaration map of a list of blocks *)

Lemma extractDeclarations_snoc (l : list Block) (b : Block) :
  extractDeclarations (l ++ [b])
  = if recorded b then <[declKey b := declBody b]> (extractDeclarations l)
    else extractDeclarations l.
Proof.
  unfold extractDeclarations. rewrite foldl_app. simpl.
  unfold recorded, declBody. destruct (Kind b); reflexivity.
Qed.

Lemma declKeys_snoc (l : list Block) (b : Block) :
  declKeys (l ++ [b]) = declKeys l ++ (if recorded b then [declKey b] else []).
Proof.
  unfold declKeys. rewrite List.filter_app, map_app. simpl.
  destruct (recorded b); reflexivity.
Qed.

Lemma elem_of_declKeys (l : list Block) (k : string) :
  k ∈ declKeys l ↔ ∃ b, b ∈ l ∧ recorded b = true ∧ declKey b = k.
Proof.
  unfold declKeys. rewrite list_elem_of_In, in_map_iff. split.
  - intros (b & Hk & Hb). apply filter_In in Hb as [Hb Hr].
    exists b. rewrite list_elem_of_In. auto.
  - intros (b & Hb & Hr & Hk). exists b. split; [exact Hk|].
    apply filter_In. rewrite <- list_elem_of_In. auto.
Qed.

(** With distinct keys, the map binds the key of every recorded block to
    its body, and nothing else. *)
Lemma extractDeclarations_lookup (l : list Block) :
  NoDup (declKeys l) →
  size (extractDeclarations l) = length (declKeys l)
  ∧ ∀ k v, extractDeclarations l !! k = Some v
           ↔ ∃ b, b ∈ l ∧ recorded b = true ∧ declKey b = k ∧ declBody b = v.
Proof.
  induction l as [|b l IH] using rev_ind; intros Hnd.
  - split; [reflexivity|]. intros k v. unfold extractDeclarations. simpl.
    rewrite lookup_empty. split; [discriminate|].
    intros (b & Hb & _). apply elem_of_nil in Hb as [].
  - rewrite declKeys_snoc in Hnd. rewrite extractDeclarations_snoc, declKeys_snoc.
    apply NoDup_app in Hnd as (Hl & Hfresh & _).
    destruct (IH Hl) as [Hsize Hlook]. clear IH.
    destruct (recorded b) eqn:Hr.
    + assert (Hnone : extractDeclarations l !! declKey b = None).
      { destruct (extractDeclarations l !! declKey b) as [v|] eqn:E; [|reflexivity].
        exfalso. apply Hlook in E as (b' & Hb' & Hr' & Hk' & _).
        apply (Hfresh (declKey b)); [|left].
        apply elem_of_declKeys. eauto. }
      split.
      * rewrite map_size_insert_None by exact Hnone.
        rewrite length_app, Hsize. simpl. lia.
      * intros k v. rewrite lookup_insert. destruct (decide (declKey b = k)) as [<-|Hne].
        -- split.
           ++ intros [= <-]. exists b. rewrite elem_of_app, list_elem_of_singleton. auto.
           ++ intros (b' & Hb' & Hr' & Hk' & <-).
              apply elem_of_app in Hb' as [Hb'|Hb'].
              ** exfalso. apply (Hfresh (declKey b)); [|left].
                 apply elem_of_declKeys. eauto.
              ** apply list_elem_of_singleton in Hb' as ->. reflexivity.
        -- rewrite Hlook. split.
           ++ intros (b' & Hb' & ?). exists b'. rewrite elem_of_app. tauto.
           ++ intros (b' & Hb' & Hr' & Hk' & Hv).
              apply elem_of_app in Hb' as [Hb'|Hb']; [eauto|].
              apply list_elem_of_singleton in Hb' as ->. congruence.
    + split; [rewrite app_nil_r; exact Hsize|].
      intros k v. rewrite Hlook. split.
      * intros (b' & Hb' & ?). exists b'. rewrite elem_of_app. tauto.
      * intros (b' & Hb' & Hr' & Hk' & Hv).
        apply elem_of_app in Hb' as [Hb'|Hb']; [eauto|].
        apply list_elem_of_singleton in Hb' as ->. congruence.
Qed.

Lemma List_filter_Permutation {A} (P : A → bool) (l l' : list A) :
  l ≡ₚ l' → List.filter P l ≡ₚ List.filter P l'.
Proof.
  induction 1 as [|x l l' _ IH|x y l|l l' l'' _ IH1 _ IH2]; simpl.
  - reflexivity.
  - destruct (P x); [constructor|]; exact IH.
  - destruct (P x), (P y); try reflexivity. apply perm_swap.
  - etrans; eassumption.
Qed.

(** X9.  The declaration map does not depend on the order of the blocks when
    their keys are distinct: it has one entry per declaration, and reordering
    the blocks gives the same map, so that the check passes on them. *)
Theorem X9_declaration_map_ignores_order (l l' : list Block) :
  NoDup (declKeys l) → l ≡ₚ l' →
  size (extractDeclarations l) = length (declKeys l)
  ∧ extractDeclarations l = extractDeclarations l'.
Proof.
  intros Hnd Hp.
  assert (Hnd' : NoDup (declKeys l')).
  { unfold declKeys in *.
    assert (Hperm : map declKey (List.filter recorded l)
                    ≡ₚ map declKey (List.filter recorded l'))
      by apply Permutation_map, List_filter_Permutation, Hp.
    rewrite <- Hperm. exact Hnd. }
  destruct (extractDeclarations_lookup l Hnd) as [Hsize H1].
  destruct (extractDeclarations_lookup l' Hnd') as [_ H2].
  split; [exact Hsize|]. apply map_eq. intros k. apply option_eq. intros v.
  rewrite H1, H2. split; intros (b & Hb & ?); exists b; (split; [|assumption]).
  - rewrite <- Hp. exact Hb.
  - rewrite Hp. exact Hb.
Qed.

Lemma X9_declaration_map_ignores_order_witness :
  size (extractDeclarations refTwice) = length (declKeys refTwice)
  ∧ extractDeclarations refTwice = extractDeclarations (rev refTwice).
Proof.
  apply X9_declaration_map_ignores_order.
  - apply (bool_decide_unpack _). vm_compute. exact I.
  - apply Permutation_rev.
Defined.

(** * The warnings of Sort *)

(** One step through the body of [arrange]: a [let], a destructuring [let]
    or a call that may fail. *)
Ltac peel H :=
  lazymatch type of H with
  | (let x := ?v in @?b x) = ?r =>
      let y := fresh x in
      pose (y := v); change (b y = r) in H; cbv beta in H
  | (let '(_, _) := ?e in _) = _ => destruct e eqn:?
  | (?e ≫= _) = _ =>
      let E := fresh "E" in
      destruct e eqn:E; cbn [mbind outcome_bind obind] in H; [|discriminate H..]
  end.

Lemma Refined_arrange_warnings blocks opts h l options imports ordered ws :
  Refined.arrange blocks opts = Done (h, l, options, imports, ordered, ws) → ws = [].
Proof.
  unfold Refined.arrange. intros H.
  repeat peel H.
  injection H as _ _ _ _ _ <-. reflexivity.
Qed.

Lemma foldl_invariant {A B} (P : A → Prop) (f : A → B → A) (l : list B) (a : A) :
  P a → (∀ a x, P a → P (f a x)) → P (foldl f a l).
Proof.
  intros Ha Hf. revert a Ha. induction l as [|x l IH]; intros a Ha; [exact Ha|].
  simpl. apply IH, Hf, Ha.
Qed.

Lemma Legacy_arrange_quiet blocks opts h l options imports ordered ws :
  Quiet opts = true →
  Legacy.arrange blocks opts = Done (h, l, options, imports, ordered, ws) → ws = [].
Proof.
  unfold Legacy.arrange. intros Hq H.
  repeat peel H.
  injection H as _ _ _ _ _ <-.
  match goal with
  | E : foldl ?f ?init ?rest = (_, ?w) |- ?w = [] =>
      assert (Hinv : (foldl f init rest).2 = []); [|rewrite E in Hinv; exact Hinv]
  end.
  apply (foldl_invariant (fun st : heap * list ptr * list ptr * list ptr * list Warning =>
                            st.2 = [])); [reflexivity|].
  intros [[[[h' core] helper] unref] w] p' Hw. simpl in Hw. subst w. cbv zeta.
  rewrite Hq. cbn [negb].
  repeat (match goal with |- context [if ?c then _ else _] => destruct c end);
    reflexivity.
Qed.

(** X11.  With the quiet option no warning is returned, by either variant of
    Sort. *)
Theorem X11_quiet_sort_returns_no_warning (content : string) (opts : Options)
        (out : string) (warnings : list Warning) (e : option SortError) :
  Quiet opts = true →
  (Legacy.Sort content opts = Done (out, warnings, e) → warnings = [])
  ∧ (Refined.Sort content opts = Done (out, warnings, e) → warnings = []).
Proof.
  intros Hq. split.
  - unfold Legacy.Sort. sort_cases content opts Legacy.arrange; try discriminate;
      try (intros [= _ <- _]; reflexivity).
    intros [= _ <- _]. eapply Legacy_arrange_quiet; eassumption.
  - unfold Refined.Sort. sort_cases content opts Refined.arrange; try discriminate;
      try (intros [= _ <- _]; reflexivity).
    intros [= _ <- _]. eapply Refined_arrange_warnings; eassumption.
Qed.

(** Sort of [sharedHelper] under the quiet options of the test suite. *)
Lemma X11_quiet_sort_returns_no_warning_witness :
  Quiet defaultOpts = true
  ∧ Legacy.Sort sharedHelper defaultOpts = Done (sharedHelperLegacy, [], None)
  ∧ @nil Warning = [].
Proof.
  assert (Hq : Quiet defaultOpts = true) by reflexivity.
  assert (Hs : Legacy.Sort sharedHelper defaultOpts = Done (sharedHelperLegacy, [], None))
    by (vm_compute; reflexivity).
  split; [exact Hq|]. split; [exact Hs|].
  exact (proj1 (X11_quiet_sort_returns_no_warning _ _ _ _ _ Hq) Hs).
Defined.

(** * The header and body buckets *)

Lemma separate_snoc (h : heap) (blocks : list ptr) (p : ptr) :
  separate h (blocks ++ [p])
  = let l := separate h blocks in
    let b := deref h p in
    match Kind b with
    | BlockSyntax =>
        mkLayout (Comments b) (Some p) (packageBlock l) (optionBlocks l)
                 (importBlocks l) (extendBlocks l) (bodyBlocks l)
    | BlockPackage =>
        mkLayout (headerComments l) (syntaxBlock l) (Some p) (optionBlocks l)
                 (importBlocks l) (extendBlocks l) (bodyBlocks l)
    | BlockOption =>
        mkLayout (headerComments l) (syntaxBlock l) (packageBlock l)
                 (optionBlocks l ++ [p]) (importBlocks l) (extendBlocks l)
                 (bodyBlocks l)
    | BlockImport =>
        mkLayout (headerComments l) (syntaxBlock l) (packageBlock l)
                 (optionBlocks l) (importBlocks l ++ [p]) (extendBlocks l)
                 (bodyBlocks l)
    | BlockExtend =>
        mkLayout (headerComments l) (syntaxBlock l) (packageBlock l)
                 (optionBlocks l) (importBlocks l) (extendBlocks l ++ [p])
                 (bodyBlocks l)
    | BlockMessage | BlockEnum | BlockService =>
        mkLayout (headerComments l) (syntaxBlock l) (packageBlock l)
                 (optionBlocks l) (importBlocks l) (extendBlocks l)
                 (bodyBlocks l ++ [p])
    | BlockComment => l
    end.
Proof. unfold separate. rewrite foldl_app. reflexivity. Qed.

(** The buckets of the separation loop as filters of the block list. *)
Lemma separate_spec (h : heap) (blocks : list ptr) :
  optionBlocks (separate h blocks) = ofKind h BlockOption blocks
  ∧ importBlocks (separate h blocks) = ofKind h BlockImport blocks
  ∧ extendBlocks (separate h blocks) = ofKind h BlockExtend blocks
  ∧ bodyBlocks (separate h blocks) = bodyKinds h blocks
  ∧ syntaxBlock (separate h blocks) = last (ofKind h BlockSyntax blocks)
  ∧ packageBlock (separate h blocks) = last (ofKind h BlockPackage blocks)
  ∧ headerComments (separate h blocks)
    = match last (ofKind h BlockSyntax blocks) with
      | Some p => Comments (deref h p)
      | None => ""
      end.
Proof.
  induction blocks as [|p blocks IH] using rev_ind; [repeat split|].
  destruct IH as (Ho & Hi & He & Hb & Hs & Hp & Hc).
  rewrite separate_snoc. cbv zeta. unfold ofKind, bodyKinds in *.
  rewrite !List.filter_app. simpl. unfold kindOf.
  destruct (Kind (deref h p)) eqn:Ek; simpl;
    rewrite ?app_nil_r, ?last_snoc, ?Ho, ?Hi, ?He, ?Hb, ?Hs, ?Hp, ?Hc;
    repeat split; reflexivity.
Qed.

(** X12.  The separation loop keeps, in file order, the options, the imports, the
    extensions and the body blocks (messages, enums, services); it keeps the
    last syntax statement, with its comments as header comments, and the last
    package statement; freestanding comment blocks are dropped. *)
Theorem X12_separate_sorts_blocks_into_buckets (h : heap) (blocks : list ptr) :
  optionBlocks (separate h blocks) = ofKind h BlockOption blocks
  ∧ importBlocks (separate h blocks) = ofKind h BlockImport blocks
  ∧ extendBlocks (separate h blocks) = ofKind h BlockExtend blocks
  ∧ bodyBlocks (separate h blocks) = bodyKinds h blocks
  ∧ syntaxBlock (separate h blocks) = last (ofKind h BlockSyntax blocks)
  ∧ packageBlock (separate h blocks) = last (ofKind h BlockPackage blocks)
  ∧ headerComments (separate h blocks)
    = match last (ofKind h BlockSyntax blocks) with
      | Some p => Comments (deref h p)
      | None => ""
      end.
Proof. apply separate_spec. Qed.

(** * Emission *)

Lemma emitOnce_ok (h : heap) (st : emission) (b : ptr) :
  emissionOk h st → emissionOk h (emitOnce h st b).
Proof.
  unfold emitOnce, emissionOk. intros Hset.
  destruct (bool_decide (nameOf h b ∈ st.2)) eqn:E; [auto|].
  simpl. rewrite map_app. simpl.
  intros n. rewrite elem_of_union, elem_of_singleton, elem_of_app,
    list_elem_of_singleton, Hset. tauto.
Qed.

Lemma emit_fold_fails {A} (F : outcome emission → A → outcome emission) (l : list A)
      (x : outcome emission) :
  (∀ a, F Panic a = Panic) → (∀ a, F Diverge a = Diverge) →
  (∀ st, x ≠ Done st) → ∀ st, foldl F x l ≠ Done st.
Proof.
  intros HP HD. revert x. induction l as [|a l IH]; intros x Hx; [exact Hx|].
  simpl. apply IH. destruct x as [st| |]; [destruct (Hx st); reflexivity| |].
  - rewrite HP. discriminate.
  - rewrite HD. discriminate.
Qed.

(** What a call of emitWithHelpers that returns has done. *)
Lemma emitWithHelpers_spec (h : heap) (helperMap : gmap string (list ptr)) (depth : nat) :
  ∀ b st st',
    emissionOk h st →
    emitWithHelpers depth h helperMap b st = Done st' →
    emissionOk h st'
    ∧ nameOf h b ∈ st'.2
    ∧ (nameOf h b ∈ st.2 → st' = st)
    ∧ (nameOf h b ∉ st.2 →
       ∃ before, st'.1 = st.1 ++ before ++ [b]
                 ∧ ∀ hp, hp ∈ default [] (helperMap !! nameOf h b) →
                         nameOf h hp ∈ st.2 ∨ nameOf h hp ∈ map (nameOf h) before).
Proof.
  induction depth as [|d IH]; intros b st st' Hok H; [discriminate|].
  cbn [emitWithHelpers] in H.
  destruct (bool_decide (nameOf h b ∈ st.2)) eqn:E.
  { apply bool_decide_eq_true in E. injection H as <-.
    split; [exact Hok|]. split; [exact E|]. split; [reflexivity|]. tauto. }
  apply bool_decide_eq_false in E.
  apply bind_Done in H as (st1 & Hfold & H). injection H as <-.
  assert (Hhelpers :
            ∀ hps st0 st1,
              emissionOk h st0 →
              foldl (fun acc hp => st ← acc; emitWithHelpers d h helperMap hp st)
                (Done st0) hps = Done st1 →
              emissionOk h st1
              ∧ (∃ added, st1.1 = st0.1 ++ added
                          ∧ ∀ hp, hp ∈ hps →
                                  nameOf h hp ∈ st0.2
                                  ∨ nameOf h hp ∈ map (nameOf h) added)).
  { clear st st1 Hok Hfold E. induction hps as [|hp hps IHh]; intros st0 st1 Hok Hf.
    - simpl in Hf. injection Hf as <-. split; [exact Hok|].
      exists []. rewrite app_nil_r. split; [reflexivity|].
      intros hp Hhp. apply elem_of_nil in Hhp as [].
    - cbn [foldl] in Hf. cbn [mbind outcome_bind obind] in Hf.
      destruct (emitWithHelpers d h helperMap hp st0) as [st2| |] eqn:E2.
      2,3: exfalso; revert Hf; apply emit_fold_fails; try reflexivity; discriminate.
      destruct (IH hp st0 st2 Hok E2) as (Hok2 & Hin2 & Hsame & Hnew).
      assert (Hext : ∃ a1, st2.1 = st0.1 ++ a1).
      { destruct (decide (nameOf h hp ∈ st0.2)) as [Hi|Hn].
        - rewrite (Hsame Hi). exists []. rewrite app_nil_r. reflexivity.
        - destruct (Hnew Hn) as (before & -> & _). eauto. }
      destruct Hext as (a1 & Ha1).
      destruct (IHh st2 st1 Hok2 Hf) as (Hok1 & a2 & Ha2 & Hrest).
      split; [exact Hok1|]. exists (a1 ++ a2).
      split; [rewrite Ha2, Ha1, app_assoc; reflexivity|].
      intros hp' Hhp'. rewrite map_app, elem_of_app.
      apply elem_of_cons in Hhp' as [->|Hhp'].
      + apply Hok2 in Hin2. rewrite Ha1, map_app, elem_of_app, <- (Hok _) in Hin2. tauto.
      + destruct (Hrest hp' Hhp') as [Hr|Hr]; [|tauto].
        apply Hok2 in Hr. rewrite Ha1, map_app, elem_of_app, <- (Hok _) in Hr. tauto. }
  destruct (Hhelpers _ st st1 Hok Hfold) as (Hok1 & added & Hadded & Hhp).
  simpl. split; [|split; [|split]].
  - intros n. simpl. rewrite elem_of_union, elem_of_singleton, map_app, elem_of_app.
    simpl. rewrite list_elem_of_singleton, (Hok1 n). tauto.
  - apply elem_of_union. left. apply elem_of_singleton. reflexivity.
  - tauto.
  - intros _. exists added. rewrite Hadded, app_assoc. auto.
Qed.

(** X13.  A call of emitWithHelpers that returns leaves the block emitted; on a
    block whose name is emitted it changes nothing; otherwise it appends the
    block, after blocks among which are all the helpers of its name that were
    not emitted before. *)
Theorem X13_helpers_are_emitted_before_their_consumer
        (h : heap) (helperMap : gmap string (list ptr)) (depth : nat)
        (b : ptr) (st st' : emission) :
  emissionOk h st →
  emitWithHelpers depth h helperMap b st = Done st' →
  emissionOk h st'
  ∧ nameOf h b ∈ st'.2
  ∧ (nameOf h b ∈ st.2 → st' = st)
  ∧ (nameOf h b ∉ st.2 →
     ∃ before, st'.1 = st.1 ++ before ++ [b]
               ∧ ∀ hp, hp ∈ default [] (helperMap !! nameOf h b) →
                       nameOf h hp ∈ st.2 ∨ nameOf h hp ∈ map (nameOf h) before).
Proof. apply emitWithHelpers_spec. Qed.

(** X14.  The loops that append the blocks not yet emitted: the ordered list only
    grows, by blocks of the given list in their order; no name is emitted
    twice; and afterwards the name of every given block is emitted. *)
Theorem X14_emit_once_appends_new_names (h : heap) (l : list ptr) (st : emission) :
  emissionOk h st → NoDup (map (nameOf h) st.1) →
  emissionOk h (foldl (emitOnce h) st l)
  ∧ NoDup (map (nameOf h) (foldl (emitOnce h) st l).1)
  ∧ (∃ added, (foldl (emitOnce h) st l).1 = st.1 ++ added ∧ sublist added l)
  ∧ ∀ b, b ∈ l → nameOf h b ∈ (foldl (emitOnce h) st l).2.
Proof.
  revert st. induction l as [|b l IH]; intros st Hok Hnd.
  - simpl. split; [exact Hok|]. split; [exact Hnd|]. split.
    + exists []. rewrite app_nil_r. split; [reflexivity|constructor].
    + intros b Hb. apply elem_of_nil in Hb as [].
  - cbn [foldl].
    assert (Hstep : emissionOk h (emitOnce h st b)
                    ∧ NoDup (map (nameOf h) (emitOnce h st b).1)
                    ∧ nameOf h b ∈ (emitOnce h st b).2
                    ∧ ∃ a, (emitOnce h st b).1 = st.1 ++ a ∧ sublist a [b]).
    { split; [apply emitOnce_ok, Hok|]. unfold emitOnce.
      destruct (bool_decide (nameOf h b ∈ st.2)) eqn:E.
      - apply bool_decide_eq_true in E. split; [exact Hnd|]. split; [exact E|].
        exists []. rewrite app_nil_r. split; [reflexivity|]. apply sublist_nil_l.
      - apply bool_decide_eq_false in E. simpl. split; [|split].
        + rewrite map_app. apply NoDup_app. split; [exact Hnd|].
          split; [|apply NoDup_singleton].
          intros n Hn Hn'. apply list_elem_of_singleton in Hn' as ->.
          apply E, Hok, Hn.
        + apply elem_of_union. left. apply elem_of_singleton. reflexivity.
        + exists [b]. split; reflexivity. }
    destruct Hstep as (Hok1 & Hnd1 & Hb1 & a & Ha & Hsub).
    destruct (IH _ Hok1 Hnd1) as (Hok2 & Hnd2 & (added & Hadded & Hsub2) & Hall).
    split; [exact Hok2|]. split; [exact Hnd2|]. split.
    + exists (a ++ added). split; [rewrite Hadded, Ha, app_assoc; reflexivity|].
      change (b :: l) with ([b] ++ l). apply sublist_app; assumption.
    + intros b' Hb'. apply elem_of_cons in Hb' as [->|Hb']; [|apply Hall, Hb'].
      apply Hok2. rewrite Hadded, map_app, elem_of_app. left. apply Hok1, Hb1.
Qed.

(** Appending A, H and A again to an empty emission: A and H, once each. *)
Lemma X14_emit_once_appends_new_names_witness :
  NoDup (map (nameOf helperHeap) (foldl (emitOnce helperHeap) ([], ∅) [0; 1; 0]).1)
  ∧ (foldl (emitOnce helperHeap) ([], ∅) [0; 1; 0]).1 = [0; 1].
Proof.
  assert (Hok : emissionOk helperHeap ([], ∅)).
  { intros n. split; intros H; [apply elem_of_empty in H|apply elem_of_nil in H];
      destruct H. }
  split.
  - exact (proj1 (proj2 (X14_emit_once_appends_new_names helperHeap [0; 1; 0] ([], ∅)
                           Hok NoDup_nil_2))).
  - vm_compute. reflexivity.
Defined.

(** Emitting A, whose helper is H: H is put before A. *)
Lemma X13_helpers_are_emitted_before_their_consumer_witness :
  ∃ st',
    emitWithHelpers 3 helperHeap helperMapOfA 0 ([], ∅) = Done st'
    ∧ st'.1 = [1; 0]
    ∧ nameOf helperHeap 0 ∈ st'.2.
Proof.
  assert (Hok : emissionOk helperHeap ([], ∅)).
  { intros n. split; intros H; [apply elem_of_empty in H|apply elem_of_nil in H];
      destruct H. }
  destruct (emitWithHelpers 3 helperHeap helperMapOfA 0 ([], ∅)) as [st'| |] eqn:E;
    [|vm_compute in E; discriminate E..].
  exists st'. split; [reflexivity|].
  split.
  - vm_compute in E. injection E as <-. reflexivity.
  - exact (proj1 (proj2 (X13_helpers_are_emitted_before_their_consumer
                           helperHeap helperMapOfA 3 0 ([], ∅) st' Hok E))).
Defined.

(** * The edit script of the diff *)

(** A loop that keeps an invariant and decreases a measure below its fuel
    returns a value. *)
Lemma run_loop_total {S R} (I : S → Prop) (Q : R → Prop) (m : S → nat)
      (body : S → step_result S (outcome R)) :
  (∀ s, I s → match body s with
               | Next s' => I s' ∧ m s' < m s
               | Stop r => ∃ v, r = Done v ∧ Q v
               end) →
  ∀ fuel s, I s → m s < fuel → ∃ v, run_loop fuel body s = Done v ∧ Q v.
Proof.
  intros Hbody fuel. induction fuel as [|n IH]; intros s Hs Hm; [lia|].
  simpl. specialize (Hbody s Hs). destruct (body s) as [s'|r]; [|exact Hbody].
  destruct Hbody as [Hs' Hlt]. apply IH; [exact Hs'|lia].
Qed.

Lemma forM_total {S A} (I : S → Prop) (l : list A) (body : S → A → outcome S) (s : S) :
  I s →
  (∀ s x, x ∈ l → I s → ∃ s', body s x = Done s' ∧ I s') →
  ∃ s', forM l body s = Done s' ∧ I s'.
Proof.
  unfold forM. revert s. induction l as [|x l IH]; intros s Hs Hbody.
  - exists s. auto.
  - cbn [foldl]. cbn [mbind outcome_bind obind].
    destruct (Hbody s x) as (s' & -> & Hs'); [left|exact Hs|].
    apply IH; [exact Hs'|]. intros s0 y Hy. apply Hbody. right. exact Hy.
Qed.

Lemma index_Done {A} (l : list A) (i : nat) :
  i < length l → ∃ x, index l i = Done x ∧ l !! i = Some x.
Proof.
  intros H. unfold index. destruct (lookup_lt_is_Some_2 l i H) as [x Hx].
  rewrite Hx. eauto.
Qed.

Lemma cell_Done (n m : nat) (dp : list (list nat)) (i j : nat) :
  tableOk n m dp → i ≤ n → j ≤ m → ∃ v, cell dp i j = Done v.
Proof.
  intros [Hlen Hrows] Hi Hj. unfold cell.
  destruct (index_Done dp i) as (row & -> & Hrow); [lia|].
  cbn [mbind outcome_bind obind].
  rewrite Forall_forall in Hrows.
  destruct (index_Done row j) as (v & -> & _); [|eauto].
  rewrite (Hrows row); [lia|]. eapply list_elem_of_lookup_2, Hrow.
Qed.

Lemma setCell_Done (n m : nat) (dp : list (list nat)) (i j v : nat) :
  tableOk n m dp → i ≤ n → j ≤ m →
  ∃ dp', setCell dp i j v = Done dp' ∧ tableOk n m dp'.
Proof.
  intros [Hlen Hrows] Hi Hj. unfold setCell.
  destruct (index_Done dp i) as (row & -> & Hrow); [lia|].
  cbn [mbind outcome_bind obind].
  assert (Hr : length row = m + 1).
  { rewrite Forall_forall in Hrows. apply Hrows. eapply list_elem_of_lookup_2, Hrow. }
  replace (j <? length row) with true by (symmetry; apply Nat.ltb_lt; lia).
  eexists. split; [reflexivity|]. split.
  - rewrite length_insert. exact Hlen.
  - apply Forall_insert; [exact Hrows|]. rewrite length_insert. exact Hr.
Qed.

(** The table is built without a panic. *)
Lemma lcsTable_Done (a b : list string) :
  ∃ dp, lcsTable a b = Done dp ∧ tableOk (length a) (length b) dp.
Proof.
  unfold lcsTable. cbv zeta.
  apply (forM_total (tableOk (length a) (length b))).
  { split; [apply length_replicate|]. apply Forall_replicate, length_replicate. }
  intros dp i Hi Hdp. apply elem_of_seq in Hi.
  apply (forM_total (tableOk (length a) (length b))); [exact Hdp|].
  intros dp' j Hj Hdp'. apply elem_of_seq in Hj.
  destruct (index_Done a (i - 1)) as (ai & -> & _); [lia|].
  destruct (index_Done b (j - 1)) as (bj & -> & _); [lia|].
  cbn [mbind outcome_bind obind].
  destruct (String.eqb ai bj).
  - destruct (cell_Done _ _ dp' (i - 1) (j - 1) Hdp') as (v & ->); [lia|lia|].
    cbn [mbind outcome_bind obind]. apply setCell_Done; [exact Hdp'|lia|lia].
  - destruct (cell_Done _ _ dp' (i - 1) j Hdp') as (up & ->); [lia|lia|].
    destruct (cell_Done _ _ dp' i (j - 1) Hdp') as (left & ->); [lia|lia|].
    cbn [mbind outcome_bind obind].
    destruct (left <=? up); apply setCell_Done; try exact Hdp'; lia.
Qed.

Lemma originalLines_snoc (edits : list edit) (e : edit) :
  originalLines (rev (edits ++ [e]))
  = (if bool_decide (op e = editInsert) then [] else [line e])
    ++ originalLines (rev edits).
Proof.
  rewrite rev_app_distr. unfold originalLines. simpl.
  destruct (bool_decide (op e = editInsert)); reflexivity.
Qed.

Lemma newLines_snoc (edits : list edit) (e : edit) :
  newLines (rev (edits ++ [e]))
  = (if bool_decide (op e = editDelete) then [] else [line e])
    ++ newLines (rev edits).
Proof.
  rewrite rev_app_distr. unfold newLines. simpl.
  destruct (bool_decide (op e = editDelete)); reflexivity.
Qed.

Lemma skipn_pred {A} (l : list A) (i : nat) (x : A) :
  0 < i → l !! (i - 1) = Some x → skipn (i - 1) l = x :: skipn i l.
Proof.
  intros Hi Hx. rewrite (drop_S l x (i - 1) Hx). f_equal. f_equal. lia.
Qed.

(** One turn of the backtracking loop. *)
Lemma backtrackStep_spec (a b : list string) (dp : list (list nat))
      (i j : nat) (edits : list edit) :
  tableOk (length a) (length b) dp →
  i ≤ length a → j ≤ length b → 0 < i ∨ 0 < j →
  originalLines (rev edits) = skipn i a →
  newLines (rev edits) = skipn j b →
  Forall (editOk a b) edits →
  ∃ i' j' edits',
    backtrackStep a b dp (i, j, edits) = Done (i', j', edits')
    ∧ i' ≤ length a ∧ j' ≤ length b ∧ i' + j' < i + j
    ∧ originalLines (rev edits') = skipn i' a
    ∧ newLines (rev edits') = skipn j' b
    ∧ Forall (editOk a b) edits'.
Proof.
  intros Hdp Hi Hj Hpos HA HB Hok. unfold backtrackStep.
  assert (Hsame : ∃ same, sameLine a b i j = Done same
                          ∧ (same = true →
                             0 < i ∧ 0 < j ∧ ∃ x, a !! (i - 1) = Some x
                                                  ∧ b !! (j - 1) = Some x)).
  { unfold sameLine. destruct ((0 <? i) && (0 <? j)) eqn:E.
    - apply andb_prop in E as [E1 E2]. apply Nat.ltb_lt in E1, E2.
      destruct (index_Done a (i - 1)) as (ai & -> & Ha); [lia|].
      destruct (index_Done b (j - 1)) as (bj & -> & Hb); [lia|].
      cbn [mbind outcome_bind obind]. eexists. split; [reflexivity|].
      intros Heq. apply String.eqb_eq in Heq. subst bj. eauto.
    - exists false. split; [reflexivity|discriminate]. }
  destruct Hsame as (same & -> & Hsame). cbn [mbind outcome_bind obind].
  destruct same.
  { destruct (Hsame eq_refl) as (Hi0 & Hj0 & x & Ha & Hb). cbv zeta.
    unfold index. rewrite Ha. cbn [mbind outcome_bind obind].
    eexists _, _, _. split; [reflexivity|].
    split; [lia|]. split; [lia|]. split; [lia|].
    rewrite originalLines_snoc, newLines_snoc, HA, HB. simpl.
    split; [symmetry; apply skipn_pred; assumption|].
    split; [symmetry; apply skipn_pred; assumption|].
    apply Forall_app. split; [exact Hok|]. constructor; [|constructor].
    unfold editOk. simpl. eauto 8. }
  assert (Hins : ∃ ins, insertNext dp i j = Done ins ∧ (ins = true → 0 < j)
                        ∧ (ins = false → 0 < i)).
  { unfold insertNext. destruct (0 <? j) eqn:Ej.
    - apply Nat.ltb_lt in Ej. destruct (i =? 0) eqn:Ei.
      + exists true. split; [reflexivity|]. split; [auto|discriminate].
      + apply Nat.eqb_neq in Ei.
        destruct (cell_Done _ _ dp i (j - 1) Hdp) as (left & ->); [lia|lia|].
        destruct (cell_Done _ _ dp (i - 1) j Hdp) as (up & ->); [lia|lia|].
        cbn [mbind outcome_bind obind]. eexists. split; [reflexivity|].
        split; intros _; lia.
    - apply Nat.ltb_ge in Ej. exists false. split; [reflexivity|].
      split; [discriminate|]. intros _. lia. }
  destruct Hins as (ins & -> & Hins1 & Hins0). cbn [mbind outcome_bind obind].
  destruct ins.
  - specialize (Hins1 eq_refl). cbv zeta.
    destruct (index_Done b (j - 1)) as (bj & -> & Hb); [lia|].
    cbn [mbind outcome_bind obind].
    eexists _, _, _. split; [reflexivity|].
    split; [lia|]. split; [lia|]. split; [lia|].
    rewrite originalLines_snoc, newLines_snoc, HA, HB. simpl.
    split; [reflexivity|].
    split; [symmetry; apply skipn_pred; assumption|].
    apply Forall_app. split; [exact Hok|]. constructor; [|constructor].
    unfold editOk. simpl. eauto.
  - specialize (Hins0 eq_refl).
    replace (0 <? i) with true by (symmetry; apply Nat.ltb_lt; exact Hins0).
    destruct (index_Done a (i - 1)) as (ai & -> & Ha); [lia|].
    cbn [mbind outcome_bind obind].
    eexists _, _, _. split; [reflexivity|].
    split; [lia|]. split; [lia|]. split; [lia|].
    rewrite originalLines_snoc, newLines_snoc, HA, HB. simpl.
    split; [symmetry; apply skipn_pred; assumption|].
    split; [reflexivity|].
    apply Forall_app. split; [exact Hok|]. constructor; [|constructor].
    unfold editOk. simpl. eauto.
Qed.

(** The diff of two lists of lines is computed without a panic, and its
    script spells both lists. *)
Lemma lcsDiff_spec (a b : list string) :
  ∃ edits,
    lcsDiff a b = Done edits
    ∧ originalLines edits = a
    ∧ newLines edits = b
    ∧ Forall (editOk a b) edits.
Proof.
  unfold lcsDiff. destruct (lcsTable_Done a b) as (dp & -> & Hdp).
  cbn [mbind outcome_bind obind].
  assert (Hloop : ∃ edits, backtrack a b dp = Done edits
                           ∧ originalLines (rev edits) = a
                           ∧ newLines (rev edits) = b
                           ∧ Forall (editOk a b) edits).
  { unfold backtrack.
    apply (run_loop_total
             (fun st : nat * nat * list edit =>
                st.1.1 ≤ length a ∧ st.1.2 ≤ length b
                ∧ originalLines (rev st.2) = skipn st.1.1 a
                ∧ newLines (rev st.2) = skipn st.1.2 b
                ∧ Forall (editOk a b) st.2)
             (fun edits => originalLines (rev edits) = a ∧ newLines (rev edits) = b
                           ∧ Forall (editOk a b) edits)
             (fun st => st.1.1 + st.1.2)).
    - intros [[i j] edits] (Hi & Hj & HA & HB & Hok).
      cbn [fst snd] in *.
      destruct ((0 <? i) || (0 <? j)) eqn:E.
      + assert (Hpos : 0 < i ∨ 0 < j).
        { apply orb_prop in E as [E|E]; apply Nat.ltb_lt in E; auto. }
        destruct (backtrackStep_spec a b dp i j edits Hdp Hi Hj Hpos HA HB Hok)
          as (i' & j' & edits' & -> & ? & ? & ? & ? & ? & ?).
        simpl. auto 10.
      + apply orb_false_elim in E as [E1 E2]. apply Nat.ltb_ge in E1, E2.
        assert (i = 0) as -> by lia. assert (j = 0) as -> by lia.
        eexists. split; [reflexivity|]. auto.
    - simpl. rewrite !drop_all. repeat split; try lia; constructor.
    - simpl. lia. }
  destruct Hloop as (edits & -> & HA & HB & Hok). cbn [mbind outcome_bind obind].
  eexists. split; [reflexivity|]. split; [exact HA|]. split; [exact HB|].
  apply Forall_rev, Hok.
Qed.

(** X15.  The edit script of a diff is computed without a panic; its equalities
    and deletions, in order, are the lines of the first text, its equalities
    and insertions those of the second, and every edit carries the index of
    its line. *)
Theorem X15_edit_script_spells_both_texts (a b : list string) :
  ∃ edits,
    lcsDiff a b = Done edits
    ∧ originalLines edits = a
    ∧ newLines edits = b
    ∧ Forall (editOk a b) edits.
Proof. apply lcsDiff_spec. Qed.

(** * The diff of equal texts *)

Lemma lcsDiff_same (l : list string) :
  ∃ edits, lcsDiff l l = Done edits ∧ Forall (fun e => op e = editEqual) edits.
Proof.
  unfold lcsDiff. destruct (lcsTable_Done l l) as (dp & -> & Hdp).
  cbn [mbind outcome_bind obind].
  assert (Hloop : ∃ edits, backtrack l l dp = Done edits
                           ∧ Forall (fun e => op e = editEqual) edits).
  { unfold backtrack.
    apply (run_loop_total
             (fun st : nat * nat * list edit =>
                st.1.1 = st.1.2 ∧ st.1.1 ≤ length l
                ∧ Forall (fun e => op e = editEqual) st.2)
             (fun edits => Forall (fun e => op e = editEqual) edits)
             (fun st => st.1.1 + st.1.2)).
    - intros [[i j] edits] (Hij & Hi & Hok). cbn [fst snd] in *. subst j.
      destruct ((0 <? i) || (0 <? i)) eqn:E.
      + assert (Hpos : 0 < i).
        { apply orb_prop in E as [E|E]; apply Nat.ltb_lt in E; exact E. }
        unfold backtrackStep, sameLine.
        replace (0 <? i) with true by (symmetry; apply Nat.ltb_lt; exact Hpos).
        cbn [andb].
        destruct (index_Done l (i - 1)) as (x & Hx & Hl); [lia|].
        rewrite Hx. cbn [mbind outcome_bind obind]. rewrite String.eqb_refl.
        cbn [mbind outcome_bind obind stepM fst snd].
        split; [|lia]. split; [reflexivity|]. split; [lia|].
        apply Forall_app. split; [exact Hok|]. constructor; [reflexivity|constructor].
      + eexists. split; [reflexivity|]. exact Hok.
    - cbn [fst snd]. split; [reflexivity|]. split; [lia|constructor].
    - cbn [fst snd]. lia. }
  destruct Hloop as (edits & -> & Hok). cbn [mbind outcome_bind obind].
  eexists. split; [reflexivity|]. apply Forall_rev, Hok.
Qed.

Lemma equal_edits_lines (edits : list edit) :
  Forall (fun e => op e = editEqual) edits →
  originalLines edits = newLines edits
  ∧ existsb (fun e => negb (bool_decide (op e = editEqual))) edits = false.
Proof.
  unfold originalLines, newLines.
  induction 1 as [|e edits He _ [IH1 IH2]]; [split; reflexivity|].
  simpl. rewrite He, IH2. simpl. rewrite IH1. split; reflexivity.
Qed.

Lemma no_change_equal_edits (edits : list edit) :
  existsb (fun e => negb (bool_decide (op e = editEqual))) edits = false →
  Forall (fun e => op e = editEqual) edits.
Proof.
  induction edits as [|e edits IH]; [constructor|]. simpl.
  intros H. apply orb_false_elim in H as [H1 H2].
  apply negb_false_iff, bool_decide_eq_true in H1. constructor; auto.
Qed.

(** X16.  DiffStrings returns the empty text exactly when the two texts have the
    same lines (a last empty line apart). *)
Theorem X16_diff_is_empty_for_equal_lines (a b nameA nameB : string) :
  DiffStrings a b nameA nameB = Done "" ↔ diffLines a = diffLines b.
Proof.
  unfold DiffStrings, diffLines. cbv zeta. split.
  - destruct (lcsDiff_spec (dropLastEmpty (Split a LF)) (dropLastEmpty (Split b LF)))
      as (edits & -> & HA & HB & _).
    cbn [mbind outcome_bind obind].
    destruct (existsb _ edits) eqn:E; cbn [negb].
    + intros H. apply bind_Done in H as (hunks & _ & H). discriminate H.
    + intros _. apply no_change_equal_edits, equal_edits_lines in E as [E _].
      rewrite <- HA, <- HB. exact E.
  - intros <-. destruct (lcsDiff_same (dropLastEmpty (Split a LF))) as (edits & -> & Hok).
    cbn [mbind outcome_bind obind].
    apply equal_edits_lines in Hok as [_ ->]. reflexivity.
Qed.

Lemma X16_diff_is_empty_for_equal_lines_witness :
  DiffStrings ("a" +:+ nl +:+ "b") ("a" +:+ nl +:+ "b" +:+ nl) "x" "y" = Done "".
Proof.
  apply X16_diff_is_empty_for_equal_lines. reflexivity.
Defined.

(** * Lines *)

Lemma Split_nonempty (s : string) (c : ascii) : Split s c ≠ [].
Proof.
  destruct s as [|a s]; simpl; [discriminate|].
  destruct (Ascii.eqb a c); [discriminate|]. destruct (Split s c); discriminate.
Qed.

(** The pieces of a split do not hold the separator. *)
Lemma Split_free (s : string) (c : ascii) : Forall (fun x => Count x c = 0) (Split s c).
Proof.
  induction s as [|a s IH]; simpl; [repeat constructor|].
  destruct (Ascii.eqb a c) eqn:E; [constructor; [reflexivity|exact IH]|].
  destruct (Split s c) as [|p ps]; [repeat constructor; simpl; rewrite E; reflexivity|].
  inversion IH; subst. constructor; [|assumption]. simpl. rewrite E. assumption.
Qed.

Lemma Split_one (x : string) (c : ascii) : Count x c = 0 → Split x c = [x].
Proof.
  induction x as [|a x IH]; [reflexivity|]. simpl.
  destruct (Ascii.eqb a c); [discriminate|]. simpl. intros H. rewrite (IH H). reflexivity.
Qed.

Lemma Split_app_sep (x t : string) (c : ascii) :
  Count x c = 0 → Split (x +:+ String c t) c = x :: Split t c.
Proof.
  induction x as [|a x IH]; intros H.
  - rewrite append_nil_l. simpl. rewrite Ascii.eqb_refl. reflexivity.
  - simpl in H. rewrite append_cons. simpl.
    destruct (Ascii.eqb a c); [discriminate|]. simpl in H. rewrite (IH H). reflexivity.
Qed.

(** Joining lines and splitting the text gives the lines back. *)
Lemma Split_Join (l : list string) (c : ascii) :
  l ≠ [] → Forall (fun x => Count x c = 0) l → Split (Join l (String c "")) c = l.
Proof.
  induction l as [|x l IH]; intros Hne Hfree; [congruence|].
  inversion Hfree as [|? ? Hx Hl]; subst.
  destruct l as [|y l]; [simpl; apply Split_one, Hx|].
  change (Join (x :: y :: l) (String c ""))
    with (x +:+ String c "" +:+ Join (y :: l) (String c "")).
  rewrite append_cons, append_nil_l, Split_app_sep by exact Hx.
  rewrite IH; [reflexivity|discriminate|exact Hl].
Qed.

(** * The comments Emit writes *)

Lemma dropBlank_fixed (x : string) (t : list string) :
  blank x = false → dropBlank (x :: t) = x :: t.
Proof. intros H. simpl. rewrite H. reflexivity. Qed.

(** The cleaned comments are empty, or the join of lines whose first and
    last are not blank. *)
Lemma cleanComments_lines (s : string) :
  cleanComments s = ""
  ∨ ∃ y k' x t,
      cleanComments s = Join (y :: k') nl
      ∧ rev (y :: k') = x :: t
      ∧ blank y = false ∧ blank x = false
      ∧ Forall (fun z => Count z LF = 0) (y :: k').
Proof.
  unfold cleanComments. destruct (String.eqb s ""); [left; reflexivity|]. cbv zeta.
  set (L := Split s LF). set (l1 := dropBlank L).
  destruct (dropBlank (rev l1)) as [|x t] eqn:EK; [left; reflexivity|].
  assert (Hx : blank x = false) by (eapply dropBlank_head, EK).
  destruct (dropBlank_suffix (rev l1)) as [d Hd]. rewrite EK in Hd.
  assert (Hl1 : l1 = rev (x :: t) ++ rev d).
  { rewrite <- (rev_involutive l1), Hd, rev_app_distr. reflexivity. }
  assert (Hk : rev (x :: t) ≠ []).
  { simpl. destruct (rev t); discriminate. }
  destruct (rev (x :: t)) as [|y k'] eqn:Ek; [congruence|]. clear Hk.
  right. exists y, k', x, t. split; [reflexivity|].
  split; [rewrite <- Ek; apply rev_involutive|].
  split.
  { rewrite <- app_comm_cons in Hl1. unfold l1 in Hl1. eapply dropBlank_head, Hl1. }
  split; [exact Hx|].
  assert (HL : Forall (fun z => Count z LF = 0) l1).
  { destruct (dropBlank_suffix L) as [d' Hd']. fold l1 in Hd'.
    pose proof (Split_free s LF) as HS. fold L in HS. rewrite Hd' in HS.
    apply Forall_app in HS as [_ HS]. exact HS. }
  rewrite Hl1 in HL. apply Forall_app in HL as [HL _]. exact HL.
Qed.

(** X17.  Cleaning the comments of a block is idempotent: the cleaned text is
    left as it is. *)
Theorem X17_clean_comments_is_idempotent (s : string) :
  cleanComments (cleanComments s) = cleanComments s.
Proof.
  destruct (cleanComments_lines s) as [->|(y & k' & x & t & -> & Hrev & Hy & Hx & Hfree)];
    [reflexivity|].
  unfold cleanComments.
  destruct (String.eqb (Join (y :: k') nl) "") eqn:Er.
  { apply String.eqb_eq in Er. symmetry. exact Er. }
  cbv zeta. unfold nl. rewrite !Split_Join by (discriminate || exact Hfree).
  rewrite (dropBlank_fixed y k' Hy).
  rewrite Hrev, (dropBlank_fixed x t Hx), <- Hrev, rev_involutive. reflexivity.
Qed.

(** * Sorting blocks by name *)

Lemma nameLe_trans (h : heap) : Transitive (nameLe h).
Proof.
  intros p q r. unfold nameLe. rewrite !not_lt_le. intros H1 H2. etrans; eassumption.
Qed.

(** X18.  Sorting by name keeps the blocks and puts them in the order of their
    names. *)
Theorem X18_sort_by_name_orders_the_blocks (h : heap) (blocks : list ptr) :
  Permutation blocks (sortByName h blocks)
  ∧ StronglySorted (nameLe h) (sortByName h blocks).
Proof.
  unfold sortByName, GoSort.Slice. split; [apply SliceStable_perm|].
  apply Sorted_StronglySorted; [apply nameLe_trans|].
  apply (SliceStable_sorted (fun p q => GoStrings.lt (nameOf h p) (nameOf h q))).
  intros p q. apply lt_asym.
Qed.

(** * The body of a declaration *)

Lemma IndexByte_first (x t : string) (c : ascii) :
  Count x c = 0 → IndexByte (x +:+ String c t) c = Some (String.length x).
Proof.
  induction x as [|a x IH]; intros H.
  - rewrite append_nil_l. simpl. rewrite Ascii.eqb_refl. reflexivity.
  - simpl in H. rewrite append_cons. simpl.
    destruct (Ascii.eqb a c); [discriminate|]. simpl in H. rewrite (IH H). reflexivity.
Qed.

Lemma LastIndexByte_none (t : string) (c : ascii) :
  Count t c = 0 → LastIndexByte t c = None.
Proof.
  induction t as [|a t IH]; [reflexivity|]. simpl.
  destruct (Ascii.eqb a c); [discriminate|]. simpl. intros H. rewrite (IH H). reflexivity.
Qed.

Lemma LastIndexByte_last (x t : string) (c : ascii) :
  Count t c = 0 → LastIndexByte (x +:+ String c t) c = Some (String.length x).
Proof.
  intros H. induction x as [|a x IH].
  - rewrite append_nil_l. simpl. rewrite (LastIndexByte_none t c H), Ascii.eqb_refl.
    reflexivity.
  - rewrite append_cons. simpl. rewrite IH. reflexivity.
Qed.

Lemma take_append (x y : string) : take (String.length x) (x +:+ y) = x.
Proof.
  induction x as [|a x IH]; [destruct y; reflexivity|].
  rewrite append_cons. simpl. rewrite IH. reflexivity.
Qed.

(** X19.  The body of a declaration is the text between its first opening and its
    last closing brace; it is empty when a brace is missing. *)
Theorem X19_body_is_the_text_between_the_braces :
  (∀ head body tail,
      Count head "{" = 0 → Count tail "}" = 0 →
      extractBody (head +:+ "{" +:+ body +:+ "}" +:+ tail) = body)
  ∧ (∀ declText, Count declText "{" = 0 ∨ Count declText "}" = 0 →
                 extractBody declText = "").
Proof.
  split.
  - intros head body tail Hh Ht. unfold extractBody.
    assert (E1 : head +:+ "{" +:+ body +:+ "}" +:+ tail
                 = head +:+ String "{" (body +:+ String "}" tail)).
    { rewrite !append_cons, !append_nil_l. reflexivity. }
    assert (E2 : head +:+ "{" +:+ body +:+ "}" +:+ tail
                 = (head +:+ String "{" body) +:+ String "}" tail).
    { rewrite E1, append_assoc, append_cons. reflexivity. }
    rewrite E1 at 1. rewrite (IndexByte_first head _ "{" Hh).
    rewrite E2 at 1. rewrite (LastIndexByte_last _ tail "}" Ht).
    rewrite length_append. simpl String.length.
    replace (String.length head + S (String.length body) <=? String.length head)
      with false by (symmetry; apply Nat.leb_gt; lia).
    rewrite E1.
    replace (String.length head + S (String.length body) - (String.length head + 1))
      with (String.length body) by lia.
    rewrite <- (sdrop_drop (String.length head) 1), drop_append. simpl drop.
    apply take_append.
  - intros declText [H|H]; unfold extractBody.
    + assert (IndexByte declText "{" = None) as ->; [|reflexivity].
      induction declText as [|a s IH]; [reflexivity|]. simpl in *.
      destruct (Ascii.eqb a "{"); [discriminate|]. rewrite (IH H). reflexivity.
    + rewrite (LastIndexByte_none _ _ H). destruct (IndexByte declText "{"); reflexivity.
Qed.

(** The body of a message with a nested message. *)
Lemma X19_body_is_the_text_between_the_braces_witness :
  extractBody ("message A " +:+ "{" +:+ " message B {} " +:+ "}" +:+ " // end")
  = " message B {} ".
Proof.
  apply (proj1 X19_body_is_the_text_between_the_braces); reflexivity.
Defined.

(** * Services and their request and response messages *)

Lemma blockMap_spec (h : heap) (blocks : list ptr) (n : string) :
  let blockMap : gmap string ptr :=
    foldl (fun m p => if negb (String.eqb (nameOf h p) "")
                      then <[nameOf h p := p]> m else m) ∅ blocks in
  (∀ p, blockMap !! n = Some p → p ∈ blocks ∧ nameOf h p = n ∧ n ≠ "")
  ∧ ((∃ p, p ∈ blocks ∧ nameOf h p = n ∧ n ≠ "") → ∃ p, blockMap !! n = Some p).
Proof.
  cbv zeta. induction blocks as [|q blocks IH] using rev_ind.
  - simpl. split.
    + intros p Hp. rewrite lookup_empty in Hp. discriminate.
    + intros (p & Hp & _). apply elem_of_nil in Hp as [].
  - rewrite foldl_app. cbn [foldl]. destruct IH as [IH1 IH2].
    destruct (negb (String.eqb (nameOf h q) "")) eqn:E.
    + apply negb_true_iff, String.eqb_neq in E. split.
      * intros p Hp. rewrite lookup_insert in Hp.
        destruct (decide (nameOf h q = n)) as [Heq|Hne].
        -- injection Hp as <-. rewrite elem_of_app, list_elem_of_singleton.
           split; [auto|]. split; [exact Heq|]. congruence.
        -- destruct (IH1 p Hp) as (? & ? & ?). rewrite elem_of_app. auto.
      * intros (p & Hp & Hn & Hne). rewrite lookup_insert.
        destruct (decide (nameOf h q = n)); [eauto|].
        apply IH2. exists p. apply elem_of_app in Hp as [Hp|Hp]; [auto|].
        apply list_elem_of_singleton in Hp as ->. congruence.
    + apply negb_false_iff, String.eqb_eq in E. split.
      * intros p Hp. destruct (IH1 p Hp) as (? & ? & ?). rewrite elem_of_app. auto.
      * intros (p & Hp & Hn & Hne). apply IH2. exists p.
        apply elem_of_app in Hp as [Hp|Hp]; [auto|].
        apply list_elem_of_singleton in Hp as ->. congruence.
Qed.

Lemma rpcMessages_fold (h : heap) (blockMap : gmap string ptr) (typeNames : list string) :
  (∀ n p, blockMap !! n = Some p → nameOf h p = n) →
  let st :=
    foldl (fun '(rpcMsgNames, rpcMsgs, emitted) typeName =>
             match blockMap !! typeName with
             | Some b =>
                 if bool_decide (typeName ∉ emitted)
                 then ({[typeName]} ∪ rpcMsgNames, rpcMsgs ++ [b],
                       {[typeName]} ∪ emitted)
                 else (rpcMsgNames, rpcMsgs, emitted)
             | None => (rpcMsgNames, rpcMsgs, emitted)
             end)
      ((∅ : gset string), [], (∅ : gset string)) typeNames in
  st.2 = st.1.1
  ∧ (∀ n, n ∈ st.1.1 ↔ n ∈ map (nameOf h) st.1.2)
  ∧ NoDup (map (nameOf h) st.1.2)
  ∧ (∀ p, p ∈ st.1.2 → blockMap !! nameOf h p = Some p ∧ nameOf h p ∈ typeNames)
  ∧ (∀ n, n ∈ typeNames → is_Some (blockMap !! n) → n ∈ st.1.1).
Proof.
  intros Hmap. cbv zeta. induction typeNames as [|t l IH] using rev_ind.
  - simpl. split; [reflexivity|]. split; [intros n; set_solver|].
    split; [constructor|]. split; [intros p Hp; inversion Hp|].
    intros n Hn. inversion Hn.
  - rewrite foldl_app. cbn [foldl].
    destruct (foldl _ _ l) as [[names msgs] emitted].
    cbn [fst snd] in IH. destruct IH as (-> & Hset & Hnd & Hmsgs & Hall).
    assert (Hkeep : ∀ p, p ∈ msgs → blockMap !! nameOf h p = Some p
                                 ∧ nameOf h p ∈ l ++ [t]).
    { intros p Hp. destruct (Hmsgs p Hp). rewrite elem_of_app. auto. }
    destruct (blockMap !! t) as [b|] eqn:Eb.
    + pose proof (Hmap t b Eb) as Hb.
      destruct (bool_decide (t ∉ names)) eqn:Et; cbn [fst snd].
      * apply bool_decide_eq_true in Et.
        split; [reflexivity|]. split; [|split; [|split]].
        -- intros n. rewrite elem_of_union, elem_of_singleton, map_app, elem_of_app.
           simpl. rewrite list_elem_of_singleton, Hset, Hb. tauto.
        -- rewrite map_app. apply NoDup_app. split; [exact Hnd|].
           split; [|apply NoDup_singleton].
           intros n Hn Hn'. apply list_elem_of_singleton in Hn'. subst n.
           apply Et, Hset. rewrite <- Hb. exact Hn.
        -- intros p Hp. apply elem_of_app in Hp as [Hp|Hp]; [auto|].
           apply list_elem_of_singleton in Hp as ->. rewrite Hb.
           split; [exact Eb|]. rewrite elem_of_app, list_elem_of_singleton. auto.
        -- intros n Hn Hsome. apply elem_of_app in Hn as [Hn|Hn].
           ++ apply elem_of_union. right. auto.
           ++ apply list_elem_of_singleton in Hn as ->. set_solver.
      * apply bool_decide_eq_false in Et.
        split; [reflexivity|]. split; [exact Hset|]. split; [exact Hnd|].
        split; [exact Hkeep|].
        intros n Hn Hsome. apply elem_of_app in Hn as [Hn|Hn]; [auto|].
        apply list_elem_of_singleton in Hn as ->.
        destruct (decide (t ∈ names)); tauto.
    + cbn [fst snd]. split; [reflexivity|]. split; [exact Hset|]. split; [exact Hnd|].
      split; [exact Hkeep|].
      intros n Hn Hsome. apply elem_of_app in Hn as [Hn|Hn]; [auto|].
      apply list_elem_of_singleton in Hn as ->. rewrite Eb in Hsome.
      destruct Hsome; discriminate.
Qed.

(** What classifyServiceAndRPC returns. *)
Lemma classifyServiceAndRPC_spec (h : heap) (blocks : list ptr) :
  (ofKind h BlockService blocks = [] →
   classifyServiceAndRPC h blocks = ([], [], blocks))
  ∧ (ofKind h BlockService blocks ≠ [] →
     ∃ msgs,
       classifyServiceAndRPC h blocks
       = (ofKind h BlockService blocks, msgs,
          List.filter (fun p => bool_decide (kindOf h p ≠ BlockService)
                                && bool_decide (nameOf h p ∉ map (nameOf h) msgs))
            blocks)
       ∧ NoDup (map (nameOf h) msgs)
       ∧ (∀ p, p ∈ msgs →
               p ∈ blocks ∧ nameOf h p ≠ ""
               ∧ nameOf h p ∈ rpcTypeNames h (ofKind h BlockService blocks))
       ∧ (∀ p, p ∈ blocks → nameOf h p ≠ "" →
               nameOf h p ∈ rpcTypeNames h (ofKind h BlockService blocks) →
               nameOf h p ∈ map (nameOf h) msgs)).
Proof.
  unfold classifyServiceAndRPC, ofKind. cbv zeta.
  set (svc := List.filter (fun p => bool_decide (kindOf h p = BlockService)) blocks).
  split.
  - intros ->. reflexivity.
  - intros Hne. destruct (length svc =? 0) eqn:El.
    { apply Nat.eqb_eq in El. destruct svc; [congruence|discriminate]. }
    set (blockMap := foldl _ ∅ blocks).
    assert (HB : ∀ n, (∀ p, blockMap !! n = Some p → p ∈ blocks ∧ nameOf h p = n ∧ n ≠ "")
                      ∧ ((∃ p, p ∈ blocks ∧ nameOf h p = n ∧ n ≠ "")
                         → ∃ p, blockMap !! n = Some p)).
    { intros n. apply (blockMap_spec h blocks n). }
    pose proof (rpcMessages_fold h blockMap (rpcTypeNames h svc)) as HF.
    cbv zeta in HF.
    destruct (foldl _ _ (rpcTypeNames h svc)) as [[names msgs] emitted].
    cbn [fst snd] in HF.
    destruct HF as (_ & Hset & Hnd & Hmsgs & Hall).
    { intros n p Hp. apply (HB n). exact Hp. }
    exists msgs. split; [|split; [exact Hnd|split]].
    + f_equal. apply filter_ext. intros p. f_equal.
      apply bool_decide_ext. rewrite Hset. reflexivity.
    + intros p Hp. destruct (Hmsgs p Hp) as [Hlook Hin].
      destruct (proj1 (HB _) p Hlook) as (? & _ & ?). auto.
    + intros p Hp Hn Hin. apply Hset, Hall; [exact Hin|].
      destruct (proj2 (HB (nameOf h p))) as [q Hq]; eauto.
Qed.

(** X20.  Without a service nothing is classified.  Otherwise the services are
    the service blocks in file order; the request and response messages are
    named blocks of the list whose names are types of the RPCs, each name
    once, and every named block with such a name has its name among them; the
    rest are the other blocks that are no services, in file order. *)
Theorem X20_services_and_rpc_messages (h : heap) (blocks : list ptr) :
  (ofKind h BlockService blocks = [] →
   classifyServiceAndRPC h blocks = ([], [], blocks))
  ∧ (ofKind h BlockService blocks ≠ [] →
     ∃ msgs,
       classifyServiceAndRPC h blocks
       = (ofKind h BlockService blocks, msgs,
          List.filter (fun p => bool_decide (kindOf h p ≠ BlockService)
                                && bool_decide (nameOf h p ∉ map (nameOf h) msgs))
            blocks)
       ∧ NoDup (map (nameOf h) msgs)
       ∧ (∀ p, p ∈ msgs →
               p ∈ blocks ∧ nameOf h p ≠ ""
               ∧ nameOf h p ∈ rpcTypeNames h (ofKind h BlockService blocks))
       ∧ (∀ p, p ∈ blocks → nameOf h p ≠ "" →
               nameOf h p ∈ rpcTypeNames h (ofKind h BlockService blocks) →
               nameOf h p ∈ map (nameOf h) msgs)).
Proof. apply classifyServiceAndRPC_spec. Qed.

(** * The dependency order of the core types *)

Lemma topoSortBlocks_unfold (h : heap) (coreBlocks allBlocks : list ptr) :
  topoSortBlocks h coreBlocks allBlocks
  = if length coreBlocks <=? 1 then Done coreBlocks
    else
      let coreMap : gmap string ptr :=
        foldl (fun m p => <[nameOf h p := p]> m) ∅ coreBlocks in
      let st :=
        foldl (addEdges h (names h coreBlocks))
          (foldl (fun m p => <[nameOf h p := 0%Z]> m) (∅ : gmap string Z) coreBlocks,
           (∅ : gmap string (list string))) allBlocks in
      let queue :=
        GoSort.Strings
          (map (nameOf h)
             (List.filter (fun p => (zget st.1 (nameOf h p) =? 0)%Z) coreBlocks)) in
      result ← run_loop (2 * length coreBlocks + 1) (kahnStep coreMap st.2)
                 (queue, st.1, []);
      if length result <? length coreBlocks then
        Done (result ++ sortByName h
                (List.filter (fun p => bool_decide (nameOf h p ∉ names h result))
                   coreBlocks))
      else Done result.
Proof.
  unfold topoSortBlocks. destruct (length coreBlocks <=? 1); [reflexivity|].
  cbv zeta.
  change (foldl _ (foldl (fun m p => <[nameOf h p := 0%Z]> m) ∅ coreBlocks, ∅) allBlocks)
    with (foldl (addEdges h (names h coreBlocks))
            (foldl (fun m p => <[nameOf h p := 0%Z]> m) (∅ : gmap string Z) coreBlocks,
             (∅ : gmap string (list string))) allBlocks).
  destruct (foldl (addEdges h (names h coreBlocks)) _ allBlocks) as [inDegree dependents].
  reflexivity.
Qed.

Lemma occurrences_app (x : string) (l1 l2 : list string) :
  occurrences x (l1 ++ l2) = occurrences x l1 + occurrences x l2.
Proof. unfold occurrences. rewrite List.filter_app, length_app. reflexivity. Qed.

Lemma occurrences_cons (x y : string) (l : list string) :
  occurrences x (y :: l) = (if String.eqb x y then 1 else 0) + occurrences x l.
Proof. unfold occurrences. simpl. destruct (String.eqb x y); reflexivity. Qed.

Lemma occurrences_zero (x : string) (l : list string) :
  occurrences x l = 0 ↔ x ∉ l.
Proof.
  induction l as [|y l IH].
  - split; [intros _; apply not_elem_of_nil|reflexivity].
  - rewrite occurrences_cons, not_elem_of_cons.
    destruct (String.eqb_spec x y) as [->|Hne].
    + split; [discriminate|intros [H _]; contradiction].
    + simpl. rewrite IH. tauto.
Qed.

Lemma pending_cons (deps : gmap string (list string)) (y : string) (l : list string)
      (x : string) :
  pending deps (y :: l) x = occurrences x (default [] (deps !! y)) + pending deps l x.
Proof. unfold pending. simpl. apply occurrences_app. Qed.

Lemma pending_zero (deps : gmap string (list string)) (l : list string) (x : string) :
  pending deps l x = 0 ↔ ∀ y, y ∈ l → x ∉ default [] (deps !! y).
Proof.
  induction l as [|y l IH].
  - split; [intros _ y Hy; apply elem_of_nil in Hy as []|reflexivity].
  - rewrite pending_cons. split.
    + intros H z Hz. apply elem_of_cons in Hz as [->|Hz].
      * apply occurrences_zero. lia.
      * apply IH; [lia|exact Hz].
    + intros H. assert (H1 := proj2 (occurrences_zero x _) (H y (list_elem_of_here _ _))).
      assert (H2 : pending deps l x = 0).
      { apply IH. intros z Hz. apply H. right. exact Hz. }
      lia.
Qed.

Lemma pending_insert_out (deps : gmap string (list string)) (ref : string)
      (v : list string) (l : list string) (x : string) :
  ref ∉ l → pending (<[ref := v]> deps) l x = pending deps l x.
Proof.
  induction l as [|y l IH]; intros Hr; [reflexivity|].
  apply not_elem_of_cons in Hr as [Hne Hr].
  rewrite !pending_cons, IH by exact Hr.
  rewrite lookup_insert_ne by exact Hne. reflexivity.
Qed.

Lemma pending_insert (deps : gmap string (list string)) (ref n : string)
      (l : list string) (x : string) :
  NoDup l → ref ∈ l →
  pending (<[ref := default [] (deps !! ref) ++ [n]]> deps) l x
  = pending deps l x + (if String.eqb x n then 1 else 0).
Proof.
  induction l as [|y l IH]; intros Hnd Hr; [apply elem_of_nil in Hr as []|].
  apply NoDup_cons in Hnd as [Hy Hnd].
  rewrite !pending_cons.
  destruct (decide (ref = y)) as [->|Hne].
  - rewrite lookup_insert_eq, pending_insert_out by exact Hy. simpl.
    rewrite occurrences_app, occurrences_cons.
    change (occurrences x []) with 0. destruct (String.eqb x n); lia.
  - apply elem_of_cons in Hr as [Hr|Hr]; [contradiction|].
    rewrite lookup_insert_ne by exact Hne. rewrite IH by assumption. lia.
Qed.

Lemma unprocessed_cons (done : list string) (y : string) (l : list string) :
  unprocessed done (y :: l)
  = if bool_decide (y ∉ done) then y :: unprocessed done l else unprocessed done l.
Proof. reflexivity. Qed.

Lemma unprocessed_snoc_out (done : list string) (name : string) (l : list string) :
  name ∉ l → unprocessed (done ++ [name]) l = unprocessed done l.
Proof.
  induction l as [|y l IH]; intros Hn; [reflexivity|].
  apply not_elem_of_cons in Hn as [Hne Hn].
  rewrite !unprocessed_cons, IH by exact Hn.
  rewrite (bool_decide_ext (y ∉ done ++ [name]) (y ∉ done)); [reflexivity|].
  rewrite elem_of_app, list_elem_of_singleton. naive_solver.
Qed.

Lemma pending_release (deps : gmap string (list string)) (done : list string)
      (name : string) (l : list string) (x : string) :
  NoDup l → name ∈ l → name ∉ done →
  pending deps (unprocessed done l) x
  = occurrences x (default [] (deps !! name))
    + pending deps (unprocessed (done ++ [name]) l) x.
Proof.
  induction l as [|y l IH]; intros Hnd Hn Hd; [apply elem_of_nil in Hn as []|].
  apply NoDup_cons in Hnd as [Hy Hnd].
  rewrite !unprocessed_cons.
  destruct (decide (name = y)) as [<-|Hne].
  - rewrite bool_decide_true by exact Hd.
    rewrite bool_decide_false.
    2:{ intros H. apply H. apply elem_of_app. right. apply list_elem_of_singleton.
        reflexivity. }
    rewrite pending_cons, unprocessed_snoc_out by exact Hy. reflexivity.
  - apply elem_of_cons in Hn as [Hn|Hn]; [contradiction|].
    rewrite (bool_decide_ext (y ∉ done ++ [name]) (y ∉ done)).
    2:{ rewrite elem_of_app, list_elem_of_singleton. naive_solver. }
    destruct (bool_decide (y ∉ done)).
    + rewrite !pending_cons, IH by assumption. lia.
    + apply IH; assumption.
Qed.

Lemma elem_of_unprocessed (done l : list string) (y : string) :
  y ∈ unprocessed done l ↔ y ∈ l ∧ y ∉ done.
Proof.
  unfold unprocessed. rewrite (list_elem_of_In (List.filter _ _)), List.filter_In.
  rewrite bool_decide_eq_true, <- list_elem_of_In. reflexivity.
Qed.

Lemma in_names (h : heap) (l : list ptr) (x : string) :
  x ∈ names h l ↔ x ∈ map (nameOf h) l.
Proof. unfold names. apply elem_of_list_to_set. Qed.

Section Topo.
Context (h : heap) (coreBlocks allBlocks : list ptr).
Hypothesis Hnodup : NoDup (map (nameOf h) coreBlocks).

Lemma zget_insert (m : gmap string Z) (k x : string) (v : Z) :
  zget (<[k := v]> m) x = if String.eqb x k then v else zget m x.
Proof.
  unfold zget. destruct (String.eqb_spec x k) as [->|Hne].
  - rewrite lookup_insert_eq. reflexivity.
  - rewrite lookup_insert_ne by congruence. reflexivity.
Qed.

Lemma addRef_ok (processed : list ptr) (name : string) (rs : list string)
      (st : gset string * (gmap string Z * gmap string (list string))) (ref : string) :
  refsOk h coreBlocks processed name rs st →
  refsOk h coreBlocks processed name (rs ++ [ref]) (addRef (names h coreBlocks) name st ref).
Proof.
  destruct st as [seen [inDeg deps]]. intros (Hseen & Hdeps & Hdeg).
  cbn [fst snd] in Hseen, Hdeps, Hdeg. unfold addRef.
  destruct (String.eqb_spec ref name) as [->|Hne].
  { split; [|split]; cbn [fst snd].
    - intros r. rewrite Hseen, elem_of_app, list_elem_of_singleton. naive_solver.
    - intros x y. rewrite Hdeps, elem_of_app, list_elem_of_singleton. naive_solver.
    - exact Hdeg. }
  destruct (bool_decide (ref ∈ names h coreBlocks) && bool_decide (ref ∉ seen)) eqn:E.
  - apply andb_true_iff in E as [Hcore Hnew].
    apply bool_decide_eq_true in Hcore, Hnew. apply in_names in Hcore.
    split; [|split]; cbn [fst snd].
    + intros r. rewrite elem_of_union, elem_of_singleton, Hseen, elem_of_app,
        list_elem_of_singleton. naive_solver.
    + intros x y. destruct (decide (y = ref)) as [->|Hy].
      * rewrite lookup_insert_eq.
        match goal with
        | |- _ ↔ ?R => change (x ∈ default [] (deps !! ref) ++ [name] ↔ R)
        end.
        rewrite !elem_of_app, !list_elem_of_singleton, Hdeps. naive_solver.
      * rewrite lookup_insert_ne by congruence.
        rewrite Hdeps, elem_of_app, list_elem_of_singleton. naive_solver.
    + intros x. rewrite zget_insert, pending_insert by assumption.
      destruct (String.eqb_spec x name) as [->|Hx]; rewrite Hdeg; lia.
  - split; [|split]; cbn [fst snd]; [| |exact Hdeg].
    + intros r. rewrite Hseen, elem_of_app, list_elem_of_singleton.
      apply andb_false_iff in E as [E|E]; apply bool_decide_eq_false in E.
      * rewrite in_names in E. naive_solver.
      * apply dec_stable in E. apply Hseen in E. naive_solver.
    + intros x y. rewrite Hdeps, elem_of_app, list_elem_of_singleton.
      apply andb_false_iff in E as [E|E]; apply bool_decide_eq_false in E.
      * rewrite in_names in E. naive_solver.
      * apply dec_stable in E. apply Hseen in E. naive_solver.
Qed.

Lemma addRefs_ok (processed : list ptr) (name : string) (refs rs : list string)
      (st : gset string * (gmap string Z * gmap string (list string))) :
  refsOk h coreBlocks processed name rs st →
  refsOk h coreBlocks processed name (rs ++ refs)
         (foldl (addRef (names h coreBlocks) name) st refs).
Proof.
  revert rs st. induction refs as [|ref refs IH]; intros rs st Hst.
  - rewrite app_nil_r. exact Hst.
  - cbn [foldl]. replace (rs ++ ref :: refs) with ((rs ++ [ref]) ++ refs)
      by (rewrite <- app_assoc; reflexivity).
    apply IH, addRef_ok, Hst.
Qed.

Lemma addEdges_ok (processed : list ptr) (st : gmap string Z * gmap string (list string))
      (p : ptr) :
  buildOk h coreBlocks processed st →
  buildOk h coreBlocks (processed ++ [p]) (addEdges h (names h coreBlocks) st p).
Proof.
  destruct st as [inDeg deps]. intros [Hdeps Hdeg]. cbn [fst snd] in Hdeps, Hdeg.
  unfold addEdges.
  destruct (bool_decide (Name (deref h p) ∉ names h coreBlocks)) eqn:E.
  - apply bool_decide_eq_true in E. rewrite in_names in E.
    split; cbn [fst snd]; [|exact Hdeg].
    intros x y. rewrite Hdeps. unfold dependsOn.
    setoid_rewrite elem_of_app. setoid_rewrite list_elem_of_singleton.
    unfold nameOf in *. naive_solver.
  - apply bool_decide_eq_false in E. apply dec_stable in E. rewrite in_names in E.
    assert (H0 : refsOk h coreBlocks processed (Name (deref h p)) []
                   ((∅ : gset string), (inDeg, deps))).
    { split; [|split]; cbn [fst snd]; [| |exact Hdeg].
      - intros r. rewrite elem_of_empty, elem_of_nil. naive_solver.
      - intros x y. rewrite Hdeps, elem_of_nil. naive_solver. }
    apply (addRefs_ok _ _ (blockRefs (deref h p))) in H0.
    rewrite app_nil_l in H0.
    destruct (foldl _ _ (blockRefs (deref h p))) as [seen [inDeg' deps']].
    destruct H0 as (_ & Hdeps' & Hdeg'). cbn [fst snd] in *.
    split; cbn [fst snd]; [|exact Hdeg'].
    intros x y. rewrite Hdeps'. unfold dependsOn.
    setoid_rewrite elem_of_app. setoid_rewrite list_elem_of_singleton.
    unfold nameOf in *. naive_solver.
Qed.

Lemma build_ok (l processed : list ptr) (st : gmap string Z * gmap string (list string)) :
  buildOk h coreBlocks processed st →
  buildOk h coreBlocks (processed ++ l) (foldl (addEdges h (names h coreBlocks)) st l).
Proof.
  revert processed st. induction l as [|p l IH]; intros processed st Hst.
  - rewrite app_nil_r. exact Hst.
  - cbn [foldl]. replace (processed ++ p :: l) with ((processed ++ [p]) ++ l)
      by (rewrite <- app_assoc; reflexivity).
    apply IH, addEdges_ok, Hst.
Qed.

Lemma zget_zero (l : list ptr) (x : string) :
  zget (foldl (fun m p => <[nameOf h p := 0%Z]> m) (∅ : gmap string Z) l) x = 0%Z.
Proof.
  induction l as [|p l IH] using rev_ind; [reflexivity|].
  rewrite foldl_app. cbn [foldl]. rewrite zget_insert.
  destruct (String.eqb x (nameOf h p)); [reflexivity|exact IH].
Qed.

Lemma pending_empty (l : list string) (x : string) : pending ∅ l x = 0.
Proof.
  apply pending_zero. intros y _. rewrite lookup_empty. apply not_elem_of_nil.
Qed.

Lemma build_start :
  buildOk h coreBlocks []
    (foldl (fun m p => <[nameOf h p := 0%Z]> m) (∅ : gmap string Z) coreBlocks,
     (∅ : gmap string (list string))).
Proof.
  split; cbn [fst snd].
  - intros x y. rewrite lookup_empty. cbn [default]. rewrite elem_of_nil.
    unfold dependsOn. setoid_rewrite elem_of_nil. naive_solver.
  - intros x. rewrite zget_zero, pending_empty. reflexivity.
Qed.

Lemma Strings_perm (l : list string) : Permutation l (GoSort.Strings l).
Proof. apply SliceStable_perm. Qed.

Lemma release_ok (deps : gmap string (list string)) (done todo : list string)
      (dep : string) (st : list string * gmap string Z) :
  dep ∈ map (nameOf h) coreBlocks →
  releaseOk h coreBlocks deps done (dep :: todo) st →
  releaseOk h coreBlocks deps done todo (release st dep).
Proof.
  destruct st as [queue inDeg]. intros Hcore (Hnd & Hin & Hdeg & Hzero).
  cbn [fst snd] in *. unfold release.
  assert (Hd : zget inDeg dep
               = Z.of_nat (1 + occurrences dep todo
                           + pending deps (unprocessed done (map (nameOf h) coreBlocks)) dep)).
  { rewrite Hdeg, occurrences_cons, String.eqb_refl. reflexivity. }
  assert (Hout : dep ∉ done ++ queue).
  { intros H. apply Hzero in H; [lia|exact Hcore]. }
  assert (Hother : ∀ x, x ≠ dep →
            zget inDeg x
            = Z.of_nat (occurrences x todo
                        + pending deps (unprocessed done (map (nameOf h) coreBlocks)) x)).
  { intros x Hx. rewrite Hdeg, occurrences_cons.
    destruct (String.eqb_spec x dep); [contradiction|reflexivity]. }
  destruct (zget inDeg dep - 1 =? 0)%Z eqn:E.
  - apply Z.eqb_eq in E.
    assert (Hmem : ∀ x, x ∈ done ++ GoSort.Strings (queue ++ [dep])
                        ↔ x ∈ done ++ queue ∨ x = dep).
    { intros x. rewrite <- Strings_perm, !elem_of_app, list_elem_of_singleton. tauto. }
    split; [|split; [|split]]; cbn [fst snd].
    + rewrite <- Strings_perm, app_assoc. apply NoDup_app.
      split; [exact Hnd|]. split; [|apply NoDup_singleton].
      intros x Hx Hx'. apply list_elem_of_singleton in Hx'. subst x. contradiction.
    + intros x Hx. apply Hmem in Hx as [Hx| ->]; [apply Hin, Hx|exact Hcore].
    + intros x. rewrite zget_insert.
      destruct (String.eqb_spec x dep) as [->|Hx]; [lia|apply Hother, Hx].
    + intros x Hx. rewrite zget_insert, Hmem.
      destruct (String.eqb_spec x dep) as [->|Hne]; [tauto|].
      rewrite (Hzero x Hx). tauto.
  - apply Z.eqb_neq in E.
    split; [|split; [|split]]; cbn [fst snd]; [exact Hnd|exact Hin| |].
    + intros x. rewrite zget_insert.
      destruct (String.eqb_spec x dep) as [->|Hx]; [lia|apply Hother, Hx].
    + intros x Hx. rewrite zget_insert.
      destruct (String.eqb_spec x dep) as [->|Hne]; [tauto|].
      apply Hzero, Hx.
Qed.

Lemma releases_ok (deps : gmap string (list string)) (done todo : list string)
      (st : list string * gmap string Z) :
  (∀ dep, dep ∈ todo → dep ∈ map (nameOf h) coreBlocks) →
  releaseOk h coreBlocks deps done todo st →
  releaseOk h coreBlocks deps done [] (foldl release st todo).
Proof.
  revert st. induction todo as [|dep todo IH]; intros st Hcore Hst; [exact Hst|].
  cbn [foldl]. apply IH.
  - intros d Hd. apply Hcore. right. exact Hd.
  - apply release_ok; [apply Hcore; left|exact Hst].
Qed.

Lemma coreMap_sound (l : list ptr) (x : string) (p : ptr) :
  foldl (fun m p => <[nameOf h p := p]> m) (∅ : gmap string ptr) l !! x = Some p →
  p ∈ l ∧ nameOf h p = x.
Proof.
  induction l as [|q l IH] using rev_ind; [cbn [foldl]; rewrite lookup_empty; discriminate|].
  rewrite foldl_app. cbn [foldl]. destruct (decide (nameOf h q = x)) as [<-|Hne].
  - rewrite lookup_insert_eq. intros [= <-]. split; [|reflexivity].
    apply elem_of_app. right. left.
  - rewrite lookup_insert_ne by exact Hne. intros H. apply IH in H as [H1 H2].
    split; [apply elem_of_app; left; exact H1|exact H2].
Qed.

Lemma coreMap_complete (l : list ptr) (x : string) :
  x ∈ map (nameOf h) l →
  ∃ p, foldl (fun m p => <[nameOf h p := p]> m) (∅ : gmap string ptr) l !! x = Some p.
Proof.
  induction l as [|q l IH] using rev_ind; [intros H; apply elem_of_nil in H as []|].
  rewrite map_app, elem_of_app, foldl_app. cbn [foldl map].
  destruct (decide (nameOf h q = x)) as [<-|Hne].
  - rewrite lookup_insert_eq. eauto.
  - rewrite lookup_insert_ne by exact Hne. rewrite list_elem_of_singleton.
    intros [H|H]; [apply IH, H|congruence].
Qed.

Lemma length_NoDup_le (l k : list string) :
  NoDup l → (∀ x, x ∈ l → x ∈ k) → length l ≤ length k.
Proof. intros Hnd Hin. apply submseteq_length, NoDup_submseteq; assumption. Qed.

Lemma kahnStep_ok (deps : gmap string (list string))
      (st : list string * gmap string Z * list ptr) :
  (∀ x y, x ∈ default [] (deps !! y) ↔ dependsOn h coreBlocks allBlocks x y) →
  kahnOk h coreBlocks allBlocks deps st →
  match kahnStep (foldl (fun m p => <[nameOf h p := p]> m) (∅ : gmap string ptr) coreBlocks)
          deps st with
  | Next s' => kahnOk h coreBlocks allBlocks deps s'
               ∧ S (length coreBlocks) - length s'.2 < S (length coreBlocks) - length st.2
  | Stop r => ∃ v, r = Done v ∧ ∃ inDeg, kahnOk h coreBlocks allBlocks deps ([], inDeg, v)
  end.
Proof.
  intros Hdeps. destruct st as [[queue inDeg] result].
  intros Hst. unfold kahnStep. destruct queue as [|name queue]; [eauto|].
  destruct Hst as (Hnd & Hin & Hdeg & Hzero & Hres & Hfirst).
  assert (Hname : name ∈ map (nameOf h) coreBlocks).
  { apply Hin, elem_of_app. right. left. }
  destruct (coreMap_complete coreBlocks name Hname) as [p Hp]. rewrite Hp.
  apply coreMap_sound in Hp as [Hpc Hpn].
  assert (Hnew : name ∉ map (nameOf h) result).
  { intros H. apply NoDup_app in Hnd as (_ & Hdis & _). apply (Hdis name H). left. }
  assert (Hlen : length result < length coreBlocks).
  { assert (H := length_NoDup_le _ _ Hnd Hin).
    rewrite length_app, !length_map in H. simpl in H. lia. }
  assert (Hstart : releaseOk h coreBlocks deps (map (nameOf h) result ++ [name])
                     (default [] (deps !! name)) (queue, inDeg)).
  { split; [|split; [|split]]; cbn [fst snd].
    - rewrite <- app_assoc. exact Hnd.
    - intros x. rewrite <- app_assoc. apply Hin.
    - intros x. rewrite Hdeg, (pending_release deps _ name) by assumption.
      reflexivity.
    - intros x. rewrite <- app_assoc. apply Hzero. }
  apply releases_ok in Hstart.
  2:{ intros dep Hdep. apply Hdeps in Hdep. apply Hdep. }
  destruct (foldl release (queue, inDeg) (default [] (deps !! name))) as [queue' inDeg'].
  destruct Hstart as (Hnd' & Hin' & Hdeg' & Hzero'). cbn [fst snd] in *.
  split; [|rewrite length_app; simpl; lia].
  unfold kahnOk. rewrite map_app. cbn [map]. rewrite Hpn.
  split; [exact Hnd'|]. split; [exact Hin'|]. split; [exact Hdeg'|].
  split; [exact Hzero'|]. split.
  - intros q Hq. apply elem_of_app in Hq as [Hq|Hq]; [apply Hres, Hq|].
    apply list_elem_of_singleton in Hq. subst q. exact Hpc.
  - intros before q after Heq y Hy.
    destruct after as [|a after _] using rev_ind.
    + apply (app_inj_tail result before p q) in Heq as [<- <-].
      rewrite Hpn in Hy. destruct (decide (y ∈ map (nameOf h) result)) as [Hin1|Hout];
        [exact Hin1|exfalso].
      assert (Hz : zget inDeg name = 0%Z).
      { apply Hzero; [exact Hname|]. apply elem_of_app. right. left. }
      rewrite Hdeg in Hz.
      assert (Hz' : pending deps
                      (unprocessed (map (nameOf h) result) (map (nameOf h) coreBlocks)) name
                    = 0) by lia.
      apply (proj1 (pending_zero _ _ _) Hz' y).
      * apply elem_of_unprocessed. split; [apply Hy|exact Hout].
      * apply Hdeps, Hy.
    + change (before ++ q :: after ++ [a]) with (before ++ (q :: after) ++ [a]) in Heq.
      rewrite app_assoc in Heq. apply app_inj_tail in Heq as [Heq _].
      apply (Hfirst before q after Heq y Hy).
Qed.

Lemma name_inj (l : list ptr) (p q : ptr) :
  NoDup (map (nameOf h) l) → p ∈ l → q ∈ l → nameOf h p = nameOf h q → p = q.
Proof.
  induction l as [|a l IH]; intros Hnd Hp Hq Heq; [apply elem_of_nil in Hp as []|].
  cbn [map] in Hnd. apply NoDup_cons in Hnd as [Ha Hnd].
  assert (Hmap : ∀ r, r ∈ l → nameOf h r ∈ map (nameOf h) l).
  { intros r Hr. apply list_elem_of_In, in_map, list_elem_of_In, Hr. }
  apply elem_of_cons in Hp as [->|Hp], Hq as [->|Hq].
  - reflexivity.
  - exfalso. apply Ha. rewrite Heq. apply Hmap, Hq.
  - exfalso. apply Ha. rewrite <- Heq. apply Hmap, Hp.
  - apply IH; assumption.
Qed.

Lemma elem_of_List_filter {A} (P : A → bool) (l : list A) (x : A) :
  x ∈ List.filter P l ↔ x ∈ l ∧ P x = true.
Proof. rewrite !list_elem_of_In. apply List.filter_In. Qed.

Lemma elem_of_map_nameOf (l : list ptr) (x : string) :
  x ∈ map (nameOf h) l ↔ ∃ p, p ∈ l ∧ nameOf h p = x.
Proof.
  rewrite list_elem_of_In, in_map_iff. setoid_rewrite list_elem_of_In. naive_solver.
Qed.

Lemma NoDup_List_filter {A} (P : A → bool) (l : list A) :
  NoDup l → NoDup (List.filter P l).
Proof.
  induction l as [|a l IH]; intros Hnd; [constructor|].
  apply NoDup_cons in Hnd as [Ha Hnd]. simpl. destruct (P a); [|apply IH, Hnd].
  apply NoDup_cons. split; [|apply IH, Hnd].
  intros H. apply elem_of_List_filter in H as [H _]. contradiction.
Qed.

Lemma NoDup_map_filter (P : ptr → bool) (l : list ptr) :
  NoDup (map (nameOf h) l) → NoDup (map (nameOf h) (List.filter P l)).
Proof.
  induction l as [|a l IH]; intros Hnd; [constructor|].
  cbn [map] in Hnd. apply NoDup_cons in Hnd as [Ha Hnd].
  simpl. destruct (P a); [|apply IH, Hnd].
  cbn [map]. apply NoDup_cons. split; [|apply IH, Hnd].
  intros H. apply Ha. apply elem_of_map_nameOf in H as (p & Hp & Hn).
  apply elem_of_List_filter in Hp as [Hp _]. apply elem_of_map_nameOf. eauto.
Qed.

Lemma pending_pos (deps : gmap string (list string)) (l : list string) (x : string) :
  pending deps l x ≠ 0 → ∃ y, y ∈ l ∧ x ∈ default [] (deps !! y).
Proof.
  induction l as [|y l IH]; [intros H; contradiction H; reflexivity|].
  rewrite pending_cons. intros H.
  destruct (decide (x ∈ default [] (deps !! y))) as [Hin|Hout].
  - exists y. split; [left|exact Hin].
  - apply occurrences_zero in Hout. destruct IH as (z & Hz & Hx); [lia|].
    exists z. split; [right; exact Hz|exact Hx].
Qed.

Lemma unprocessed_nil (l : list string) : unprocessed [] l = l.
Proof.
  induction l as [|y l IH]; [reflexivity|]. rewrite unprocessed_cons, IH.
  rewrite bool_decide_true by apply not_elem_of_nil. reflexivity.
Qed.

Lemma sortByName_sorted (l : list ptr) :
  Permutation l (sortByName h l) ∧ StronglySorted (nameLe h) (sortByName h l).
Proof.
  unfold sortByName, GoSort.Slice. split; [apply SliceStable_perm|].
  apply Sorted_StronglySorted; [apply nameLe_trans|].
  apply (SliceStable_sorted (fun p q => GoStrings.lt (nameOf h p) (nameOf h q))).
  intros p q. apply lt_asym.
Qed.

Lemma kahn_start (st : gmap string Z * gmap string (list string)) :
  buildOk h coreBlocks allBlocks st →
  kahnOk h coreBlocks allBlocks st.2
    (GoSort.Strings
       (map (nameOf h)
          (List.filter (fun p => (zget st.1 (nameOf h p) =? 0)%Z) coreBlocks)),
     st.1, []).
Proof.
  intros [Hdeps Hdeg]. unfold kahnOk. cbn [map app].
  assert (Hmem : ∀ x, x ∈ GoSort.Strings
                        (map (nameOf h)
                           (List.filter (fun p => (zget st.1 (nameOf h p) =? 0)%Z) coreBlocks))
                      ↔ x ∈ map (nameOf h) coreBlocks ∧ zget st.1 x = 0%Z).
  { intros x. rewrite <- Strings_perm, !elem_of_map_nameOf.
    setoid_rewrite elem_of_List_filter. setoid_rewrite Z.eqb_eq. naive_solver. }
  split; [|split; [|split; [|split; [|split]]]].
  - rewrite <- Strings_perm. apply NoDup_map_filter, Hnodup.
  - intros x Hx. apply Hmem in Hx. apply Hx.
  - intros x. rewrite unprocessed_nil. apply Hdeg.
  - intros x Hx. rewrite Hmem. tauto.
  - intros p Hp. apply elem_of_nil in Hp as [].
  - intros before p after Heq. destruct before; discriminate Heq.
Qed.

End Topo.

(** What topoSortBlocks returns on blocks of distinct names. *)
Lemma topoSortBlocks_spec (h : heap) (coreBlocks allBlocks : list ptr) :
  NoDup (map (nameOf h) coreBlocks) →
  ∃ sorted kept,
    topoSortBlocks h coreBlocks allBlocks = Done (sorted ++ kept)
    ∧ Permutation coreBlocks (sorted ++ kept)
    ∧ dependenciesFirst h coreBlocks allBlocks sorted
    ∧ StronglySorted (nameLe h) kept
    ∧ ∀ p, p ∈ kept →
           ∃ q, q ∈ kept ∧ dependsOn h coreBlocks allBlocks (nameOf h p) (nameOf h q).
Proof.
  intros Hnodup. rewrite topoSortBlocks_unfold.
  destruct (length coreBlocks <=? 1) eqn:Elen.
  { apply Nat.leb_le in Elen. exists coreBlocks, []. rewrite app_nil_r.
    split; [reflexivity|]. split; [reflexivity|]. split; [|split].
    - intros before p after Heq y (Hx & Hy & Hne & _). exfalso.
      destruct coreBlocks as [|a [|b l]]; [| |simpl in Elen; lia].
      + apply elem_of_nil in Hx as [].
      + apply list_elem_of_singleton in Hx, Hy. congruence.
    - constructor.
    - intros p Hp. apply elem_of_nil in Hp as []. }
  apply Nat.leb_gt in Elen. cbv zeta.
  assert (Hbuild := build_ok h coreBlocks Hnodup allBlocks [] _ (build_start h coreBlocks)).
  rewrite app_nil_l in Hbuild.
  destruct (foldl (addEdges h (names h coreBlocks)) _ allBlocks) as [inDeg deps].
  assert (Hstart := kahn_start h coreBlocks allBlocks Hnodup _ Hbuild).
  destruct Hbuild as [Hdeps Hdeg]. cbn [fst snd] in *.
  destruct (run_loop_total
              (kahnOk h coreBlocks allBlocks deps)
              (fun v => ∃ inDeg', kahnOk h coreBlocks allBlocks deps ([], inDeg', v))
              (fun s => S (length coreBlocks) - length s.2)
              (kahnStep (foldl (fun m p => <[nameOf h p := p]> m) ∅ coreBlocks) deps)
              (fun s Hs => kahnStep_ok h coreBlocks allBlocks Hnodup deps s Hdeps Hs)
              (2 * length coreBlocks + 1) _ Hstart)
    as (v & -> & inDeg' & Hv).
  { cbn [snd length]. lia. }
  cbn [mbind outcome_bind obind].
  destruct Hv as (Hnd & Hin & Hdeg' & Hzero & Hres & Hfirst).
  rewrite app_nil_r in Hnd.
  assert (Hndv : NoDup v) by (apply (NoDup_fmap_1 (nameOf h)), Hnd).
  assert (Hndc : NoDup coreBlocks) by (apply (NoDup_fmap_1 (nameOf h)), Hnodup).
  destruct (length v <? length coreBlocks) eqn:Ecyc.
  - set (remaining := List.filter (fun p => bool_decide (nameOf h p ∉ names h v)) coreBlocks).
    assert (Hrem : ∀ p, p ∈ remaining ↔ p ∈ coreBlocks ∧ nameOf h p ∉ map (nameOf h) v).
    { intros p. unfold remaining.
      rewrite elem_of_List_filter, bool_decide_eq_true, in_names. reflexivity. }
    destruct (sortByName_sorted h remaining) as [Hperm Hsorted].
    exists v, (sortByName h remaining).
    split; [reflexivity|]. split; [|split; [exact Hfirst|split; [exact Hsorted|]]].
    + rewrite <- Hperm. apply NoDup_Permutation; [exact Hndc| |].
      * apply NoDup_app. split; [exact Hndv|]. split; [|apply NoDup_List_filter, Hndc].
        intros p Hp Hp'. apply Hrem in Hp' as [_ Hp']. apply Hp'.
        apply elem_of_map_nameOf. eauto.
      * intros p. rewrite elem_of_app, Hrem. split; [|intros [H|[H _]]; auto].
        intros Hp. destruct (decide (nameOf h p ∈ map (nameOf h) v)) as [Hin1|Hout];
          [left|right; auto].
        apply elem_of_map_nameOf in Hin1 as (q & Hq & Hn).
        rewrite <- (name_inj h coreBlocks q p Hnodup (Hres q Hq) Hp Hn). exact Hq.
    + intros p Hp. rewrite <- Hperm in Hp. apply Hrem in Hp as [Hpc Hpn].
      assert (Hpname : nameOf h p ∈ map (nameOf h) coreBlocks).
      { apply elem_of_map_nameOf. eauto. }
      assert (Hpos : pending deps (unprocessed (map (nameOf h) v) (map (nameOf h) coreBlocks))
                       (nameOf h p) ≠ 0).
      { intros H0. apply Hpn. specialize (Hzero _ Hpname). rewrite app_nil_r in Hzero.
        apply Hzero. rewrite Hdeg', H0. reflexivity. }
      apply pending_pos in Hpos as (y & Hy & Hdep).
      apply elem_of_unprocessed in Hy as [Hyc Hyn].
      apply elem_of_map_nameOf in Hyc as (q & Hq & <-).
      exists q. split; [|apply Hdeps, Hdep].
      rewrite <- Hperm. apply Hrem. auto.
  - apply Nat.ltb_ge in Ecyc. exists v, []. rewrite app_nil_r.
    split; [reflexivity|]. split; [|split; [exact Hfirst|split; [constructor|]]].
    + symmetry. apply submseteq_length_Permutation; [|exact Ecyc].
      apply NoDup_submseteq; assumption.
    + intros p Hp. apply elem_of_nil in Hp as [].
Qed.

(** X21.  On core blocks of distinct names topoSortBlocks returns a
    permutation of them in two parts.  Every block of the first part comes
    after all the core types it references.  The second part holds the blocks
    kept back, sorted by name, and each of them references a core type that
    is kept back as well. *)
Theorem X21_topo_sort_puts_dependencies_first (h : heap) (coreBlocks allBlocks : list ptr) :
  NoDup (map (nameOf h) coreBlocks) →
  ∃ sorted kept,
    topoSortBlocks h coreBlocks allBlocks = Done (sorted ++ kept)
    ∧ Permutation coreBlocks (sorted ++ kept)
    ∧ dependenciesFirst h coreBlocks allBlocks sorted
    ∧ StronglySorted (nameLe h) kept
    ∧ ∀ p, p ∈ kept →
           ∃ q, q ∈ kept ∧ dependsOn h coreBlocks allBlocks (nameOf h p) (nameOf h q).
Proof. apply topoSortBlocks_spec. Qed.

(** The five messages of [chainHeap] as core blocks: C, B and A come in the
    order of their dependencies, P and Q are kept back. *)
Lemma X21_topo_sort_puts_dependencies_first_witness :
  ∃ sorted kept,
    topoSortBlocks chainHeap [0; 1; 2; 3; 4] [0; 1; 2; 3; 4] = Done (sorted ++ kept)
    ∧ Permutation [0; 1; 2; 3; 4] (sorted ++ kept)
    ∧ dependenciesFirst chainHeap [0; 1; 2; 3; 4] [0; 1; 2; 3; 4] sorted
    ∧ StronglySorted (nameLe chainHeap) kept
    ∧ ∀ p, p ∈ kept →
           ∃ q, q ∈ kept
                ∧ dependsOn chainHeap [0; 1; 2; 3; 4] [0; 1; 2; 3; 4]
                    (nameOf chainHeap p) (nameOf chainHeap q).
Proof.
  apply X21_topo_sort_puts_dependencies_first.
  apply (bool_decide_unpack _). vm_compute. exact I.
Defined.

(** * Stripping dividers and annotations *)

Lemma List_filter_all {A} (P : A → bool) (l : list A) :
  Forall (fun x => P x = true) l → List.filter P l = l.
Proof.
  induction 1 as [|x l Hx Hl IH]; [reflexivity|]. simpl. rewrite Hx, IH. reflexivity.
Qed.

Lemma List_filter_Forall {A} (P : A → bool) (l : list A) :
  Forall (fun x => P x = true) (List.filter P l).
Proof.
  induction l as [|x l IH]; [constructor|]. simpl.
  destruct (P x) eqn:E; [constructor; assumption|assumption].
Qed.

Lemma List_filter_keeps_Forall {A} (Q : A → Prop) (P : A → bool) (l : list A) :
  Forall Q l → Forall Q (List.filter P l).
Proof.
  induction 1 as [|x l Hx Hl IH]; [constructor|]. simpl.
  destruct (P x); [constructor; assumption|assumption].
Qed.

(** Joining the kept lines and splitting again gives the kept lines, or the
    one empty line of the empty text. *)
Lemma keptLines_Join (keep : string → bool) (s : string) :
  keep "" = true →
  Forall (fun line => keep line = true) (Split (Join (keptLines keep s) nl) LF)
  ∧ (keptLines keep s ≠ [] → Split (Join (keptLines keep s) nl) LF = keptLines keep s)
  ∧ List.filter keep (Split (Join (keptLines keep s) nl) LF)
    = match keptLines keep s with [] => [""] | l => l end.
Proof.
  intros Hempty.
  destruct (keptLines keep s) as [|x l] eqn:E.
  - change (Join [] nl) with "". change (Split "" LF) with [""]. cbn [List.filter].
    rewrite Hempty. repeat split; [repeat constructor; exact Hempty|congruence].
  - assert (Hsplit : Split (Join (x :: l) nl) LF = x :: l).
    { apply Split_Join; [discriminate|]. rewrite <- E.
      apply List_filter_keeps_Forall, Split_free. }
    rewrite Hsplit. assert (Hall := List_filter_Forall keep (Split s LF)).
    fold (keptLines keep s) in Hall. rewrite E in Hall.
    split; [exact Hall|]. split; [reflexivity|]. apply List_filter_all, Hall.
Qed.

Lemma stripDividerComments_eq (s : string) :
  stripDividerComments s = Join (plainLines s) nl.
Proof.
  unfold stripDividerComments. destruct (String.eqb_spec s "") as [->|Hne]; reflexivity.
Qed.

Lemma stripAnnotations_eq (s : string) :
  stripAnnotations s = Join (unannotatedLines s) nl.
Proof.
  unfold stripAnnotations. destruct (String.eqb_spec s "") as [->|Hne]; reflexivity.
Qed.

(** X22.  Stripping the divider comments leaves no section divider line and
    keeps the other lines in their order; stripping again changes nothing. *)
Theorem X22_strip_leaves_no_divider (comments : string) :
  containsDivider (stripDividerComments comments) = false
  ∧ (plainLines comments ≠ [] →
     Split (stripDividerComments comments) LF = plainLines comments)
  ∧ (plainLines comments = [] → stripDividerComments comments = "")
  ∧ stripDividerComments (stripDividerComments comments) = stripDividerComments comments.
Proof.
  assert (Hempty : negb (isSectionDivider "") = true) by (vm_compute; reflexivity).
  destruct (keptLines_Join (fun line => negb (isSectionDivider line)) comments Hempty)
    as (Hall & Hsplit & Hkept).
  fold (plainLines comments) in Hall, Hsplit, Hkept.
  assert (Hno : ∀ l, Forall (fun line => negb (isSectionDivider line) = true) l →
                     existsb isSectionDivider l = false).
  { induction 1 as [|x l Hx Hl IH]; [reflexivity|]. simpl. rewrite IH.
    apply negb_true_iff in Hx. rewrite Hx. reflexivity. }
  rewrite (stripDividerComments_eq (stripDividerComments comments)).
  rewrite !(stripDividerComments_eq comments).
  split; [apply Hno, Hall|]. split; [exact Hsplit|]. split; [intros ->; reflexivity|].
  unfold plainLines at 1, keptLines. rewrite Hkept.
  destruct (plainLines comments); reflexivity.
Qed.

(** X23.  Stripping the annotations leaves no annotation line and keeps the
    other lines in their order; stripping again changes nothing. *)
Theorem X23_strip_leaves_no_annotation (comments : string) :
  Forall (fun line => Regexp.MatchString annotationRe (TrimSpace line) = false)
         (Split (stripAnnotations comments) LF)
  ∧ (unannotatedLines comments ≠ [] →
     Split (stripAnnotations comments) LF = unannotatedLines comments)
  ∧ (unannotatedLines comments = [] → stripAnnotations comments = "")
  ∧ stripAnnotations (stripAnnotations comments) = stripAnnotations comments.
Proof.
  assert (Hempty : negb (Regexp.MatchString annotationRe (TrimSpace "")) = true)
    by (vm_compute; reflexivity).
  destruct (keptLines_Join
              (fun line => negb (Regexp.MatchString annotationRe (TrimSpace line)))
              comments Hempty) as (Hall & Hsplit & Hkept).
  fold (unannotatedLines comments) in Hall, Hsplit, Hkept.
  rewrite (stripAnnotations_eq (stripAnnotations comments)).
  rewrite !(stripAnnotations_eq comments).
  split.
  { eapply Forall_impl; [exact Hall|]. intros line H. apply negb_true_iff, H. }
  split; [exact Hsplit|]. split; [intros ->; reflexivity|].
  unfold unannotatedLines at 1, keptLines. rewrite Hkept.
  destruct (unannotatedLines comments); reflexivity.
Qed.

(** * Sort keeps every declaration *)

Lemma remove_length (c : ptr) (l : list ptr) :
  c ∈ l → length (List.filter (fun x => negb (Nat.eqb x c)) l) < length l.
Proof.
  unfold ptr in *.
  induction l as [|a l IH]; intros Hc; [apply elem_of_nil in Hc as []|].
  simpl. destruct (Nat.eqb_spec a c) as [->|Hne]; simpl.
  - assert (H := List.filter_length_le (fun x => negb (Nat.eqb x c)) l). lia.
  - apply elem_of_cons in Hc as [Hc|Hc]; [congruence|]. specialize (IH Hc). lia.
Qed.

Section HelperForest.
Context (h : heap) (helperMap : gmap string (list ptr)) (body helpers : list ptr)
        (parent : ptr → string).
Hypothesis Hnames : NoDup (map (nameOf h) body).
Hypothesis Hhelpers : ∀ p, p ∈ helpers → p ∈ body.
Hypothesis Hmap : ∀ x hp, hp ∈ default [] (helperMap !! x) → hp ∈ helpers ∧ parent hp = x.

#[local] Abbreviation chain := (helperChain h helperMap).
#[local] Abbreviation link := (helperOf h helperMap).

Lemma chain_cons (k : nat) (a b c : ptr) : link a b → chain k b c → chain (S k) a c.
Proof.
  intros Hab Hbc. induction Hbc as [b|k b c d Hbc IH Hcd].
  - apply (chain_step _ _ _ a a b); [constructor|exact Hab].
  - apply (chain_step _ _ _ a c d); [apply IH, Hab|exact Hcd].
Qed.

Lemma chain_helper (k : nat) (a x : ptr) : chain (S k) a x → x ∈ helpers.
Proof. intros H. inversion H; subst. eapply proj1, Hmap. eassumption. Qed.

Lemma chain_body (k : nat) (a x : ptr) : a ∈ body → chain k a x → x ∈ body.
Proof.
  intros Ha H. destruct k; [inversion H; subst; exact Ha|].
  eapply Hhelpers, chain_helper, H.
Qed.

Lemma link_unique (b b' c : ptr) :
  b ∈ body → b' ∈ body → link b c → link b' c → b = b'.
Proof.
  intros Hb Hb' H H'. apply Hmap in H as [_ H], H' as [_ H'].
  apply (name_inj h body); [assumption..|congruence].
Qed.

(** A block that is no helper is above no cycle. *)
Lemma no_cycle (r : ptr) : r ∈ body → r ∉ helpers → acyclicFrom h helperMap r.
Proof.
  intros Hr Hroot k x m Hrx. revert m.
  induction Hrx as [r|k r y x Hry IH Hyx]; intros m Hcyc.
  - apply Hroot. eapply chain_helper, Hcyc.
  - inversion Hcyc as [|m' x' z x'' Hxz Hzx]; subst.
    assert (Hy : y ∈ body) by (eapply chain_body; eassumption).
    assert (Hx : x ∈ body) by (eapply Hhelpers, proj1, Hmap, Hyx).
    assert (Hz : z ∈ body) by (eapply chain_body; eassumption).
    assert (z = y) by (eapply link_unique; eassumption). subst z.
    apply (IH Hr Hroot m). eapply chain_cons; eassumption.
Qed.

Lemma acyclicFrom_link (b c : ptr) :
  acyclicFrom h helperMap b → link b c → acyclicFrom h helperMap c.
Proof.
  intros Hb Hbc k x m Hcx. apply (Hb (S k) x m). eapply chain_cons; eassumption.
Qed.

Lemma orderedOk_snoc (st : emission) (b : ptr) :
  orderedOk h body st → b ∈ body → nameOf h b ∉ st.2 →
  orderedOk h body (st.1 ++ [b], {[nameOf h b]} ∪ st.2).
Proof.
  intros (Hok & Hnd & Hin) Hb Hnew. split; [|split]; cbn [fst snd].
  - intros n. cbn [fst snd]. rewrite elem_of_union, elem_of_singleton, map_app, elem_of_app.
    cbn [map]. rewrite list_elem_of_singleton, (Hok n). tauto.
  - rewrite map_app. apply NoDup_app. split; [exact Hnd|].
    split; [|apply NoDup_singleton].
    intros n Hn Hn'. apply list_elem_of_singleton in Hn' as ->.
    apply Hnew, Hok, Hn.
  - intros p Hp. apply elem_of_app in Hp as [Hp|Hp]; [apply Hin, Hp|].
    apply list_elem_of_singleton in Hp as ->. exact Hb.
Qed.

(** With more fuel than there are helpers below it, emitWithHelpers returns
    on a block that is above no cycle; it appends blocks of the chains from
    the block, and leaves the block emitted. *)
Lemma emitWithHelpers_total (n : nat) :
  ∀ (below : list ptr) (d : nat) (b : ptr) (st : emission),
    length below ≤ n → n < d →
    b ∈ body → acyclicFrom h helperMap b →
    (∀ k x, chain (S k) b x → x ∈ below) →
    orderedOk h body st →
    ∃ st' added,
      emitWithHelpers d h helperMap b st = Done st'
      ∧ orderedOk h body st'
      ∧ st'.1 = st.1 ++ added
      ∧ (∀ x, x ∈ added → ∃ k, chain k b x)
      ∧ nameOf h b ∈ st'.2.
Proof.
  induction n as [|n IH]; intros below d b st Hlen Hd Hb Hacyc Hbelow Hst.
  - destruct d as [|d]; [lia|]. cbn [emitWithHelpers].
    destruct (bool_decide (nameOf h b ∈ st.2)) eqn:E.
    { apply bool_decide_eq_true in E. exists st, []. rewrite app_nil_r.
      split; [reflexivity|]. split; [exact Hst|]. split; [reflexivity|].
      split; [intros x Hx; apply elem_of_nil in Hx as []|exact E]. }
    apply bool_decide_eq_false in E.
    assert (Hnone : default [] (helperMap !! nameOf h b) = []).
    { destruct (default [] (helperMap !! nameOf h b)) as [|c cs] eqn:Ec; [reflexivity|].
      assert (Hc : c ∈ below).
      { apply (Hbelow 0). apply (chain_step _ _ _ b b c); [constructor|].
        unfold helperOf. rewrite Ec. left. }
      destruct below; [apply elem_of_nil in Hc as []|simpl in Hlen; lia]. }
    rewrite Hnone. cbn [foldl mbind outcome_bind obind].
    exists (st.1 ++ [b], {[nameOf h b]} ∪ st.2), [b].
    split; [reflexivity|]. split; [apply orderedOk_snoc; assumption|].
    split; [reflexivity|]. split.
    + intros x Hx. apply list_elem_of_singleton in Hx as ->. exists 0. constructor.
    + apply elem_of_union. left. apply elem_of_singleton. reflexivity.
  - destruct d as [|d]; [lia|]. cbn [emitWithHelpers].
    destruct (bool_decide (nameOf h b ∈ st.2)) eqn:E.
    { apply bool_decide_eq_true in E. exists st, []. rewrite app_nil_r.
      split; [reflexivity|]. split; [exact Hst|]. split; [reflexivity|].
      split; [intros x Hx; apply elem_of_nil in Hx as []|exact E]. }
    apply bool_decide_eq_false in E.
    change (foldl (fun acc hp => st ← acc; emitWithHelpers d h helperMap hp st) (Done st)
              (default [] (helperMap !! nameOf h b)))
      with (forM (default [] (helperMap !! nameOf h b))
              (fun st hp => emitWithHelpers d h helperMap hp st) st).
    destruct (forM_total
                (fun st1 => orderedOk h body st1
                            ∧ ∃ added, st1.1 = st.1 ++ added
                                       ∧ ∀ x, x ∈ added → ∃ k, chain (S k) b x)
                (default [] (helperMap !! nameOf h b))
                (fun st hp => emitWithHelpers d h helperMap hp st) st)
      as (st1 & -> & Hst1 & added & Hadded & Hchains).
    { split; [exact Hst|]. exists []. rewrite app_nil_r. split; [reflexivity|].
      intros x Hx. apply elem_of_nil in Hx as []. }
    { intros st0 c Hc (Hst0 & added0 & Hadded0 & Hchains0).
      assert (Hbc : link b c) by exact Hc.
      assert (Hb1 : chain 1 b c).
      { apply (chain_step _ _ _ b b c); [constructor|exact Hbc]. }
      destruct (IH (List.filter (fun x => negb (Nat.eqb x c)) below) d c st0)
        as (st' & added' & Hrun & Hst' & Hadded' & Hchains' & _).
      - assert (Hcb : c ∈ below) by (apply (Hbelow 0), Hb1).
        apply remove_length in Hcb. unfold ptr in *. lia.
      - lia.
      - eapply Hhelpers, proj1, Hmap, Hc.
      - eapply acyclicFrom_link; eassumption.
      - intros k x Hx. apply elem_of_List_filter. split.
        + apply (Hbelow (S k)). eapply chain_cons; eassumption.
        + apply negb_true_iff, Nat.eqb_neq. intros ->.
          apply (Hacyc 1 c k Hb1 Hx).
      - exact Hst0.
      - exists st'. split; [exact Hrun|]. split; [exact Hst'|].
        exists (added0 ++ added'). split; [rewrite Hadded', Hadded0, app_assoc; reflexivity|].
        intros x Hx. apply elem_of_app in Hx as [Hx|Hx]; [apply Hchains0, Hx|].
        destruct (Hchains' x Hx) as [k Hk]. exists k. eapply chain_cons; eassumption. }
    cbn [mbind outcome_bind obind].
    assert (Hnew : nameOf h b ∉ st1.2).
    { intros Hin. apply Hst1 in Hin. rewrite Hadded, map_app, elem_of_app in Hin.
      destruct Hin as [Hin|Hin]; [apply E, Hst, Hin|].
      apply elem_of_map_nameOf in Hin as (x & Hx & Hn).
      destruct (Hchains x Hx) as [k Hk].
      assert (x = b).
      { apply (name_inj h body); [exact Hnames| |exact Hb|exact Hn].
        eapply chain_body; eassumption. }
      subst x. apply (Hacyc 0 b k); [constructor|exact Hk]. }
    exists (st1.1 ++ [b], {[nameOf h b]} ∪ st1.2), (added ++ [b]).
    split; [reflexivity|]. split; [apply orderedOk_snoc; assumption|].
    split; [cbn [fst]; rewrite Hadded, app_assoc; reflexivity|]. split.
    + intros x Hx. apply elem_of_app in Hx as [Hx|Hx].
      * destruct (Hchains x Hx) as [k Hk]. eauto.
      * apply list_elem_of_singleton in Hx as ->. exists 0. constructor.
    + apply elem_of_union. left. apply elem_of_singleton. reflexivity.
Qed.

End HelperForest.

(** * The heap of blocks *)

Lemma keeps_refl {A} (view : Block → A) (h : heap) : keeps view h h.
Proof. split; reflexivity. Qed.

Lemma keeps_trans {A} (view : Block → A) (h1 h2 h3 : heap) :
  keeps view h1 h2 → keeps view h2 h3 → keeps view h1 h3.
Proof. intros [L1 H1] [L2 H2]. split; [congruence|]. intros q. rewrite H2. apply H1. Qed.

Lemma store_keeps {A} (view : Block → A) (f : Block → Block) (h : heap) (p : ptr) :
  (∀ b, view (f b) = view b) → keeps view h (store f h p).
Proof.
  intros Hf. split; [apply length_alter|]. intros q. unfold deref, store, ptr, heap in *.
  destruct (decide (q = p)) as [->|Hne].
  - rewrite list_lookup_alter_eq. destruct (h !! p); simpl; [apply Hf|reflexivity].
  - rewrite list_lookup_alter_ne by congruence. reflexivity.
Qed.

Lemma forEach_keeps {A} (view : Block → A) (f : Block → Block) (h : heap)
      (blocks : list ptr) :
  (∀ b, view (f b) = view b) → keeps view h (forEach f h blocks).
Proof.
  intros Hf. unfold forEach. revert h.
  induction blocks as [|p blocks IH]; intros h; [apply keeps_refl|].
  cbn [foldl]. eapply keeps_trans; [apply store_keeps, Hf|apply IH].
Qed.

Lemma keeps_view {A B} (view : Block → A) (g : A → B) (h h' : heap) :
  keeps view h h' → keeps (fun b => g (view b)) h h'.
Proof. intros [L H]. split; [exact L|]. intros q. rewrite H. reflexivity. Qed.

(** emitWithHelpers and emitOnce read the names of the blocks only. *)
Lemma emitWithHelpers_ext (h h' : heap) (helperMap : gmap string (list ptr)) (d : nat) :
  (∀ p, nameOf h' p = nameOf h p) →
  ∀ b st, emitWithHelpers d h' helperMap b st = emitWithHelpers d h helperMap b st.
Proof.
  intros Hn. induction d as [|d IH]; intros b st; [reflexivity|].
  cbn [emitWithHelpers]. rewrite Hn.
  destruct (bool_decide (nameOf h b ∈ st.2)); [reflexivity|].
  assert (Hfold : ∀ l acc,
            foldl (fun acc hp => st ← acc; emitWithHelpers d h' helperMap hp st) acc l
            = foldl (fun acc hp => st ← acc; emitWithHelpers d h helperMap hp st) acc l).
  { induction l as [|x l IHl]; intros acc; [reflexivity|]. cbn [foldl]. rewrite IHl.
    f_equal. destruct acc; cbn [mbind outcome_bind obind]; [apply IH|reflexivity..]. }
  rewrite Hfold. reflexivity.
Qed.

Lemma emitOnce_ext (h h' : heap) :
  (∀ p, nameOf h' p = nameOf h p) →
  ∀ l st, foldl (emitOnce h') st l = foldl (emitOnce h) st l.
Proof.
  intros Hn. induction l as [|b l IH]; intros st; [reflexivity|].
  cbn [foldl]. rewrite IH. unfold emitOnce. rewrite Hn. reflexivity.
Qed.

Lemma sortByName_ext (h h' : heap) (l : list ptr) :
  (∀ p, nameOf h' p = nameOf h p) → sortByName h' l = sortByName h l.
Proof.
  intros Hn. unfold sortByName, GoSort.Slice, GoSort.SliceStable.
  induction l as [|x l IH]; [reflexivity|]. cbn [foldr]. rewrite IH.
  generalize (foldr (GoSort.insert (fun p q => GoStrings.lt (nameOf h p) (nameOf h q))) [] l).
  intros k. induction k as [|y k IHk]; [reflexivity|]. cbn [GoSort.insert].
  rewrite !Hn, IHk. reflexivity.
Qed.

(** The helper map lists helpers under the name of their consumer. *)
Lemma buildHelperMap_spec (h : heap) (helperBlocks : list ptr) (x : string) (hp : ptr) :
  hp ∈ default [] (buildHelperMap h helperBlocks !! x) →
  hp ∈ helperBlocks ∧ Consumer (deref h hp) = x.
Proof.
  unfold buildHelperMap. rewrite lookup_fmap.
  assert (Hfold : ∀ hp,
            hp ∈ default []
                   (foldl (fun m p =>
                             <[Consumer (deref h p)
                               := default [] (m !! Consumer (deref h p)) ++ [p]]> m)
                      (∅ : gmap string (list ptr)) helperBlocks !! x) →
            hp ∈ helperBlocks ∧ Consumer (deref h hp) = x).
  { clear hp. induction helperBlocks as [|p l IH] using rev_ind; intros hp.
    - cbn [foldl]. rewrite lookup_empty. intros H. apply elem_of_nil in H as [].
    - rewrite foldl_app. cbn [foldl].
      destruct (decide (Consumer (deref h p) = x)) as [<-|Hne].
      + rewrite lookup_insert_eq. cbn [default from_option id].
        rewrite !elem_of_app, list_elem_of_singleton. intros [H| ->]; [|auto].
        apply IH in H. tauto.
      + rewrite lookup_insert_ne by exact Hne. rewrite elem_of_app.
        intros H. apply IH in H. tauto. }
  destruct (foldl _ ∅ helperBlocks !! x) as [l|] eqn:E; cbn [fmap option_fmap option_map default from_option id].
  - intros H. apply Hfold. cbn [default from_option id].
    destruct (sortByName_sorted h l) as [Hperm _]. rewrite Hperm. exact H.
  - intros H. apply elem_of_nil in H as [].
Qed.

(** The loop that appends the blocks not yet emitted keeps the ordered list
    in order and leaves every block of the list emitted. *)
Lemma emitOnce_ordered (h : heap) (body l : list ptr) (st : emission) :
  NoDup (map (nameOf h) body) →
  orderedOk h body st → (∀ p, p ∈ l → p ∈ body) →
  orderedOk h body (foldl (emitOnce h) st l)
  ∧ (∀ n, n ∈ st.2 → n ∈ (foldl (emitOnce h) st l).2)
  ∧ ∀ p, p ∈ l → nameOf h p ∈ (foldl (emitOnce h) st l).2.
Proof.
  intros Hnames. revert st. induction l as [|b l IH]; intros st Hst Hl.
  - cbn [foldl]. split; [exact Hst|]. split; [auto|].
    intros p Hp. apply elem_of_nil in Hp as [].
  - cbn [foldl].
    assert (Hstep : orderedOk h body (emitOnce h st b)
                    ∧ (∀ n, n ∈ st.2 → n ∈ (emitOnce h st b).2)
                    ∧ nameOf h b ∈ (emitOnce h st b).2).
    { unfold emitOnce. destruct (bool_decide (nameOf h b ∈ st.2)) eqn:E.
      - apply bool_decide_eq_true in E. auto.
      - apply bool_decide_eq_false in E. split; [|split]; cbn [snd].
        + apply orderedOk_snoc; [exact Hst|apply Hl; left|exact E].
        + intros n Hn. apply elem_of_union. right. exact Hn.
        + apply elem_of_union. left. apply elem_of_singleton. reflexivity. }
    destruct Hstep as (Hst1 & Hmono1 & Hb1).
    destruct (IH _ Hst1) as (Hst2 & Hmono2 & Hall); [intros p Hp; apply Hl; right; exact Hp|].
    split; [exact Hst2|]. split; [auto|].
    intros p Hp. apply elem_of_cons in Hp as [->|Hp]; [apply Hmono2, Hb1|apply Hall, Hp].
Qed.

Lemma foldl_prefix {A B} (P : list B → A → Prop) (f : A → B → A) (l : list B) (a : A) :
  P [] a → (∀ pre x a, x ∈ l → P pre a → P (pre ++ [x]) (f a x)) → P l (foldl f a l).
Proof.
  intros Ha Hf.
  assert (H : ∀ k pre a, (∀ x, x ∈ k → x ∈ l) → P pre a → P (pre ++ k) (foldl f a k)).
  { induction k as [|x k IH]; intros pre a0 Hk Hp; [rewrite app_nil_r; exact Hp|].
    cbn [foldl]. replace (pre ++ x :: k) with ((pre ++ [x]) ++ k)
      by (rewrite <- app_assoc; reflexivity).
    apply IH; [intros y Hy; apply Hk; right; exact Hy|].
    apply Hf; [apply Hk; left|exact Hp]. }
  apply (H l [] a); auto.
Qed.

Lemma declOf_kind (s : string) (h h' : heap) (q : ptr) :
  declOf s (deref h' q) = declOf s (deref h q) →
  kindOf h' q = kindOf h q ∧ nameOf h' q = nameOf h q.
Proof. unfold declOf, kindOf, nameOf. intros [= -> -> _]. auto. Qed.

Lemma bodyKinds_ext (h h' : heap) (l : list ptr) :
  (∀ p, p ∈ l → kindOf h' p = kindOf h p) → bodyKinds h' l = bodyKinds h l.
Proof.
  intros H. unfold bodyKinds. apply List.filter_ext_in. intros p Hp.
  rewrite H by (apply list_elem_of_In, Hp). reflexivity.
Qed.

Lemma bodyKinds_app (h : heap) (l k : list ptr) :
  bodyKinds h (l ++ k) = bodyKinds h l ++ bodyKinds h k.
Proof. apply List.filter_app. Qed.

Lemma bodyKinds_snoc_comment (h : heap) (l : list ptr) (p : ptr) :
  kindOf h p = BlockComment → bodyKinds h (l ++ [p]) = bodyKinds h l.
Proof.
  intros H. rewrite bodyKinds_app. unfold bodyKinds at 2. cbn [List.filter].
  rewrite H. cbn. apply app_nil_r.
Qed.

Lemma deref_app (h : heap) (b : Block) (q : ptr) :
  q < length h → deref (h ++ [b]) q = deref h q.
Proof.
  intros H. unfold deref, ptr, heap in *. rewrite lookup_app_l by exact H. reflexivity.
Qed.

Lemma deref_new (h : heap) (b : Block) : deref (h ++ [b]) (length h) = b.
Proof.
  unfold deref, ptr, heap in *. rewrite lookup_app_r by reflexivity.
  rewrite Nat.sub_diag. reflexivity.
Qed.

(** Attaching the divider comments changes comments only, and keeps the
    messages, enums and services in their order. *)
Lemma attachDividerComments_spec (s : string) (h : heap) (blocks : list ptr) :
  (∀ p, p ∈ blocks → p < length h) →
  length h ≤ length (attachDividerComments h blocks).1
  ∧ (∀ q, q < length h →
          declOf s (deref (attachDividerComments h blocks).1 q) = declOf s (deref h q))
  ∧ bodyKinds (attachDividerComments h blocks).1 (attachDividerComments h blocks).2
    = bodyKinds h blocks.
Proof.
  intros Hvalid. unfold attachDividerComments.
  match goal with
  | |- context [foldl ?f ?init blocks] =>
      assert (Hinv : (fun pre (st : heap * list ptr * string) =>
                        keeps (declOf s) h st.1.1
                        ∧ bodyKinds h st.1.2 = bodyKinds h pre
                        ∧ ∀ p, p ∈ st.1.2 → p ∈ pre)
                       blocks (foldl f init blocks))
  end.
  { apply foldl_prefix.
    - split; [apply keeps_refl|]. split; [reflexivity|]. auto.
    - intros pre p [[h' result] pending] Hp (Hk & Hb & Hin). cbn [fst snd] in *.
      assert (Hkind : kindOf h' p = kindOf h p) by apply (declOf_kind s), Hk.
      unfold kindOf in Hkind.
      destruct (bool_decide (Kind (deref h' p) = BlockComment)
                && containsDivider (Comments (deref h' p))) eqn:E.
      + apply andb_true_iff in E as [E _]. apply bool_decide_eq_true in E.
        cbn [fst snd]. split; [exact Hk|]. split.
        * rewrite bodyKinds_snoc_comment, Hb; [reflexivity|].
          unfold kindOf. rewrite <- Hkind. exact E.
        * intros q Hq. apply elem_of_app. left. apply Hin, Hq.
      + assert (Hres : bodyKinds h (result ++ [p]) = bodyKinds h (pre ++ [p])
                       ∧ ∀ q, q ∈ result ++ [p] → q ∈ pre ++ [p]).
        { split; [rewrite !bodyKinds_app, Hb; reflexivity|].
          intros q. rewrite !elem_of_app. intros [Hq|Hq]; [left; apply Hin, Hq|tauto]. }
        destruct (negb (String.eqb pending "")); cbn [fst snd];
          (split; [|exact Hres]); [|exact Hk].
        eapply keeps_trans; [exact Hk|]. apply store_keeps.
        intros b. destruct (negb (String.eqb (Comments b) "")); reflexivity. }
  destruct (foldl _ _ blocks) as [[h' result] pending].
  destruct Hinv as ([Hlen Hk] & Hb & Hin). cbn [fst snd] in *.
  destruct (negb (String.eqb pending "")); cbn [fst snd].
  - split; [rewrite length_app, Hlen; lia|]. split.
    + intros q Hq. rewrite deref_app by lia. apply Hk.
    + rewrite bodyKinds_snoc_comment by (unfold kindOf; rewrite deref_new; reflexivity).
      rewrite <- Hb.
      apply bodyKinds_ext. intros p Hp. unfold kindOf.
      rewrite deref_app by (rewrite Hlen; apply Hvalid, Hin, Hp).
      apply (declOf_kind s), Hk.
  - split; [lia|]. split; [intros q _; apply Hk|].
    rewrite <- Hb. apply bodyKinds_ext. intros p Hp. apply (declOf_kind s), Hk.
Qed.

Section Roots.
Context (h : heap) (helperMap : gmap string (list ptr)) (body helpers : list ptr)
        (parent : ptr → string) (d : nat).
Hypothesis Hnames : NoDup (map (nameOf h) body).
Hypothesis Hhelpers : ∀ p, p ∈ helpers → p ∈ body.
Hypothesis Hmap : ∀ x hp, hp ∈ default [] (helperMap !! x) → hp ∈ helpers ∧ parent hp = x.
Hypothesis Hfuel : length helpers < d.

(** A block that is no helper is emitted, with helpers of its chains. *)
Lemma emit_root (r : ptr) (st : emission) :
  r ∈ body → r ∉ helpers → orderedOk h body st →
  ∃ st', emitWithHelpers d h helperMap r st = Done st'
         ∧ orderedOk h body st'
         ∧ (∀ n, n ∈ st.2 → n ∈ st'.2)
         ∧ nameOf h r ∈ st'.2.
Proof.
  intros Hr Hroot Hst.
  destruct (emitWithHelpers_total h helperMap body helpers parent Hnames Hhelpers Hmap
              (length helpers) helpers d r st)
    as (st' & added & Hrun & Hst' & Hadded & _ & Hin); try assumption.
  - reflexivity.
  - eapply no_cycle; eassumption.
  - intros k x Hx. eapply chain_helper; eassumption.
  - exists st'. split; [exact Hrun|]. split; [exact Hst'|]. split; [|exact Hin].
    intros n Hn. apply Hst'. rewrite Hadded, map_app, elem_of_app. left.
    apply Hst, Hn.
Qed.

Lemma emit_roots (roots : list ptr) (st : emission) :
  (∀ r, r ∈ roots → r ∈ body ∧ r ∉ helpers) → orderedOk h body st →
  ∃ st', foldl (fun acc r => st ← acc; emitWithHelpers d h helperMap r st) (Done st) roots
         = Done st'
         ∧ orderedOk h body st'
         ∧ (∀ n, n ∈ st.2 → n ∈ st'.2)
         ∧ ∀ r, r ∈ roots → nameOf h r ∈ st'.2.
Proof.
  revert st. induction roots as [|r roots IH]; intros st Hroots Hst.
  - exists st. cbn [foldl]. split; [reflexivity|]. split; [exact Hst|]. split; [auto|].
    intros r Hr. apply elem_of_nil in Hr as [].
  - cbn [foldl]. cbn [mbind outcome_bind obind].
    destruct (emit_root r st) as (st1 & -> & Hst1 & Hmono1 & Hr1);
      [apply Hroots; left|apply Hroots; left|exact Hst|].
    destruct (IH st1) as (st2 & Hrun & Hst2 & Hmono2 & Hall);
      [intros x Hx; apply Hroots; right; exact Hx|exact Hst1|].
    exists st2. split; [exact Hrun|]. split; [exact Hst2|]. split; [auto|].
    intros x Hx. apply elem_of_cons in Hx as [->|Hx]; [apply Hmono2, Hr1|apply Hall, Hx].
Qed.

(** The loop over the request and response messages, which also files each
    of them under its section. *)
Lemma emit_messages {A} (view : Block → A) (msgs : list ptr) (h0 : heap) (st : emission) :
  (∀ s b, view (setSection s b) = view b) →
  (∀ p, nameOf h0 p = nameOf h p) →
  (∀ r, r ∈ msgs → r ∈ body ∧ r ∉ helpers) → orderedOk h body st →
  ∃ h' st',
    foldl (fun (acc : outcome (heap * emission)) msg =>
             '(h, st) ← acc;
             let h := store (setSection SectionRequestResponse) h msg in
             st ← emitWithHelpers d h helperMap msg st;
             Done (h, st))
      (Done (h0, st)) msgs = Done (h', st')
    ∧ keeps view h0 h'
    ∧ (∀ p, nameOf h' p = nameOf h p)
    ∧ orderedOk h body st'
    ∧ (∀ n, n ∈ st.2 → n ∈ st'.2)
    ∧ ∀ r, r ∈ msgs → nameOf h r ∈ st'.2.
Proof.
  intros Hview. revert h0 st. induction msgs as [|r msgs IH]; intros h0 st Hn Hroots Hst.
  - exists h0, st. cbn [foldl]. split; [reflexivity|]. split; [apply keeps_refl|].
    split; [exact Hn|]. split; [exact Hst|]. split; [auto|].
    intros r Hr. apply elem_of_nil in Hr as [].
  - cbn [foldl]. cbn [mbind outcome_bind obind]. cbv zeta.
    assert (Hn1 : ∀ p, nameOf (store (setSection SectionRequestResponse) h0 r) p
                       = nameOf h p).
    { intros p. rewrite <- Hn. unfold nameOf.
      apply (store_keeps Name (setSection SectionRequestResponse) h0 r).
      reflexivity. }
    rewrite (emitWithHelpers_ext h _ helperMap d Hn1).
    destruct (emit_root r st) as (st1 & -> & Hst1 & Hmono1 & Hr1);
      [apply Hroots; left|apply Hroots; left|exact Hst|].
    cbn [mbind outcome_bind obind].
    destruct (IH (store (setSection SectionRequestResponse) h0 r) st1)
      as (h' & st2 & Hrun & Hk & Hn2 & Hst2 & Hmono2 & Hall);
      [exact Hn1|intros x Hx; apply Hroots; right; exact Hx|exact Hst1|].
    exists h', st2. split; [exact Hrun|]. split.
    { eapply keeps_trans; [|exact Hk]. apply store_keeps. intros b. apply Hview. }
    split; [exact Hn2|]. split; [exact Hst2|]. split; [auto|].
    intros x Hx. apply elem_of_cons in Hx as [->|Hx]; [apply Hmono2, Hr1|apply Hall, Hx].
Qed.

End Roots.

(** The loop over the services: they are appended as they are. *)
Lemma emit_services {A} (view : Block → A) (h : heap) (services : list ptr) :
  (∀ s b, view (setSection s b) = view b) →
  ∃ h' emitted,
    foldl (fun '(h, st) svc =>
             (store (setSection SectionService) h svc,
              (st.1 ++ [svc], {[nameOf h svc]} ∪ st.2)))
      (h, (([], ∅) : emission)) services = (h', (services, emitted))
    ∧ keeps view h h'
    ∧ (∀ p, nameOf h' p = nameOf h p)
    ∧ emissionOk h (services, emitted).
Proof.
  intros Hview.
  match goal with
  | |- context [foldl ?f ?init services] =>
      assert (Hinv : (fun pre (st : heap * emission) =>
                        keeps view h st.1 ∧ (∀ p, nameOf st.1 p = nameOf h p)
                        ∧ st.2.1 = pre ∧ emissionOk h st.2)
                       services (foldl f init services))
  end.
  { apply foldl_prefix.
    - split; [apply keeps_refl|]. split; [reflexivity|]. split; [reflexivity|].
      intros n. cbn. rewrite elem_of_empty, elem_of_nil. tauto.
    - intros pre svc [h' [ordered emitted]] _ (Hk & Hn & Hpre & Hok). cbn [fst snd] in *.
      subst ordered. split; [|split; [|split]]; cbn [fst snd].
      + eapply keeps_trans; [exact Hk|]. apply store_keeps. intros b. apply Hview.
      + intros p. rewrite <- Hn. unfold nameOf.
        apply (store_keeps Name (setSection SectionService) h' svc). reflexivity.
      + reflexivity.
      + intros n. cbn [fst snd]. rewrite elem_of_union, elem_of_singleton, map_app,
          elem_of_app. cbn [map]. rewrite list_elem_of_singleton, (Hok n), Hn. tauto. }
  destruct (foldl _ _ services) as [h' [ordered emitted]].
  destruct Hinv as (Hk & Hn & Hpre & Hok). cbn [fst snd] in *. subst ordered.
  exists h', emitted. auto.
Qed.

(** The loop of Sort that files the remaining blocks as core, helper or
    unreferenced: it changes sections and consumers only, and every block
    goes to one of the three lists. *)
Lemma legacy_split {A} (view : Block → A) (opts : Options) (h4 : heap)
      (refCounts : gmap string nat) (refGraph : gmap string (list string))
      (svcNames rpcMsgNames : gset string) (remainingBlocks : list ptr) :
  (∀ s b, view (setSection s b) = view b) →
  (∀ c b, view (setConsumer c b) = view b) →
  (∀ p, p ∈ remainingBlocks →
        (nameOf h4 p ∉ svcNames) ∧ (nameOf h4 p ∉ rpcMsgNames)) →
  ∀ h5 coreBlocks helperBlocks unrefBlocks warnings,
    foldl (fun '(h, coreBlocks, helperBlocks, unrefBlocks, warnings) p =>
             let b := deref h p in
             if bool_decide (Name b ∈ svcNames) || bool_decide (Name b ∈ rpcMsgNames)
             then (h, coreBlocks, helperBlocks, unrefBlocks, warnings)
             else
               let n := count refCounts (Name b) in
               if 2 <=? n then
                 (store (setSection SectionCore) h p,
                  coreBlocks ++ [p], helperBlocks, unrefBlocks, warnings)
               else if n =? 1 then
                 let h := store (setSection SectionHelper) h p in
                 let h := match refGraph !! Name b with
                          | Some [consumer] => store (setConsumer consumer) h p
                          | _ => h
                          end in
                 (h, coreBlocks, helperBlocks ++ [p], unrefBlocks, warnings)
               else
                 (store (setSection SectionUnreferenced) h p,
                  coreBlocks, helperBlocks, unrefBlocks ++ [p],
                  if negb (Quiet opts)
                  then warnings ++ [WarnUnreferenced (Kind b) (Name b)]
                  else warnings))
      (h4, [], [], [], []) remainingBlocks
    = (h5, coreBlocks, helperBlocks, unrefBlocks, warnings) →
    keeps view h4 h5 ∧ keeps Name h4 h5
    ∧ remainingBlocks ≡ₚ coreBlocks ++ helperBlocks ++ unrefBlocks.
Proof.
  intros Hsec Hcons Hskip h5 coreBlocks helperBlocks unrefBlocks warnings E.
  match type of E with
  | foldl ?f ?init _ = _ =>
      assert (Hinv : (fun pre (st : heap * list ptr * list ptr * list ptr * list Warning) =>
                        keeps view h4 st.1.1.1.1 ∧ keeps Name h4 st.1.1.1.1
                        ∧ pre ≡ₚ st.1.1.1.2 ++ st.1.1.2 ++ st.1.2)
                       remainingBlocks (foldl f init remainingBlocks))
  end.
  { apply foldl_prefix.
    - split; [apply keeps_refl|]. split; [apply keeps_refl|]. reflexivity.
    - intros pre p [[[[h' core] helper] unref] w] Hp (Hk & Hn & Hperm).
      cbn [fst snd] in *. cbv zeta.
      assert (Hname : Name (deref h' p) = nameOf h4 p) by apply Hn.
      destruct (Hskip p Hp) as [Hs Hr]. rewrite Hname.
      rewrite (bool_decide_false _ Hs), (bool_decide_false _ Hr). cbn [orb].
      assert (Hstore : ∀ s, keeps view h4 (store (setSection s) h' p)
                            ∧ keeps Name h4 (store (setSection s) h' p)).
      { intros s. split; (eapply keeps_trans; [eassumption|]); apply store_keeps.
        - intros b. apply Hsec.
        - reflexivity. }
      destruct (2 <=? count refCounts (nameOf h4 p)); cbn [fst snd].
      { split; [apply Hstore|]. split; [apply Hstore|].
        rewrite Hperm. rewrite <- !app_assoc.
        rewrite (Permutation_app_comm [p] (helper ++ unref)).
        rewrite <- !app_assoc. reflexivity. }
      destruct (count refCounts (nameOf h4 p) =? 1); cbn [fst snd].
      { assert (Hh : keeps view h4
                       match refGraph !! nameOf h4 p with
                       | Some [consumer] =>
                           store (setConsumer consumer) (store (setSection SectionHelper) h' p) p
                       | _ => store (setSection SectionHelper) h' p
                       end
                     ∧ keeps Name h4
                         match refGraph !! nameOf h4 p with
                         | Some [consumer] =>
                             store (setConsumer consumer)
                               (store (setSection SectionHelper) h' p) p
                         | _ => store (setSection SectionHelper) h' p
                         end).
        { destruct (refGraph !! nameOf h4 p) as [[|c [|c' cs]]|]; try apply Hstore.
          split; (eapply keeps_trans; [apply Hstore|]); apply store_keeps.
          - intros b. apply Hcons.
          - reflexivity. }
        split; [apply Hh|]. split; [apply Hh|].
        rewrite Hperm. rewrite <- !app_assoc.
        rewrite (Permutation_app_comm [p] unref). reflexivity. }
      split; [apply Hstore|]. split; [apply Hstore|].
      rewrite Hperm, <- !app_assoc. reflexivity. }
  rewrite E in Hinv. exact Hinv.
Qed.

Lemma emit_fold_ext (h h' : heap) (helperMap : gmap string (list ptr)) (d : nat)
      (l : list ptr) (acc : outcome emission) :
  (∀ p, nameOf h' p = nameOf h p) →
  foldl (fun acc r => st ← acc; emitWithHelpers d h' helperMap r st) acc l
  = foldl (fun acc r => st ← acc; emitWithHelpers d h helperMap r st) acc l.
Proof.
  intros Hn. revert acc. induction l as [|x l IH]; intros acc; [reflexivity|].
  cbn [foldl]. rewrite IH. f_equal.
  destruct acc; cbn [mbind outcome_bind obind];
    [apply emitWithHelpers_ext, Hn|reflexivity..].
Qed.

Lemma NoDup_bounded_length (l : list ptr) (n : nat) :
  NoDup l → (∀ p, p ∈ l → p < n) → length l ≤ n.
Proof.
  intros Hnd Hlt. unfold ptr in *.
  assert (H : length l ≤ length (seq 0 n)); [|rewrite length_seq in H; exact H].
  apply submseteq_length, NoDup_submseteq; [exact Hnd|].
  intros p Hp. apply elem_of_seq. specialize (Hlt p Hp). lia.
Qed.

Lemma NoDup_map_sub (h : heap) (body l : list ptr) :
  NoDup (map (nameOf h) body) → NoDup l → (∀ p, p ∈ l → p ∈ body) →
  NoDup (map (nameOf h) l).
Proof.
  intros Hnames Hnd Hsub. apply (NoDup_fmap_2_strong (nameOf h)); [|exact Hnd].
  intros p q Hp Hq. apply (name_inj h body); auto.
Qed.

(** An ordered list that holds the name of every body block is a permutation
    of the body. *)
Lemma ordered_perm (h : heap) (body : list ptr) (st : emission) :
  NoDup (map (nameOf h) body) → orderedOk h body st →
  (∀ p, p ∈ body → nameOf h p ∈ st.2) → st.1 ≡ₚ body.
Proof.
  intros Hnames (Hok & Hnd & Hin) Hall.
  apply NoDup_Permutation.
  - apply (NoDup_fmap_1 (nameOf h)), Hnd.
  - apply (NoDup_fmap_1 (nameOf h)), Hnames.
  - intros p. split; [apply Hin|]. intros Hp.
    assert (Hq := Hall p Hp). apply Hok, elem_of_map_nameOf in Hq.
    destruct Hq as (q & Hq & Hn).
    rewrite <- (name_inj h body q p Hnames (Hin q Hq) Hp Hn). exact Hq.
Qed.

(** The three lists of classifyServiceAndRPC split the body blocks. *)
Lemma classify_partition (h : heap) (body svc msgs rest : list ptr) :
  NoDup (map (nameOf h) body) →
  classifyServiceAndRPC h body = (svc, msgs, rest) →
  svc = ofKind h BlockService body
  ∧ (∀ p, p ∈ msgs → p ∈ body)
  ∧ (∀ p, p ∈ rest ↔ p ∈ body ∧ kindOf h p ≠ BlockService
                     ∧ nameOf h p ∉ map (nameOf h) msgs)
  ∧ NoDup rest.
Proof.
  intros Hnames E. assert (Hnd : NoDup body) by apply (NoDup_fmap_1 (nameOf h)), Hnames.
  destruct (classifyServiceAndRPC_spec h body) as [Hnone Hsome].
  destruct (ofKind h BlockService body) as [|s0 ss] eqn:Esvc.
  - rewrite Hnone in E by reflexivity. injection E as <- <- <-.
    split; [reflexivity|]. split; [intros p Hp; apply elem_of_nil in Hp as []|].
    split; [|exact Hnd]. intros p. split; [|tauto]. intros Hp.
    split; [exact Hp|]. split; [|apply not_elem_of_nil].
    intros Hk. assert (Hin : p ∈ ofKind h BlockService body).
    { apply elem_of_List_filter. split; [exact Hp|]. apply bool_decide_eq_true, Hk. }
    rewrite Esvc in Hin. apply elem_of_nil in Hin as [].
  - destruct Hsome as (msgs' & E' & _ & Hmsgs & _); [discriminate|].
    rewrite E' in E. injection E as <- <- <-.
    split; [reflexivity|]. split; [intros p Hp; apply Hmsgs, Hp|].
    split; [|apply NoDup_List_filter, Hnd].
    intros p. rewrite elem_of_List_filter, andb_true_iff, !bool_decide_eq_true. tauto.
Qed.

Lemma Done_bind {A B} (x : A) (k : A → outcome B) : Done x ≫= k = k x.
Proof. reflexivity. Qed.

(** Replaces the call in front of a bind by its result. *)
Ltac bind_result H E :=
  lazymatch type of H with
  | (?e ≫= ?k) = ?r =>
      lazymatch type of E with
      | _ = Done ?v =>
          replace e with (Done v) in H by (symmetry; exact E);
          rewrite Done_bind in H; cbv beta in H
      end
  end.

(** One [let] of the body of [arrange], named and kept as an equation. *)
Ltac name_let H y E :=
  lazymatch type of H with
  | (let x := ?v in @?b x) = ?r =>
      pose (y := v); change (b y = r) in H; cbv beta in H;
      assert (E : y = v) by reflexivity; clearbody y
  end.

Lemma Legacy_arrange_body (scanned : list Block) (opts : Options) :
  NoDup (map (nameOf scanned) (bodyKinds scanned (seq 0 (length scanned)))) →
  ∃ h l options imports ordered warnings,
    Legacy.arrange scanned opts = Done (h, l, options, imports, ordered, warnings)
    ∧ Permutation ordered (bodyKinds scanned (seq 0 (length scanned)))
    ∧ bodyBlocks l = bodyKinds scanned (seq 0 (length scanned))
    ∧ ∀ p, p ∈ bodyKinds scanned (seq 0 (length scanned)) →
           declOf (SortRPCs opts) (deref h p) = declOf (SortRPCs opts) (deref scanned p).
Proof.
  intros Hnd. remember (Legacy.arrange scanned opts) as r eqn:H. symmetry in H.
  cbv delta [Legacy.arrange] beta in H.
  name_let H h0 Eh0. name_let H blocks0 Eblocks0.
  destruct (if PreserveDividers opts then _ else _) as [h1 blocks1] eqn:Eattach.
  name_let H h2 Eh2. name_let H h3 Eh3. name_let H h4 Eh4.
  name_let H l Hl. name_let H options Eoptions. name_let H imports Eimports.
  name_let H refCounts ErefCounts. name_let H refGraph ErefGraph.
  destruct (classifyServiceAndRPC h4 (bodyBlocks l))
    as [[serviceBlocks rpcMessages] remainingBlocks] eqn:Eclassify.
  name_let H rpcMsgNames ErpcMsgNames. name_let H svcNames EsvcNames.
  destruct (foldl _ (h4, [], [], [], []) remainingBlocks)
    as [[[[h5 coreBlocks] helperBlocks] unrefBlocks] warnings] eqn:Esplit.
  set (body := bodyKinds scanned (seq 0 (length scanned))) in *.
  set (s := SortRPCs opts) in *.
  (* the heap up to the classification *)
  assert (Hvalid : ∀ p, p ∈ body → p < length scanned).
  { intros p Hp. apply elem_of_List_filter in Hp as [Hp _].
    apply elem_of_seq in Hp. lia. }
  assert (H1 : length scanned ≤ length h1
               ∧ (∀ q, q < length scanned →
                       declOf s (deref h1 q) = declOf s (deref scanned q))
               ∧ bodyKinds h1 blocks1 = body).
  { subst h0 blocks0. destruct (PreserveDividers opts).
    - pose proof (attachDividerComments_spec s scanned (seq 0 (length scanned))) as Ha.
      rewrite Eattach in Ha. apply Ha. intros p Hp. apply elem_of_seq in Hp. lia.
    - injection Eattach as <- <-. auto. }
  destruct H1 as (Hlen1 & Hdecl1 & Hbody1).
  assert (Hk2 : keeps (declOf s) h1 h2).
  { subst h2. apply forEach_keeps. intros b. cbv zeta. unfold processComments.
    repeat match goal with |- context [if ?c then _ else _] => destruct c end;
      reflexivity. }
  assert (Hk3 : keeps (declOf s) h2 h3).
  { subst h3. destruct (negb (s =? "")%string) eqn:Es; [|apply keeps_refl].
    apply forEach_keeps. intros b.
    destruct (bool_decide (Kind b = BlockService)) eqn:Ek; [|reflexivity].
    unfold declOf. cbn [Kind Name DeclText setDeclText]. rewrite Es, Ek. reflexivity. }
  assert (Hk4 : keeps (declOf s) h3 h4).
  { subst h4. apply forEach_keeps. intros b.
    destruct (bool_decide (Kind b = BlockService)); reflexivity. }
  assert (Hk14 : keeps (declOf s) h1 h4).
  { eapply keeps_trans; [|exact Hk4]. eapply keeps_trans; eassumption. }
  assert (Hbody : bodyBlocks l = body).
  { subst l. rewrite (proj1 (proj2 (proj2 (proj2 (separate_spec h4 blocks1))))).
    rewrite <- Hbody1. apply bodyKinds_ext. intros p _. apply (declOf_kind s), Hk14. }
  assert (Hdecl4 : ∀ p, p ∈ body → declOf s (deref h4 p) = declOf s (deref scanned p)).
  { intros p Hp. rewrite (proj2 Hk14). apply Hdecl1, Hvalid, Hp. }
  assert (Hnd4 : NoDup (map (nameOf h4) body)).
  { rewrite (map_ext_in (nameOf h4) (nameOf scanned)); [exact Hnd|].
    intros p Hp. apply (declOf_kind s), Hdecl4, list_elem_of_In, Hp. }
  rewrite Hbody in *.
  (* services, request/response messages and the rest *)
  destruct (classify_partition h4 body _ _ _ Hnd4 Eclassify)
    as (Hsvc & Hmsgs & Hrest & Hndrest).
  assert (Hservice : ∀ p, p ∈ serviceBlocks → p ∈ body ∧ kindOf h4 p = BlockService).
  { intros p Hp. rewrite Hsvc in Hp. apply elem_of_List_filter in Hp as [Hp Hk].
    apply bool_decide_eq_true in Hk. auto. }
  assert (Hskip : ∀ p, p ∈ remainingBlocks →
                       (nameOf h4 p ∉ svcNames) ∧ (nameOf h4 p ∉ rpcMsgNames)).
  { intros p Hp. apply Hrest in Hp as (Hp & Hkind & Hname). subst svcNames rpcMsgNames.
    rewrite !in_names. split; [|exact Hname].
    intros Hin. apply elem_of_map_nameOf in Hin as (q & Hq & Hn).
    destruct (Hservice q Hq) as [Hqb Hqk]. apply Hkind.
    rewrite <- (name_inj h4 body q p Hnd4 Hqb Hp Hn). exact Hqk. }
  destruct (legacy_split (declOf s) opts h4 refCounts refGraph svcNames rpcMsgNames
              remainingBlocks (fun _ _ => eq_refl) (fun _ _ => eq_refl) Hskip
              _ _ _ _ _ Esplit) as (Hk5 & Hn5 & Hparts).
  assert (Hname5 : ∀ p, nameOf h5 p = nameOf h4 p) by apply Hn5.
  assert (Hnd5 : NoDup (map (nameOf h5) body)).
  { rewrite (map_ext (nameOf h5) (nameOf h4)); [exact Hnd4|exact Hname5]. }
  assert (Hndparts : NoDup (coreBlocks ++ helperBlocks ++ unrefBlocks)).
  { rewrite <- Hparts. exact Hndrest. }
  assert (Hinparts : ∀ p, p ∈ coreBlocks ++ helperBlocks ++ unrefBlocks → p ∈ remainingBlocks).
  { intros p. rewrite Hparts. auto. }
  apply NoDup_app in Hndparts as (Hndcore & Hcore_other & Hndrest').
  apply NoDup_app in Hndrest' as (Hndhelper & Hhelper_unref & Hndunref).
  assert (Hcore_body : ∀ p, p ∈ coreBlocks → p ∈ body ∧ p ∉ helperBlocks).
  { intros p Hp. split.
    - apply Hrest, Hinparts, elem_of_app. left. exact Hp.
    - intros Hh. apply (Hcore_other p Hp), elem_of_app. left. exact Hh. }
  assert (Hhelper_body : ∀ p, p ∈ helperBlocks → p ∈ body).
  { intros p Hp. apply Hrest, Hinparts. rewrite !elem_of_app. tauto. }
  assert (Hunref_body : ∀ p, p ∈ unrefBlocks → p ∈ body ∧ p ∉ helperBlocks).
  { intros p Hp. split.
    - apply Hrest, Hinparts. rewrite !elem_of_app. tauto.
    - intros Hh. apply (Hhelper_unref p Hh Hp). }
  assert (Hmsg_body : ∀ p, p ∈ rpcMessages → p ∈ body ∧ p ∉ helperBlocks).
  { intros p Hp. split; [apply Hmsgs, Hp|]. intros Hh.
    assert (Hr : p ∈ remainingBlocks).
    { apply Hinparts. rewrite !elem_of_app. tauto. }
    apply Hrest in Hr as (_ & _ & Hr). apply Hr, elem_of_map_nameOf. eauto. }
  (* the order of the core blocks *)
  assert (Hsorted : ∃ core',
             (if (SharedOrder opts =? "dependency")%string
              then topoSortBlocks h5 coreBlocks body
              else Done (sortByName h5 coreBlocks)) = Done core'
             ∧ coreBlocks ≡ₚ core').
  { destruct (SharedOrder opts =? "dependency")%string.
    - destruct (topoSortBlocks_spec h5 coreBlocks body) as (sorted & kept & E & Hperm & _).
      + apply (NoDup_map_sub h5 body); [exact Hnd5|exact Hndcore|apply Hcore_body].
      + eauto.
    - eexists. split; [reflexivity|]. apply sortByName_sorted. }
  destruct Hsorted as (core' & Ecore & Hcore'). rewrite Ecore, Done_bind in H.
  cbv beta in H.
  name_let H unref' Eunref'. name_let H helperMap EhelperMap. name_let H depth Edepth.
  assert (Hunref' : unrefBlocks ≡ₚ unref') by (subst unref'; apply sortByName_sorted).
  assert (Hmap : ∀ x hp, hp ∈ default [] (helperMap !! x) →
                         hp ∈ helperBlocks ∧ Consumer (deref h5 hp) = x).
  { subst helperMap. apply buildHelperMap_spec. }
  assert (Hfuel : length helperBlocks < depth).
  { subst depth. apply Nat.lt_succ_r, NoDup_bounded_length; [exact Hndhelper|].
    intros p Hp. apply Hhelper_body, Hvalid in Hp.
    destruct Hk14 as [L14 _], Hk5 as [L5 _]. lia. }
  (* the services *)
  destruct (emit_services (declOf s) h5 serviceBlocks (fun _ _ => eq_refl))
    as (h6 & emitted & Esvc & Hk6 & Hn6 & Hok6).
  rewrite Esvc in H. cbv beta iota in H.
  assert (Hst6 : orderedOk h5 body (serviceBlocks, emitted)).
  { split; [exact Hok6|]. split; cbn [fst].
    - apply (NoDup_map_sub h5 body); [exact Hnd5| |].
      + rewrite Hsvc. apply NoDup_List_filter, (NoDup_fmap_1 (nameOf h4)), Hnd4.
      + intros p Hp. apply Hservice, Hp.
    - intros p Hp. apply Hservice, Hp. }
  (* the request and response messages *)
  destruct (emit_messages h5 helperMap body helperBlocks (fun hp => Consumer (deref h5 hp))
              depth Hnd5 Hhelper_body Hmap Hfuel (declOf s) rpcMessages h6
              (serviceBlocks, emitted) (fun _ _ => eq_refl) Hn6 Hmsg_body Hst6)
    as (h7 & st7 & Emsg & Hk7 & Hn7 & Hst7 & Hmono7 & Hall7).
  bind_result H Emsg. cbv beta iota in H.
  (* the core blocks and the unreferenced blocks *)
  destruct (emit_roots h5 helperMap body helperBlocks (fun hp => Consumer (deref h5 hp))
              depth Hnd5 Hhelper_body Hmap Hfuel core' st7)
    as (st8 & Ecore8 & Hst8 & Hmono8 & Hall8); [|exact Hst7|].
  { intros p Hp. rewrite <- Hcore' in Hp. apply Hcore_body, Hp. }
  rewrite <- (emit_fold_ext h5 h7 helperMap depth core' (Done st7) Hn7) in Ecore8.
  bind_result H Ecore8.
  destruct (emit_roots h5 helperMap body helperBlocks (fun hp => Consumer (deref h5 hp))
              depth Hnd5 Hhelper_body Hmap Hfuel unref' st8)
    as (st9 & Eunref9 & Hst9 & Hmono9 & Hall9); [|exact Hst8|].
  { intros p Hp. rewrite <- Hunref' in Hp. apply Hunref_body, Hp. }
  rewrite <- (emit_fold_ext h5 h7 helperMap depth unref' (Done st8) Hn7) in Eunref9.
  bind_result H Eunref9.
  (* the helpers that are left *)
  destruct (emitOnce_ordered h5 body helperBlocks st9 Hnd5 Hst9 Hhelper_body)
    as (Hst10 & Hmono10 & Hall10).
  name_let H st10 Est10. name_let H ordered Eordered. name_let H h8 Eh8.
  rewrite (emitOnce_ext h5 h7 Hn7) in Est10.
  rewrite <- Est10 in Hst10, Hmono10, Hall10.
  subst r. exists h8, l, options, imports, ordered, warnings.
  split; [reflexivity|]. split; [|split; [exact Hbody|]].
  - subst ordered. apply (ordered_perm h5); [exact Hnd5|exact Hst10|].
    intros p Hp.
    destruct (decide (kindOf h4 p = BlockService)) as [Hk|Hk].
    { apply Hmono10, Hmono9, Hmono8, Hmono7, Hok6. cbn [fst snd].
      apply elem_of_map_nameOf. exists p. split; [|reflexivity].
      rewrite Hsvc. apply elem_of_List_filter. split; [exact Hp|].
      apply bool_decide_eq_true, Hk. }
    destruct (decide (nameOf h4 p ∈ map (nameOf h4) rpcMessages)) as [Hm|Hm].
    { apply elem_of_map_nameOf in Hm as (q & Hq & Hn).
      rewrite <- (name_inj h4 body q p Hnd4 (Hmsgs q Hq) Hp Hn).
      apply Hmono10, Hmono9, Hmono8, Hall7, Hq. }
    assert (Hr : p ∈ coreBlocks ++ helperBlocks ++ unrefBlocks).
    { rewrite <- Hparts. apply Hrest. auto. }
    rewrite !elem_of_app in Hr. destruct Hr as [Hr|[Hr|Hr]].
    + apply Hmono10, Hmono9, Hall8. rewrite <- Hcore'. exact Hr.
    + apply Hall10, Hr.
    + apply Hmono10, Hall9. rewrite <- Hunref'. exact Hr.
  - intros p Hp. rewrite <- (Hdecl4 p Hp).
    assert (Hk8 : keeps (declOf s) h7 h8).
    { subst h8. destruct (Annotate opts); [|apply keeps_refl].
      apply forEach_keeps. intros b. unfold annotateBlock.
      repeat match goal with
             | |- context [if ?c then _ else _] => destruct c
             | |- context [match ?c with _ => _ end] => destruct c
             end; reflexivity. }
    rewrite (proj2 Hk8), (proj2 Hk7), (proj2 Hk6), (proj2 Hk5). reflexivity.
Qed.

Lemma map_deref_seq (h : heap) : map (deref h) (seq 0 (length h)) = h.
Proof.
  induction h as [|b h IH] using rev_ind; [reflexivity|].
  rewrite length_app, Nat.add_comm. cbn [length Nat.add]. rewrite seq_S, map_app.
  cbn [map Nat.add]. rewrite deref_new. f_equal.
  transitivity (map (deref h) (seq 0 (length h))); [|exact IH].
  apply map_ext_in. intros p Hp. apply deref_app.
  apply in_seq in Hp. lia.
Qed.

Lemma map_deref_filter (h : heap) (P : Block → bool) (l : list ptr) :
  map (deref h) (List.filter (fun p => P (deref h p)) l) = List.filter P (map (deref h) l).
Proof.
  induction l as [|p l IH]; [reflexivity|]. cbn [List.filter map].
  destruct (P (deref h p)); cbn [map]; rewrite IH; reflexivity.
Qed.

Lemma body_blocks (h : heap) :
  map (deref h) (bodyKinds h (seq 0 (length h))) = List.filter isBody h.
Proof.
  unfold bodyKinds. rewrite <- (map_deref_seq h) at 3.
  apply (map_deref_filter h isBody).
Qed.

(** X24.  On a proto3 file that scans to blocks whose messages, enums and
    services have distinct names, Sort returns the text Emit makes of a
    header and a body, and that body is a permutation of the messages, enums
    and services of the file, each with its kind, its name and its
    declaration text (the text of a service apart when its RPCs are sorted):
    no declaration is lost, duplicated or altered. *)
Theorem X24_sort_keeps_every_declaration (content : string) (opts : Options) (blocks : list Block) :
  isProto2 content = false →
  ScanFile content = Done (inl blocks) →
  blocks ≠ [] →
  NoDup (map Name (List.filter isBody blocks)) →
  ∃ header syntax package options imports extends body warnings,
    Legacy.Sort content opts
    = Done (Emit header syntax package options imports extends body, warnings, None)
    ∧ map (declOf (SortRPCs opts)) body
      ≡ₚ map (declOf (SortRPCs opts)) (List.filter isBody blocks).
Proof.
  intros Hproto Hscan Hne Hnd.
  destruct (Legacy_arrange_body blocks opts)
    as (h & l & options & imports & ordered & warnings & Harr & Hperm & _ & Hdecl).
  { rewrite <- body_blocks, map_map in Hnd. exact Hnd. }
  unfold Legacy.Sort. rewrite Hproto, Hscan. cbn [mbind outcome_bind obind].
  destruct (length blocks =? 0) eqn:El.
  { apply Nat.eqb_eq in El. destruct blocks; [congruence|discriminate]. }
  rewrite Harr. cbn [mbind outcome_bind obind]. unfold emitLayout.
  do 8 eexists. split; [reflexivity|].
  rewrite <- body_blocks, !map_map.
  rewrite (map_ext_in (fun p => declOf (SortRPCs opts) (deref h p))
             (fun p => declOf (SortRPCs opts) (deref blocks p))).
  - apply Permutation_map, Hperm.
  - intros p Hp. apply Hdecl. rewrite <- Hperm. apply list_elem_of_In, Hp.
Qed.

(** Sort of [sharedHelper]: the service S and the messages Z, Req, Res and T. *)
Lemma X24_sort_keeps_every_declaration_witness :
  ∃ header syntax package options imports extends body warnings,
    Legacy.Sort sharedHelper defaultOpts
    = Done (Emit header syntax package options imports extends body, warnings, None)
    ∧ map (declOf (SortRPCs defaultOpts)) body
      ≡ₚ map (declOf (SortRPCs defaultOpts)) (List.filter isBody sharedHelperBlocks).
Proof.
  apply X24_sort_keeps_every_declaration.
  - vm_compute. reflexivity.
  - vm_compute. reflexivity.
  - discriminate.
  - apply (bool_decide_unpack _). vm_compute. exact I.
Defined.
